(** * A shallow embedding of the XML 1.0 recursive-descent parser (parser.go)

    The parser is a Go struct holding a scanner (an immutable slice of
    runes and a cursor) and the label of the production being parsed.  Every
    production is a method that moves the cursor and returns a tree node or
    an error; the cursor keeps whatever position it had when the error was
    raised.  The embedding is a state-and-error monad over that struct.  Loops
    and recursion are bounded by a fuel argument: running out of fuel ([None])
    stands for a run that does not return. *)

From Stdlib Require Import String Ascii List ZArith Bool Lia.
Import ListNotations.

Set Implicit Arguments.

(** ** Runes and Go strings *)

(** A rune is an int32 code point.  No arithmetic is done on runes, only
    comparisons, so no wrap-around arises. *)
Definition rune := Z.

(** A Go string is modelled by the sequence of code points it decodes to. *)
Definition gostring := list rune.

Definition ch (a : ascii) : rune := Z.of_N (N_of_ascii a).
Arguments ch a%_char.

(** The code points of an ASCII literal of the source text. *)
Definition runes (s : string) : gostring := map ch (list_ascii_of_string s).

(** [string(r)]: Go converts a rune that is no valid code point (negative,
    a surrogate, above U+10FFFF) to U+FFFD. *)
Definition validRune (r : rune) : bool :=
  ((0 <=? r) && (r <? 55296) || (57343 <? r) && (r <=? 1114111))%Z.

Definition string_of_rune (r : rune) : gostring :=
  [if validRune r then r else 65533%Z].

(** [len(str)] counts the bytes of the UTF-8 encoding. *)
Definition utf8_len (r : rune) : nat :=
  if (r <? 128)%Z then 1 else if (r <? 2048)%Z then 2
  else if (r <? 65536)%Z then 3 else 4.

Definition len (s : gostring) : nat := list_sum (map utf8_len s).

Fixpoint runes_eqb (a b : gostring) : bool :=
  match a, b with
  | [], [] => true
  | x :: a', y :: b' => (x =? y)%Z && runes_eqb a' b'
  | _, _ => false
  end.

(** [strings.ContainsAny(s, chars)] *)
Definition ContainsAny (s chars : gostring) : bool :=
  existsb (fun r => existsb (Z.eqb r) chars) s.

(** ** External collaborators *)

(** Modelled from the spec: the character classifier and the end-of-input
    sentinel of the scanner are not part of parser.go.  They are taken as
    parameters: the sentinel [EOF] that the scanner yields at the end of the
    input, the predicates the spec lists, and [isNum] and [isAlpha], the two
    further predicates parser.go calls. *)
Class Externals := {
  EOF : rune;
  isLetter : rune -> bool;
  isDigit : rune -> bool;
  isCombining : rune -> bool;
  isExtender : rune -> bool;
  isNameChar : rune -> bool;
  isSpace : rune -> bool;
  isChar : rune -> bool;
  isPubidChar : rune -> bool;
  isQuote : rune -> bool;
  isNum : rune -> bool;
  isAlpha : rune -> bool
}.

(** ** Errors *)

(** Modelled from the spec: the error type is declared outside parser.go.
    A diagnostic bundles the label in effect, the cause and the scanner
    position ([newErr(p.parsing, err, p.pos())]); the position is taken to
    be the cursor.  The causes are the messages parser.go builds, with the
    values it formats into them. *)
Inductive cause : Type :=
| ExpectedRune (r : rune)                      (* "expected %q" *)
| ExpectedStr (s : gostring)                   (* "expected %q" *)
| UnexpectedVersionChar (r : rune)
| NoQuote (r : rune)                           (* "could not find quote %c" *)
| EndTagMismatch (endName name : gostring)
| Msg (m : string).                            (* errors.New(m) *)

Record XMLError := newErr {
  errParsing : gostring;
  errCause : cause;
  errPos : nat
}.

(** ** The syntax tree *)

(** Modelled from the spec: the node types are declared outside parser.go.
    Those that follow have the fields parser.go assigns and the variants it
    returns, as the data model of the spec lists them; a nil slice and an
    empty one are both the empty list, a nil pointer is [None]. *)
Record EntityRef := { EntityRef_Name : gostring }.
Record PERef := { PERef_Name : gostring }.
Record CharRef := { CharRef_Prefix : gostring; CharRef_Value : gostring }.

Inductive Ref : Type :=
| RefEntity (e : EntityRef)
| RefChar (c : CharRef).

Inductive EntityValueSeg : Type :=
| EVText (s : gostring)
| EVEntityRef (e : EntityRef)
| EVCharRef (c : CharRef)
| EVPERef (r : PERef).
Definition EntityValue := list EntityValueSeg.

Inductive AttValueSeg : Type :=
| AVText (s : gostring)
| AVRef (r : Ref).
Definition AttValue := list AttValueSeg.

Definition Comment := gostring.
Definition CData := gostring.

Record PI := { PI_Target : gostring; PI_Instruction : gostring }.

Inductive Misc : Type :=
| MiscComment (c : Comment)
| MiscPI (pi : PI).

Record XMLDecl := {
  Version : gostring;
  Encoding : gostring;
  Standalone : bool
}.

Record Attribute := { Attr_Name : gostring; Attr_AttValue : AttValue }.

Inductive Element : Type :=
| mkElement (Name : gostring) (Attrs : list Attribute)
            (Contents : list Content) (IsEmptyTag : bool)
with Content : Type :=
| CText (s : gostring)
| CElement (e : Element)
| CRef (r : Ref)
| CCData (c : CData)
| CPI (pi : PI)
| CComment (c : Comment).

Definition Element_Name (e : Element) := let 'mkElement n _ _ _ := e in n.
Definition Element_Attrs (e : Element) := let 'mkElement _ a _ _ := e in a.
Definition Element_Contents (e : Element) := let 'mkElement _ _ c _ := e in c.
Definition Element_IsEmptyTag (e : Element) := let 'mkElement _ _ _ b := e in b.

Inductive CP : Type :=
| mkCP (Name : gostring) (ChoiceSeq : option ChoiceSeq) (Suffix : option rune)
with ChoiceSeq : Type :=
| Choice (CPs : list CP)
| Seq (CPs : list CP).

Record Children := { Children_ChoiceSeq : ChoiceSeq; Children_Suffix : option rune }.
Record Mixed := { Mixed_Names : list gostring }.

Inductive ContentSpec : Type :=
| CSEmpty
| CSAny
| CSMixed (m : Mixed)
| CSChildren (c : Children).

Record ElementDecl := { ElementDecl_Name : gostring; ElementDecl_ContentSpec : ContentSpec }.

Inductive AttToken : Type :=
| AttTokenCDATA | AttTokenID | AttTokenIDREF | AttTokenIDREFS
| AttTokenENTITY | AttTokenENTITIES | AttTokenNMTOKEN | AttTokenNMTOKENS.

(** Modelled from the spec: the keyword table behind [AttToken.ToString] is
    not part of parser.go; these are the attribute-type keywords the spec
    lists. *)
Definition AttToken_ToString (t : AttToken) : gostring :=
  match t with
  | AttTokenCDATA => runes "CDATA"
  | AttTokenID => runes "ID"
  | AttTokenIDREF => runes "IDREF"
  | AttTokenIDREFS => runes "IDREFS"
  | AttTokenENTITY => runes "ENTITY"
  | AttTokenENTITIES => runes "ENTITIES"
  | AttTokenNMTOKEN => runes "NMTOKEN"
  | AttTokenNMTOKENS => runes "NMTOKENS"
  end.

Record NotationType := { NotationType_Names : list gostring }.
Record Enum := { Enum_Cases : list gostring }.

Inductive AttType : Type :=
| ATToken (t : AttToken)
| ATNotation (n : NotationType)
| ATEnum (e : Enum).

Inductive DefaultDeclType : Type :=
| DefaultDeclTypeRequired | DefaultDeclTypeImplied | DefaultDeclTypeFixed.

(** Modelled from the spec: the table behind [DefaultDeclType.ToString],
    the three default keywords the spec lists. *)
Definition DefaultDeclType_ToString (t : DefaultDeclType) : gostring :=
  match t with
  | DefaultDeclTypeRequired => runes "#REQUIRED"
  | DefaultDeclTypeImplied => runes "#IMPLIED"
  | DefaultDeclTypeFixed => runes "#FIXED"
  end.

Record DefaultDecl := { DefaultDecl_Type : DefaultDeclType; DefaultDecl_AttValue : AttValue }.
Record AttDef := { AttDef_Name : gostring; AttDef_Type : AttType; AttDef_Decl : DefaultDecl }.
Record Attlist := { Attlist_Name : gostring; Attlist_Defs : list AttDef }.

Inductive ExternalType : Type := ExternalTypeSystem | ExternalTypePublic.
Record ExternalID := {
  ExternalID_Type : ExternalType;
  ExternalID_Pubid : gostring;
  ExternalID_System : gostring
}.

Inductive EntityType : Type := EntityTypeGE | EntityTypePE.
Record Entity := {
  Entity_Type : EntityType;
  Entity_Name : gostring;
  Entity_Value : EntityValue;
  Entity_ExtID : option ExternalID;
  Entity_NData : gostring
}.

Record Notation_ := { Notation_Name : gostring; Notation_ExtID : ExternalID }.

Inductive Markup : Type :=
| MarkupElementDecl (e : ElementDecl)
| MarkupAttlist (a : Attlist)
| MarkupEntity (e : Entity)
| MarkupNotation (n : Notation_)
| MarkupPI (pi : PI)
| MarkupComment (c : Comment).

Record DOCType := {
  DOCType_Name : gostring;
  DOCType_ExtID : option ExternalID;
  DOCType_Markups : list Markup;
  DOCType_PERef : option PERef
}.

Record Prolog := {
  Prolog_XMLDecl : option XMLDecl;
  Prolog_Misc1 : list Misc;
  Prolog_DOCType : option DOCType;
  Prolog_Misc2 : list Misc
}.

Record XML := { XML_Prolog : Prolog; XML_Element : Element; XML_Misc : list Misc }.

(** ** The parser state and its monad *)

(** The parser struct with the scanner it embeds: the source, the cursor (an
    index into the source, never negative) and the label of the production
    being parsed. *)
Record parser := {
  source : list rune;
  cursor : nat;
  parsing : gostring
}.

Definition NewParser (src : gostring) : parser :=
  {| source := src; cursor := 0; parsing := [] |}.

Inductive res (A : Type) : Type :=
| Ok (a : A)
| Err (e : XMLError).
Arguments Err {A} e.

(** [None]: the run did not return within the fuel. *)
Definition M (A : Type) : Type := parser -> option (res A * parser).

Definition ret {A} (a : A) : M A := fun p => Some (Ok a, p).

Definition bind {A B} (m : M A) (f : A -> M B) : M B := fun p =>
  match m p with
  | None => None
  | Some (Err e, p') => Some (Err e, p')
  | Some (Ok a, p') => f a p'
  end.

Declare Scope parser_scope.
Delimit Scope parser_scope with parser.
Notation "x <- m ;; k" := (bind m (fun x => k))
  (at level 61, m at next level, right associativity) : parser_scope.
Notation "m ;; k" := (bind m (fun _ => k))
  (at level 61, right associativity) : parser_scope.
Open Scope parser_scope.

(** Runs [m] and hands its outcome to the caller as a value: the Go idiom
    [v, err = p.parseX(); if err != nil { ... }] where the caller goes on. *)
Definition try {A} (m : M A) : M (res A) := fun p =>
  match m p with
  | None => None
  | Some (r, p') => Some (Ok r, p')
  end.

(** [return nil, err] with an error value already built. *)
Definition raise {A} (e : XMLError) : M A := fun p => Some (Err e, p).

(** [p.error(err)]: the error carries the current label and position. *)
Definition error {A} (c : cause) : M A := fun p =>
  Some (Err (newErr (parsing p) c (cursor p)), p).

Definition getCursor : M nat := fun p => ret (cursor p) p.

Definition setCursor (c : nat) : M unit := fun p =>
  ret tt {| source := source p; cursor := c; parsing := parsing p |}.

(** [defer p.setParsing(new)()]: the label is [new] while the body runs and
    is put back when the function returns, with or without an error. *)
Definition withParsing {A} (new : gostring) (body : M A) : M A := fun p =>
  let old := parsing p in
  match body {| source := source p; cursor := cursor p; parsing := new |} with
  | None => None
  | Some (r, p') =>
      Some (r, {| source := source p'; cursor := cursor p'; parsing := old |})
  end.

(** Reads the state without changing it: conditions such as
    [p.Test('>') || p.isEnd()] and reads such as [r := p.Get()]. *)
Definition look {A} (f : parser -> A) : M A := fun p => ret (f p) p.

Definition branch {A} (c : parser -> bool) (a b : M A) : M A := fun p =>
  if c p then a p else b p.

Notation "'If' c 'Then' a 'Else' b" := (branch c a b)
  (at level 10, c at level 200, a at level 200, b at level 200) : parser_scope.

Section Parser.

Context {ext : Externals}.

(** Bound on the iterations of every loop and on the nesting depth of the
    recursive productions. *)
Variable fuel : nat.

(** ** Scanner *)

(** Modelled from the spec: the scanner is declared outside parser.go.
    [isEnd] tells whether the cursor is past the last code point. *)
Definition isEnd (p : parser) : bool := length (source p) <=? cursor p.

(** Modelled from the spec: the scanner is declared outside parser.go.
    [Get] yields the current code point, or the end-of-input sentinel. *)
Definition Get (p : parser) : rune :=
  if isEnd p then EOF else nth (cursor p) (source p) EOF.

(** Modelled from the spec: the scanner is declared outside parser.go.
    [StepN] moves the cursor by [n], unconditionally. *)
Definition StepN (n : nat) : M unit := fun p =>
  ret tt {| source := source p; cursor := cursor p + n; parsing := parsing p |}.

(** Modelled from the spec: the scanner is declared outside parser.go.
    [Step] moves the cursor by one, unconditionally. *)
Definition Step : M unit := StepN 1.

(** ** Matching helpers of the parser *)

Definition Test (r : rune) (p : parser) : bool := (Get p =? r)%Z.

Definition Must (r : rune) : M unit :=
  If (fun p => negb (Test r p)) Then error (ExpectedRune r)
  Else Step.

Definition Tests (str : gostring) (p : parser) : bool :=
  let i := cursor p in
  let e := i + length str in
  if length (source p) <? e then false
  else runes_eqb (firstn (e - i) (skipn i (source p))) str.

Definition Musts (str : gostring) : M unit :=
  If (fun p => negb (Tests str p)) Then error (ExpectedStr str)
  Else StepN (len str).

(** ** White space *)

Fixpoint skipSpace_loop (n : nat) : M unit :=
  match n with
  | 0 => fun _ => None
  | S n' => If (fun p => isSpace (Get p)) Then (Step ;; skipSpace_loop n')
            Else ret tt
  end.

(* Skip spaces until reaches not space *)
Definition skipSpace : M unit := skipSpace_loop fuel.

(* S ::= (#x20 | #x9 | #xD | #xA)+ *)
Definition parseSpace : M unit :=
  If (fun p => negb (isSpace (Get p))) Then error (Msg "expected space")
  Else skipSpace.

(** ** Others *)

(** The message of the source names the two quote characters; it is
    paraphrased here. *)
Definition parseQuote : M rune :=
  r <- look Get ;;
  if isQuote r then Step ;; ret r
  else error (Msg "expected ' or double quote").

(** ** Names and tokens *)

(* NameChar ::= Letter | Digit | '.' | '-' | '_' | ':' | CombiningChar | Extender *)
(** The method [p.isNameChar()]; the function [isNameChar(r)] that
    parseNmtoken calls is the classifier's. *)
Definition p_isNameChar (p : parser) : bool :=
  isLetter (Get p) || isDigit (Get p) || Test (ch ".") p || Test (ch "-") p
  || Test (ch "_") p || Test (ch ":") p || isCombining (Get p)
  || isExtender (Get p).

Fixpoint parseName_loop (k : nat) (n : gostring) : M gostring :=
  match k with
  | 0 => fun _ => None
  | S k' => If p_isNameChar
            Then (r <- look Get ;; Step ;; parseName_loop k' (n ++ string_of_rune r))
            Else ret n
  end.

(* Name ::= (Letter | '_' | ':') (NameChar)* *)
Definition parseName : M gostring :=
  If (fun p => isLetter (Get p) || Test (ch "_") p || Test (ch ":") p)
  Then (r <- look Get ;; Step ;; parseName_loop fuel (string_of_rune r))
  Else error (Msg "invalid letter for name").

(** The loop [for ok(r) { str += string(r); p.Step(); r = p.Get() }]. *)
Fixpoint scanWhile (ok : rune -> bool) (k : nat) (str : gostring) (r : rune)
  : M gostring :=
  match k with
  | 0 => fun _ => None
  | S k' => if ok r
            then Step ;; r' <- look Get ;;
                 scanWhile ok k' (str ++ string_of_rune r) r'
            else ret str
  end.

(* Nmtoken ::= (NameChar)+ *)
Definition parseNmtoken : M gostring :=
  r <- look Get ;;
  str <- scanWhile isNameChar fuel [] r ;;
  if len str =? 0 then error (Msg "empty Nmtoken") else ret str.

(** ** Prolog pieces *)

(* Eq ::= S? '=' S? *)
Definition parseEq : M unit :=
  skipSpace ;; Must (ch "=") ;; skipSpace.

Definition isVerChar (p : parser) : rune * bool :=
  let r := Get p in
  if isNum r || isAlpha r || Test (ch "_") p || Test (ch ".") p
     || Test (ch ":") p || Test (ch "-") p
  then (r, true) else (r, false).

Fixpoint parseVersionNum_loop (k : nat) (str : gostring) : M gostring :=
  match k with
  | 0 => fun _ => None
  | S k' => x <- look isVerChar ;;
            if snd x then Step ;; parseVersionNum_loop k' (str ++ string_of_rune (fst x))
            else ret str
  end.

(* VersionNum ::= ([a-zA-Z0-9_.:] | '-')+ *)
Definition parseVersionNum : M gostring :=
  x <- look isVerChar ;;
  if negb (snd x) then error (UnexpectedVersionChar (fst x))
  else Step ;; parseVersionNum_loop fuel (string_of_rune (fst x)).

(* VersionInfo ::= S 'version' Eq (#x27 VersionNum #x27 | #x22 VersionNum #x22) *)
Definition parseVersion : M gostring :=
  parseSpace ;;
  Musts (runes "version") ;;
  parseEq ;;
  quote <- parseQuote ;;
  ver <- parseVersionNum ;;
  Must quote ;;
  ret ver.

Fixpoint parseEncName_loop (k : nat) (str : gostring) : M gostring :=
  match k with
  | 0 => fun _ => None
  | S k' =>
      If (fun p => isAlpha (Get p) || isNum (Get p) || Test (ch ".") p
                   || Test (ch "_") p || Test (ch "-") p)
      Then (r <- look Get ;; Step ;; parseEncName_loop k' (str ++ string_of_rune r))
      Else ret str
  end.

(* EncName ::= [A-Za-z] ([A-Za-z0-9._] | '-')* *)
Definition parseEncName : M gostring :=
  r <- look Get ;;
  if negb (isAlpha r) then error (Msg "Encoding name contains non alphabet")
  else Step ;; parseEncName_loop fuel (string_of_rune r).

(* EncodingDecl ::= S 'encoding' Eq (#x22 EncName #x22 | #x27 EncName #x27 ) *)
Definition parseEncoding : M gostring :=
  parseSpace ;;
  Musts (runes "encoding") ;;
  parseEq ;;
  quote <- parseQuote ;;
  enc <- parseEncName ;;
  Must quote ;;
  ret enc.

(* SDDecl ::= S 'standalone' Eq ((#x27 ('yes' | 'no') #x27) | (#x22 ('yes' | 'no') #x22)) *)
Definition parseStandalone : M bool :=
  parseSpace ;;
  Musts (runes "standalone") ;;
  parseEq ;;
  quote <- parseQuote ;;
  std <- (If Tests (runes "yes") Then (StepN 3 ;; ret true)
          Else If Tests (runes "no") Then (StepN 2 ;; ret false)
          Else error (Msg "expected 'yes' or 'no'")) ;;
  Must quote ;;
  ret std.

(* XMLDecl ::= '<?xml' VersionInfo EncodingDecl? SDDecl? S? '?>' *)
Definition parseXmlDecl : M XMLDecl :=
  withParsing (runes "XML Declaration") (
    Musts (runes "<?xml") ;;
    ver <- parseVersion ;;
    (* keep cursor at this time *)
    cur <- getCursor ;;
    skipSpace ;;
    enc <- (If Tests (runes "encoding")
            Then ((* reset cursor before skipping spaces *)
                  setCursor cur ;; parseEncoding)
            Else (setCursor cur ;; ret [])) ;;
    cur <- getCursor ;;
    skipSpace ;;
    std <- (If Tests (runes "standalone")
            Then (setCursor cur ;; parseStandalone)
            Else (setCursor cur ;; ret false)) ;;
    skipSpace ;;
    Musts (runes "?>") ;;
    ret {| Version := ver; Encoding := enc; Standalone := std |}).

(** ** References *)

(* CharRef ::= '&#' [0-9]+ ';' | '&#x' [0-9a-fA-F]+ ';' *)
Definition parseCharRef : M CharRef :=
  ref <- (If Tests (runes "&#x") Then (
            StepN (len (runes "&#x")) ;;
            r <- look Get ;;
            if negb (isNum r) && negb (isAlpha r)
            then error (Msg "expected number or alphabet character")
            else value <- scanWhile (fun r => isNum r || isAlpha r) fuel [] r ;;
                 ret {| CharRef_Prefix := runes "&#x"; CharRef_Value := value |})
          Else If Tests (runes "&#") Then (
            StepN (len (runes "&#")) ;;
            r <- look Get ;;
            if negb (isNum r)
            then error (Msg "expected number")
            else value <- scanWhile isNum fuel [] r ;;
                 ret {| CharRef_Prefix := runes "&#"; CharRef_Value := value |})
          Else error (Msg "expected '&#x' or '&#'")) ;;
  Must (ch ";") ;;
  ret ref.

(* EntityRef ::= '&' Name ';' *)
Definition parseEntityRef : M EntityRef :=
  Must (ch "&") ;;
  name <- parseName ;;
  Must (ch ";") ;;
  ret {| EntityRef_Name := name |}.

(* Reference ::= EntityRef | CharRef *)
Definition parseReference : M Ref :=
  cur <- getCursor ;;
  (* try EntityRef *)
  r <- try parseEntityRef ;;
  match r with
  | Err _ =>
      (* reset *)
      setCursor cur ;;
      (* try CharRef *)
      cRef <- parseCharRef ;;
      ret (RefChar cRef)
  | Ok eRef => ret (RefEntity eRef)
  end.

(* PEReference ::= '%' Name ';' *)
Definition parsePERef : M PERef :=
  Must (ch "%") ;;
  name <- parseName ;;
  Must (ch ";") ;;
  ret {| PERef_Name := name |}.

(** ** Literals *)

(** [if len(str) > 0 { res = append(res, str); str = "" }] *)
Definition flushText {A} (mk : gostring -> A) (res : list A) (str : gostring)
  : list A :=
  if 0 <? len str then res ++ [mk str] else res.

Fixpoint parseEntityValue_loop (k : nat) (quote : rune) (res : EntityValue)
  (str : gostring) : M (EntityValue * gostring) :=
  match k with
  | 0 => fun _ => None
  | S k' =>
      If (fun p => Test quote p || isEnd p) Then ret (res, str)
      Else (
        cur <- getCursor ;;
        If Test (ch "&") Then (
          let res := flushText EVText res str in
          (* try EntityRef *)
          r <- try parseEntityRef ;;
          match r with
          | Err _ =>
              setCursor cur ;;
              (* try CharRef *)
              r2 <- try parseCharRef ;;
              match r2 with
              | Err _ => error (Msg "error AttValue")
              | Ok cRef =>
                  parseEntityValue_loop k' quote (res ++ [EVCharRef cRef]) []
              end
          | Ok eRef =>
              parseEntityValue_loop k' quote (res ++ [EVEntityRef eRef]) []
          end)
        Else If Test (ch "%") Then (
          let res := flushText EVText res str in
          pRef <- parsePERef ;;
          parseEntityValue_loop k' quote (res ++ [EVPERef pRef]) [])
        Else (
          r <- look Get ;; Step ;;
          parseEntityValue_loop k' quote res (str ++ string_of_rune r)))
  end.

(* EntityValue ::= #x22 ([^%&#x22] | PEReference | Reference)* #x22
                 | #x27 ([^%&#x27] | PEReference | Reference)* #x27 *)
Definition parseEntityValue : M EntityValue :=
  quote <- parseQuote ;;
  x <- parseEntityValue_loop fuel quote [] [] ;;
  let res := flushText EVText (fst x) (snd x) in
  Must quote ;;
  ret res.

Fixpoint parseAttValue_loop (k : nat) (quote : rune) (res : AttValue)
  (str : gostring) : M (AttValue * gostring) :=
  match k with
  | 0 => fun _ => None
  | S k' =>
      If Test (ch "<") Then error (Msg "unexpected '<'")
      Else If (fun p => Test quote p || isEnd p) Then ret (res, str)
      Else If Test (ch "&") Then (
        let res := flushText AVText res str in
        ref <- parseReference ;;
        parseAttValue_loop k' quote (res ++ [AVRef ref]) [])
      Else (
        r <- look Get ;; Step ;;
        parseAttValue_loop k' quote res (str ++ string_of_rune r))
  end.

(* AttValue ::= #x22 ([^<&#x22] | Reference)* #x22 | #x27 ([^<&#x27] | Reference)* #x27 *)
Definition parseAttValue : M AttValue :=
  quote <- parseQuote ;;
  x <- parseAttValue_loop fuel quote [] [] ;;
  let res := flushText AVText (fst x) (snd x) in
  Must quote ;;
  ret res.

Fixpoint parseSystemLiteral_loop (k : nat) (quote : rune) (lit : gostring)
  : M gostring :=
  match k with
  | 0 => fun _ => None
  | S k' =>
      If (fun p => negb (Test quote p)) Then (
        r <- look Get ;; Step ;;
        If isEnd Then error (NoQuote quote)
        Else parseSystemLiteral_loop k' quote (lit ++ string_of_rune r))
      Else ret lit
  end.

(* SystemLiteral ::= (#x22 [^#x22]* #x22) | (#x27 [^#x27]* #x27) *)
Definition parseSystemLiteral : M gostring :=
  quote <- parseQuote ;;
  lit <- parseSystemLiteral_loop fuel quote [] ;;
  Step ;;
  ret lit.

Fixpoint parsePubidLiteral_loop (k : nat) (quote : rune) (lit : gostring)
  (r : rune) : M gostring :=
  match k with
  | 0 => fun _ => None
  | S k' =>
      if isPubidChar r
      then if ((r =? ch "'") && (quote =? ch "'"))%Z then ret lit
           else Step ;; r' <- look Get ;;
                parsePubidLiteral_loop k' quote (lit ++ string_of_rune r) r'
      else ret lit
  end.

(* PubidLiteral ::= #x22 PubidChar* #x22 | #x27 (PubidChar - #x27)* #x27 *)
Definition parsePubidLiteral : M gostring :=
  quote <- parseQuote ;;
  r <- look Get ;;
  lit <- parsePubidLiteral_loop fuel quote [] r ;;
  Must quote ;;
  ret lit.

(** ** Comments, processing instructions, CDATA sections *)

Fixpoint parseComment_loop (k : nat) (str : Comment) : M Comment :=
  match k with
  | 0 => fun _ => None
  | S k' =>
      If (fun p => negb (Tests (runes "--") p)) Then (
        r <- look Get ;;
        if isChar r then Step ;; parseComment_loop k' (str ++ string_of_rune r)
        else error (Msg "unexpected character"))
      Else ret str
  end.

(* Comment ::= '<!--' ((Char - '-') | ('-' (Char - '-')))* '-->' *)
Definition parseComment : M Comment :=
  withParsing (runes "Comment") (
    Musts (runes "<!--") ;;
    str <- parseComment_loop fuel [] ;;
    Musts (runes "-->") ;;
    ret str).

(* PITarget ::= Name - (('X' | 'x') ('M' | 'm') ('L' | 'l')) *)
Definition parsePITarget : M gostring :=
  n <- parseName ;;
  if ContainsAny n (runes "xmlXML")
  then error (Msg "PI target can not contain 'xml'")
  else ret n.

Fixpoint parsePI_loop (k : nat) (instruction : gostring) : M gostring :=
  match k with
  | 0 => fun _ => None
  | S k' =>
      If (fun p => negb (Tests (runes "?>") p) && negb (isEnd p)
                   && isChar (Get p))
      Then (r <- look Get ;; Step ;;
            parsePI_loop k' (instruction ++ string_of_rune r))
      Else ret instruction
  end.

(* PI ::= '<?' PITarget (S (Char* - (Char* '?>' Char* )))? '?>' *)
Definition parsePI : M PI :=
  withParsing (runes "NOTATION") (
    Musts (runes "<?") ;;
    target <- parsePITarget ;;
    instruction <- (If (fun p => isSpace (Get p))
                    Then (skipSpace ;; parsePI_loop fuel [])
                    Else ret []) ;;
    Musts (runes "?>") ;;
    ret {| PI_Target := target; PI_Instruction := instruction |}).

Fixpoint parseCDSect_loop (k : nat) (str : gostring) : M gostring :=
  match k with
  | 0 => fun _ => None
  | S k' =>
      If (fun p => negb (Tests (runes "]]>") p)) Then (
        If isEnd Then error (Msg "not found CDSect close tag")
        Else (r <- look Get ;; Step ;;
              parseCDSect_loop k' (str ++ string_of_rune r)))
      Else ret str
  end.

(* CDSect ::= CDStart CData CDEnd *)
Definition parseCDSect : M CData :=
  Musts (runes "<![CDATA[") ;;
  str <- parseCDSect_loop fuel [] ;;
  StepN (len (runes "]]>")) ;;
  ret str.

(* Misc ::= Comment | PI | S *)
Definition parseMisc : M (option Misc) :=
  If Tests (runes "<!--") Then (c <- parseComment ;; ret (Some (MiscComment c)))
  Else If Tests (runes "<?") Then (pi <- parsePI ;; ret (Some (MiscPI pi)))
  Else If (fun p => isSpace (Get p)) Then (skipSpace ;; ret None)
  Else error (Msg "unknown misc type").

(** ** Elements *)

(* Attribute ::= Name Eq AttValue *)
Definition parseAttribute : M Attribute :=
  name <- parseName ;;
  parseEq ;;
  value <- parseAttValue ;;
  ret {| Attr_Name := name; Attr_AttValue := value |}.

(* ETag ::= '</' Name S? '>' *)
Definition parseETag : M gostring :=
  Musts (runes "</") ;;
  n <- parseName ;;
  skipSpace ;;
  Must (ch ">") ;;
  ret n.

Definition isOnlySpaces (str : gostring) : bool := forallb isSpace str.

(** [if len(charData) > 0 { if !isOnlySpaces(charData) { res = append(res,
    charData) }; charData = "" }] *)
Definition flushCharData (res : list Content) (charData : gostring)
  : list Content :=
  if 0 <? len charData
  then if negb (isOnlySpaces charData) then res ++ [CText charData] else res
  else res.

(** The loop of [parseContents]; [parseElement] is the parser of the nested
    elements.  A [break] returns the list and the pending text. *)
Fixpoint parseContents_loop (parseElement : M Element) (k : nat)
  (res : list Content) (charData : gostring)
  : M (list Content * gostring) :=
  match k with
  | 0 => fun _ => None
  | S k' =>
      cur <- getCursor ;;
      If Test (ch "&") Then (
        (* Ref or break *)
        r <- try parseReference ;;
        match r with
        | Err _ => setCursor cur ;; ret (res, charData)
        | Ok i =>
            parseContents_loop parseElement k'
              (flushCharData res charData ++ [CRef i]) []
        end)
      Else If Test (ch "<") Then (
        r <- (If Tests (runes "<!") Then (
                (* CDSect or Comment or break *)
                r1 <- try parseCDSect ;;
                match r1 with
                | Err _ =>
                    setCursor cur ;;
                    r2 <- try parseComment ;;
                    match r2 with
                    | Err e => ret (Err e)
                    | Ok c => ret (Ok (CComment c))
                    end
                | Ok c => ret (Ok (CCData c))
                end)
              Else If Tests (runes "<?") Then (
                (* PI or break *)
                r1 <- try parsePI ;;
                match r1 with
                | Err e => ret (Err e)
                | Ok pi => ret (Ok (CPI pi))
                end)
              Else (
                (* Element or break *)
                r1 <- try parseElement ;;
                match r1 with
                | Err e => ret (Err e)
                | Ok e => ret (Ok (CElement e))
                end)) ;;
        match r with
        | Err _ => setCursor cur ;; ret (res, charData)
        | Ok i =>
            parseContents_loop parseElement k'
              (flushCharData res charData ++ [i]) []
        end)
      Else (
        If (fun p => isEnd p || Tests (runes "]]>") p) Then ret (res, charData)
        Else (
          (* CharData *)
          r <- look Get ;; Step ;;
          parseContents_loop parseElement k' res (charData ++ string_of_rune r)))
  end.

(* content ::= (element | CharData | Reference | CDSect | PI | Comment)* *)
Definition parseContentsWith (parseElement : M Element) : M (list Content) :=
  x <- parseContents_loop parseElement fuel [] [] ;;
  ret (flushCharData (fst x) (snd x)).

Fixpoint parseElement_attrs (k : nat) (attrs : list Attribute)
  : M (list Attribute) :=
  match k with
  | 0 => fun _ => None
  | S k' =>
      If (fun p => isSpace (Get p)) Then (
        skipSpace ;;
        If (fun p => Test (ch ">") p || Tests (runes "/>") p || isEnd p)
        Then ret attrs
        Else (attr <- parseAttribute ;;
              parseElement_attrs k' (attrs ++ [attr])))
      Else ret attrs
  end.

(* element ::= EmptyElemTag | STag content ETag
   EmptyElemTag ::= '<' Name (S Attribute)* S? '/>'
   STag ::= '<' Name (S Attribute)* S? '>' *)
Fixpoint parseElement_rec (depth : nat) : M Element :=
  match depth with
  | 0 => fun _ => None
  | S depth' =>
      withParsing (runes "Element") (
        Must (ch "<") ;;
        name <- parseName ;;
        withParsing (name ++ runes " tag") (
          attrs <- parseElement_attrs fuel [] ;;
          If Test (ch ">") Then (
            Step ;;
            contents <- parseContentsWith (parseElement_rec depth') ;;
            endName <- parseETag ;;
            if negb (runes_eqb endName name)
            then error (EndTagMismatch endName name)
            else ret (mkElement name attrs contents false))
          Else If Tests (runes "/>") Then (
            StepN (len (runes "/>")) ;;
            ret (mkElement name attrs [] true))
          Else error (Msg "not found element close tag")))
  end.

Definition parseElement : M Element := parseElement_rec fuel.

Definition parseContents : M (list Content) := parseContentsWith parseElement.

(** ** Element type declarations *)

(** [if p.Test('?') || p.Test('*') || p.Test('+') { r := p.Get(); x.Suffix =
    &r; p.Step() }] *)
Definition parseSuffix : M (option rune) :=
  If (fun p => Test (ch "?") p || Test (ch "*") p || Test (ch "+") p)
  Then (r <- look Get ;; Step ;; ret (Some r))
  Else ret None.

(** The loop shared by [parseChoice] (separator '|') and [parseSeq]
    (separator ','). *)
Fixpoint parseCPs_loop (parseCP : M CP) (sep : rune) (k : nat)
  (cps : list CP) : M (list CP) :=
  match k with
  | 0 => fun _ => None
  | S k' =>
      skipSpace ;;
      If (fun p => negb (Test sep p)) Then ret cps
      Else (Step ;;
            cp <- parseCP ;;
            parseCPs_loop parseCP sep k' (cps ++ [cp]))
  end.

(* choice ::= '(' S? cp ( S? '|' S? cp )* S? ')' *)
Definition parseChoiceWith (parseCP : M CP) : M ChoiceSeq :=
  Must (ch "(") ;;
  skipSpace ;;
  cp <- parseCP ;;
  cps <- parseCPs_loop parseCP (ch "|") fuel [cp] ;;
  Must (ch ")") ;;
  ret (Choice cps).

(* seq ::= '(' S? cp ( S? ',' S? cp )* S? ')' *)
Definition parseSeqWith (parseCP : M CP) : M ChoiceSeq :=
  Must (ch "(") ;;
  skipSpace ;;
  cp <- parseCP ;;
  cps <- parseCPs_loop parseCP (ch ",") fuel [cp] ;;
  Must (ch ")") ;;
  ret (Seq cps).

(* cp ::= (Name | choice | seq) ('?' | '*' | '+')? *)
Fixpoint parseCP_rec (depth : nat) : M CP :=
  match depth with
  | 0 => fun _ => None
  | S depth' =>
      x <- (If Test (ch "(") Then (
              (* choice or seq *)
              cur <- getCursor ;;
              r <- try (parseChoiceWith (parseCP_rec depth')) ;;
              match r with
              | Err _ =>
                  setCursor cur ;;
                  seq <- parseSeqWith (parseCP_rec depth') ;;
                  ret ([], Some seq)
              | Ok choice => ret ([], Some choice)
              end)
            Else (n <- parseName ;; ret (n, None))) ;;
      suffix <- parseSuffix ;;
      ret (mkCP (fst x) (snd x) suffix)
  end.

Definition parseCP : M CP := parseCP_rec fuel.
Definition parseChoice : M ChoiceSeq := parseChoiceWith parseCP.
Definition parseSeq : M ChoiceSeq := parseSeqWith parseCP.

(* children ::= (choice | seq) ('?' | '*' | '+')? *)
Definition parseChildren : M Children :=
  cur <- getCursor ;;
  r <- try parseChoice ;;
  match r with
  | Ok choice =>
      suffix <- parseSuffix ;;
      ret {| Children_ChoiceSeq := choice; Children_Suffix := suffix |}
  | Err _ =>
      setCursor cur ;;
      r2 <- try parseSeq ;;
      match r2 with
      | Ok s =>
          suffix <- parseSuffix ;;
          ret {| Children_ChoiceSeq := s; Children_Suffix := suffix |}
      | Err _ => error (Msg "unknown error")
      end
  end.

Fixpoint parseMixed_loop (k : nat) (names : list gostring)
  : M (list gostring) :=
  match k with
  | 0 => fun _ => None
  | S k' =>
      skipSpace ;;
      If Test (ch ")") Then (Step ;; ret names)
      Else If isEnd Then error (Msg "could not find ')'")
      Else (
        Must (ch "|") ;;
        skipSpace ;;
        n <- parseName ;;
        parseMixed_loop k' (names ++ [n]))
  end.

(* Mixed ::= '(' S? '#PCDATA' (S? '|' S? Name)* S? ')*' | '(' S? '#PCDATA' S? ')' *)
Definition parseMixed : M Mixed :=
  Must (ch "(") ;;
  skipSpace ;;
  Musts (runes "#PCDATA") ;;
  names <- parseMixed_loop fuel [] ;;
  (if 0 <? length names then Must (ch "*") else ret tt) ;;
  ret {| Mixed_Names := names |}.

(* contentspec ::= 'EMPTY' | 'ANY' | Mixed | children *)
Definition parseContentSpec : M ContentSpec :=
  If Tests (runes "EMPTY") Then (StepN (len (runes "EMPTY")) ;; ret CSEmpty)
  Else If Tests (runes "ANY") Then (StepN (len (runes "ANY")) ;; ret CSAny)
  Else (
    cur <- getCursor ;;
    (* try parsing mixed *)
    r <- try parseMixed ;;
    match r with
    | Ok m => ret (CSMixed m)
    | Err _ =>
        (* reset cursor if it wasn't mixed *)
        setCursor cur ;;
        c <- parseChildren ;;
        ret (CSChildren c)
    end).

(* elementdecl ::= '<!ELEMENT' S Name S contentspec S? '>' *)
Definition parseElementDecl : M ElementDecl :=
  withParsing (runes "Element Declaration") (
    Musts (runes "<!ELEMENT") ;;
    parseSpace ;;
    n <- parseName ;;
    parseSpace ;;
    c <- parseContentSpec ;;
    skipSpace ;;
    Must (ch ">") ;;
    ret {| ElementDecl_Name := n; ElementDecl_ContentSpec := c |}).

(** ** Attribute-list declarations *)

(** The loop shared by [parseNotationType] (items are Names) and [parseEnum]
    (items are Nmtokens). *)
Fixpoint parseBarList_loop (item : M gostring) (k : nat)
  (acc : list gostring) : M (list gostring) :=
  match k with
  | 0 => fun _ => None
  | S k' =>
      cur <- getCursor ;;
      skipSpace ;;
      If Test (ch ")") Then (Step ;; ret acc)
      Else If isEnd Then error (Msg "expected ')'")
      Else (
        setCursor cur ;;
        skipSpace ;;
        Must (ch "|") ;;
        skipSpace ;;
        t <- item ;;
        parseBarList_loop item k' (acc ++ [t]))
  end.

(* NotationType ::= 'NOTATION' S '(' S? Name (S? '|' S? Name)* S? ')' *)
Definition parseNotationType : M NotationType :=
  Musts (runes "NOTATION") ;;
  parseSpace ;;
  Must (ch "(") ;;
  skipSpace ;;
  t <- parseName ;;
  names <- parseBarList_loop parseName fuel [t] ;;
  ret {| NotationType_Names := names |}.

(* Enumeration ::= '(' S? Nmtoken (S? '|' S? Nmtoken)* S? ')' *)
Definition parseEnum : M Enum :=
  Must (ch "(") ;;
  skipSpace ;;
  nm <- parseNmtoken ;;
  cases <- parseBarList_loop parseNmtoken fuel [nm] ;;
  ret {| Enum_Cases := cases |}.

(** The [switch] of [parseAttType] that picks the token.  It has no default
    case: [tok] would keep its zero value, which cannot happen under the
    condition that guards the switch (see [attTokenAt_guarded]). *)
Definition attTokenAt (p : parser) : AttToken :=
  if Tests (AttToken_ToString AttTokenID) p then
    if Tests (AttToken_ToString AttTokenIDREF) p then
      if Tests (AttToken_ToString AttTokenIDREFS) p then AttTokenIDREFS
      else AttTokenIDREF
    else AttTokenID
  else if Tests (AttToken_ToString AttTokenENTITY) p then AttTokenENTITY
  else if Tests (AttToken_ToString AttTokenENTITIES) p then AttTokenENTITIES
  else if Tests (AttToken_ToString AttTokenNMTOKEN) p then
    if Tests (AttToken_ToString AttTokenNMTOKENS) p then AttTokenNMTOKENS
    else AttTokenNMTOKEN
  else AttTokenCDATA.

(* AttType ::= StringType | TokenizedType | EnumeratedType *)
Definition parseAttType : M AttType :=
  If Tests (AttToken_ToString AttTokenCDATA) Then (
    StepN (len (AttToken_ToString AttTokenCDATA)) ;;
    ret (ATToken AttTokenCDATA))
  Else If (fun p => Tests (AttToken_ToString AttTokenID) p
                    || Tests (AttToken_ToString AttTokenIDREF) p
                    || Tests (AttToken_ToString AttTokenIDREFS) p
                    || Tests (AttToken_ToString AttTokenENTITY) p
                    || Tests (AttToken_ToString AttTokenENTITIES) p
                    || Tests (AttToken_ToString AttTokenNMTOKEN) p
                    || Tests (AttToken_ToString AttTokenNMTOKENS) p)
  Then (
    tok <- look attTokenAt ;;
    StepN (len (AttToken_ToString tok)) ;;
    ret (ATToken tok))
  Else If Tests (runes "NOTATION") Then (
    n <- parseNotationType ;; ret (ATNotation n))
  Else If Test (ch "(") Then (
    e <- parseEnum ;; ret (ATEnum e))
  Else error (Msg "unknwon error").

(* DefaultDecl ::= '#REQUIRED' | '#IMPLIED' | (('#FIXED' S)? AttValue) *)
Definition parseDefaultDecl : M DefaultDecl :=
  If Tests (DefaultDeclType_ToString DefaultDeclTypeRequired) Then (
    StepN (len (DefaultDeclType_ToString DefaultDeclTypeRequired)) ;;
    ret {| DefaultDecl_Type := DefaultDeclTypeRequired;
           DefaultDecl_AttValue := [] |})
  Else If Tests (DefaultDeclType_ToString DefaultDeclTypeImplied) Then (
    StepN (len (DefaultDeclType_ToString DefaultDeclTypeImplied)) ;;
    ret {| DefaultDecl_Type := DefaultDeclTypeImplied;
           DefaultDecl_AttValue := [] |})
  Else (
    (If Tests (DefaultDeclType_ToString DefaultDeclTypeFixed) Then (
       StepN (len (DefaultDeclType_ToString DefaultDeclTypeFixed)) ;;
       parseSpace)
     Else ret tt) ;;
    value <- parseAttValue ;;
    ret {| DefaultDecl_Type := DefaultDeclTypeFixed;
           DefaultDecl_AttValue := value |}).

(* AttDef ::= S Name S AttType S DefaultDecl *)
Definition parseAttDef : M AttDef :=
  parseSpace ;;
  name <- parseName ;;
  parseSpace ;;
  type <- parseAttType ;;
  parseSpace ;;
  decl <- parseDefaultDecl ;;
  ret {| AttDef_Name := name; AttDef_Type := type; AttDef_Decl := decl |}.

Fixpoint parseAttlist_loop (k : nat) (defs : list AttDef)
  : M (list AttDef) :=
  match k with
  | 0 => fun _ => None
  | S k' =>
      (* S Name  or  S? '>' *)
      cur <- getCursor ;;
      skipSpace ;;
      If Test (ch ">") Then (Step ;; ret defs)
      Else If isEnd Then error (Msg "reached EOF")
      Else (
        setCursor cur ;;
        def <- parseAttDef ;;
        parseAttlist_loop k' (defs ++ [def]))
  end.

(* AttlistDecl ::= '<!ATTLIST' S Name AttDef* S? '>' *)
Definition parseAttlist : M Attlist :=
  withParsing (runes "ATTLIST") (
    Musts (runes "<!ATTLIST") ;;
    parseSpace ;;
    name <- parseName ;;
    defs <- parseAttlist_loop fuel [] ;;
    ret {| Attlist_Name := name; Attlist_Defs := defs |}).

(** ** Entity and notation declarations *)

(* ExternalID ::= 'SYSTEM' S SystemLiteral | 'PUBLIC' S PubidLiteral S SystemLiteral *)
Definition parseExternalID : M ExternalID :=
  type <- (If Tests (runes "SYSTEM") Then (
             StepN (len (runes "SYSTEM")) ;; ret ExternalTypeSystem)
           Else If Tests (runes "PUBLIC") Then (
             StepN (len (runes "PUBLIC")) ;; ret ExternalTypePublic)
           Else error (Msg "expected 'SYSTEM' or 'PUBLIC'")) ;;
  parseSpace ;;
  pubid <- match type with
           | ExternalTypePublic =>
               pubid <- parsePubidLiteral ;; parseSpace ;; ret pubid
           | ExternalTypeSystem => ret []
           end ;;
  sys <- parseSystemLiteral ;;
  ret {| ExternalID_Type := type; ExternalID_Pubid := pubid;
         ExternalID_System := sys |}.

(* NDataDecl ::= S 'NDATA' S Name *)
Definition parseNData : M gostring :=
  parseSpace ;;
  Musts (runes "NDATA") ;;
  parseSpace ;;
  parseName.

(** The test for an opening quote, #x27 or #x22, of [parseEntityDef] and
    [parsePEDef]. *)
Definition atQuote (p : parser) : bool := Test (ch "'") p || Test 34%Z p.

Definition atExternalID (p : parser) : bool :=
  Tests (runes "SYSTEM") p || Tests (runes "PUBLIC") p.

(* EntityDef ::= EntityValue | (ExternalID NDataDecl?) *)
Definition parseEntityDef : M (EntityValue * option ExternalID * gostring) :=
  If atQuote Then (
    value <- parseEntityValue ;;
    ret (value, None, []))
  Else If atExternalID Then (
    ext <- parseExternalID ;;
    cur <- getCursor ;;
    r <- try parseNData ;;
    match r with
    | Err _ => setCursor cur ;; ret ([], Some ext, [])
    | Ok ndata => ret ([], Some ext, ndata)
    end)
  Else error (Msg "unexpected char").

(* PEDef ::= EntityValue | ExternalID *)
Definition parsePEDef : M (EntityValue * option ExternalID) :=
  If atQuote Then (
    value <- parseEntityValue ;;
    ret (value, None))
  Else If atExternalID Then (
    ext <- parseExternalID ;;
    ret ([], Some ext))
  Else error (Msg "unexpected char").

(* EntityDecl ::= GEDecl | PEDecl
   PEDecl ::= '<!ENTITY' S '%' S Name S PEDef S? '>'
   GEDecl ::= '<!ENTITY' S Name S EntityDef S? '>' *)
Definition parseEntity : M Entity :=
  withParsing (runes "Entity Declaration") (
    Musts (runes "<!ENTITY") ;;
    parseSpace ;;
    type <- (If Test (ch "%") Then (Step ;; parseSpace ;; ret EntityTypePE)
             Else ret EntityTypeGE) ;;
    name <- parseName ;;
    parseSpace ;;
    x <- match type with
         | EntityTypePE =>
             (* PEDef *)
             y <- parsePEDef ;; ret (fst y, snd y, [])
         | EntityTypeGE =>
             (* EntityDef *)
             parseEntityDef
         end ;;
    skipSpace ;;
    Must (ch ">") ;;
    ret {| Entity_Type := type; Entity_Name := name;
           Entity_Value := fst (fst x); Entity_ExtID := snd (fst x);
           Entity_NData := snd x |}).

(* NotationDecl ::= '<!NOTATION' S Name S (ExternalID | PublicID) S? '>' *)
Definition parseNotation : M Notation_ :=
  withParsing (runes "NOTATION") (
    Musts (runes "<!NOTATION") ;;
    parseSpace ;;
    name <- parseName ;;
    parseSpace ;;
    (* ExternalID ::= 'SYSTEM' S SystemLiteral | 'PUBLIC' S PubidLiteral *)
    type <- (If Tests (runes "SYSTEM") Then (
               StepN (len (runes "SYSTEM")) ;; ret ExternalTypeSystem)
             Else If Tests (runes "PUBLIC") Then (
               StepN (len (runes "PUBLIC")) ;; ret ExternalTypePublic)
             Else error (Msg "expected 'SYSTEM' or 'PUBLIC'")) ;;
    parseSpace ;;
    ext <- match type with
           | ExternalTypePublic =>
               pubid <- parsePubidLiteral ;;
               (* ( S SystemLiteral )? *)
               cur <- getCursor ;;
               r <- try parseSpace ;;
               sys <- match r with
                      | Ok _ =>
                          r2 <- try parseSystemLiteral ;;
                          match r2 with
                          | Ok sys => ret sys
                          | Err _ => setCursor cur ;; ret []
                          end
                      | Err _ => setCursor cur ;; ret []
                      end ;;
               ret {| ExternalID_Type := type; ExternalID_Pubid := pubid;
                      ExternalID_System := sys |}
           | ExternalTypeSystem =>
               sys <- parseSystemLiteral ;;
               ret {| ExternalID_Type := type; ExternalID_Pubid := [];
                      ExternalID_System := sys |}
           end ;;
    skipSpace ;;
    Must (ch ">") ;;
    ret {| Notation_Name := name; Notation_ExtID := ext |}).

(** ** Document type definition *)

(* markupdecl ::= elementdecl | AttlistDecl | EntityDecl | NotationDecl | PI | Comment *)
Definition parseMarkup : M Markup :=
  withParsing (runes "markup") (
    If Tests (runes "<!ELEMENT") Then (
      m <- parseElementDecl ;; ret (MarkupElementDecl m))
    Else If Tests (runes "<!ATTLIST") Then (
      m <- parseAttlist ;; ret (MarkupAttlist m))
    Else If Tests (runes "<!ENTITY") Then (
      m <- parseEntity ;; ret (MarkupEntity m))
    Else If Tests (runes "<!NOTATION") Then (
      m <- parseNotation ;; ret (MarkupNotation m))
    Else If Tests (runes "<?") Then (
      m <- parsePI ;; ret (MarkupPI m))
    Else If Tests (runes "<!--") Then (
      m <- parseComment ;; ret (MarkupComment m))
    Else error (Msg "unknown markup")).

Definition atMarkup (p : parser) : bool :=
  Tests (runes "<!ELEMENT") p || Tests (runes "<!ATTLIST") p
  || Tests (runes "<!ENTITY") p || Tests (runes "<!NOTATION") p
  || Tests (runes "<?") p || Tests (runes "<!--") p.

Fixpoint parseDoctype_loop (k : nat) (markups : list Markup)
  (peRef : option PERef) : M (list Markup * option PERef) :=
  match k with
  | 0 => fun _ => None
  | S k' =>
      If atMarkup Then (
        m <- parseMarkup ;;
        parseDoctype_loop k' (markups ++ [m]) peRef)
      Else If Test (ch "%") Then (
        ref <- parsePERef ;;
        parseDoctype_loop k' markups (Some ref))
      Else If (fun p => isSpace (Get p)) Then (
        skipSpace ;;
        parseDoctype_loop k' markups peRef)
      Else ret (markups, peRef)
  end.

(* doctypedecl ::= '<!DOCTYPE' S Name (S ExternalID)? S?
                   ('[' (markupdecl | PEReference | S)* ']' S?)? '>' *)
Definition parseDoctype : M DOCType :=
  withParsing (runes "DOCTYPE") (
    Musts (runes "<!DOCTYPE") ;;
    parseSpace ;;
    name <- parseName ;;
    skipSpace ;;
    ext <- (If atExternalID Then (
              ext <- parseExternalID ;;
              skipSpace ;;
              ret (Some ext))
            Else ret None) ;;
    x <- (If Test (ch "[") Then (
            Step ;;
            x <- parseDoctype_loop fuel [] None ;;
            Must (ch "]") ;;
            ret x)
          Else ret ([], None)) ;;
    skipSpace ;;
    Must (ch ">") ;;
    ret {| DOCType_Name := name; DOCType_ExtID := ext;
           DOCType_Markups := fst x; DOCType_PERef := snd x |}).

(** ** Prolog and document *)

(** The loop over [Misc] that [parse] and [parseProlog] write out three
    times: a [Misc] that fails ends the loop with the cursor put back. *)
Fixpoint parseMisc_loop (k : nat) (miscs : list Misc) : M (list Misc) :=
  match k with
  | 0 => fun _ => None
  | S k' =>
      cur <- getCursor ;;
      r <- try parseMisc ;;
      match r with
      | Err _ => setCursor cur ;; ret miscs
      | Ok (Some misc) => parseMisc_loop k' (miscs ++ [misc])
      | Ok None => parseMisc_loop k' miscs
      end
  end.

(* prolog ::= XMLDecl? Misc* (doctypedecl Misc* )? *)
Definition parseProlog : M Prolog :=
  skipSpace ;;
  xmlDecl <- (If Tests (runes "<?xml") Then (
                xmlDecl <- parseXmlDecl ;; ret (Some xmlDecl))
              Else ret None) ;;
  misc1 <- parseMisc_loop fuel [] ;;
  x <- (If Tests (runes "<!DOCTYPE") Then (
          doc <- parseDoctype ;;
          misc2 <- parseMisc_loop fuel [] ;;
          ret (Some doc, misc2))
        Else ret (None, [])) ;;
  ret {| Prolog_XMLDecl := xmlDecl; Prolog_Misc1 := misc1;
         Prolog_DOCType := fst x; Prolog_Misc2 := snd x |}.

(* document ::= prolog element Misc* *)
Definition parse : M XML :=
  prolog <- parseProlog ;;
  element <- parseElement ;;
  misc <- parseMisc_loop fuel [] ;;
  ret {| XML_Prolog := prolog; XML_Element := element; XML_Misc := misc |}.

End Parser.

(** ** A classifier for ASCII input *)

Definition inRange (lo hi r : rune) : bool := ((lo <=? r) && (r <=? hi))%Z.

Definition asciiAlpha (r : rune) : bool :=
  inRange (ch "a") (ch "z") r || inRange (ch "A") (ch "Z") r.

Definition asciiNum (r : rune) : bool := inRange (ch "0") (ch "9") r.

Definition asciiNameChar (r : rune) : bool :=
  asciiAlpha r || asciiNum r
  || existsb (Z.eqb r) (runes ".-_:").

(** Modelled from the spec: the classifier of the repository is not part of
    parser.go.  This instance follows the XML 1.0 character classes on the
    ASCII range ([isSpace] is exactly the four space characters, [isQuote]
    the two quotes, [isChar] the Char production); [isAlpha] is [A-Za-z] and
    [isNum] is [0-9], as the grammar comments of [parseEncName] and
    [parseVersionNum] in parser.go and the test of [parseEncName] on UTF-8
    have it.  Letters, digits, combining characters and extenders outside
    ASCII are left out, so the instance stands for the classifier on ASCII
    input only.  The sentinel is -1, a value no code point takes. *)
#[export] Instance asciiExternals : Externals := {|
  EOF := (-1)%Z;
  isLetter := asciiAlpha;
  isDigit := asciiNum;
  isCombining := fun _ => false;
  isExtender := fun _ => false;
  isNameChar := asciiNameChar;
  isSpace := fun r => existsb (Z.eqb r) [32; 9; 13; 10]%Z;
  isChar := fun r =>
    ((r =? 9) || (r =? 10) || (r =? 13) || inRange 32 55295 r
     || inRange 57344 65533 r || inRange 65536 1114111 r)%Z;
  isPubidChar := fun r =>
    ((r =? 32) || (r =? 13) || (r =? 10))%Z || asciiAlpha r || asciiNum r
    || existsb (Z.eqb r) (runes "-'()+,./:=?;!*#@$_%");
  isQuote := fun r => ((r =? ch "'") || (r =? 34))%Z;
  isNum := asciiNum;
  isAlpha := asciiAlpha
|}.

(** Running a production on a source text from its start. *)
Definition run {A} (m : M A) (src : gostring) : option (res A * parser) :=
  m (NewParser src).

(** The double quote, which a literal of this file cannot hold. *)
Definition dq : gostring := [34%Z].

(** * Vocabulary of the properties *)

(** ** States *)

(** The state of a fresh parser over [src] moved to position [c]. *)
Definition at_ (src : gostring) (c : nat) : parser :=
  {| source := src; cursor := c; parsing := [] |}.

(** The state after [p.StepN(n)]. *)
Definition stepped (n : nat) (p : parser) : parser :=
  {| source := source p; cursor := cursor p + n; parsing := parsing p |}.

(** The state after [p.setParsing(l)]. *)
Definition relabel (l : gostring) (p : parser) : parser :=
  {| source := source p; cursor := cursor p; parsing := l |}.

(** Runes left between the cursor and the end of the source. *)
Definition remaining (p : parser) : nat := length (source p) - cursor p.

(** The source is shorter than the fuel. *)
Definition fits (fuel : nat) (p : parser) : Prop := length (source p) < fuel.

(** ** Predicates on productions *)

(** No production changes the source, and every production leaves the label
    as it found it. *)
Definition preserves {A} (m : M A) : Prop :=
  forall p r p', m p = Some (r, p') ->
    source p' = source p /\ parsing p' = parsing p.

(** What a production returns when it succeeds. *)
Definition yields {A} (m : M A) (Q : A -> Prop) : Prop :=
  forall p a p', m p = Some (Ok a, p') -> Q a.

(** The cursor never moves backwards. *)
Definition forward {A} (m : M A) : Prop :=
  forall p r p', m p = Some (r, p') -> cursor p <= cursor p'.

(** The production returns from every state that fits. *)
Definition total (fuel : nat) {A} (m : M A) : Prop :=
  forall p, fits fuel p -> exists r p', m p = Some (r, p').

(** Whatever the first returns, the second returns too: the reading of a
    production run on more fuel. *)
Definition refines {A} (m1 m2 : M A) : Prop :=
  forall p x, m1 p = Some x -> m2 p = Some x.

(** The end-of-input sentinel is no character of any class and none of the
    punctuation marks of a name. *)
Definition sentinel_inert {ext : Externals} : Prop :=
  isSpace EOF = false /\ isChar EOF = false /\ isLetter EOF = false
  /\ isDigit EOF = false /\ isCombining EOF = false
  /\ isExtender EOF = false /\ ~ In EOF (runes ".-_:").

(** ** Contents entries *)

(** A text run that may stand in a Contents list: it is not empty and holds
    a rune that is no white space.  Entries of the other kinds are free. *)
Definition textRunKept {ext : Externals} (s : gostring) : Prop :=
  s <> [] /\ exists r, In r s /\ isSpace r = false.

Definition entryOk {ext : Externals} (c : Content) : Prop :=
  match c with
  | CText s => textRunKept s
  | _ => True
  end.

(** *** What the content loop reads

    The loop of parseContents reads items one after the other: a rune of
    character data, or an entry that one of the productions returns. *)
Inductive item : Type :=
| Rune (r : rune)
| Entry (c : Content).

(** [reads fuel pe p items q]: going on from the state [p] the loop reads
    [items] and is in the state [q] after the last of them.  What is read
    next is decided as in the loop: an ampersand starts a reference; [<!]
    starts a CDATA section or, when the production of the CDATA section
    fails, a comment; [<?] starts a processing instruction; another [<]
    starts an element, read by [pe]; any other rune is character data, the
    input being neither at its end nor at the mark that closes a CDATA
    section. *)
Inductive reads {ext : Externals} (fuel : nat) (pe : M Element)
  : parser -> list item -> parser -> Prop :=
| reads_nothing p : reads fuel pe p [] p
| reads_rune p items q :
    Test (ch "&") p = false -> Test (ch "<") p = false ->
    isEnd p || Tests (runes "]]>") p = false ->
    reads fuel pe (stepped 1 p) items q ->
    reads fuel pe p (Rune (Get p) :: items) q
| reads_reference p i p1 items q :
    Test (ch "&") p = true ->
    parseReference fuel p = Some (Ok i, p1) ->
    reads fuel pe p1 items q ->
    reads fuel pe p (Entry (CRef i) :: items) q
| reads_cdata p c p1 items q :
    Test (ch "&") p = false -> Test (ch "<") p = true ->
    Tests (runes "<!") p = true ->
    parseCDSect fuel p = Some (Ok c, p1) ->
    reads fuel pe p1 items q ->
    reads fuel pe p (Entry (CCData c) :: items) q
| reads_comment p e p0 c p1 items q :
    Test (ch "&") p = false -> Test (ch "<") p = true ->
    Tests (runes "<!") p = true ->
    parseCDSect fuel p = Some (Err e, p0) ->
    parseComment fuel p = Some (Ok c, p1) ->
    reads fuel pe p1 items q ->
    reads fuel pe p (Entry (CComment c) :: items) q
| reads_pi p pi p1 items q :
    Test (ch "&") p = false -> Test (ch "<") p = true ->
    Tests (runes "<!") p = false -> Tests (runes "<?") p = true ->
    parsePI fuel p = Some (Ok pi, p1) ->
    reads fuel pe p1 items q ->
    reads fuel pe p (Entry (CPI pi) :: items) q
| reads_element p e p1 items q :
    Test (ch "&") p = false -> Test (ch "<") p = true ->
    Tests (runes "<!") p = false -> Tests (runes "<?") p = false ->
    pe p = Some (Ok e, p1) ->
    reads fuel pe p1 items q ->
    reads fuel pe p (Entry (CElement e) :: items) q.

(** The entry of a run of character data, in the words of the
    specification: the run is put down when it is not empty and holds a rune
    that is no white space, and is dropped otherwise. *)
Definition keptRun {ext : Externals} (s : gostring) : list Content :=
  if negb (length s =? 0) && existsb (fun r => negb (isSpace r)) s
  then [CText s] else [].

(** The Contents list of a sequence of items, [pending] being the character
    data read before them: the entries in their order and, where they stood,
    the runs of character data that are kept. *)
Fixpoint contentsOf {ext : Externals} (pending : gostring)
  (items : list item) : list Content :=
  match items with
  | [] => keptRun pending
  | Rune r :: t => contentsOf (pending ++ string_of_rune r) t
  | Entry c :: t => keptRun pending ++ c :: contentsOf [] t
  end.

(** An error of the production records the cursor the production returns
    with: after the error is raised the cursor does not move. *)
Definition errs_at_cursor {A} (m : M A) : Prop :=
  forall p e p', m p = Some (Err e, p') -> errPos e = cursor p'.

(** A production that fails leaves the cursor where the failure was found:
    at the position the error records, which is not before the position the
    production was entered at. *)
Definition fails_where_found {A} (m : M A) : Prop :=
  forall p e p',
    m p = Some (Err e, p') -> errPos e = cursor p' /\ cursor p <= cursor p'.

(** The cursor stays at or beyond [c] when it starts there. *)
Definition above (c : nat) {A} (m : M A) : Prop :=
  forall p r p', c <= cursor p -> m p = Some (r, p') -> c <= cursor p'.

(** A production that returns a value has moved the cursor. *)
Definition moves {A} (m : M A) : Prop :=
  forall p a p', m p = Some (Ok a, p') -> cursor p < cursor p'.

(** The production returns, with a value or with an error, from the state. *)
Definition returns {A} (m : M A) (p : parser) : Prop :=
  exists r p', m p = Some (r, p').

(** The end-of-input sentinel is in no class of the classifier and is none
    of the characters on which the parser decides to go on. *)
Definition sentinel_apart {ext : Externals} : Prop :=
  sentinel_inert /\ isNameChar EOF = false /\ isPubidChar EOF = false
  /\ isQuote EOF = false /\ isNum EOF = false /\ isAlpha EOF = false
  /\ ~ In EOF (runes "<&%(|,").

(** An error of the production carries the label in effect when the
    production was entered: the production sets no label of its own. *)
Definition blames {A} (m : M A) : Prop :=
  forall p e p', m p = Some (Err e, p') -> errParsing e = parsing p.

(** An error of the production carries the label in effect on entry or one
    of the labels [L]. *)
Definition blames_among (L : list gostring) {A} (m : M A) : Prop :=
  forall p e p', m p = Some (Err e, p') ->
    errParsing e = parsing p \/ In (errParsing e) L.

(** The labels of the errors of a markup declaration: the one of parseMarkup
    and those of the six productions it calls (parsePI sets the label
    NOTATION, as parseNotation does). *)
Definition markup_labels : list gostring :=
  [runes "markup"; runes "Element Declaration"; runes "ATTLIST";
   runes "Entity Declaration"; runes "NOTATION"; runes "Comment"].

(** The labels of the errors of the prolog. *)
Definition prolog_labels : list gostring :=
  runes "XML Declaration" :: runes "DOCTYPE" :: markup_labels.

(** Every error of the production carries one of the labels [L]. *)
Definition errs_in (L : list gostring) {A} (m : M A) : Prop :=
  forall p e p', m p = Some (Err e, p') -> In (errParsing e) L.

(** ** The tree of an element *)

(** A reference names an entity or holds digits. *)
Definition ref_ok (r : Ref) : Prop :=
  match r with
  | RefEntity e => EntityRef_Name e <> []
  | RefChar c => CharRef_Value c <> []
  end.

(** What holds of every element of a tree that parseElement returns: its
    name and the names of its attributes are not empty, an element written
    as an empty tag has no contents, and in its contents the text runs are
    kept runs, the references and the targets of the processing instructions
    are not empty, and the nested elements are such elements again. *)
Fixpoint element_ok {ext : Externals} (e : Element) : Prop :=
  match e with
  | mkElement name attrs contents isEmptyTag =>
      name <> []
      /\ Forall (fun a => Attr_Name a <> []) attrs
      /\ (isEmptyTag = true -> contents = [])
      /\ (fix all (cs : list Content) : Prop :=
            match cs with
            | [] => True
            | c :: cs' =>
                match c with
                | CText s => textRunKept s
                | CElement e' => element_ok e'
                | CRef r => ref_ok r
                | CPI pi => PI_Target pi <> []
                | CCData _ => True
                | CComment _ => True
                end /\ all cs'
            end) contents
  end.

Definition content_ok {ext : Externals} (c : Content) : Prop :=
  match c with
  | CText s => textRunKept s
  | CElement e => element_ok e
  | CRef r => ref_ok r
  | CPI pi => PI_Target pi <> []
  | CCData _ => True
  | CComment _ => True
  end.

(** ** Text up to a closing mark *)

(** [startsWith sub s]: the runes of [sub] stand at the head of [s]. *)
Definition startsWith (sub s : gostring) : bool :=
  runes_eqb (firstn (length sub) s) sub.

(** [occurs sub s]: [sub] stands somewhere in [s]. *)
Fixpoint occurs (sub s : gostring) : bool :=
  startsWith sub s
  || match s with
     | [] => false
     | _ :: t => occurs sub t
     end.

(** ** The declarations of a document type *)

(** An occurrence mark is one of [?], [*] and [+]. *)
Definition suffix_ok (s : option rune) : Prop :=
  match s with
  | None => True
  | Some r => In r (runes "?*+")
  end.

(** What holds of every content particle that parseCP returns: it is a name
    that is not empty, or a choice or sequence that holds a particle at
    least, of such particles again, and never both; its occurrence mark, if
    any, is one of the three. *)
Fixpoint cp_ok (c : CP) : Prop :=
  match c with
  | mkCP name group suffix =>
      suffix_ok suffix
      /\ match group with
         | None => name <> []
         | Some (Choice cps) =>
             name = [] /\ cps <> []
             /\ (fix all (l : list CP) : Prop :=
                   match l with
                   | [] => True
                   | x :: t => cp_ok x /\ all t
                   end) cps
         | Some (Seq cps) =>
             name = [] /\ cps <> []
             /\ (fix all (l : list CP) : Prop :=
                   match l with
                   | [] => True
                   | x :: t => cp_ok x /\ all t
                   end) cps
         end
  end.

Definition group_ok (g : ChoiceSeq) : Prop :=
  match g with
  | Choice cps => cps <> [] /\ Forall cp_ok cps
  | Seq cps => cps <> [] /\ Forall cp_ok cps
  end.

Definition contentSpec_ok (c : ContentSpec) : Prop :=
  match c with
  | CSEmpty => True
  | CSAny => True
  | CSMixed m => Forall (fun n => n <> []) (Mixed_Names m)
  | CSChildren c =>
      group_ok (Children_ChoiceSeq c) /\ suffix_ok (Children_Suffix c)
  end.

(** A list of names or tokens between parentheses: not empty, and none of
    its items is. *)
Definition names_ok (l : list gostring) : Prop :=
  l <> [] /\ Forall (fun n => n <> []) l.

Definition attType_ok (t : AttType) : Prop :=
  match t with
  | ATToken _ => True
  | ATNotation n => names_ok (NotationType_Names n)
  | ATEnum e => names_ok (Enum_Cases e)
  end.

(** [#REQUIRED] and [#IMPLIED] come without a value. *)
Definition defaultDecl_ok (d : DefaultDecl) : Prop :=
  DefaultDecl_Type d <> DefaultDeclTypeFixed -> DefaultDecl_AttValue d = [].

Definition attDef_ok (d : AttDef) : Prop :=
  AttDef_Name d <> [] /\ attType_ok (AttDef_Type d)
  /\ defaultDecl_ok (AttDef_Decl d).

(** A [SYSTEM] identifier has no public identifier. *)
Definition extID_ok (e : ExternalID) : Prop :=
  ExternalID_Type e = ExternalTypeSystem -> ExternalID_Pubid e = [].

(** An entity has a value or an external identifier, never both; only a
    general entity with an external identifier has a notation name. *)
Definition entity_ok (e : Entity) : Prop :=
  Entity_Name e <> []
  /\ match Entity_ExtID e with
     | None => Entity_NData e = []
     | Some x =>
         Entity_Value e = [] /\ extID_ok x
         /\ (Entity_Type e = EntityTypePE -> Entity_NData e = [])
     end.

Definition markup_ok (m : Markup) : Prop :=
  match m with
  | MarkupElementDecl e =>
      ElementDecl_Name e <> [] /\ contentSpec_ok (ElementDecl_ContentSpec e)
  | MarkupAttlist a =>
      Attlist_Name a <> [] /\ Forall attDef_ok (Attlist_Defs a)
  | MarkupEntity e => entity_ok e
  | MarkupNotation n => Notation_Name n <> [] /\ extID_ok (Notation_ExtID n)
  | MarkupPI pi => PI_Target pi <> []
  | MarkupComment _ => True
  end.

Definition doctype_ok (d : DOCType) : Prop :=
  DOCType_Name d <> []
  /\ match DOCType_ExtID d with None => True | Some x => extID_ok x end
  /\ Forall markup_ok (DOCType_Markups d)
  /\ match DOCType_PERef d with
     | None => True
     | Some r => PERef_Name r <> []
     end.

(** ** The segments of a value *)

Definition isAVText (s : AttValueSeg) : bool :=
  match s with AVText _ => true | AVRef _ => false end.

Definition isEVText (s : EntityValueSeg) : bool :=
  match s with EVText _ => true | _ => false end.

(** A text segment is not empty, and a reference names something. *)
Definition attSeg_ok (s : AttValueSeg) : Prop :=
  match s with
  | AVText t => t <> []
  | AVRef r => ref_ok r
  end.

Definition entSeg_ok (s : EntityValueSeg) : Prop :=
  match s with
  | EVText t => t <> []
  | EVEntityRef e => EntityRef_Name e <> []
  | EVCharRef c => CharRef_Value c <> []
  | EVPERef r => PERef_Name r <> []
  end.

(** No text segment is followed by a text segment. *)
Fixpoint texts_apart {A} (is_text : A -> bool) (v : list A) : Prop :=
  match v with
  | [] => True
  | x :: t =>
      (is_text x = true ->
       match t with
       | [] => True
       | y :: _ => is_text y = false
       end)
      /\ texts_apart is_text t
  end.

(** The last segment, if any, is no text. *)
Fixpoint ends_not_text {A} (is_text : A -> bool) (v : list A) : Prop :=
  match v with
  | [] => True
  | x :: t =>
      match t with
      | [] => is_text x = false
      | _ :: _ => ends_not_text is_text t
      end
  end.

(** ** Comparison with xml, whatever the letter case *)

Definition toLower (r : rune) : rune :=
  if inRange (ch "A") (ch "Z") r then (r + 32)%Z else r.

(** [strings.EqualFold(n, "xml")] on ASCII names *)
Definition EqualFold_xml (n : gostring) : bool :=
  runes_eqb (map toLower n) (runes "xml").

(** ** The XML declarations of the examples *)

Definition quoted (s : string) : gostring := dq ++ runes s ++ dq.

Definition decl_full : gostring :=
  runes "<?xml version=" ++ quoted "1.0" ++ runes " encoding="
  ++ quoted "UTF-8" ++ runes " standalone=" ++ quoted "yes" ++ runes "?>".

Definition decl_no_encoding : gostring :=
  runes "<?xml version=" ++ quoted "1.0" ++ runes " standalone="
  ++ quoted "yes" ++ runes "?>".

Definition decl_no_standalone : gostring :=
  runes "<?xml version=" ++ quoted "1.0" ++ runes " encoding="
  ++ quoted "UTF-8" ++ runes "?>".

Definition decl_version_only : gostring :=
  runes "<?xml version=" ++ quoted "1.0" ++ runes "?>".

Definition version_only : XMLDecl :=
  {| Version := runes "1.0"; Encoding := []; Standalone := false |}.

(** * Properties *)

(** ** The monad *)

Lemma bind_Ok {A B} (m : M A) (f : A -> M B) p a p1 :
  m p = Some (Ok a, p1) -> bind m f p = f a p1.
Proof. intros H. unfold bind. now rewrite H. Qed.

Lemma bind_Err {A B} (m : M A) (f : A -> M B) p e p1 :
  m p = Some (Err e, p1) -> bind m f p = Some (Err e, p1).
Proof. intros H. unfold bind. now rewrite H. Qed.

Lemma bind_inv_Ok {A B} (m : M A) (f : A -> M B) p b p' :
  bind m f p = Some (Ok b, p') ->
  exists a p1, m p = Some (Ok a, p1) /\ f a p1 = Some (Ok b, p').
Proof.
  unfold bind. destruct (m p) as [[[a|e] p1]|]; intros H; try discriminate.
  now exists a, p1.
Qed.

Lemma bind_inv {A B} (m : M A) (f : A -> M B) p r p' :
  bind m f p = Some (r, p') ->
  (exists e, m p = Some (Err e, p') /\ r = Err e) \/
  (exists a p1, m p = Some (Ok a, p1) /\ f a p1 = Some (r, p')).
Proof.
  unfold bind. destruct (m p) as [[[a|e] p1]|]; intros H; try discriminate.
  - right. now exists a, p1.
  - left. inversion H; subst. now exists e.
Qed.

Lemma runes_eqb_eq a b : runes_eqb a b = true <-> a = b.
Proof.
  revert b. induction a as [|x a IH]; destruct b as [|y b]; simpl;
    try (split; (discriminate || reflexivity)).
  rewrite andb_true_iff, Z.eqb_eq, IH. split.
  - now intros [-> ->].
  - intros H; inversion H; auto.
Qed.

Lemma runes_eqb_refl a : runes_eqb a a = true.
Proof. now apply runes_eqb_eq. Qed.

(** ** Frame: no production changes the source, and every production leaves
    the label as it found it. *)

Lemma parser_eta p :
  {| source := source p; cursor := cursor p; parsing := parsing p |} = p.
Proof. now destruct p. Qed.

(** Putting the cursor back after a production that kept source and label
    gives the state the production started from. *)
Lemma setCursor_back {A} (m : M A) p r p' :
  preserves m -> m p = Some (r, p') ->
  setCursor (cursor p) p' = Some (Ok tt, p).
Proof.
  intros Hm H. destruct (Hm _ _ _ H) as [Hs Hl].
  unfold setCursor, ret. rewrite Hs, Hl. now rewrite parser_eta.
Qed.
Arguments setCursor_back {A m p r p'} _ _.

Lemma preserves_ret {A} (a : A) : preserves (ret a).
Proof. intros p r p' H. inversion H; subst; auto. Qed.

Lemma preserves_error {A} c : preserves (@error A c).
Proof. intros p r p' H. inversion H; subst; auto. Qed.

Lemma preserves_raise {A} e : preserves (@raise A e).
Proof. intros p r p' H. inversion H; subst; auto. Qed.

Lemma preserves_None {A} : preserves (fun _ : parser => @None (res A * parser)).
Proof. intros p r p' H. discriminate. Qed.

Lemma preserves_look {A} (f : parser -> A) : preserves (look f).
Proof. intros p r p' H. inversion H; subst; auto. Qed.

Lemma preserves_getCursor : preserves getCursor.
Proof. intros p r p' H. inversion H; subst; auto. Qed.

Lemma preserves_setCursor c : preserves (setCursor c).
Proof. intros p r p' H. inversion H; subst; auto. Qed.

Lemma preserves_bind {A B} (m : M A) (f : A -> M B) :
  preserves m -> (forall a, preserves (f a)) -> preserves (bind m f).
Proof.
  intros Hm Hf p r p' H. apply bind_inv in H.
  destruct H as [(e & H & _)|(a & p1 & H1 & H2)].
  - eauto.
  - destruct (Hm _ _ _ H1) as [Hs Hl]. destruct (Hf a _ _ _ H2) as [Hs' Hl'].
    split; congruence.
Qed.

Lemma preserves_branch {A} c (a b : M A) :
  preserves a -> preserves b -> preserves (branch c a b).
Proof. intros Ha Hb p r p'. unfold branch. destruct (c p); eauto. Qed.

Lemma preserves_try {A} (m : M A) : preserves m -> preserves (try m).
Proof.
  intros Hm p r p'. unfold try.
  destruct (m p) as [[r0 p0]|] eqn:E; intros H; inversion H; subst; eauto.
Qed.

Lemma preserves_withParsing {A} l (m : M A) :
  preserves m -> preserves (withParsing l m).
Proof.
  intros Hm p r p'. unfold withParsing.
  match goal with |- context [m ?q] => destruct (m q) as [[r0 p0]|] eqn:E end;
    intros H; inversion H; subst; simpl.
  destruct (Hm _ _ _ E) as [Hs _]. simpl in Hs. auto.
Qed.

Create HintDb frame.

#[export] Hint Resolve preserves_ret preserves_error preserves_raise
  preserves_None preserves_look preserves_getCursor preserves_setCursor
  preserves_try preserves_withParsing preserves_branch : frame.

(** Splits a goal [preserves m] along the syntax of [m]. *)
Ltac frame_step :=
  match goal with
  | |- preserves (bind _ _) => apply preserves_bind; [ | intro ]
  | |- preserves (branch _ _ _) => apply preserves_branch
  | |- preserves (try _) => apply preserves_try
  | |- preserves (withParsing _ _) => apply preserves_withParsing
  | |- preserves (match ?x with _ => _ end) => destruct x
  | |- preserves (let _ := _ in _) => cbv zeta
  end.

Ltac frame := repeat frame_step; auto with frame.

Section Frame.

Context {ext : Externals}.
Variable fuel : nat.

Lemma preserves_StepN n : preserves (StepN n).
Proof. intros p r p' H. inversion H; subst; auto. Qed.

Lemma preserves_Step : preserves Step.
Proof. apply preserves_StepN. Qed.

Hint Resolve preserves_StepN preserves_Step : frame.

Lemma preserves_Must r : preserves (Must r).
Proof. unfold Must. frame. Qed.

Lemma preserves_Musts s : preserves (Musts s).
Proof. unfold Musts. frame. Qed.

Lemma preserves_skipSpace_loop k : preserves (skipSpace_loop k).
Proof. induction k; simpl; frame. Qed.

Lemma preserves_skipSpace : preserves (skipSpace fuel).
Proof. apply preserves_skipSpace_loop. Qed.

Hint Resolve preserves_Must preserves_Musts preserves_skipSpace : frame.

Lemma preserves_parseSpace : preserves (parseSpace fuel).
Proof. unfold parseSpace. frame. Qed.

Lemma preserves_parseName_loop k n : preserves (parseName_loop k n).
Proof. revert n. induction k; intros; simpl; frame. Qed.

Lemma preserves_parseName : preserves (parseName fuel).
Proof. unfold parseName. frame. apply preserves_parseName_loop. Qed.

Hint Resolve preserves_parseSpace preserves_parseName : frame.

Lemma preserves_scanWhile ok k str r : preserves (scanWhile ok k str r).
Proof. revert str r. induction k; intros; simpl; frame. Qed.

Hint Resolve preserves_scanWhile : frame.

Lemma preserves_parseCharRef : preserves (parseCharRef fuel).
Proof. unfold parseCharRef. frame. Qed.

Lemma preserves_parseEntityRef : preserves (parseEntityRef fuel).
Proof. unfold parseEntityRef. frame. Qed.

Hint Resolve preserves_parseCharRef preserves_parseEntityRef : frame.

Lemma preserves_parseReference : preserves (parseReference fuel).
Proof. unfold parseReference. frame. Qed.

Lemma preserves_parseComment_loop k str : preserves (parseComment_loop k str).
Proof. revert str. induction k; intros; simpl; frame. Qed.

Lemma preserves_parseComment : preserves (parseComment fuel).
Proof. unfold parseComment. frame. apply preserves_parseComment_loop. Qed.

Lemma preserves_parsePITarget : preserves (parsePITarget fuel).
Proof. unfold parsePITarget. frame. Qed.

Lemma preserves_parsePI_loop k s : preserves (parsePI_loop k s).
Proof. revert s. induction k; intros; simpl; frame. Qed.

Hint Resolve preserves_parsePITarget preserves_parsePI_loop : frame.

Lemma preserves_parsePI : preserves (parsePI fuel).
Proof. unfold parsePI. frame. Qed.

Hint Resolve preserves_parseComment preserves_parsePI : frame.

Lemma preserves_parseMisc : preserves (parseMisc fuel).
Proof. unfold parseMisc. frame. Qed.

Lemma preserves_parseSuffix : preserves parseSuffix.
Proof. unfold parseSuffix. frame. Qed.

Hint Resolve preserves_parseSuffix : frame.

Lemma preserves_parseCPs_loop cp sep k cps :
  preserves cp -> preserves (parseCPs_loop fuel cp sep k cps).
Proof. intros Hcp. revert cps. induction k; intros; simpl; frame. Qed.

Hint Resolve preserves_parseCPs_loop : frame.

Lemma preserves_parseChoiceWith cp :
  preserves cp -> preserves (parseChoiceWith fuel cp).
Proof. intros Hcp. unfold parseChoiceWith. frame. Qed.

Lemma preserves_parseSeqWith cp :
  preserves cp -> preserves (parseSeqWith fuel cp).
Proof. intros Hcp. unfold parseSeqWith. frame. Qed.

Hint Resolve preserves_parseChoiceWith preserves_parseSeqWith : frame.

Lemma preserves_parseCP_rec depth : preserves (parseCP_rec fuel depth).
Proof. induction depth; simpl; frame. Qed.

Hint Resolve preserves_parseCP_rec : frame.

Lemma preserves_parseChoice : preserves (parseChoice fuel).
Proof. unfold parseChoice, parseCP. frame. Qed.

Lemma preserves_parseSeq : preserves (parseSeq fuel).
Proof. unfold parseSeq, parseCP. frame. Qed.

Lemma preserves_parseMixed_loop k names : preserves (parseMixed_loop fuel k names).
Proof. revert names. induction k; intros; simpl; frame. Qed.

Hint Resolve preserves_parseMixed_loop : frame.

Lemma preserves_parseMixed : preserves (parseMixed fuel).
Proof. unfold parseMixed. frame. Qed.

Hint Resolve preserves_parseReference preserves_parseMisc
  preserves_parseChoice preserves_parseSeq preserves_parseMixed : frame.

Lemma preserves_parseQuote : preserves parseQuote.
Proof. unfold parseQuote. frame. Qed.

Lemma preserves_parseNmtoken : preserves (parseNmtoken fuel).
Proof. unfold parseNmtoken. frame. Qed.

Lemma preserves_parseEq : preserves (parseEq fuel).
Proof. unfold parseEq. frame. Qed.

Hint Resolve preserves_parseQuote preserves_parseNmtoken preserves_parseEq
  : frame.

Lemma preserves_parseVersionNum_loop k s : preserves (parseVersionNum_loop k s).
Proof. revert s. induction k; intros; simpl; frame. Qed.

Hint Resolve preserves_parseVersionNum_loop : frame.

Lemma preserves_parseVersionNum : preserves (parseVersionNum fuel).
Proof. unfold parseVersionNum. frame. Qed.

Hint Resolve preserves_parseVersionNum : frame.

Lemma preserves_parseVersion : preserves (parseVersion fuel).
Proof. unfold parseVersion. frame. Qed.

Lemma preserves_parseEncName_loop k s : preserves (parseEncName_loop k s).
Proof. revert s. induction k; intros; simpl; frame. Qed.

Hint Resolve preserves_parseEncName_loop : frame.

Lemma preserves_parseEncName : preserves (parseEncName fuel).
Proof. unfold parseEncName. frame. Qed.

Hint Resolve preserves_parseEncName : frame.

Lemma preserves_parseEncoding : preserves (parseEncoding fuel).
Proof. unfold parseEncoding. frame. Qed.

Lemma preserves_parseStandalone : preserves (parseStandalone fuel).
Proof. unfold parseStandalone. frame. Qed.

Hint Resolve preserves_parseVersion preserves_parseEncoding
  preserves_parseStandalone : frame.

Lemma preserves_parseXmlDecl : preserves (parseXmlDecl fuel).
Proof. unfold parseXmlDecl. frame. Qed.

Lemma preserves_parsePERef : preserves (parsePERef fuel).
Proof. unfold parsePERef. frame. Qed.

Hint Resolve preserves_parseXmlDecl preserves_parsePERef : frame.

Lemma preserves_parseEntityValue_loop k q res s :
  preserves (parseEntityValue_loop fuel k q res s).
Proof. revert res s. induction k; intros; simpl; frame. Qed.

Lemma preserves_parseAttValue_loop k q res s :
  preserves (parseAttValue_loop fuel k q res s).
Proof. revert res s. induction k; intros; simpl; frame. Qed.

Lemma preserves_parseSystemLiteral_loop k q s :
  preserves (parseSystemLiteral_loop k q s).
Proof. revert s. induction k; intros; simpl; frame. Qed.

Lemma preserves_parsePubidLiteral_loop k q s r :
  preserves (parsePubidLiteral_loop k q s r).
Proof. revert s r. induction k; intros; simpl; frame. Qed.

Lemma preserves_parseCDSect_loop k s : preserves (parseCDSect_loop k s).
Proof. revert s. induction k; intros; simpl; frame. Qed.

Hint Resolve preserves_parseEntityValue_loop preserves_parseAttValue_loop
  preserves_parseSystemLiteral_loop preserves_parsePubidLiteral_loop
  preserves_parseCDSect_loop : frame.

Lemma preserves_parseEntityValue : preserves (parseEntityValue fuel).
Proof. unfold parseEntityValue. frame. Qed.

Lemma preserves_parseAttValue : preserves (parseAttValue fuel).
Proof. unfold parseAttValue. frame. Qed.

Lemma preserves_parseSystemLiteral : preserves (parseSystemLiteral fuel).
Proof. unfold parseSystemLiteral. frame. Qed.

Lemma preserves_parsePubidLiteral : preserves (parsePubidLiteral fuel).
Proof. unfold parsePubidLiteral. frame. Qed.

Lemma preserves_parseCDSect : preserves (parseCDSect fuel).
Proof. unfold parseCDSect. frame. Qed.

Hint Resolve preserves_parseEntityValue preserves_parseAttValue
  preserves_parseSystemLiteral preserves_parsePubidLiteral
  preserves_parseCDSect : frame.

Lemma preserves_parseAttribute : preserves (parseAttribute fuel).
Proof. unfold parseAttribute. frame. Qed.

Lemma preserves_parseETag : preserves (parseETag fuel).
Proof. unfold parseETag. frame. Qed.

Hint Resolve preserves_parseAttribute preserves_parseETag : frame.

Lemma preserves_parseContents_loop pe k res s :
  preserves pe -> preserves (parseContents_loop fuel pe k res s).
Proof. intros Hpe. revert res s. induction k; intros; simpl; frame. Qed.

Hint Resolve preserves_parseContents_loop : frame.

Lemma preserves_parseContentsWith pe :
  preserves pe -> preserves (parseContentsWith fuel pe).
Proof. intros Hpe. unfold parseContentsWith. frame. Qed.

Lemma preserves_parseElement_attrs k attrs :
  preserves (parseElement_attrs fuel k attrs).
Proof. revert attrs. induction k; intros; simpl; frame. Qed.

Hint Resolve preserves_parseContentsWith preserves_parseElement_attrs : frame.

Lemma preserves_parseElement_rec depth : preserves (parseElement_rec fuel depth).
Proof. induction depth; simpl; frame. Qed.

Hint Resolve preserves_parseElement_rec : frame.

Lemma preserves_parseElement : preserves (parseElement fuel).
Proof. unfold parseElement. frame. Qed.

Lemma preserves_parseContents : preserves (parseContents fuel).
Proof. unfold parseContents, parseElement. frame. Qed.

Lemma preserves_parseChildren : preserves (parseChildren fuel).
Proof. unfold parseChildren. frame. Qed.

Hint Resolve preserves_parseElement preserves_parseChildren : frame.

Lemma preserves_parseContentSpec : preserves (parseContentSpec fuel).
Proof. unfold parseContentSpec. frame. Qed.

Hint Resolve preserves_parseContentSpec : frame.

Lemma preserves_parseElementDecl : preserves (parseElementDecl fuel).
Proof. unfold parseElementDecl. frame. Qed.

Lemma preserves_parseBarList_loop item k acc :
  preserves item -> preserves (parseBarList_loop fuel item k acc).
Proof. intros Hi. revert acc. induction k; intros; simpl; frame. Qed.

Hint Resolve preserves_parseElementDecl preserves_parseBarList_loop : frame.

Lemma preserves_parseNotationType : preserves (parseNotationType fuel).
Proof. unfold parseNotationType. frame. Qed.

Lemma preserves_parseEnum : preserves (parseEnum fuel).
Proof. unfold parseEnum. frame. Qed.

Hint Resolve preserves_parseNotationType preserves_parseEnum : frame.

Lemma preserves_parseAttType : preserves (parseAttType fuel).
Proof. unfold parseAttType. frame. Qed.

Lemma preserves_parseDefaultDecl : preserves (parseDefaultDecl fuel).
Proof. unfold parseDefaultDecl. frame. Qed.

Hint Resolve preserves_parseAttType preserves_parseDefaultDecl : frame.

Lemma preserves_parseAttDef : preserves (parseAttDef fuel).
Proof. unfold parseAttDef. frame. Qed.

Hint Resolve preserves_parseAttDef : frame.

Lemma preserves_parseAttlist_loop k defs : preserves (parseAttlist_loop fuel k defs).
Proof. revert defs. induction k; intros; simpl; frame. Qed.

Hint Resolve preserves_parseAttlist_loop : frame.

Lemma preserves_parseAttlist : preserves (parseAttlist fuel).
Proof. unfold parseAttlist. frame. Qed.

Lemma preserves_parseExternalID : preserves (parseExternalID fuel).
Proof. unfold parseExternalID. frame. Qed.

Lemma preserves_parseNData : preserves (parseNData fuel).
Proof. unfold parseNData. frame. Qed.

Hint Resolve preserves_parseAttlist preserves_parseExternalID
  preserves_parseNData : frame.

Lemma preserves_parseEntityDef : preserves (parseEntityDef fuel).
Proof. unfold parseEntityDef. frame. Qed.

Lemma preserves_parsePEDef : preserves (parsePEDef fuel).
Proof. unfold parsePEDef. frame. Qed.

Hint Resolve preserves_parseEntityDef preserves_parsePEDef : frame.

Lemma preserves_parseEntity : preserves (parseEntity fuel).
Proof. unfold parseEntity. frame. Qed.

Lemma preserves_parseNotation : preserves (parseNotation fuel).
Proof. unfold parseNotation. frame. Qed.

Hint Resolve preserves_parseEntity preserves_parseNotation : frame.

Lemma preserves_parseMarkup : preserves (parseMarkup fuel).
Proof. unfold parseMarkup. frame. Qed.

Hint Resolve preserves_parseMarkup : frame.

Lemma preserves_parseDoctype_loop k ms r : preserves (parseDoctype_loop fuel k ms r).
Proof. revert ms r. induction k; intros; simpl; frame. Qed.

Hint Resolve preserves_parseDoctype_loop : frame.

Lemma preserves_parseDoctype : preserves (parseDoctype fuel).
Proof. unfold parseDoctype. frame. Qed.

Lemma preserves_parseMisc_loop k miscs : preserves (parseMisc_loop fuel k miscs).
Proof. revert miscs. induction k; intros; simpl; frame. Qed.

Hint Resolve preserves_parseDoctype preserves_parseMisc_loop : frame.

Lemma preserves_parseProlog : preserves (parseProlog fuel).
Proof. unfold parseProlog. frame. Qed.

Hint Resolve preserves_parseProlog : frame.

(** The whole parse leaves the source as it was. *)
Lemma preserves_parse : preserves (parse fuel).
Proof. unfold parse. frame. Qed.

End Frame.

(** ** Fuel: a result is kept by every larger fuel

    A production run out of fuel gives [None]; once it has returned, be it
    a value or an error, it returns the same with any larger fuel. *)

Lemma refines_refl {A} (m : M A) : refines m m.
Proof. intros p x H. exact H. Qed.

Lemma refines_None {A} (m : M A) :
  refines (fun _ : parser => @None (res A * parser)) m.
Proof. intros p x H. discriminate. Qed.

Lemma refines_bind {A B} (m1 m2 : M A) (f1 f2 : A -> M B) :
  refines m1 m2 -> (forall a, refines (f1 a) (f2 a)) ->
  refines (bind m1 f1) (bind m2 f2).
Proof.
  intros Hm Hf p x. unfold bind.
  destruct (m1 p) as [[[a|e] q]|] eqn:E; try discriminate;
    rewrite (Hm _ _ E); auto. apply Hf.
Qed.

Lemma refines_branch {A} c (a1 a2 b1 b2 : M A) :
  refines a1 a2 -> refines b1 b2 -> refines (branch c a1 b1) (branch c a2 b2).
Proof. intros Ha Hb p x. unfold branch. destruct (c p); auto. Qed.

Lemma refines_try {A} (m1 m2 : M A) :
  refines m1 m2 -> refines (try m1) (try m2).
Proof.
  intros Hm p x. unfold try.
  destruct (m1 p) as [[r q]|] eqn:E; try discriminate.
  now rewrite (Hm _ _ E).
Qed.

Lemma refines_withParsing {A} l (m1 m2 : M A) :
  refines m1 m2 -> refines (withParsing l m1) (withParsing l m2).
Proof.
  intros Hm p x. unfold withParsing.
  match goal with |- context [m1 ?q] => destruct (m1 q) as [[r0 p0]|] eqn:E end;
    try discriminate.
  now rewrite (Hm _ _ E).
Qed.

Create HintDb fuel.

#[export] Hint Resolve refines_refl refines_None : fuel.

(** Splits a goal [refines m1 m2] along the common syntax of [m1] and [m2]. *)
Ltac fuel_step :=
  match goal with
  | |- refines (bind _ _) (bind _ _) => apply refines_bind; [ | intro ]
  | |- refines (branch _ _ _) (branch _ _ _) => apply refines_branch
  | |- refines (try _) (try _) => apply refines_try
  | |- refines (withParsing _ _) (withParsing _ _) => apply refines_withParsing
  | |- refines (match ?x with _ => _ end) (match ?x with _ => _ end) =>
      destruct x
  | |- refines (let _ := _ in _) _ => cbv zeta
  end.

Ltac more_fuel := repeat fuel_step; auto with fuel.

(** Induction on the fuel of a loop, with the larger fuel taken apart
    alongside. *)
Ltac loop_fuel k k' :=
  induction k as [|k IH]; intros;
  [ apply refines_None
  | destruct k' as [|k']; [ lia | ];
    match goal with H : S k <= S k' |- _ => apply le_S_n in H end;
    simpl; more_fuel ].

Section Fuel.

Context {ext : Externals}.
Variables n m : nat.
Hypothesis Hnm : n <= m.

Lemma more_skipSpace_loop k k' :
  k <= k' -> refines (skipSpace_loop k) (skipSpace_loop k').
Proof. revert k'. loop_fuel k k'. Qed.

Hint Resolve more_skipSpace_loop : fuel.

Lemma more_skipSpace : refines (skipSpace n) (skipSpace m).
Proof. unfold skipSpace. more_fuel. Qed.

Hint Resolve more_skipSpace : fuel.

Lemma more_parseSpace : refines (parseSpace n) (parseSpace m).
Proof. unfold parseSpace. more_fuel. Qed.

Hint Resolve more_parseSpace : fuel.

Lemma more_parseName_loop k k' s :
  k <= k' -> refines (parseName_loop k s) (parseName_loop k' s).
Proof. revert k' s. loop_fuel k k'. Qed.

Hint Resolve more_parseName_loop : fuel.

Lemma more_parseName : refines (parseName n) (parseName m).
Proof. unfold parseName. more_fuel. Qed.

Hint Resolve more_parseName : fuel.

Lemma more_scanWhile ok k k' s r :
  k <= k' -> refines (scanWhile ok k s r) (scanWhile ok k' s r).
Proof. revert k' s r. loop_fuel k k'. Qed.

Hint Resolve more_scanWhile : fuel.

Lemma more_parseCharRef : refines (parseCharRef n) (parseCharRef m).
Proof. unfold parseCharRef. more_fuel. Qed.

Hint Resolve more_parseCharRef : fuel.

Lemma more_parseEntityRef : refines (parseEntityRef n) (parseEntityRef m).
Proof. unfold parseEntityRef. more_fuel. Qed.

Hint Resolve more_parseEntityRef : fuel.

Lemma more_parseReference : refines (parseReference n) (parseReference m).
Proof. unfold parseReference. more_fuel. Qed.

Hint Resolve more_parseReference : fuel.

Lemma more_parseComment_loop k k' s :
  k <= k' -> refines (parseComment_loop k s) (parseComment_loop k' s).
Proof. revert k' s. loop_fuel k k'. Qed.

Hint Resolve more_parseComment_loop : fuel.

Lemma more_parseComment : refines (parseComment n) (parseComment m).
Proof. unfold parseComment. more_fuel. Qed.

Hint Resolve more_parseComment : fuel.

Lemma more_parsePITarget : refines (parsePITarget n) (parsePITarget m).
Proof. unfold parsePITarget. more_fuel. Qed.

Hint Resolve more_parsePITarget : fuel.

Lemma more_parsePI_loop k k' s :
  k <= k' -> refines (parsePI_loop k s) (parsePI_loop k' s).
Proof. revert k' s. loop_fuel k k'. Qed.

Hint Resolve more_parsePI_loop : fuel.

Lemma more_parsePI : refines (parsePI n) (parsePI m).
Proof. unfold parsePI. more_fuel. Qed.

Hint Resolve more_parsePI : fuel.

Lemma more_parseMisc : refines (parseMisc n) (parseMisc m).
Proof. unfold parseMisc. more_fuel. Qed.

Hint Resolve more_parseMisc : fuel.

Lemma more_parseCPs_loop cp cp' sep k k' cps :
  refines cp cp' -> k <= k' ->
  refines (parseCPs_loop n cp sep k cps) (parseCPs_loop m cp' sep k' cps).
Proof. intros Hcp. revert k' cps. loop_fuel k k'. Qed.

Hint Resolve more_parseCPs_loop : fuel.

Lemma more_parseChoiceWith pe pe' :
  refines pe pe' -> refines (parseChoiceWith n pe) (parseChoiceWith m pe').
Proof. intros Hpe. unfold parseChoiceWith. more_fuel. Qed.

Hint Resolve more_parseChoiceWith : fuel.

Lemma more_parseSeqWith pe pe' :
  refines pe pe' -> refines (parseSeqWith n pe) (parseSeqWith m pe').
Proof. intros Hpe. unfold parseSeqWith. more_fuel. Qed.

Hint Resolve more_parseSeqWith : fuel.

Lemma more_parseCP_rec d d' :
  d <= d' -> refines (parseCP_rec n d) (parseCP_rec m d').
Proof. revert d'. loop_fuel d d'. Qed.

Hint Resolve more_parseCP_rec : fuel.

Lemma more_parseCP : refines (parseCP n) (parseCP m).
Proof. unfold parseCP. more_fuel. Qed.

Hint Resolve more_parseCP : fuel.

Lemma more_parseChoice : refines (parseChoice n) (parseChoice m).
Proof. unfold parseChoice, parseCP. more_fuel. Qed.

Hint Resolve more_parseChoice : fuel.

Lemma more_parseSeq : refines (parseSeq n) (parseSeq m).
Proof. unfold parseSeq, parseCP. more_fuel. Qed.

Hint Resolve more_parseSeq : fuel.

Lemma more_parseMixed_loop k k' names :
  k <= k' -> refines (parseMixed_loop n k names) (parseMixed_loop m k' names).
Proof. revert k' names. loop_fuel k k'. Qed.

Hint Resolve more_parseMixed_loop : fuel.

Lemma more_parseMixed : refines (parseMixed n) (parseMixed m).
Proof. unfold parseMixed. more_fuel. Qed.

Hint Resolve more_parseMixed : fuel.

Lemma more_parseNmtoken : refines (parseNmtoken n) (parseNmtoken m).
Proof. unfold parseNmtoken. more_fuel. Qed.

Hint Resolve more_parseNmtoken : fuel.

Lemma more_parseEq : refines (parseEq n) (parseEq m).
Proof. unfold parseEq. more_fuel. Qed.

Hint Resolve more_parseEq : fuel.

Lemma more_parseVersionNum_loop k k' s :
  k <= k' -> refines (parseVersionNum_loop k s) (parseVersionNum_loop k' s).
Proof. revert k' s. loop_fuel k k'. Qed.

Hint Resolve more_parseVersionNum_loop : fuel.

Lemma more_parseVersionNum : refines (parseVersionNum n) (parseVersionNum m).
Proof. unfold parseVersionNum. more_fuel. Qed.

Hint Resolve more_parseVersionNum : fuel.

Lemma more_parseVersion : refines (parseVersion n) (parseVersion m).
Proof. unfold parseVersion. more_fuel. Qed.

Hint Resolve more_parseVersion : fuel.

Lemma more_parseEncName_loop k k' s :
  k <= k' -> refines (parseEncName_loop k s) (parseEncName_loop k' s).
Proof. revert k' s. loop_fuel k k'. Qed.

Hint Resolve more_parseEncName_loop : fuel.

Lemma more_parseEncName : refines (parseEncName n) (parseEncName m).
Proof. unfold parseEncName. more_fuel. Qed.

Hint Resolve more_parseEncName : fuel.

Lemma more_parseEncoding : refines (parseEncoding n) (parseEncoding m).
Proof. unfold parseEncoding. more_fuel. Qed.

Hint Resolve more_parseEncoding : fuel.

Lemma more_parseStandalone : refines (parseStandalone n) (parseStandalone m).
Proof. unfold parseStandalone. more_fuel. Qed.

Hint Resolve more_parseStandalone : fuel.

Lemma more_parseXmlDecl : refines (parseXmlDecl n) (parseXmlDecl m).
Proof. unfold parseXmlDecl. more_fuel. Qed.

Hint Resolve more_parseXmlDecl : fuel.

Lemma more_parsePERef : refines (parsePERef n) (parsePERef m).
Proof. unfold parsePERef. more_fuel. Qed.

Hint Resolve more_parsePERef : fuel.

Lemma more_parseEntityValue_loop k k' q res s :
  k <= k' -> refines (parseEntityValue_loop n k q res s) (parseEntityValue_loop m k' q res s).
Proof. revert k' q res s. loop_fuel k k'. Qed.

Hint Resolve more_parseEntityValue_loop : fuel.

Lemma more_parseAttValue_loop k k' q res s :
  k <= k' -> refines (parseAttValue_loop n k q res s) (parseAttValue_loop m k' q res s).
Proof. revert k' q res s. loop_fuel k k'. Qed.

Hint Resolve more_parseAttValue_loop : fuel.

Lemma more_parseSystemLiteral_loop k k' q s :
  k <= k' -> refines (parseSystemLiteral_loop k q s) (parseSystemLiteral_loop k' q s).
Proof. revert k' q s. loop_fuel k k'. Qed.

Hint Resolve more_parseSystemLiteral_loop : fuel.

Lemma more_parsePubidLiteral_loop k k' q s r :
  k <= k' -> refines (parsePubidLiteral_loop k q s r) (parsePubidLiteral_loop k' q s r).
Proof. revert k' q s r. loop_fuel k k'. Qed.

Hint Resolve more_parsePubidLiteral_loop : fuel.

Lemma more_parseCDSect_loop k k' s :
  k <= k' -> refines (parseCDSect_loop k s) (parseCDSect_loop k' s).
Proof. revert k' s. loop_fuel k k'. Qed.

Hint Resolve more_parseCDSect_loop : fuel.

Lemma more_parseEntityValue : refines (parseEntityValue n) (parseEntityValue m).
Proof. unfold parseEntityValue. more_fuel. Qed.

Hint Resolve more_parseEntityValue : fuel.

Lemma more_parseAttValue : refines (parseAttValue n) (parseAttValue m).
Proof. unfold parseAttValue. more_fuel. Qed.

Hint Resolve more_parseAttValue : fuel.

Lemma more_parseSystemLiteral : refines (parseSystemLiteral n) (parseSystemLiteral m).
Proof. unfold parseSystemLiteral. more_fuel. Qed.

Hint Resolve more_parseSystemLiteral : fuel.

Lemma more_parsePubidLiteral : refines (parsePubidLiteral n) (parsePubidLiteral m).
Proof. unfold parsePubidLiteral. more_fuel. Qed.

Hint Resolve more_parsePubidLiteral : fuel.

Lemma more_parseCDSect : refines (parseCDSect n) (parseCDSect m).
Proof. unfold parseCDSect. more_fuel. Qed.

Hint Resolve more_parseCDSect : fuel.

Lemma more_parseAttribute : refines (parseAttribute n) (parseAttribute m).
Proof. unfold parseAttribute. more_fuel. Qed.

Hint Resolve more_parseAttribute : fuel.

Lemma more_parseETag : refines (parseETag n) (parseETag m).
Proof. unfold parseETag. more_fuel. Qed.

Hint Resolve more_parseETag : fuel.

Lemma more_parseContents_loop pe pe' k k' res s :
  refines pe pe' -> k <= k' ->
  refines (parseContents_loop n pe k res s) (parseContents_loop m pe' k' res s).
Proof. intros Hpe. revert k' res s. loop_fuel k k'. Qed.

Hint Resolve more_parseContents_loop : fuel.

Lemma more_parseContentsWith pe pe' :
  refines pe pe' -> refines (parseContentsWith n pe) (parseContentsWith m pe').
Proof. intros Hpe. unfold parseContentsWith. more_fuel. Qed.

Hint Resolve more_parseContentsWith : fuel.

Lemma more_parseElement_attrs k k' attrs :
  k <= k' -> refines (parseElement_attrs n k attrs) (parseElement_attrs m k' attrs).
Proof. revert k' attrs. loop_fuel k k'. Qed.

Hint Resolve more_parseElement_attrs : fuel.

Lemma more_parseElement_rec d d' :
  d <= d' -> refines (parseElement_rec n d) (parseElement_rec m d').
Proof. revert d'. loop_fuel d d'. Qed.

Hint Resolve more_parseElement_rec : fuel.

Lemma more_parseElement : refines (parseElement n) (parseElement m).
Proof. unfold parseElement. more_fuel. Qed.

Hint Resolve more_parseElement : fuel.

Lemma more_parseContents : refines (parseContents n) (parseContents m).
Proof. unfold parseContents, parseElement. more_fuel. Qed.

Hint Resolve more_parseContents : fuel.

Lemma more_parseChildren : refines (parseChildren n) (parseChildren m).
Proof. unfold parseChildren. more_fuel. Qed.

Hint Resolve more_parseChildren : fuel.

Lemma more_parseContentSpec : refines (parseContentSpec n) (parseContentSpec m).
Proof. unfold parseContentSpec. more_fuel. Qed.

Hint Resolve more_parseContentSpec : fuel.

Lemma more_parseElementDecl : refines (parseElementDecl n) (parseElementDecl m).
Proof. unfold parseElementDecl. more_fuel. Qed.

Hint Resolve more_parseElementDecl : fuel.

Lemma more_parseBarList_loop pe pe' k k' acc :
  refines pe pe' -> k <= k' ->
  refines (parseBarList_loop n pe k acc) (parseBarList_loop m pe' k' acc).
Proof. intros Hpe. revert k' acc. loop_fuel k k'. Qed.

Hint Resolve more_parseBarList_loop : fuel.

Lemma more_parseNotationType : refines (parseNotationType n) (parseNotationType m).
Proof. unfold parseNotationType. more_fuel. Qed.

Hint Resolve more_parseNotationType : fuel.

Lemma more_parseEnum : refines (parseEnum n) (parseEnum m).
Proof. unfold parseEnum. more_fuel. Qed.

Hint Resolve more_parseEnum : fuel.

Lemma more_parseAttType : refines (parseAttType n) (parseAttType m).
Proof. unfold parseAttType. more_fuel. Qed.

Hint Resolve more_parseAttType : fuel.

Lemma more_parseDefaultDecl : refines (parseDefaultDecl n) (parseDefaultDecl m).
Proof. unfold parseDefaultDecl. more_fuel. Qed.

Hint Resolve more_parseDefaultDecl : fuel.

Lemma more_parseAttDef : refines (parseAttDef n) (parseAttDef m).
Proof. unfold parseAttDef. more_fuel. Qed.

Hint Resolve more_parseAttDef : fuel.

Lemma more_parseAttlist_loop k k' defs :
  k <= k' -> refines (parseAttlist_loop n k defs) (parseAttlist_loop m k' defs).
Proof. revert k' defs. loop_fuel k k'. Qed.

Hint Resolve more_parseAttlist_loop : fuel.

Lemma more_parseAttlist : refines (parseAttlist n) (parseAttlist m).
Proof. unfold parseAttlist. more_fuel. Qed.

Hint Resolve more_parseAttlist : fuel.

Lemma more_parseExternalID : refines (parseExternalID n) (parseExternalID m).
Proof. unfold parseExternalID. more_fuel. Qed.

Hint Resolve more_parseExternalID : fuel.

Lemma more_parseNData : refines (parseNData n) (parseNData m).
Proof. unfold parseNData. more_fuel. Qed.

Hint Resolve more_parseNData : fuel.

Lemma more_parseEntityDef : refines (parseEntityDef n) (parseEntityDef m).
Proof. unfold parseEntityDef. more_fuel. Qed.

Hint Resolve more_parseEntityDef : fuel.

Lemma more_parsePEDef : refines (parsePEDef n) (parsePEDef m).
Proof. unfold parsePEDef. more_fuel. Qed.

Hint Resolve more_parsePEDef : fuel.

Lemma more_parseEntity : refines (parseEntity n) (parseEntity m).
Proof. unfold parseEntity. more_fuel. Qed.

Hint Resolve more_parseEntity : fuel.

Lemma more_parseNotation : refines (parseNotation n) (parseNotation m).
Proof. unfold parseNotation. more_fuel. Qed.

Hint Resolve more_parseNotation : fuel.

Lemma more_parseMarkup : refines (parseMarkup n) (parseMarkup m).
Proof. unfold parseMarkup. more_fuel. Qed.

Hint Resolve more_parseMarkup : fuel.

Lemma more_parseDoctype_loop k k' ms r :
  k <= k' -> refines (parseDoctype_loop n k ms r) (parseDoctype_loop m k' ms r).
Proof. revert k' ms r. loop_fuel k k'. Qed.

Hint Resolve more_parseDoctype_loop : fuel.

Lemma more_parseDoctype : refines (parseDoctype n) (parseDoctype m).
Proof. unfold parseDoctype. more_fuel. Qed.

Hint Resolve more_parseDoctype : fuel.

Lemma more_parseMisc_loop k k' miscs :
  k <= k' -> refines (parseMisc_loop n k miscs) (parseMisc_loop m k' miscs).
Proof. revert k' miscs. loop_fuel k k'. Qed.

Hint Resolve more_parseMisc_loop : fuel.

Lemma more_parseProlog : refines (parseProlog n) (parseProlog m).
Proof. unfold parseProlog. more_fuel. Qed.

Hint Resolve more_parseProlog : fuel.

(** A result of the whole parse is kept by every larger fuel. *)
Lemma more_parse : refines (parse n) (parse m).
Proof. unfold parse. more_fuel. Qed.

End Fuel.

(** ** Ordered alternatives (C1) *)

(** C1, as stated, fails: a production that returns failure keeps the cursor
    where the failure was found (the amended statement is at the end of this
    file).  On the input [&;] parseEntityRef consumes
    the ampersand, fails on the name, and returns with the cursor at 1, not
    at the entry position 0. *)
Lemma C1_counterexample :
  exists e p',
    run (parseEntityRef (ext := asciiExternals) 8) (runes "&;")
      = Some (Err e, p')
    /\ cursor p' = 1
    /\ cursor p' <> cursor (NewParser (runes "&;")).
Proof.
  eexists. eexists. split; [ vm_compute; reflexivity | ].
  split; [ reflexivity | discriminate ].
Qed.

(** ** Evaluations on concrete inputs

    The results below hold for every fuel from a small bound on; the fuel is
    written [k + n] with an arbitrary [n]. *)

(** C4: [<a></b>] is rejected because the end-tag name differs from the
    start-tag name, and so is [<a></A>] (the comparison is exact);
    [<a></a>] and [<a/>] both give an element named a with no attributes and
    no contents, and differ in the empty-tag flag only. *)
Theorem C4_start_and_end_tag (n : nat) :
  (exists e,
     run (parseElement (ext := asciiExternals) (8 + n)) (runes "<a></b>")
       = Some (Err e, at_ (runes "<a></b>") 7)
     /\ errCause e = EndTagMismatch (runes "b") (runes "a"))
  /\ (exists e,
     run (parseElement (ext := asciiExternals) (8 + n)) (runes "<a></A>")
       = Some (Err e, at_ (runes "<a></A>") 7)
     /\ errCause e = EndTagMismatch (runes "A") (runes "a"))
  /\ run (parseElement (ext := asciiExternals) (8 + n)) (runes "<a></a>")
     = Some (Ok (mkElement (runes "a") [] [] false), at_ (runes "<a></a>") 7)
  /\ run (parseElement (ext := asciiExternals) (8 + n)) (runes "<a/>")
     = Some (Ok (mkElement (runes "a") [] [] true), at_ (runes "<a/>") 4).
Proof.
  split; [ | split; [ | split ] ].
  - eexists. split; vm_compute; reflexivity.
  - eexists. split; vm_compute; reflexivity.
  - vm_compute; reflexivity.
  - vm_compute; reflexivity.
Qed.

(** C2: parseCharRef takes the digits after [&#x] with [isNum] or [isAlpha],
    so a letter outside a-f, A-F is accepted: [&#xU;] parses to a hex
    reference with value U, against the grammar comment of the function
    ([0-9a-fA-F]+).  The decimal form and the empty hex form behave as
    documented: [&#65;] gives 65, [&#x41;] gives 41, [&#x;] and [&#6a;]
    fail. *)
Theorem C2_hex_digits_not_checked (n : nat) :
  run (parseCharRef (ext := asciiExternals) (4 + n)) (runes "&#xU;")
  = Some (Ok {| CharRef_Prefix := runes "&#x"; CharRef_Value := runes "U" |},
          at_ (runes "&#xU;") 5)
  /\ run (parseCharRef (ext := asciiExternals) (4 + n)) (runes "&#65;")
     = Some (Ok {| CharRef_Prefix := runes "&#"; CharRef_Value := runes "65" |},
             at_ (runes "&#65;") 5)
  /\ run (parseCharRef (ext := asciiExternals) (4 + n)) (runes "&#x41;")
     = Some (Ok {| CharRef_Prefix := runes "&#x"; CharRef_Value := runes "41" |},
             at_ (runes "&#x41;") 6)
  /\ (exists e,
        run (parseCharRef (ext := asciiExternals) (4 + n)) (runes "&#x;")
        = Some (Err e, at_ (runes "&#x;") 3))
  /\ (exists e,
        run (parseCharRef (ext := asciiExternals) (4 + n)) (runes "&#6a;")
        = Some (Err e, at_ (runes "&#6a;") 3)).
Proof.
  split; [ | split; [ | split; [ | split ] ] ];
    try (vm_compute; reflexivity);
    eexists; vm_compute; reflexivity.
Qed.
(** The same for every classifier: whatever [isAlpha] accepts is taken as a
    hex digit.  (The tests of parser.go need [isAlpha] to accept U and T,
    since [parseEncName] must read UTF-8.) *)
Lemma parseCharRef_takes_isAlpha {ext : Externals} (n : nat) (r : rune) :
  isAlpha r = true ->
  isNum (ch ";") = false -> isAlpha (ch ";") = false ->
  run (parseCharRef (2 + n)) (runes "&#x" ++ [r] ++ runes ";")
  = Some (Ok {| CharRef_Prefix := runes "&#x";
                CharRef_Value := string_of_rune r |},
          at_ (runes "&#x" ++ [r] ++ runes ";") 5).
Proof.
  intros Hr Hn Ha.
  cbv -[isNum isAlpha string_of_rune] in *.
  rewrite Hr.
  destruct (isNum r); rewrite ?Hn, ?Ha; reflexivity.
Qed.

(** ** Inversion of the matching helpers *)

Lemma Must_inv_Ok {ext : Externals} r p u p' :
  Must r p = Some (Ok u, p') -> Test r p = true /\ p' = stepped 1 p.
Proof.
  unfold Must, branch. destruct (Test r p); simpl; intros H.
  - inversion H; subst. auto.
  - discriminate.
Qed.

Lemma Must_Ok {ext : Externals} r p :
  Test r p = true -> Must r p = Some (Ok tt, stepped 1 p).
Proof. intros H. unfold Must, branch. now rewrite H. Qed.

Lemma Musts_inv_Ok s p u p' :
  Musts s p = Some (Ok u, p') -> Tests s p = true /\ p' = stepped (len s) p.
Proof.
  unfold Musts, branch. destruct (Tests s p); simpl; intros H.
  - inversion H; subst. auto.
  - discriminate.
Qed.

Lemma ContainsAny_iff s chars :
  ContainsAny s chars = true <-> exists c, In c s /\ In c chars.
Proof.
  unfold ContainsAny. rewrite existsb_exists. split.
  - intros (c & Hc & H). apply existsb_exists in H.
    destruct H as (d & Hd & E). apply Z.eqb_eq in E. subst d. eauto.
  - intros (c & Hc & Hd). exists c. split; auto.
    apply existsb_exists. exists c. split; auto. apply Z.eqb_refl.
Qed.

(** ** The target of a processing instruction (C3) *)

(** C3: once the Name is parsed, parsePITarget fails exactly when some
    character of the name is one of x, m, l, X, M, L, and returns the name
    otherwise; so a name that is not xml in any letter case, such as box, is
    rejected all the same. *)
Theorem C3_PITarget_is_a_character_test {ext : Externals} (fuel : nat)
  (p p' : parser) (n : gostring)
  (H : parseName fuel p = Some (Ok n, p')) :
  ((exists e, parsePITarget fuel p = Some (Err e, p'))
   <-> exists c, In c n /\ In c (runes "xmlXML"))
  /\ (parsePITarget fuel p = Some (Ok n, p')
      <-> ~ exists c, In c n /\ In c (runes "xmlXML"))
  /\ (exists e q,
        parseName (ext := asciiExternals) 8 (NewParser (runes "box"))
        = Some (Ok (runes "box"), q)
        /\ EqualFold_xml (runes "box") = false
        /\ parsePITarget (ext := asciiExternals) 8 (NewParser (runes "box"))
           = Some (Err e, q)).
Proof.
  assert (E : parsePITarget fuel p
              = (if ContainsAny n (runes "xmlXML")
                 then error (Msg "PI target can not contain 'xml'")
                 else ret n) p').
  { unfold parsePITarget. erewrite bind_Ok; [ reflexivity | exact H ]. }
  pose proof (ContainsAny_iff n (runes "xmlXML")) as HC.
  destruct (ContainsAny n (runes "xmlXML")) eqn:EC.
  - split; [ | split ].
    + split; [ intros _; now apply HC | intros _ ].
      rewrite E. unfold error. eauto.
    + split.
      * rewrite E. unfold error. discriminate.
      * intros Hn. exfalso. apply Hn. now apply HC.
    + eexists. eexists. repeat split; vm_compute; reflexivity.
  - split; [ | split ].
    + split.
      * intros (e & He). rewrite E in He. discriminate.
      * intros Hc. apply HC in Hc. discriminate.
    + split; [ | intros _; now rewrite E ].
      intros _ Hc. apply HC in Hc. discriminate.
    + eexists. eexists. repeat split; vm_compute; reflexivity.
Qed.

Lemma C3_PITarget_witness :
  parseName (ext := asciiExternals) 8 (NewParser (runes "box"))
  = Some (Ok (runes "box"), at_ (runes "box") 3)
  /\ exists e,
       parsePITarget (ext := asciiExternals) 8 (NewParser (runes "box"))
       = Some (Err e, at_ (runes "box") 3).
Proof.
  assert (H : parseName (ext := asciiExternals) 8 (NewParser (runes "box"))
              = Some (Ok (runes "box"), at_ (runes "box") 3))
    by (vm_compute; reflexivity).
  split; [ exact H | ].
  apply (proj1 (@C3_PITarget_is_a_character_test asciiExternals 8 _ _ _ H)).
  exists (ch "x"). split; vm_compute; auto.
Defined.

(** ** Mixed content (C5, C10) *)

(** Splits a successful run of [m ;; k] into the two runs. *)
Ltac bind_ok H :=
  let a := fresh "a" in
  let q := fresh "q" in
  let H1 := fresh H "_head" in
  apply bind_inv_Ok in H; destruct H as (a & q & H1 & H).

Ltac bind_as H a q H1 :=
  apply bind_inv_Ok in H; destruct H as (a & q & H1 & H).

(** The loop of parseMixed returns only through its [break], which is taken
    on a closing parenthesis and steps over it. *)
Lemma parseMixed_loop_stops_after_paren {ext : Externals} fuel k names p
  names' p' :
  parseMixed_loop fuel k names p = Some (Ok names', p') ->
  exists p0, Test (ch ")") p0 = true /\ p' = stepped 1 p0.
Proof.
  revert names p. induction k as [|k IH]; intros names p H; simpl in H.
  - discriminate.
  - bind_ok H. unfold branch in H.
    destruct (Test (ch ")") q) eqn:T.
    + exists q. split; auto. cbv [bind Step StepN ret] in H. now inversion H.
    + destruct (isEnd q); [ discriminate | ].
      bind_ok H. bind_ok H. bind_ok H. eauto.
Qed.

Lemma parseMixed_inv {ext : Externals} fuel p m p' :
  parseMixed fuel p = Some (Ok m, p') ->
  exists p0 p1,
    Test (ch ")") p0 = true /\ p1 = stepped 1 p0 /\
    ((Mixed_Names m = [] /\ p' = p1) \/
     (Mixed_Names m <> [] /\ Test (ch "*") p1 = true /\ p' = stepped 1 p1)).
Proof.
  intros H. unfold parseMixed in H.
  bind_ok H. bind_ok H. bind_ok H. bind_ok H.
  destruct (parseMixed_loop_stops_after_paren _ _ _ _ H_head2)
    as (p0 & T & E).
  exists p0, q2. split; [ exact T | split; [ exact E | ] ].
  bind_ok H. inversion H; subst; clear H. simpl.
  destruct a2 as [|x names]; simpl in H_head3.
  - left. inversion H_head3; subst. auto.
  - right. apply Must_inv_Ok in H_head3. destruct H_head3 as [T' E'].
    split; [ discriminate | auto ].
Qed.

(** C5: [(#PCDATA)] gives no names, [(#PCDATA|a|b)*] gives a then b, and
    [(#PCDATA|a)] fails for want of the star; in general a successful
    parseMixed with a non-empty name list has consumed a star right after
    the closing parenthesis. *)
Theorem C5_mixed_names_need_star (n : nat) :
  run (parseMixed (ext := asciiExternals) (4 + n)) (runes "(#PCDATA)")
  = Some (Ok {| Mixed_Names := [] |}, at_ (runes "(#PCDATA)") 9)
  /\ run (parseMixed (ext := asciiExternals) (4 + n)) (runes "(#PCDATA|a|b)*")
     = Some (Ok {| Mixed_Names := [runes "a"; runes "b"] |},
             at_ (runes "(#PCDATA|a|b)*") 14)
  /\ (exists e,
        run (parseMixed (ext := asciiExternals) (4 + n)) (runes "(#PCDATA|a)")
        = Some (Err e, at_ (runes "(#PCDATA|a)") 11)
        /\ errCause e = ExpectedRune (ch "*"))
  /\ (forall (ext : Externals) fuel p m p',
        parseMixed fuel p = Some (Ok m, p') ->
        Mixed_Names m <> [] ->
        exists p0,
          Test (ch ")") p0 = true /\ Test (ch "*") (stepped 1 p0) = true
          /\ p' = stepped 2 p0).
Proof.
  split; [ | split; [ | split ] ].
  - vm_compute; reflexivity.
  - vm_compute; reflexivity.
  - eexists. split; vm_compute; reflexivity.
  - intros ext fuel p m p' H Hne.
    destruct (parseMixed_inv _ _ H) as (p0 & p1 & T & E & [[Hn _]|(_ & T' & E')]).
    + contradiction.
    + subst p1. exists p0. split; [ exact T | split; [ exact T' | ] ].
      subst p'. unfold stepped; simpl. f_equal. lia.
Qed.

(** C10: with no names parseMixed stops right after the closing parenthesis
    and leaves a following star where it is ([(#PCDATA)*] stops at 9), so
    the declaration [<!ELEMENT a (#PCDATA)*>] fails on the star where [>] is
    required, while [<!ELEMENT a (#PCDATA)>] and [<!ELEMENT a (#PCDATA|b)*>]
    parse. *)
Theorem C10_star_after_empty_mixed (n : nat) :
  (forall (ext : Externals) fuel p m p',
     parseMixed fuel p = Some (Ok m, p') ->
     Mixed_Names m = [] ->
     exists p0, Test (ch ")") p0 = true /\ p' = stepped 1 p0)
  /\ run (parseMixed (ext := asciiExternals) (4 + n)) (runes "(#PCDATA)*")
     = Some (Ok {| Mixed_Names := [] |}, at_ (runes "(#PCDATA)*") 9)
  /\ (exists e,
        run (parseElementDecl (ext := asciiExternals) (8 + n))
          (runes "<!ELEMENT a (#PCDATA)*>")
        = Some (Err e, at_ (runes "<!ELEMENT a (#PCDATA)*>") 21)
        /\ errCause e = ExpectedRune (ch ">"))
  /\ run (parseElementDecl (ext := asciiExternals) (8 + n))
       (runes "<!ELEMENT a (#PCDATA)>")
     = Some (Ok {| ElementDecl_Name := runes "a";
                   ElementDecl_ContentSpec := CSMixed {| Mixed_Names := [] |} |},
             at_ (runes "<!ELEMENT a (#PCDATA)>") 22)
  /\ run (parseElementDecl (ext := asciiExternals) (8 + n))
       (runes "<!ELEMENT a (#PCDATA|b)*>")
     = Some (Ok {| ElementDecl_Name := runes "a";
                   ElementDecl_ContentSpec :=
                     CSMixed {| Mixed_Names := [runes "b"] |} |},
             at_ (runes "<!ELEMENT a (#PCDATA|b)*>") 25).
Proof.
  split; [ | split; [ | split; [ | split ] ] ].
  - intros ext fuel p m p' H Hn.
    destruct (parseMixed_inv _ _ H) as (p0 & p1 & T & E & [[_ E']|(Hne & _)]).
    + exists p0. split; congruence.
    + contradiction.
  - vm_compute; reflexivity.
  - eexists. split; vm_compute; reflexivity.
  - vm_compute; reflexivity.
  - vm_compute; reflexivity.
Qed.

(** ** Attribute types (C6) *)

Lemma Tests_firstn s p :
  Tests s p = true ->
  cursor p + length s <= length (source p)
  /\ firstn (length s) (skipn (cursor p) (source p)) = s.
Proof.
  unfold Tests.
  destruct (length (source p) <? cursor p + length s) eqn:E;
    [ discriminate | ].
  apply Nat.ltb_ge in E. intros H. apply runes_eqb_eq in H.
  split; [ exact E | ].
  now replace (cursor p + length s - cursor p) with (length s) in H by lia.
Qed.

Lemma firstn_Tests s p :
  cursor p + length s <= length (source p) ->
  firstn (length s) (skipn (cursor p) (source p)) = s ->
  Tests s p = true.
Proof.
  intros L H. unfold Tests.
  destruct (length (source p) <? cursor p + length s) eqn:E.
  - apply Nat.ltb_lt in E. lia.
  - replace (cursor p + length s - cursor p) with (length s) by lia.
    apply runes_eqb_eq. exact H.
Qed.

(** A literal that matches at the cursor makes each of its prefixes match. *)
Lemma Tests_prefix s t p :
  Tests (s ++ t) p = true -> Tests s p = true.
Proof.
  intros H. apply Tests_firstn in H. destruct H as [L H].
  rewrite length_app in L, H.
  apply firstn_Tests; [ lia | ].
  assert (E : firstn (length s)
                (firstn (length s + length t) (skipn (cursor p) (source p)))
              = firstn (length s) (s ++ t)) by now rewrite H.
  rewrite firstn_firstn in E.
  replace (Nat.min (length s) (length s + length t)) with (length s) in E
    by lia.
  rewrite E, firstn_app, firstn_all, Nat.sub_diag. simpl.
  apply app_nil_r.
Qed.

(** Two literals that match at the same cursor start with the same rune. *)
Lemma Tests_same_head a s b t p :
  Tests (a :: s) p = true -> Tests (b :: t) p = true -> a = b.
Proof.
  intros Ha Hb.
  apply (Tests_prefix [a] s) in Ha. apply (Tests_prefix [b] t) in Hb.
  apply Tests_firstn in Ha. apply Tests_firstn in Hb.
  destruct Ha as [_ Ha]. destruct Hb as [_ Hb].
  simpl length in Ha, Hb. congruence.
Qed.

Lemma Tests_other_head a s b t p :
  Tests (a :: s) p = true -> a <> b -> Tests (b :: t) p = false.
Proof.
  intros Ha Hab. destruct (Tests (b :: t) p) eqn:Hb; [ | reflexivity ].
  exfalso. apply Hab. eapply Tests_same_head; eauto.
Qed.

(** The switch of parseAttType cannot fall through: under the condition
    that guards it, the token it picks is never left at its zero value. *)
Lemma attTokenAt_guarded {ext : Externals} p :
  Tests (AttToken_ToString AttTokenID) p
  || Tests (AttToken_ToString AttTokenIDREF) p
  || Tests (AttToken_ToString AttTokenIDREFS) p
  || Tests (AttToken_ToString AttTokenENTITY) p
  || Tests (AttToken_ToString AttTokenENTITIES) p
  || Tests (AttToken_ToString AttTokenNMTOKEN) p
  || Tests (AttToken_ToString AttTokenNMTOKENS) p = true ->
  Tests (AttToken_ToString (attTokenAt p)) p = true.
Proof.
  intros G. unfold attTokenAt.
  destruct (Tests (AttToken_ToString AttTokenID) p) eqn:E1.
  - destruct (Tests (AttToken_ToString AttTokenIDREF) p) eqn:E2; auto.
    destruct (Tests (AttToken_ToString AttTokenIDREFS) p) eqn:E3; auto.
  - destruct (Tests (AttToken_ToString AttTokenENTITY) p) eqn:E4; auto.
    destruct (Tests (AttToken_ToString AttTokenENTITIES) p) eqn:E5; auto.
    destruct (Tests (AttToken_ToString AttTokenNMTOKEN) p) eqn:E6.
    + destruct (Tests (AttToken_ToString AttTokenNMTOKENS) p) eqn:E7; auto.
    + exfalso.
      assert (E2 : Tests (AttToken_ToString AttTokenIDREF) p = false).
      { destruct (Tests (AttToken_ToString AttTokenIDREF) p) eqn:E; auto.
        apply (Tests_prefix (runes "ID") (runes "REF")) in E.
        change (runes "ID") with (AttToken_ToString AttTokenID) in E.
        congruence. }
      assert (E3 : Tests (AttToken_ToString AttTokenIDREFS) p = false).
      { destruct (Tests (AttToken_ToString AttTokenIDREFS) p) eqn:E; auto.
        apply (Tests_prefix (runes "ID") (runes "REFS")) in E.
        change (runes "ID") with (AttToken_ToString AttTokenID) in E.
        congruence. }
      assert (E7 : Tests (AttToken_ToString AttTokenNMTOKENS) p = false).
      { destruct (Tests (AttToken_ToString AttTokenNMTOKENS) p) eqn:E; auto.
        apply (Tests_prefix (runes "NMTOKEN") (runes "S")) in E.
        change (runes "NMTOKEN") with (AttToken_ToString AttTokenNMTOKEN) in E.
        congruence. }
      rewrite E2, E3, E7 in G. discriminate.
Qed.

(** What parseAttType does once the literal of some token of the two
    families matches at the cursor. *)
Lemma parseAttType_token {ext : Externals} fuel p :
  Tests (runes "CDATA") p = false ->
  Tests (AttToken_ToString (attTokenAt p)) p = true ->
  attTokenAt p <> AttTokenCDATA ->
  parseAttType fuel p
  = Some (Ok (ATToken (attTokenAt p)),
          stepped (length (AttToken_ToString (attTokenAt p))) p).
Proof.
  intros HC HT HN. unfold parseAttType.
  unfold branch at 1.
  change (AttToken_ToString AttTokenCDATA) with (runes "CDATA").
  rewrite HC. unfold branch at 1.
  assert (G : Tests (AttToken_ToString AttTokenID) p
              || Tests (AttToken_ToString AttTokenIDREF) p
              || Tests (AttToken_ToString AttTokenIDREFS) p
              || Tests (AttToken_ToString AttTokenENTITY) p
              || Tests (AttToken_ToString AttTokenENTITIES) p
              || Tests (AttToken_ToString AttTokenNMTOKEN) p
              || Tests (AttToken_ToString AttTokenNMTOKENS) p = true).
  { destruct (attTokenAt p); try congruence; rewrite HT;
      rewrite ?orb_true_r; reflexivity. }
  rewrite G. cbv [bind look ret StepN stepped].
  destruct (attTokenAt p); try congruence; reflexivity.
Qed.

(** Closes [Tests t p = false] from a literal [H] that matches at [p] and
    starts with another rune; [rest] is [t] without its first rune. *)
Ltac differs H rest :=
  match goal with
  | |- Tests ?lit _ = false =>
      eapply Tests_other_head with (b := hd 0%Z lit) (t := rest);
      [ exact H | let X := fresh in intro X; vm_compute in X; discriminate X ]
  end.

(** C6: the overlapping keywords are resolved by the longest literal that
    matches at the cursor.  Where IDREFS matches the token is IDREFS; where
    IDREF matches and IDREFS does not, IDREF; where ID matches and IDREF
    does not, ID; where NMTOKENS matches, NMTOKENS; where NMTOKEN matches
    and NMTOKENS does not, NMTOKEN.  Each time the cursor moves by the
    length of the keyword returned. *)
Theorem C6_longest_keyword_wins {ext : Externals} (fuel : nat) (p : parser) :
  (Tests (runes "IDREFS") p = true ->
   parseAttType fuel p = Some (Ok (ATToken AttTokenIDREFS), stepped 6 p))
  /\ (Tests (runes "IDREF") p = true -> Tests (runes "IDREFS") p = false ->
      parseAttType fuel p = Some (Ok (ATToken AttTokenIDREF), stepped 5 p))
  /\ (Tests (runes "ID") p = true -> Tests (runes "IDREF") p = false ->
      parseAttType fuel p = Some (Ok (ATToken AttTokenID), stepped 2 p))
  /\ (Tests (runes "NMTOKENS") p = true ->
      parseAttType fuel p = Some (Ok (ATToken AttTokenNMTOKENS), stepped 8 p))
  /\ (Tests (runes "NMTOKEN") p = true -> Tests (runes "NMTOKENS") p = false ->
      parseAttType fuel p = Some (Ok (ATToken AttTokenNMTOKEN), stepped 7 p)).
Proof.
  split; [ | split; [ | split; [ | split ] ] ].
  - intros H.
    pose proof (Tests_prefix (runes "IDREF") (runes "S") p H) as H5.
    pose proof (Tests_prefix (runes "ID") (runes "REFS") p H) as H2.
    assert (HC : Tests (runes "CDATA") p = false)
      by differs H (runes "DATA").
    assert (E : attTokenAt p = AttTokenIDREFS).
    { unfold attTokenAt, AttToken_ToString. now rewrite H2, H5, H. }
    rewrite (parseAttType_token fuel p HC); rewrite E; auto; discriminate.
  - intros H H6.
    pose proof (Tests_prefix (runes "ID") (runes "REF") p H) as H2.
    assert (HC : Tests (runes "CDATA") p = false)
      by differs H (runes "DATA").
    assert (E : attTokenAt p = AttTokenIDREF).
    { unfold attTokenAt, AttToken_ToString. now rewrite H2, H, H6. }
    rewrite (parseAttType_token fuel p HC); rewrite E; auto; discriminate.
  - intros H H5.
    assert (HC : Tests (runes "CDATA") p = false)
      by differs H (runes "DATA").
    assert (E : attTokenAt p = AttTokenID).
    { unfold attTokenAt, AttToken_ToString. now rewrite H, H5. }
    rewrite (parseAttType_token fuel p HC); rewrite E; auto; discriminate.
  - intros H.
    pose proof (Tests_prefix (runes "NMTOKEN") (runes "S") p H) as H7.
    assert (HC : Tests (runes "CDATA") p = false)
      by differs H (runes "DATA").
    assert (HI : Tests (runes "ID") p = false)
      by differs H (runes "D").
    assert (HE : Tests (runes "ENTITY") p = false)
      by differs H (runes "NTITY").
    assert (HE' : Tests (runes "ENTITIES") p = false)
      by differs H (runes "NTITIES").
    assert (E : attTokenAt p = AttTokenNMTOKENS).
    { unfold attTokenAt, AttToken_ToString. now rewrite HI, HE, HE', H7, H. }
    rewrite (parseAttType_token fuel p HC); rewrite E; auto; discriminate.
  - intros H H8.
    assert (HC : Tests (runes "CDATA") p = false)
      by differs H (runes "DATA").
    assert (HI : Tests (runes "ID") p = false)
      by differs H (runes "D").
    assert (HE : Tests (runes "ENTITY") p = false)
      by differs H (runes "NTITY").
    assert (HE' : Tests (runes "ENTITIES") p = false)
      by differs H (runes "NTITIES").
    assert (E : attTokenAt p = AttTokenNMTOKEN).
    { unfold attTokenAt, AttToken_ToString. now rewrite HI, HE, HE', H, H8. }
    rewrite (parseAttType_token fuel p HC); rewrite E; auto; discriminate.
Qed.

Lemma C6_longest_keyword_witness :
  (Tests (runes "IDREFS") (NewParser (runes "IDREFS"))
   = true
   /\ parseAttType (ext := asciiExternals) 4 (NewParser (runes "IDREFS"))
      = Some (Ok (ATToken AttTokenIDREFS), at_ (runes "IDREFS") 6))
  /\ parseAttType (ext := asciiExternals) 4 (NewParser (runes "IDREF"))
     = Some (Ok (ATToken AttTokenIDREF), at_ (runes "IDREF") 5)
  /\ parseAttType (ext := asciiExternals) 4 (NewParser (runes "ID"))
     = Some (Ok (ATToken AttTokenID), at_ (runes "ID") 2)
  /\ parseAttType (ext := asciiExternals) 4 (NewParser (runes "NMTOKENS"))
     = Some (Ok (ATToken AttTokenNMTOKENS), at_ (runes "NMTOKENS") 8)
  /\ parseAttType (ext := asciiExternals) 4 (NewParser (runes "NMTOKEN"))
     = Some (Ok (ATToken AttTokenNMTOKEN), at_ (runes "NMTOKEN") 7).
Proof.
  split; [ split; [ vm_compute; reflexivity | ] | ].
  - apply (proj1 (@C6_longest_keyword_wins asciiExternals 4
                    (NewParser (runes "IDREFS")))).
    vm_compute; reflexivity.
  - split; [ | split; [ | split ] ].
    + apply (proj1 (proj2 (@C6_longest_keyword_wins asciiExternals 4
                             (NewParser (runes "IDREF")))));
        vm_compute; reflexivity.
    + apply (proj1 (proj2 (proj2 (@C6_longest_keyword_wins asciiExternals 4
                                    (NewParser (runes "ID"))))));
        vm_compute; reflexivity.
    + apply (proj1 (proj2 (proj2 (proj2
               (@C6_longest_keyword_wins asciiExternals 4
                  (NewParser (runes "NMTOKENS")))))));
        vm_compute; reflexivity.
    + apply (proj2 (proj2 (proj2 (proj2
               (@C6_longest_keyword_wins asciiExternals 4
                  (NewParser (runes "NMTOKEN")))))));
        vm_compute; reflexivity.
Defined.

(** ** The XML declaration (C7) *)

Lemma withParsing_inv_Ok {A} l (m : M A) p a p' :
  withParsing l m p = Some (Ok a, p') ->
  exists q, m (relabel l p) = Some (Ok a, q) /\ p' = relabel (parsing p) q.
Proof.
  unfold withParsing, relabel.
  match goal with |- context [m ?s] => destruct (m s) as [[r q]|] end;
    intros H; inversion H; subst. eauto.
Qed.

(** The parts of a declaration that parses, one after the other: the
    version; for each of the two optional parts the white space and the
    keyword looked for; the closing [?>].  Where the keyword follows the
    white space the part is parsed from before the white space; where it does
    not, the cursor goes back, nothing is consumed, and the field keeps its
    zero value. *)
Lemma parseXmlDecl_parts {ext : Externals} fuel p x p' :
  parseXmlDecl fuel p = Some (Ok x, p') <->
  Tests (runes "<?xml") p = true
  /\ exists q1 q1' q2 q2' q3 q3',
       parseVersion fuel (stepped 5 (relabel (runes "XML Declaration") p))
       = Some (Ok (Version x), q1)
       /\ skipSpace fuel q1 = Some (Ok tt, q1')
       /\ (if Tests (runes "encoding") q1'
           then parseEncoding fuel q1 = Some (Ok (Encoding x), q2)
           else Encoding x = [] /\ q2 = q1)
       /\ skipSpace fuel q2 = Some (Ok tt, q2')
       /\ (if Tests (runes "standalone") q2'
           then parseStandalone fuel q2 = Some (Ok (Standalone x), q3)
           else Standalone x = false /\ q3 = q2)
       /\ skipSpace fuel q3 = Some (Ok tt, q3')
       /\ Tests (runes "?>") q3' = true
       /\ p' = relabel (parsing p) (stepped 2 q3').
Proof.
  split.
  - intros H. unfold parseXmlDecl in H.
    apply withParsing_inv_Ok in H. destruct H as (q & H & ->).
    bind_as H u0 s0 M0. apply Musts_inv_Ok in M0. destruct M0 as [T0 ->].
    bind_as H ver s1 V1.
    bind_as H cur1 s1c C1. inversion C1; subst; clear C1.
    bind_as H u1 s1' S1. destruct u1.
    bind_as H enc s2 E2.
    bind_as H cur2 s2c C2. inversion C2; subst; clear C2.
    bind_as H u2 s2' S2. destruct u2.
    bind_as H std s3 D3.
    bind_as H u3 s4 S4. destruct u3.
    bind_as H u4 s5 M5. apply Musts_inv_Ok in M5. destruct M5 as [T5 ->].
    inversion H; subst; clear H. simpl.
    pose proof (setCursor_back (preserves_skipSpace fuel) S1) as B1.
    pose proof (setCursor_back (preserves_skipSpace fuel) S2) as B2.
    split; [ exact T0 | ].
    exists s1c, s1', s2c, s2', s3, s4.
    split; [ exact V1 | ]. split; [ exact S1 | ].
    split; [ | split; [ exact S2 | split; [ | split; [ exact S4 | ] ] ] ].
    + unfold branch in E2.
      destruct (Tests (runes "encoding") s1').
      * erewrite bind_Ok in E2 by exact B1. exact E2.
      * erewrite bind_Ok in E2 by exact B1. inversion E2; auto.
    + unfold branch in D3.
      destruct (Tests (runes "standalone") s2').
      * erewrite bind_Ok in D3 by exact B2. exact D3.
      * erewrite bind_Ok in D3 by exact B2. inversion D3; auto.
    + split; [ exact T5 | reflexivity ].
  - intros (T0 & q1 & q1' & q2 & q2' & q3 & q3' & V & S1 & E & S2 & D & S3
              & T5 & ->).
    pose proof (setCursor_back (preserves_skipSpace fuel) S1) as B1.
    pose proof (setCursor_back (preserves_skipSpace fuel) S2) as B2.
    destruct x as [ver enc std]. simpl in *.
    unfold parseXmlDecl, withParsing.
    assert (R : (Musts (runes "<?xml") ;;
                 ver <- parseVersion fuel ;;
                 cur <- getCursor ;;
                 skipSpace fuel ;;
                 enc <- (If Tests (runes "encoding")
                         Then (setCursor cur ;; parseEncoding fuel)
                         Else (setCursor cur ;; ret [])) ;;
                 cur <- getCursor ;;
                 skipSpace fuel ;;
                 std <- (If Tests (runes "standalone")
                         Then (setCursor cur ;; parseStandalone fuel)
                         Else (setCursor cur ;; ret false)) ;;
                 skipSpace fuel ;;
                 Musts (runes "?>") ;;
                 ret {| Version := ver; Encoding := enc; Standalone := std |})
                  (relabel (runes "XML Declaration") p)
                = Some (Ok {| Version := ver; Encoding := enc;
                              Standalone := std |}, stepped 2 q3')).
    { erewrite bind_Ok
        by (unfold Musts, branch;
            change (Tests (runes "<?xml")
                      (relabel (runes "XML Declaration") p))
              with (Tests (runes "<?xml") p);
            rewrite T0; reflexivity).
      erewrite bind_Ok by exact V.
      unfold bind at 1, getCursor at 1, ret at 1.
      erewrite bind_Ok by exact S1.
      erewrite bind_Ok with (a := enc) (p1 := q2).
      2:{ unfold branch. destruct (Tests (runes "encoding") q1').
          - erewrite bind_Ok by exact B1. exact E.
          - erewrite bind_Ok by exact B1. destruct E as [-> ->].
            reflexivity. }
      unfold bind at 1, getCursor at 1, ret at 1.
      erewrite bind_Ok by exact S2.
      erewrite bind_Ok with (a := std) (p1 := q3).
      2:{ unfold branch. destruct (Tests (runes "standalone") q2').
          - erewrite bind_Ok by exact B2. exact D.
          - erewrite bind_Ok by exact B2. destruct D as [-> ->].
            reflexivity. }
      erewrite bind_Ok by exact S3.
      erewrite bind_Ok
        by (unfold Musts, branch; rewrite T5; reflexivity).
      reflexivity. }
    unfold relabel in R at 1. rewrite R. reflexivity.
Qed.

(** C7: the declaration with version 1.0, encoding UTF-8 and standalone yes
    gives these three values; leaving out the encoding, the standalone
    declaration, or both, gives the empty string and false for what is left
    out and does not touch the other field.  In general a declaration parses
    exactly when its parts do, one after the other, and each of the two
    optional parts is decided on its own keyword: where the keyword follows
    the white space the field is what the part gives, and where it does not
    the field keeps its zero value and nothing is consumed, whatever the
    other part is. *)
Theorem C7_XMLDecl_optional_parts (n : nat) :
  run (parseXmlDecl (ext := asciiExternals) (8 + n)) decl_full
  = Some (Ok {| Version := runes "1.0"; Encoding := runes "UTF-8";
                Standalone := true |}, at_ decl_full 55)
  /\ run (parseXmlDecl (ext := asciiExternals) (8 + n)) decl_no_encoding
     = Some (Ok {| Version := runes "1.0"; Encoding := [];
                   Standalone := true |}, at_ decl_no_encoding 38)
  /\ run (parseXmlDecl (ext := asciiExternals) (8 + n)) decl_no_standalone
     = Some (Ok {| Version := runes "1.0"; Encoding := runes "UTF-8";
                   Standalone := false |}, at_ decl_no_standalone 38)
  /\ run (parseXmlDecl (ext := asciiExternals) (8 + n)) decl_version_only
     = Some (Ok {| Version := runes "1.0"; Encoding := [];
                   Standalone := false |}, at_ decl_version_only 21)
  /\ (forall (ext : Externals) fuel p x p',
        parseXmlDecl fuel p = Some (Ok x, p') <->
        Tests (runes "<?xml") p = true
        /\ exists q1 q1' q2 q2' q3 q3',
             parseVersion fuel
               (stepped 5 (relabel (runes "XML Declaration") p))
             = Some (Ok (Version x), q1)
             /\ skipSpace fuel q1 = Some (Ok tt, q1')
             /\ (if Tests (runes "encoding") q1'
                 then parseEncoding fuel q1 = Some (Ok (Encoding x), q2)
                 else Encoding x = [] /\ q2 = q1)
             /\ skipSpace fuel q2 = Some (Ok tt, q2')
             /\ (if Tests (runes "standalone") q2'
                 then parseStandalone fuel q2
                      = Some (Ok (Standalone x), q3)
                 else Standalone x = false /\ q3 = q2)
             /\ skipSpace fuel q3 = Some (Ok tt, q3')
             /\ Tests (runes "?>") q3' = true
             /\ p' = relabel (parsing p) (stepped 2 q3')).
Proof.
  split; [ vm_compute; reflexivity | ].
  split; [ vm_compute; reflexivity | ].
  split; [ vm_compute; reflexivity | ].
  split; [ vm_compute; reflexivity | ].
  intros ext fuel p x p'. apply parseXmlDecl_parts.
Qed.

(** ** The contents of an element (C8) *)

Lemma yields_ret {A} (a : A) (Q : A -> Prop) : Q a -> yields (ret a) Q.
Proof. intros H p b p' E. inversion E; subst; auto. Qed.

Lemma yields_error {A} c (Q : A -> Prop) : yields (error c) Q.
Proof. intros p b p' E. discriminate. Qed.

Lemma yields_None {A} (Q : A -> Prop) :
  yields (fun _ : parser => @None (res A * parser)) Q.
Proof. intros p b p' E. discriminate. Qed.

Lemma yields_bind {A B} (m : M A) (f : A -> M B) (Q : B -> Prop) :
  (forall a, yields (f a) Q) -> yields (bind m f) Q.
Proof.
  intros Hf p b p' E. apply bind_inv_Ok in E.
  destruct E as (a & q & _ & E). eapply Hf; eauto.
Qed.

Lemma yields_bind_with {A B} (m : M A) (f : A -> M B) (P : A -> Prop)
  (Q : B -> Prop) :
  yields m P -> (forall a, P a -> yields (f a) Q) -> yields (bind m f) Q.
Proof.
  intros Hm Hf p b p' E. apply bind_inv_Ok in E.
  destruct E as (a & q & E1 & E). eapply Hf; eauto.
Qed.

Lemma yields_branch {A} c (a b : M A) (Q : A -> Prop) :
  yields a Q -> yields b Q -> yields (branch c a b) Q.
Proof. intros Ha Hb p x p'. unfold branch. destruct (c p); eauto. Qed.

Ltac yields_step :=
  match goal with
  | |- yields (bind _ _) _ => apply yields_bind; intro
  | |- yields (branch _ _ _) _ => apply yields_branch
  | |- yields (error _) _ => apply yields_error
  | |- yields (fun _ => None) _ => apply yields_None
  | |- yields (match ?x with _ => _ end) _ => destruct x
  end.

Section Contents.

Context {ext : Externals}.
Variable fuel : nat.

Lemma len_pos s : (0 <? len s) = negb (length s =? 0).
Proof.
  destruct s as [|r s]; [ reflexivity | ].
  unfold len. simpl.
  assert (0 < utf8_len r)
    by (unfold utf8_len; repeat destruct (_ <? _)%Z; lia).
  destruct (utf8_len r + list_sum (map utf8_len s)) eqn:E;
    [ lia | reflexivity ].
Qed.

Lemma isOnlySpaces_false s :
  isOnlySpaces s = false <-> exists r, In r s /\ isSpace r = false.
Proof.
  unfold isOnlySpaces. induction s as [|x s IH]; simpl.
  - split; [ discriminate | intros (r & [] & _) ].
  - rewrite andb_false_iff, IH. split.
    + intros [H|(r & Hr & H)]; eauto.
    + intros (r & [->|Hr] & H); eauto.
Qed.

(** The flush appends the pending text exactly when it is to be kept. *)
Lemma flushCharData_spec res s :
  (textRunKept s -> flushCharData res s = res ++ [CText s])
  /\ (~ textRunKept s -> flushCharData res s = res).
Proof.
  unfold flushCharData, textRunKept. rewrite len_pos.
  destruct s as [|x s]; simpl length; cbv [Nat.eqb negb].
  - split; [ intros [H _]; congruence | reflexivity ].
  - destruct (isOnlySpaces (x :: s)) eqn:E; cbv [negb].
    + split; [ | reflexivity ].
      intros [_ H]. apply isOnlySpaces_false in H. congruence.
    + split; [ reflexivity | ].
      intros H. exfalso. apply H. split; [ discriminate | ].
      now apply isOnlySpaces_false.
Qed.

Lemma flushCharData_entries res s :
  Forall entryOk res -> Forall entryOk (flushCharData res s).
Proof.
  intros H. unfold flushCharData. rewrite len_pos.
  destruct s as [|x s]; [ exact H | ]. simpl length. cbv [Nat.eqb negb].
  destruct (isOnlySpaces (x :: s)) eqn:E; cbv [negb]; [ exact H | ].
  apply Forall_app. split; [ exact H | ].
  constructor; [ | constructor ]. simpl. split; [ discriminate | ].
  now apply isOnlySpaces_false.
Qed.

Lemma flush_then_entry res s c :
  Forall entryOk res -> entryOk c ->
  Forall entryOk (flushCharData res s ++ [c]).
Proof.
  intros H Hc. apply Forall_app. split.
  - now apply flushCharData_entries.
  - constructor; [ exact Hc | constructor ].
Qed.

(** The invariant of the loop: the list holds no text run that is empty or
    all white space. *)
Lemma parseContents_loop_entries pe k res s :
  Forall entryOk res ->
  yields (parseContents_loop fuel pe k res s)
    (fun x => Forall entryOk (fst x)).
Proof.
  revert res s. induction k as [|k IH]; intros res s Hres; simpl.
  - apply yields_None.
  - apply yields_bind; intros cur. apply yields_branch.
    + (* a reference *)
      apply yields_bind; intros [i|e].
      * apply IH. apply flush_then_entry; [ exact Hres | exact I ].
      * apply yields_bind; intros _. apply yields_ret. exact Hres.
    + apply yields_branch.
      * (* markup: the entry is a CData, a Comment, a PI or an Element *)
        apply yields_bind_with
          with (P := fun r => match r with Ok i => entryOk i | Err _ => True end).
        -- repeat yields_step; apply yields_ret; exact I.
        -- intros [i|e] Hi.
           ++ apply IH. apply flush_then_entry; assumption.
           ++ apply yields_bind; intros _. apply yields_ret. exact Hres.
      * (* character data *)
        apply yields_branch; [ apply yields_ret; exact Hres | ].
        apply yields_bind; intros r. apply yields_bind; intros _.
        apply IH. exact Hres.
Qed.

Lemma parseContentsWith_entries pe :
  yields (parseContentsWith fuel pe) (Forall entryOk).
Proof.
  unfold parseContentsWith.
  apply yields_bind_with with (P := fun x => Forall entryOk (fst x)).
  - apply parseContents_loop_entries. constructor.
  - intros x Hx. apply yields_ret. now apply flushCharData_entries.
Qed.

End Contents.

Lemma try_inv {A} (m : M A) p (r : res (res A)) q :
  try m p = Some (r, q) -> exists r0, r = Ok r0 /\ m p = Some (r0, q).
Proof.
  unfold try. destruct (m p) as [[r0 q0]|]; intros H; inversion H; subst.
  eauto.
Qed.

(** The flush of the loop is the flush of the specification. *)
Lemma flushCharData_keptRun {ext : Externals} res s :
  flushCharData res s = res ++ keptRun s.
Proof.
  unfold flushCharData, keptRun, isOnlySpaces. rewrite len_pos.
  destruct (negb (length s =? 0)); simpl; [ | now rewrite app_nil_r ].
  assert (E : negb (forallb isSpace s)
              = existsb (fun r => negb (isSpace r)) s).
  { induction s as [|r s IH]; [ reflexivity | ].
    simpl. rewrite negb_andb, IH. reflexivity. }
  rewrite E.
  destruct (existsb (fun r => negb (isSpace r)) s);
    [ reflexivity | now rewrite app_nil_r ].
Qed.

(** The loop returns the list it holds, then what it reads from there on:
    the pending text where it is kept, the entries in their order, and the
    text that is pending at the end left to the last flush. *)
Lemma parseContents_loop_reads {ext : Externals} fuel pe k :
  preserves pe ->
  forall acc s p res s' p',
    parseContents_loop fuel pe k acc s p = Some (Ok (res, s'), p') ->
    exists items,
      reads fuel pe p items p'
      /\ flushCharData res s' = acc ++ contentsOf s items.
Proof.
  intros Pe. induction k as [|k IH]; intros acc s p res s' p' H;
    [ discriminate | ].
  assert (Stop : forall q : parser,
            Some (Ok (acc, s), q) = Some (Ok (res, s'), p') ->
            exists items,
              reads fuel pe q items p'
              /\ flushCharData res s' = acc ++ contentsOf s items).
  { intros q E. inversion E; subst. exists []. split; [ constructor | ].
    apply flushCharData_keptRun. }
  assert (Next : forall (c : Content) (q : parser),
            parseContents_loop fuel pe k (flushCharData acc s ++ [c]) [] q
            = Some (Ok (res, s'), p') ->
            exists items,
              reads fuel pe q items p'
              /\ flushCharData res s'
                 = acc ++ keptRun s ++ c :: contentsOf [] items).
  { intros c q E. apply IH in E. destruct E as (items & R & E).
    exists items. split; [ exact R | ].
    rewrite E, flushCharData_keptRun, <- !app_assoc. reflexivity. }
  simpl in H. unfold bind at 1, getCursor at 1, ret at 1 in H.
  unfold branch at 1 in H. destruct (Test (ch "&") p) eqn:T1.
  - unfold bind at 1 in H.
    destruct (try (parseReference fuel) p) as [[[r1|?] q]|] eqn:E;
      [ | apply try_inv in E; destruct E as (? & ? & _); discriminate
        | discriminate ].
    apply try_inv in E. destruct E as (r0 & Er & E). inversion Er; subst r1.
    destruct r0 as [i|e].
    + destruct (Next _ _ H) as (items & R & F).
      exists (Entry (CRef i) :: items).
      split; [ eapply reads_reference; eauto | exact F ].
    + unfold bind at 1 in H.
      rewrite (setCursor_back (preserves_parseReference fuel) E) in H.
      exact (Stop _ H).
  - unfold branch at 1 in H. destruct (Test (ch "<") p) eqn:T2.
    + unfold bind at 1 in H. unfold branch at 1 in H.
      destruct (Tests (runes "<!") p) eqn:T3;
        [ | unfold branch at 1 in H; destruct (Tests (runes "<?") p) eqn:T4 ].
      * unfold bind at 1 in H.
        destruct (try (parseCDSect fuel) p) as [[[r1|?] q]|] eqn:E;
          [ | apply try_inv in E; destruct E as (? & ? & _); discriminate
            | discriminate ].
        apply try_inv in E. destruct E as (r0 & Er & E). inversion Er; subst r1.
        destruct r0 as [c|e].
        { destruct (Next _ _ H) as (items & R & F).
          exists (Entry (CCData c) :: items).
          split; [ eapply reads_cdata; eauto | exact F ]. }
        unfold bind at 1 in H.
        rewrite (setCursor_back (preserves_parseCDSect fuel) E) in H.
        unfold bind at 1 in H.
        destruct (try (parseComment fuel) p) as [[[r1|?] q1]|] eqn:E2;
          [ | apply try_inv in E2; destruct E2 as (? & ? & _); discriminate
            | discriminate ].
        apply try_inv in E2. destruct E2 as (r0 & Er2 & E2).
        inversion Er2; subst r1.
        destruct r0 as [c|e2].
        { destruct (Next _ _ H) as (items & R & F).
          exists (Entry (CComment c) :: items).
          split; [ eapply reads_comment; eauto | exact F ]. }
        unfold ret at 1 in H. unfold bind at 1 in H.
        rewrite (setCursor_back (preserves_parseComment fuel) E2) in H.
        exact (Stop _ H).
      * unfold bind at 1 in H.
        destruct (try (parsePI fuel) p) as [[[r1|?] q]|] eqn:E;
          [ | apply try_inv in E; destruct E as (? & ? & _); discriminate
            | discriminate ].
        apply try_inv in E. destruct E as (r0 & Er & E). inversion Er; subst r1.
        destruct r0 as [c|e].
        { destruct (Next _ _ H) as (items & R & F).
          exists (Entry (CPI c) :: items).
          split; [ eapply reads_pi; eauto | exact F ]. }
        unfold ret at 1 in H. unfold bind at 1 in H.
        rewrite (setCursor_back (preserves_parsePI fuel) E) in H.
        exact (Stop _ H).
      * unfold bind at 1 in H.
        destruct (try pe p) as [[[r1|?] q]|] eqn:E;
          [ | apply try_inv in E; destruct E as (? & ? & _); discriminate
            | discriminate ].
        apply try_inv in E. destruct E as (r0 & Er & E). inversion Er; subst r1.
        destruct r0 as [c|e].
        { destruct (Next _ _ H) as (items & R & F).
          exists (Entry (CElement c) :: items).
          split; [ eapply reads_element; eauto | exact F ]. }
        unfold ret at 1 in H. unfold bind at 1 in H.
        rewrite (setCursor_back Pe E) in H.
        exact (Stop _ H).
    + unfold branch at 1 in H.
      destruct (isEnd p || Tests (runes "]]>") p) eqn:T3.
      * exact (Stop _ H).
      * unfold bind at 1, look at 1, ret at 1 in H.
        unfold bind at 1, Step at 1, StepN at 1, ret at 1 in H.
        apply IH in H. destruct H as (items & R & F).
        exists (Rune (Get p) :: items).
        split; [ now apply reads_rune | exact F ].
Qed.

(** C8: a Contents list produced by the content loop holds no text run that
    is empty or made of white space only, and it holds every run that is
    neither.  The list is the list of the items the loop reads from the
    entry state to the state it returns in: the entries in their order and,
    where it stood, each run of character data that is not empty and holds
    a rune that is no white space; the other runs are dropped.  The flush
    of the loop appends the pending text exactly in that case.  The element
    parser is arbitrary, so this covers parseContents and the contents of
    every nested element. *)
Theorem C8_whitespace_runs_dropped {ext : Externals} (fuel : nat)
  (pe : M Element) (p p' : parser) (res : list Content)
  (H : parseContentsWith fuel pe p = Some (Ok res, p')) :
  (forall s, In (CText s) res ->
     s <> [] /\ exists r, In r s /\ isSpace r = false)
  /\ (preserves pe ->
      exists items,
        reads fuel pe p items p' /\ res = contentsOf [] items)
  /\ (forall acc s,
        (s <> [] /\ (exists r, In r s /\ isSpace r = false) ->
         flushCharData acc s = acc ++ [CText s])
        /\ (~ (s <> [] /\ exists r, In r s /\ isSpace r = false) ->
            flushCharData acc s = acc)).
Proof.
  split; [ | split ].
  - intros s Hs.
    pose proof (parseContentsWith_entries fuel pe) as F. specialize (F _ _ _ H).
    rewrite Forall_forall in F. exact (F _ Hs).
  - intros Pe. unfold parseContentsWith in H.
    bind_as H x q L. inversion H; subst. destruct x as [r s]. simpl.
    destruct (@parseContents_loop_reads ext fuel pe fuel Pe [] [] p r s p' L)
      as (items & R & F).
    exists items. split; [ exact R | exact F ].
  - intros acc s. apply flushCharData_spec.
Qed.

Lemma C8_whitespace_runs_witness :
  parseContents (ext := asciiExternals) 16
    (NewParser (runes "<b/>  hello&r; x "))
  = Some (Ok [CElement (mkElement (runes "b") [] [] true);
              CText (runes "  hello");
              CRef (RefEntity {| EntityRef_Name := runes "r" |});
              CText (runes " x ")],
          at_ (runes "<b/>  hello&r; x ") 17)
  /\ (forall s,
        In (CText s) [CElement (mkElement (runes "b") [] [] true);
                      CText (runes "  hello");
                      CRef (RefEntity {| EntityRef_Name := runes "r" |});
                      CText (runes " x ")] ->
        s <> []
        /\ exists r, In r s /\ isSpace (Externals := asciiExternals) r = false)
  /\ exists items,
       reads (ext := asciiExternals) 16 (parseElement 16)
         (NewParser (runes "<b/>  hello&r; x ")) items
         (at_ (runes "<b/>  hello&r; x ") 17)
       /\ [CElement (mkElement (runes "b") [] [] true);
           CText (runes "  hello");
           CRef (RefEntity {| EntityRef_Name := runes "r" |});
           CText (runes " x ")]
          = contentsOf (ext := asciiExternals) [] items.
Proof.
  assert (H : parseContents (ext := asciiExternals) 16
                (NewParser (runes "<b/>  hello&r; x "))
              = Some (Ok [CElement (mkElement (runes "b") [] [] true);
                          CText (runes "  hello");
                          CRef (RefEntity {| EntityRef_Name := runes "r" |});
                          CText (runes " x ")],
                      at_ (runes "<b/>  hello&r; x ") 17))
    by (vm_compute; reflexivity).
  split; [ exact H | ].
  split.
  - exact (proj1 (@C8_whitespace_runs_dropped asciiExternals 16
                    (parseElement 16) _ _ _ H)).
  - exact (proj1 (proj2 (@C8_whitespace_runs_dropped asciiExternals 16
                           (parseElement 16) _ _ _ H))
             (preserves_parseElement 16)).
Defined.

(** ** The trailing Misc loop (C9) *)

Lemma forward_ret {A} (a : A) : forward (ret a).
Proof. intros p r p' H. inversion H; subst; auto. Qed.

Lemma forward_error {A} c : forward (@error A c).
Proof. intros p r p' H. inversion H; subst; auto. Qed.

Lemma forward_None {A} : forward (fun _ : parser => @None (res A * parser)).
Proof. intros p r p' H. discriminate. Qed.

Lemma forward_look {A} (f : parser -> A) : forward (look f).
Proof. intros p r p' H. inversion H; subst; auto. Qed.

Lemma forward_bind {A B} (m : M A) (f : A -> M B) :
  forward m -> (forall a, forward (f a)) -> forward (bind m f).
Proof.
  intros Hm Hf p r p' H. apply bind_inv in H.
  destruct H as [(e & H & _)|(a & p1 & H1 & H2)].
  - eauto.
  - specialize (Hm _ _ _ H1). specialize (Hf a _ _ _ H2). lia.
Qed.

Lemma forward_branch {A} c (a b : M A) :
  forward a -> forward b -> forward (branch c a b).
Proof. intros Ha Hb p r p'. unfold branch. destruct (c p); eauto. Qed.

Lemma forward_withParsing {A} l (m : M A) :
  forward m -> forward (withParsing l m).
Proof.
  intros Hm p r p'. unfold withParsing.
  match goal with |- context [m ?q] => destruct (m q) as [[r0 p0]|] eqn:E end;
    intros H; inversion H; subst; simpl.
  apply Hm in E. exact E.
Qed.

Create HintDb forward.

#[export] Hint Resolve forward_ret forward_error forward_None forward_look
  forward_branch forward_withParsing : forward.

Ltac forward_step :=
  match goal with
  | |- forward (bind _ _) => apply forward_bind; [ | intro ]
  | |- forward (branch _ _ _) => apply forward_branch
  | |- forward (withParsing _ _) => apply forward_withParsing
  | |- forward (match ?x with _ => _ end) => destruct x
  end.

Ltac forward := repeat forward_step; auto with forward.

Section Termination.

Context {ext : Externals}.
Variable fuel : nat.
Hypothesis inert : sentinel_inert.

Lemma forward_StepN n : forward (StepN n).
Proof. intros p r p' H. inversion H; subst; simpl; lia. Qed.

Lemma forward_Step : forward Step.
Proof. apply forward_StepN. Qed.

Hint Resolve forward_StepN forward_Step : forward.

Lemma forward_Must r : forward (Must r).
Proof. unfold Must. forward. Qed.

Lemma forward_Musts s : forward (Musts s).
Proof. unfold Musts. forward. Qed.

Lemma forward_skipSpace_loop k : forward (skipSpace_loop k).
Proof. induction k; simpl; forward. Qed.

Lemma forward_parseName_loop k n : forward (parseName_loop k n).
Proof. revert n. induction k; intros; simpl; forward. Qed.

Hint Resolve forward_Must forward_Musts forward_skipSpace_loop
  forward_parseName_loop : forward.

Lemma forward_parseName : forward (parseName fuel).
Proof. unfold parseName. forward. Qed.

Lemma forward_parseComment_loop k s : forward (parseComment_loop k s).
Proof. revert s. induction k; intros; simpl; forward. Qed.

Lemma forward_parsePI_loop k s : forward (parsePI_loop k s).
Proof. revert s. induction k; intros; simpl; forward. Qed.

Hint Resolve forward_parseName forward_parseComment_loop
  forward_parsePI_loop : forward.

Lemma forward_parsePITarget : forward (parsePITarget fuel).
Proof. unfold parsePITarget. forward. Qed.

Hint Resolve forward_parsePITarget : forward.

(** *** Totality *)

Lemma total_ret {A} (a : A) : total fuel (ret a).
Proof. intros p _. unfold ret. eauto. Qed.

Lemma total_error {A} c : total fuel (@error A c).
Proof. intros p _. unfold error. eauto. Qed.

Lemma total_look {A} (f : parser -> A) : total fuel (look f).
Proof. intros p _. unfold look, ret. eauto. Qed.

Lemma total_StepN n : total fuel (StepN n).
Proof. intros p _. unfold StepN, ret. eauto. Qed.

Lemma total_bind {A B} (m : M A) (f : A -> M B) :
  preserves m -> total fuel m -> (forall a, total fuel (f a)) -> total fuel (bind m f).
Proof.
  intros Pm Hm Hf p Hp. destruct (Hm p Hp) as ([a|e] & p1 & E).
  - erewrite bind_Ok by exact E. apply Hf.
    unfold fits in *. destruct (Pm _ _ _ E) as [-> _]. exact Hp.
  - erewrite bind_Err by exact E. eauto.
Qed.

Lemma total_branch {A} c (a b : M A) :
  total fuel a -> total fuel b -> total fuel (branch c a b).
Proof. intros Ha Hb p Hp. unfold branch. destruct (c p); auto. Qed.

Lemma total_withParsing {A} l (m : M A) : total fuel m -> total fuel (withParsing l m).
Proof.
  intros Hm p Hp. unfold withParsing.
  destruct (Hm {| source := source p; cursor := cursor p; parsing := l |} Hp)
    as (r & p1 & E).
  rewrite E. eauto.
Qed.

Lemma total_Must r : total fuel (Must r).
Proof.
  unfold Must. apply total_branch; [ apply total_error | apply total_StepN ].
Qed.

Lemma total_Musts s : total fuel (Musts s).
Proof.
  unfold Musts. apply total_branch; [ apply total_error | apply total_StepN ].
Qed.

(** At the end of the input the current rune is the sentinel. *)
Lemma Get_at_end p : isEnd p = true -> Get p = EOF.
Proof. unfold Get. now intros ->. Qed.

Lemma remaining_step p :
  isEnd p = false -> remaining (stepped 1 p) < remaining p.
Proof.
  unfold isEnd, remaining, stepped. simpl. intros H.
  apply Nat.leb_gt in H. lia.
Qed.

Lemma isSpace_not_at_end p : isSpace (Get p) = true -> isEnd p = false.
Proof.
  intros H. destruct (isEnd p) eqn:E; [ | reflexivity ].
  rewrite (Get_at_end _ E) in H. destruct inert as (I & _). congruence.
Qed.

Lemma isChar_not_at_end p : isChar (Get p) = true -> isEnd p = false.
Proof.
  intros H. destruct (isEnd p) eqn:E; [ | reflexivity ].
  rewrite (Get_at_end _ E) in H. destruct inert as (_ & I & _). congruence.
Qed.

Lemma isNameChar_not_at_end p : p_isNameChar p = true -> isEnd p = false.
Proof.
  intros H. destruct (isEnd p) eqn:E; [ | reflexivity ].
  unfold p_isNameChar, Test in H. rewrite (Get_at_end _ E) in H.
  destruct inert as (_ & _ & I1 & I2 & I3 & I4 & I5).
  rewrite I1, I2, I3, I4 in H. simpl in H.
  repeat rewrite orb_false_r in H.
  exfalso. apply I5. simpl.
  repeat (apply orb_true_iff in H; destruct H as [H|H]);
    apply Z.eqb_eq in H; auto.
Qed.

Lemma skipSpace_loop_total k p :
  remaining p < k -> exists r p', skipSpace_loop k p = Some (r, p').
Proof.
  revert p. induction k as [|k IH]; intros p Hk; [ lia | ].
  simpl. unfold branch. destruct (isSpace (Get p)) eqn:E.
  - cbv [bind Step StepN ret]. apply IH.
    pose proof (remaining_step p (isSpace_not_at_end _ E)) as R.
    unfold stepped in R. lia.
  - unfold ret. eauto.
Qed.

Lemma fits_remaining p : fits fuel p -> remaining p < fuel.
Proof. unfold fits, remaining. lia. Qed.

Lemma total_skipSpace : total fuel (skipSpace fuel).
Proof. intros p Hp. apply skipSpace_loop_total, fits_remaining, Hp. Qed.

Lemma parseName_loop_total k n p :
  remaining p < k -> exists r p', parseName_loop k n p = Some (r, p').
Proof.
  revert n p. induction k as [|k IH]; intros n p Hk; [ lia | ].
  simpl. unfold branch. destruct (p_isNameChar p) eqn:E.
  - cbv [bind look Step StepN ret]. apply IH.
    pose proof (remaining_step p (isNameChar_not_at_end _ E)) as R.
    unfold stepped in R. lia.
  - unfold ret. eauto.
Qed.

Lemma total_parseName : total fuel (parseName fuel).
Proof.
  intros p Hp. unfold parseName, branch.
  destruct (isLetter (Get p) || Test (ch "_") p || Test (ch ":") p).
  - cbv [bind look Step StepN ret]. apply parseName_loop_total.
    apply fits_remaining in Hp. unfold remaining in *. simpl. lia.
  - unfold error. eauto.
Qed.

Lemma parseComment_loop_total k s p :
  remaining p < k -> exists r p', parseComment_loop k s p = Some (r, p').
Proof.
  revert s p. induction k as [|k IH]; intros s p Hk; [ lia | ].
  simpl. unfold branch. destruct (negb (Tests (runes "--") p)).
  - cbv [bind look ret]. destruct (isChar (Get p)) eqn:E.
    + cbv [bind Step StepN ret]. apply IH.
      pose proof (remaining_step p (isChar_not_at_end _ E)) as R.
      unfold stepped in R. lia.
    + unfold error. eauto.
  - unfold ret. eauto.
Qed.

Lemma parsePI_loop_total k s p :
  remaining p < k -> exists r p', parsePI_loop k s p = Some (r, p').
Proof.
  revert s p. induction k as [|k IH]; intros s p Hk; [ lia | ].
  simpl. unfold branch.
  destruct (negb (Tests (runes "?>") p) && negb (isEnd p) && isChar (Get p))
    eqn:E.
  - cbv [bind look Step StepN ret]. apply IH.
    apply andb_true_iff in E. destruct E as [E _].
    apply andb_true_iff in E. destruct E as [_ E].
    apply negb_true_iff in E.
    pose proof (remaining_step p E) as R. unfold stepped in R. lia.
  - unfold ret. eauto.
Qed.

Lemma total_loop {A} (loop : nat -> M A) :
  (forall k p, remaining p < k -> exists r p', loop k p = Some (r, p')) ->
  total fuel (loop fuel).
Proof. intros H p Hp. apply H, fits_remaining, Hp. Qed.

Lemma total_parseComment : total fuel (parseComment fuel).
Proof.
  unfold parseComment. apply total_withParsing.
  apply total_bind; [ apply preserves_Musts | apply total_Musts | intros _ ].
  apply total_bind; [ apply preserves_parseComment_loop | | intros s ].
  - apply (total_loop (fun k => parseComment_loop k [])).
    intros k p. apply parseComment_loop_total.
  - apply total_bind; [ apply preserves_Musts | apply total_Musts | intros _ ].
    apply total_ret.
Qed.

Lemma total_parsePITarget : total fuel (parsePITarget fuel).
Proof.
  unfold parsePITarget.
  apply total_bind; [ apply preserves_parseName | apply total_parseName | ].
  intros n. destruct (ContainsAny n (runes "xmlXML"));
    [ apply total_error | apply total_ret ].
Qed.

Lemma total_parsePI : total fuel (parsePI fuel).
Proof.
  unfold parsePI. apply total_withParsing.
  apply total_bind; [ apply preserves_Musts | apply total_Musts | intros _ ].
  apply total_bind;
    [ apply preserves_parsePITarget | apply total_parsePITarget | intros t ].
  apply total_bind.
  - apply preserves_branch; [ | apply preserves_ret ].
    apply preserves_bind; [ apply preserves_skipSpace | intros _ ].
    apply preserves_parsePI_loop.
  - apply total_branch; [ | apply total_ret ].
    apply total_bind; [ apply preserves_skipSpace | apply total_skipSpace | ].
    intros _. apply (total_loop (fun k => parsePI_loop k [])).
    intros k p. apply parsePI_loop_total.
  - intros i.
    apply total_bind; [ apply preserves_Musts | apply total_Musts | intros _ ].
    apply total_ret.
Qed.

Lemma total_parseMisc : total fuel (parseMisc fuel).
Proof.
  unfold parseMisc.
  apply total_branch.
  - apply total_bind;
      [ apply preserves_parseComment | apply total_parseComment | intros c ].
    apply total_ret.
  - apply total_branch.
    + apply total_bind;
        [ apply preserves_parsePI | apply total_parsePI | intros c ].
      apply total_ret.
    + apply total_branch; [ | apply total_error ].
      apply total_bind;
        [ apply preserves_skipSpace | apply total_skipSpace | intros c ].
      apply total_ret.
Qed.

(** *** Progress: a Misc that parses consumes input *)

Lemma Tests_not_at_end a s p :
  Tests (a :: s) p = true -> cursor p < length (source p).
Proof. intros H. apply Tests_firstn in H. simpl in H. lia. Qed.

Lemma after_Musts {A} s (k : M A) p a p' :
  forward k -> (Musts s ;; k) p = Some (Ok a, p') ->
  cursor p + len s <= cursor p'.
Proof.
  intros Fk H. bind_as H u q Hm. apply Musts_inv_Ok in Hm.
  destruct Hm as [_ ->]. apply Fk in H. exact H.
Qed.

Lemma parseMisc_progress p x p' :
  parseMisc fuel p = Some (Ok x, p') -> remaining p' < remaining p.
Proof.
  intros H.
  destruct (preserves_parseMisc fuel _ H) as [Hs _].
  unfold remaining. rewrite Hs.
  unfold parseMisc, branch in H.
  destruct (Tests (runes "<!--") p) eqn:T1;
    [ | destruct (Tests (runes "<?") p) eqn:T2;
        [ | destruct (isSpace (Get p)) eqn:T3; [ | discriminate ] ] ].
  - apply Tests_not_at_end in T1.
    bind_as H c q Hc. inversion H; subst; clear H.
    unfold parseComment in Hc. apply withParsing_inv_Ok in Hc.
    destruct Hc as (q' & Hc & ->). apply after_Musts in Hc.
    + unfold relabel in *. simpl cursor in *.
      change (len (runes "<!--")) with 4 in Hc. lia.
    + forward.
  - apply Tests_not_at_end in T2.
    bind_as H c q Hc. inversion H; subst; clear H.
    unfold parsePI in Hc. apply withParsing_inv_Ok in Hc.
    destruct Hc as (q' & Hc & ->). apply after_Musts in Hc.
    + unfold relabel in *. simpl cursor in *.
      change (len (runes "<?")) with 2 in Hc. lia.
    + forward.
  - pose proof (isSpace_not_at_end _ T3) as E.
    unfold isEnd in E. apply Nat.leb_gt in E.
    bind_as H c q Hc. inversion H; subst; clear H.
    unfold skipSpace in Hc. destruct fuel as [|k]; [ discriminate | ].
    simpl in Hc. unfold branch in Hc. rewrite T3 in Hc.
    bind_as Hc u q Hq. inversion Hq; subst; clear Hq.
    apply forward_skipSpace_loop in Hc. simpl in Hc. lia.
Qed.

(** The loop over Misc returns, with the cursor at the first construct that
    is no Misc. *)
Lemma parseMisc_loop_total k miscs p :
  fits fuel p -> remaining p < k ->
  exists miscs' p',
    parseMisc_loop fuel k miscs p = Some (Ok miscs', p')
    /\ source p' = source p /\ cursor p <= cursor p'
    /\ exists e q, parseMisc fuel p' = Some (Err e, q).
Proof.
  revert miscs p. induction k as [|k IH]; intros miscs p Hp Hk; [ lia | ].
  simpl. destruct (total_parseMisc Hp) as (r & p1 & E).
  unfold bind at 1. unfold getCursor at 1, ret at 1.
  unfold bind at 1. unfold try at 1. rewrite E.
  destruct r as [x|e].
  - pose proof E as Pr. apply parseMisc_progress in Pr.
    assert (R : remaining p1 < k) by lia.
    destruct (preserves_parseMisc fuel _ E) as [Hs _].
    assert (F : fits fuel p1) by (unfold fits in *; now rewrite Hs).
    assert (C : cursor p <= cursor p1)
      by (unfold remaining in Pr; rewrite Hs in Pr; lia).
    destruct x as [misc|];
      [ destruct (IH (miscs ++ [misc]) p1 F R) as (m' & p' & L & S' & C' & N)
      | destruct (IH miscs p1 F R) as (m' & p' & L & S' & C' & N) ];
      exists m', p'; (split; [ exact L | ]);
      (split; [ congruence | ]); (split; [ lia | exact N ]).
  - unfold bind. rewrite (setCursor_back (preserves_parseMisc fuel) E).
    exists miscs, p. unfold ret. repeat split; eauto.
Qed.

End Termination.

Lemma ascii_sentinel_inert : sentinel_inert (ext := asciiExternals).
Proof.
  unfold sentinel_inert. repeat split; try reflexivity.
  vm_compute. intuition discriminate.
Qed.



(** ** Instances of the general parts of C5, C7 and C10 *)

Lemma C5_mixed_names_witness :
  parseMixed (ext := asciiExternals) 4 (NewParser (runes "(#PCDATA|a|b)*"))
  = Some (Ok {| Mixed_Names := [runes "a"; runes "b"] |},
          at_ (runes "(#PCDATA|a|b)*") 14)
  /\ exists p0,
       Test (ext := asciiExternals) (ch ")") p0 = true
       /\ Test (ext := asciiExternals) (ch "*") (stepped 1 p0) = true
       /\ at_ (runes "(#PCDATA|a|b)*") 14 = stepped 2 p0.
Proof.
  assert (H : parseMixed (ext := asciiExternals) 4
                (NewParser (runes "(#PCDATA|a|b)*"))
              = Some (Ok {| Mixed_Names := [runes "a"; runes "b"] |},
                      at_ (runes "(#PCDATA|a|b)*") 14))
    by (vm_compute; reflexivity).
  split; [ exact H | ].
  refine (proj2 (proj2 (proj2 (C5_mixed_names_need_star 0)))
            asciiExternals 4 _ _ _ H _).
  discriminate.
Defined.

Lemma C10_star_after_empty_mixed_witness :
  parseMixed (ext := asciiExternals) 4 (NewParser (runes "(#PCDATA)*"))
  = Some (Ok {| Mixed_Names := [] |}, at_ (runes "(#PCDATA)*") 9)
  /\ exists p0,
       Test (ext := asciiExternals) (ch ")") p0 = true
       /\ at_ (runes "(#PCDATA)*") 9 = stepped 1 p0.
Proof.
  assert (H : parseMixed (ext := asciiExternals) 4
                (NewParser (runes "(#PCDATA)*"))
              = Some (Ok {| Mixed_Names := [] |}, at_ (runes "(#PCDATA)*") 9))
    by (vm_compute; reflexivity).
  split; [ exact H | ].
  exact (proj1 (C10_star_after_empty_mixed 0) asciiExternals 4 _ _ _ H
           eq_refl).
Defined.

Lemma C7_XMLDecl_optional_witness :
  parseXmlDecl (ext := asciiExternals) 8 (NewParser decl_no_standalone)
  = Some (Ok {| Version := runes "1.0"; Encoding := runes "UTF-8";
                Standalone := false |}, at_ decl_no_standalone 38)
  /\ exists q1 q1' q2 q2' q3 q3',
       parseVersion (ext := asciiExternals) 8
         (stepped 5 (relabel (runes "XML Declaration")
                       (NewParser decl_no_standalone)))
       = Some (Ok (runes "1.0"), q1)
       /\ skipSpace (ext := asciiExternals) 8 q1 = Some (Ok tt, q1')
       /\ (if Tests (runes "encoding") q1'
           then parseEncoding (ext := asciiExternals) 8 q1
                = Some (Ok (runes "UTF-8"), q2)
           else runes "UTF-8" = [] /\ q2 = q1)
       /\ skipSpace (ext := asciiExternals) 8 q2 = Some (Ok tt, q2')
       /\ (if Tests (runes "standalone") q2'
           then parseStandalone (ext := asciiExternals) 8 q2
                = Some (Ok false, q3)
           else false = false /\ q3 = q2)
       /\ skipSpace (ext := asciiExternals) 8 q3 = Some (Ok tt, q3')
       /\ Tests (runes "?>") q3' = true
       /\ at_ decl_no_standalone 38
          = relabel (parsing (NewParser decl_no_standalone))
              (stepped 2 q3').
Proof.
  assert (H : parseXmlDecl (ext := asciiExternals) 8
                (NewParser decl_no_standalone)
              = Some (Ok {| Version := runes "1.0";
                            Encoding := runes "UTF-8";
                            Standalone := false |},
                      at_ decl_no_standalone 38))
    by (vm_compute; reflexivity).
  split; [ exact H | ].
  exact (proj2 (proj1 (proj2 (proj2 (proj2 (proj2
           (C7_XMLDecl_optional_parts 0))))
           asciiExternals 8 _ _ _) H)).
Defined.

(** * Further properties of the parser *)

#[export] Hint Resolve preserves_Must preserves_Musts preserves_Step preserves_StepN
  preserves_parse preserves_parseAttDef preserves_parseAttType
  preserves_parseAttValue preserves_parseAttValue_loop preserves_parseAttlist
  preserves_parseAttlist_loop preserves_parseAttribute
  preserves_parseBarList_loop preserves_parseCDSect preserves_parseCDSect_loop
  preserves_parseCP_rec preserves_parseCPs_loop preserves_parseCharRef
  preserves_parseChildren preserves_parseChoice preserves_parseChoiceWith
  preserves_parseComment preserves_parseComment_loop
  preserves_parseContentSpec preserves_parseContents
  preserves_parseContentsWith preserves_parseContents_loop
  preserves_parseDefaultDecl preserves_parseDoctype
  preserves_parseDoctype_loop preserves_parseETag preserves_parseElement
  preserves_parseElementDecl preserves_parseElement_attrs
  preserves_parseElement_rec preserves_parseEncName
  preserves_parseEncName_loop preserves_parseEncoding preserves_parseEntity
  preserves_parseEntityDef preserves_parseEntityRef preserves_parseEntityValue
  preserves_parseEntityValue_loop preserves_parseEnum preserves_parseEq
  preserves_parseExternalID preserves_parseMarkup preserves_parseMisc
  preserves_parseMisc_loop preserves_parseMixed preserves_parseMixed_loop
  preserves_parseNData preserves_parseName preserves_parseName_loop
  preserves_parseNmtoken preserves_parseNotation preserves_parseNotationType
  preserves_parsePEDef preserves_parsePERef preserves_parsePI
  preserves_parsePITarget preserves_parsePI_loop preserves_parseProlog
  preserves_parsePubidLiteral preserves_parsePubidLiteral_loop
  preserves_parseQuote preserves_parseReference preserves_parseSeq
  preserves_parseSeqWith preserves_parseSpace preserves_parseStandalone
  preserves_parseSuffix preserves_parseSystemLiteral
  preserves_parseSystemLiteral_loop preserves_parseVersion
  preserves_parseVersionNum preserves_parseVersionNum_loop
  preserves_parseXmlDecl preserves_scanWhile preserves_skipSpace
  preserves_skipSpace_loop : frame.

(** ** The cursor stays above a bound

    A production may save the cursor and put it back; it never puts it
    before the position it was entered at. *)

Lemma forward_above {A} (m : M A) c : forward m -> above c m.
Proof. intros F p r p' Hc H. apply F in H. lia. Qed.

Lemma above_forward {A} (m : M A) : (forall c, above c m) -> forward m.
Proof. intros H p r p' E. exact (H (cursor p) p r p' (le_n _) E). Qed.

Lemma above_ret c {A} (a : A) : above c (ret a).
Proof. intros p r p' Hc H. inversion H; subst; auto. Qed.

Lemma above_error c {A} x : above c (@error A x).
Proof. intros p r p' Hc H. inversion H; subst; auto. Qed.

Lemma above_None c {A} : above c (fun _ : parser => @None (res A * parser)).
Proof. intros p r p' Hc H. discriminate. Qed.

Lemma above_look c {A} (f : parser -> A) : above c (look f).
Proof. intros p r p' Hc H. inversion H; subst; auto. Qed.

Lemma above_StepN c n : above c (StepN n).
Proof. intros p r p' Hc H. inversion H; subst; simpl; lia. Qed.

Lemma above_Step c : above c Step.
Proof. apply above_StepN. Qed.

Lemma above_setCursor c cur : c <= cur -> above c (setCursor cur).
Proof. intros Hcur p r p' Hc H. inversion H; subst; simpl; lia. Qed.

Lemma above_bind c {A B} (m : M A) (f : A -> M B) :
  above c m -> (forall a, above c (f a)) -> above c (bind m f).
Proof.
  intros Hm Hf p r p' Hc H. apply bind_inv in H.
  destruct H as [(e & H & _)|(a & p1 & H1 & H2)].
  - exact (Hm _ _ _ Hc H).
  - exact (Hf a _ _ _ (Hm _ _ _ Hc H1) H2).
Qed.

(** The cursor read on entry is at least the bound. *)
Lemma above_getCursor c {B} (f : nat -> M B) :
  (forall cur, c <= cur -> above c (f cur)) -> above c (bind getCursor f).
Proof. intros Hf p r p' Hc H. exact (Hf (cursor p) Hc p r p' Hc H). Qed.

Lemma above_branch c {A} t (a b : M A) :
  above c a -> above c b -> above c (branch t a b).
Proof. intros Ha Hb p r p'. unfold branch. destruct (t p); eauto. Qed.

Lemma above_try c {A} (m : M A) : above c m -> above c (try m).
Proof.
  intros Hm p r p' Hc. unfold try.
  destruct (m p) as [[r0 p0]|] eqn:E; intros H; inversion H; subst; eauto.
Qed.

Lemma above_withParsing c {A} l (m : M A) :
  above c m -> above c (withParsing l m).
Proof.
  intros Hm p r p' Hc. unfold withParsing.
  match goal with |- context [m ?q] => destruct (m q) as [[r0 p0]|] eqn:E end;
    intros H; inversion H; subst; simpl.
  apply Hm in E; auto.
Qed.

Create HintDb above.

#[export] Hint Resolve above_ret above_error above_None above_look above_StepN
  above_Step above_setCursor above_try above_withParsing above_branch : above.

Ltac above_step :=
  match goal with
  | |- above _ (bind getCursor _) => apply above_getCursor; intros ? ?
  | |- above _ (bind _ _) => apply above_bind; [ | intro ]
  | |- above _ (branch _ _ _) => apply above_branch
  | |- above _ (try _) => apply above_try
  | |- above _ (withParsing _ _) => apply above_withParsing
  | |- above _ (match ?x with _ => _ end) => destruct x
  | |- above _ (let _ := _ in _) => cbv zeta
  end.

Ltac above := repeat above_step; auto with above.

Section Above.

Context {ext : Externals}.
Variable fuel : nat.

Lemma above_Must c r : above c (Must r).
Proof. unfold Must. above. Qed.

Hint Resolve above_Must : above.

Lemma above_Musts c s : above c (Musts s).
Proof. unfold Musts. above. Qed.

Hint Resolve above_Musts : above.

Lemma above_parseSuffix c : above c parseSuffix.
Proof. unfold parseSuffix. above. Qed.

Hint Resolve above_parseSuffix : above.

Lemma above_parseQuote c : above c parseQuote.
Proof. unfold parseQuote. above. Qed.

Hint Resolve above_parseQuote : above.

Lemma above_skipSpace_loop c k  : above c (skipSpace_loop k ).
Proof. revert c. induction k; intros; simpl; above. Qed.

Hint Resolve above_skipSpace_loop : above.

Lemma above_skipSpace c : above c (skipSpace fuel).
Proof. unfold skipSpace. above. Qed.

Hint Resolve above_skipSpace : above.

Lemma above_parseSpace c : above c (parseSpace fuel).
Proof. unfold parseSpace. above. Qed.

Hint Resolve above_parseSpace : above.

Lemma above_parseName_loop c k s : above c (parseName_loop k s).
Proof. revert s c. induction k; intros; simpl; above. Qed.

Hint Resolve above_parseName_loop : above.

Lemma above_parseName c : above c (parseName fuel).
Proof. unfold parseName. above. Qed.

Hint Resolve above_parseName : above.

Lemma above_scanWhile c ok k s r : above c (scanWhile ok k s r).
Proof. revert s r c. induction k; intros; simpl; above. Qed.

Hint Resolve above_scanWhile : above.

Lemma above_parseCharRef c : above c (parseCharRef fuel).
Proof. unfold parseCharRef. above. Qed.

Hint Resolve above_parseCharRef : above.

Lemma above_parseEntityRef c : above c (parseEntityRef fuel).
Proof. unfold parseEntityRef. above. Qed.

Hint Resolve above_parseEntityRef : above.

Lemma above_parseReference c : above c (parseReference fuel).
Proof. unfold parseReference. above. Qed.

Hint Resolve above_parseReference : above.

Lemma above_parseComment_loop c k s : above c (parseComment_loop k s).
Proof. revert s c. induction k; intros; simpl; above. Qed.

Hint Resolve above_parseComment_loop : above.

Lemma above_parseComment c : above c (parseComment fuel).
Proof. unfold parseComment. above. Qed.

Hint Resolve above_parseComment : above.

Lemma above_parsePITarget c : above c (parsePITarget fuel).
Proof. unfold parsePITarget. above. Qed.

Hint Resolve above_parsePITarget : above.

Lemma above_parsePI_loop c k s : above c (parsePI_loop k s).
Proof. revert s c. induction k; intros; simpl; above. Qed.

Hint Resolve above_parsePI_loop : above.

Lemma above_parsePI c : above c (parsePI fuel).
Proof. unfold parsePI. above. Qed.

Hint Resolve above_parsePI : above.

Lemma above_parseMisc c : above c (parseMisc fuel).
Proof. unfold parseMisc. above. Qed.

Hint Resolve above_parseMisc : above.

Lemma above_parseCPs_loop c cp sep k cps :
  (forall c, above c cp) -> above c (parseCPs_loop fuel cp sep k cps).
Proof. intros Hcp. revert cps c. induction k; intros; simpl; above. Qed.

Hint Resolve above_parseCPs_loop : above.

Lemma above_parseChoiceWith c pe :
  (forall c, above c pe) -> above c (parseChoiceWith fuel pe).
Proof. intros Hpe. unfold parseChoiceWith. above. Qed.

Hint Resolve above_parseChoiceWith : above.

Lemma above_parseSeqWith c pe :
  (forall c, above c pe) -> above c (parseSeqWith fuel pe).
Proof. intros Hpe. unfold parseSeqWith. above. Qed.

Hint Resolve above_parseSeqWith : above.

Lemma above_parseCP_rec c d : above c (parseCP_rec fuel d).
Proof. revert c. induction d; intros; simpl; above. Qed.

Hint Resolve above_parseCP_rec : above.

Lemma above_parseCP c : above c (parseCP fuel).
Proof. unfold parseCP. above. Qed.

Hint Resolve above_parseCP : above.

Lemma above_parseChoice c : above c (parseChoice fuel).
Proof. unfold parseChoice, parseCP. above. Qed.

Hint Resolve above_parseChoice : above.

Lemma above_parseSeq c : above c (parseSeq fuel).
Proof. unfold parseSeq, parseCP. above. Qed.

Hint Resolve above_parseSeq : above.

Lemma above_parseMixed_loop c k names : above c (parseMixed_loop fuel k names).
Proof. revert names c. induction k; intros; simpl; above. Qed.

Hint Resolve above_parseMixed_loop : above.

Lemma above_parseMixed c : above c (parseMixed fuel).
Proof. unfold parseMixed. above. Qed.

Hint Resolve above_parseMixed : above.

Lemma above_parseNmtoken c : above c (parseNmtoken fuel).
Proof. unfold parseNmtoken. above. Qed.

Hint Resolve above_parseNmtoken : above.

Lemma above_parseEq c : above c (parseEq fuel).
Proof. unfold parseEq. above. Qed.

Hint Resolve above_parseEq : above.

Lemma above_parseVersionNum_loop c k s : above c (parseVersionNum_loop k s).
Proof. revert s c. induction k; intros; simpl; above. Qed.

Hint Resolve above_parseVersionNum_loop : above.

Lemma above_parseVersionNum c : above c (parseVersionNum fuel).
Proof. unfold parseVersionNum. above. Qed.

Hint Resolve above_parseVersionNum : above.

Lemma above_parseVersion c : above c (parseVersion fuel).
Proof. unfold parseVersion. above. Qed.

Hint Resolve above_parseVersion : above.

Lemma above_parseEncName_loop c k s : above c (parseEncName_loop k s).
Proof. revert s c. induction k; intros; simpl; above. Qed.

Hint Resolve above_parseEncName_loop : above.

Lemma above_parseEncName c : above c (parseEncName fuel).
Proof. unfold parseEncName. above. Qed.

Hint Resolve above_parseEncName : above.

Lemma above_parseEncoding c : above c (parseEncoding fuel).
Proof. unfold parseEncoding. above. Qed.

Hint Resolve above_parseEncoding : above.

Lemma above_parseStandalone c : above c (parseStandalone fuel).
Proof. unfold parseStandalone. above. Qed.

Hint Resolve above_parseStandalone : above.

Lemma above_parseXmlDecl c : above c (parseXmlDecl fuel).
Proof. unfold parseXmlDecl. above. Qed.

Hint Resolve above_parseXmlDecl : above.

Lemma above_parsePERef c : above c (parsePERef fuel).
Proof. unfold parsePERef. above. Qed.

Hint Resolve above_parsePERef : above.

Lemma above_parseEntityValue_loop c k q res s : above c (parseEntityValue_loop fuel k q res s).
Proof. revert q res s c. induction k; intros; simpl; above. Qed.

Hint Resolve above_parseEntityValue_loop : above.

Lemma above_parseAttValue_loop c k q res s : above c (parseAttValue_loop fuel k q res s).
Proof. revert q res s c. induction k; intros; simpl; above. Qed.

Hint Resolve above_parseAttValue_loop : above.

Lemma above_parseSystemLiteral_loop c k q s : above c (parseSystemLiteral_loop k q s).
Proof. revert q s c. induction k; intros; simpl; above. Qed.

Hint Resolve above_parseSystemLiteral_loop : above.

Lemma above_parsePubidLiteral_loop c k q s r : above c (parsePubidLiteral_loop k q s r).
Proof. revert q s r c. induction k; intros; simpl; above. Qed.

Hint Resolve above_parsePubidLiteral_loop : above.

Lemma above_parseCDSect_loop c k s : above c (parseCDSect_loop k s).
Proof. revert s c. induction k; intros; simpl; above. Qed.

Hint Resolve above_parseCDSect_loop : above.

Lemma above_parseEntityValue c : above c (parseEntityValue fuel).
Proof. unfold parseEntityValue. above. Qed.

Hint Resolve above_parseEntityValue : above.

Lemma above_parseAttValue c : above c (parseAttValue fuel).
Proof. unfold parseAttValue. above. Qed.

Hint Resolve above_parseAttValue : above.

Lemma above_parseSystemLiteral c : above c (parseSystemLiteral fuel).
Proof. unfold parseSystemLiteral. above. Qed.

Hint Resolve above_parseSystemLiteral : above.

Lemma above_parsePubidLiteral c : above c (parsePubidLiteral fuel).
Proof. unfold parsePubidLiteral. above. Qed.

Hint Resolve above_parsePubidLiteral : above.

Lemma above_parseCDSect c : above c (parseCDSect fuel).
Proof. unfold parseCDSect. above. Qed.

Hint Resolve above_parseCDSect : above.

Lemma above_parseAttribute c : above c (parseAttribute fuel).
Proof. unfold parseAttribute. above. Qed.

Hint Resolve above_parseAttribute : above.

Lemma above_parseETag c : above c (parseETag fuel).
Proof. unfold parseETag. above. Qed.

Hint Resolve above_parseETag : above.

Lemma above_parseContents_loop c pe k res s :
  (forall c, above c pe) -> above c (parseContents_loop fuel pe k res s).
Proof. intros Hpe. revert res s c. induction k; intros; simpl; above. Qed.

Hint Resolve above_parseContents_loop : above.

Lemma above_parseContentsWith c pe :
  (forall c, above c pe) -> above c (parseContentsWith fuel pe).
Proof. intros Hpe. unfold parseContentsWith. above. Qed.

Hint Resolve above_parseContentsWith : above.

Lemma above_parseElement_attrs c k attrs : above c (parseElement_attrs fuel k attrs).
Proof. revert attrs c. induction k; intros; simpl; above. Qed.

Hint Resolve above_parseElement_attrs : above.

Lemma above_parseElement_rec c d : above c (parseElement_rec fuel d).
Proof. revert c. induction d; intros; simpl; above. Qed.

Hint Resolve above_parseElement_rec : above.

Lemma above_parseElement c : above c (parseElement fuel).
Proof. unfold parseElement. above. Qed.

Hint Resolve above_parseElement : above.

Lemma above_parseContents c : above c (parseContents fuel).
Proof. unfold parseContents, parseElement. above. Qed.

Hint Resolve above_parseContents : above.

Lemma above_parseChildren c : above c (parseChildren fuel).
Proof. unfold parseChildren. above. Qed.

Hint Resolve above_parseChildren : above.

Lemma above_parseContentSpec c : above c (parseContentSpec fuel).
Proof. unfold parseContentSpec. above. Qed.

Hint Resolve above_parseContentSpec : above.

Lemma above_parseElementDecl c : above c (parseElementDecl fuel).
Proof. unfold parseElementDecl. above. Qed.

Hint Resolve above_parseElementDecl : above.

Lemma above_parseBarList_loop c pe k acc :
  (forall c, above c pe) -> above c (parseBarList_loop fuel pe k acc).
Proof. intros Hpe. revert acc c. induction k; intros; simpl; above. Qed.

Hint Resolve above_parseBarList_loop : above.

Lemma above_parseNotationType c : above c (parseNotationType fuel).
Proof. unfold parseNotationType. above. Qed.

Hint Resolve above_parseNotationType : above.

Lemma above_parseEnum c : above c (parseEnum fuel).
Proof. unfold parseEnum. above. Qed.

Hint Resolve above_parseEnum : above.

Lemma above_parseAttType c : above c (parseAttType fuel).
Proof. unfold parseAttType. above. Qed.

Hint Resolve above_parseAttType : above.

Lemma above_parseDefaultDecl c : above c (parseDefaultDecl fuel).
Proof. unfold parseDefaultDecl. above. Qed.

Hint Resolve above_parseDefaultDecl : above.

Lemma above_parseAttDef c : above c (parseAttDef fuel).
Proof. unfold parseAttDef. above. Qed.

Hint Resolve above_parseAttDef : above.

Lemma above_parseAttlist_loop c k defs : above c (parseAttlist_loop fuel k defs).
Proof. revert defs c. induction k; intros; simpl; above. Qed.

Hint Resolve above_parseAttlist_loop : above.

Lemma above_parseAttlist c : above c (parseAttlist fuel).
Proof. unfold parseAttlist. above. Qed.

Hint Resolve above_parseAttlist : above.

Lemma above_parseExternalID c : above c (parseExternalID fuel).
Proof. unfold parseExternalID. above. Qed.

Hint Resolve above_parseExternalID : above.

Lemma above_parseNData c : above c (parseNData fuel).
Proof. unfold parseNData. above. Qed.

Hint Resolve above_parseNData : above.

Lemma above_parseEntityDef c : above c (parseEntityDef fuel).
Proof. unfold parseEntityDef. above. Qed.

Hint Resolve above_parseEntityDef : above.

Lemma above_parsePEDef c : above c (parsePEDef fuel).
Proof. unfold parsePEDef. above. Qed.

Hint Resolve above_parsePEDef : above.

Lemma above_parseEntity c : above c (parseEntity fuel).
Proof. unfold parseEntity. above. Qed.

Hint Resolve above_parseEntity : above.

Lemma above_parseNotation c : above c (parseNotation fuel).
Proof. unfold parseNotation. above. Qed.

Hint Resolve above_parseNotation : above.

Lemma above_parseMarkup c : above c (parseMarkup fuel).
Proof. unfold parseMarkup. above. Qed.

Hint Resolve above_parseMarkup : above.

Lemma above_parseDoctype_loop c k ms r : above c (parseDoctype_loop fuel k ms r).
Proof. revert ms r c. induction k; intros; simpl; above. Qed.

Hint Resolve above_parseDoctype_loop : above.

Lemma above_parseDoctype c : above c (parseDoctype fuel).
Proof. unfold parseDoctype. above. Qed.

Hint Resolve above_parseDoctype : above.

Lemma above_parseMisc_loop c k miscs : above c (parseMisc_loop fuel k miscs).
Proof. revert miscs c. induction k; intros; simpl; above. Qed.

Hint Resolve above_parseMisc_loop : above.

Lemma above_parseProlog c : above c (parseProlog fuel).
Proof. unfold parseProlog. above. Qed.

Hint Resolve above_parseProlog : above.

Lemma above_parse c : above c (parse fuel).
Proof. unfold parse. above. Qed.

End Above.

#[export] Hint Resolve above_Must above_Musts above_parseQuote above_parseSuffix
  above_skipSpace_loop above_skipSpace above_parseSpace above_parseName_loop
  above_parseName above_scanWhile above_parseCharRef above_parseEntityRef
  above_parseReference above_parseComment_loop above_parseComment
  above_parsePITarget above_parsePI_loop above_parsePI above_parseMisc
  above_parseCPs_loop above_parseChoiceWith above_parseSeqWith
  above_parseCP_rec above_parseCP above_parseChoice above_parseSeq
  above_parseMixed_loop above_parseMixed above_parseNmtoken above_parseEq
  above_parseVersionNum_loop above_parseVersionNum above_parseVersion
  above_parseEncName_loop above_parseEncName above_parseEncoding
  above_parseStandalone above_parseXmlDecl above_parsePERef
  above_parseEntityValue_loop above_parseAttValue_loop
  above_parseSystemLiteral_loop above_parsePubidLiteral_loop
  above_parseCDSect_loop above_parseEntityValue above_parseAttValue
  above_parseSystemLiteral above_parsePubidLiteral above_parseCDSect
  above_parseAttribute above_parseETag above_parseContents_loop
  above_parseContentsWith above_parseElement_attrs above_parseElement_rec
  above_parseElement above_parseContents above_parseChildren
  above_parseContentSpec above_parseElementDecl above_parseBarList_loop
  above_parseNotationType above_parseEnum above_parseAttType
  above_parseDefaultDecl above_parseAttDef above_parseAttlist_loop
  above_parseAttlist above_parseExternalID above_parseNData
  above_parseEntityDef above_parsePEDef above_parseEntity above_parseNotation
  above_parseMarkup above_parseDoctype_loop above_parseDoctype
  above_parseMisc_loop above_parseProlog : above.

(** ** Successful productions move the cursor *)

Lemma moves_bind_l {A B} (m : M A) (f : A -> M B) :
  moves m -> (forall a c, above c (f a)) -> moves (bind m f).
Proof.
  intros Hm Hf p b p' H. bind_as H a q H1.
  apply Hm in H1. apply (Hf a (cursor q)) in H; lia.
Qed.

Lemma moves_bind_r {A B} (m : M A) (f : A -> M B) :
  (forall c, above c m) -> (forall a, moves (f a)) -> moves (bind m f).
Proof.
  intros Hm Hf p b p' H. bind_as H a q H1.
  apply (Hm (cursor p)) in H1; [ | lia ]. apply Hf in H. lia.
Qed.

Lemma moves_branch {A} c (a b : M A) :
  moves a -> moves b -> moves (branch c a b).
Proof. intros Ha Hb p x p'. unfold branch. destruct (c p); eauto. Qed.

Lemma moves_withParsing {A} l (m : M A) : moves m -> moves (withParsing l m).
Proof.
  intros Hm p a p' H. apply withParsing_inv_Ok in H.
  destruct H as (q & H & ->). apply Hm in H. exact H.
Qed.

Lemma moves_error {A} c : moves (@error A c).
Proof. intros p a p' H. discriminate. Qed.

Lemma moves_None {A} : moves (fun _ : parser => @None (res A * parser)).
Proof. intros p a p' H. discriminate. Qed.

Lemma moves_StepN n : 0 < n -> moves (StepN n).
Proof. intros Hn p a p' H. inversion H; subst; simpl; lia. Qed.

Lemma len_length s : length s <= len s.
Proof.
  unfold len. induction s as [|r s IH]; simpl; [ lia | ].
  assert (1 <= utf8_len r)
    by (unfold utf8_len; repeat match goal with |- context [if ?b then _ else _] => destruct b end; lia).
  lia.
Qed.

Create HintDb moves.

#[export] Hint Resolve moves_error moves_None moves_branch moves_withParsing
  : moves.

(** Proves [forward]-like side conditions through [above]. *)
Ltac moves_step :=
  match goal with
  | |- moves (withParsing _ _) => apply moves_withParsing
  | |- moves (branch _ _ _) => apply moves_branch
  | |- moves (match ?x with _ => _ end) => destruct x
  end.


(** ** Every production returns

    With the sentinel apart and a fuel above the length of the source, no
    loop and no recursion of the parser runs out of fuel: each iteration
    that goes on has consumed a rune of the source. *)

Lemma returns_ret {A} (a : A) p : returns (ret a) p.
Proof. unfold returns, ret. eauto. Qed.

Lemma returns_error {A} c p : returns (@error A c) p.
Proof. unfold returns, error. eauto. Qed.

Lemma returns_bind {A B} (m : M A) (f : A -> M B) p :
  returns m p ->
  (forall a q, m p = Some (Ok a, q) -> returns (f a) q) ->
  returns (bind m f) p.
Proof.
  intros (r & q & E) Hf. unfold returns. destruct r as [a|e].
  - erewrite bind_Ok by exact E. apply (Hf a q E).
  - erewrite bind_Err by exact E. eauto.
Qed.

Lemma returns_bind_try {A B} (m : M A) (f : res A -> M B) p :
  returns m p ->
  (forall r q, m p = Some (r, q) -> returns (f r) q) ->
  returns (bind (try m) f) p.
Proof.
  intros (r & q & E) Hf. unfold returns, bind, try. rewrite E.
  apply (Hf r q E).
Qed.

Lemma returns_branch {A} c (a b : M A) p :
  (c p = true -> returns a p) -> (c p = false -> returns b p) ->
  returns (branch c a b) p.
Proof.
  intros Ha Hb. unfold returns, branch.
  destruct (c p); [ apply Ha | apply Hb ]; reflexivity.
Qed.

Lemma returns_withParsing {A} l (m : M A) p :
  returns m (relabel l p) -> returns (withParsing l m) p.
Proof.
  intros (r & q & E). unfold returns, withParsing. unfold relabel in E.
  rewrite E. eauto.
Qed.

(** What a production that has run leaves of the state it started from. *)
Lemma after {A} (m : M A) p r q :
  preserves m -> (forall c, above c m) -> m p = Some (r, q) ->
  length (source q) = length (source p) /\ cursor p <= cursor q.
Proof.
  intros Pm Am E. destruct (Pm _ _ _ E) as [-> _].
  split; [ reflexivity | ]. exact (Am (cursor p) _ _ _ (le_n _) E).
Qed.

Lemma after_length {A} (m : M A) p r q :
  preserves m -> m p = Some (r, q) -> length (source q) = length (source p).
Proof. intros Pm E. now destruct (Pm _ _ _ E) as [-> _]. Qed.

Lemma in_bounds p : isEnd p = false -> cursor p < length (source p).
Proof. unfold isEnd. intros H. now apply Nat.leb_gt in H. Qed.

Lemma at_end p : isEnd p = true -> length (source p) <= cursor p.
Proof. unfold isEnd. intros H. now apply Nat.leb_le in H. Qed.

Create HintDb returns.

#[export] Hint Resolve returns_ret returns_error : returns.

Ltac arith :=
  unfold fits, remaining, relabel, stepped in *; simpl in *; lia.

#[export] Hint Extern 2 (fits _ _) => arith : returns.
#[export] Hint Extern 2 (_ < _) => arith : returns.

(** Records, for a run [E : m p = Some (r, q)], that [q] has the source of
    [p] and a cursor that is not before the one of [p], and beyond it where
    [m] moves. *)
Ltac strict :=
  repeat match goal with
  | E : ?m ?p = Some (Ok _, ?q) |- _ =>
      let Mv := fresh "Mv" in
      assert (Mv : moves m) by (auto with moves); apply Mv in E; clear Mv
  end.

Ltac note E :=
  match type of E with
  | ?m ?p = Some (?r, ?q) =>
      first
        [ let F := fresh "F" in
          assert (F : length (source q) = length (source p)
                      /\ cursor p <= cursor q)
            by (apply (@after _ m p r q); [ frame | intro; above | exact E ]);
          destruct F as [? ?]
        | assert (length (source q) = length (source p))
            by (apply (@after_length _ m p r q); [ frame | exact E ]) ];
      strict
  end.

(** One step of the run of a production from a state. *)
Ltac exec :=
  match goal with
  | |- returns (ret _) _ => apply returns_ret
  | |- returns (error _) _ => apply returns_error
  | |- returns (bind getCursor ?f) ?p =>
      change (returns (f (cursor p)) p); cbv beta
  | |- returns (bind (look ?g) ?f) ?p =>
      change (returns (f (g p)) p); cbv beta
  | |- returns (bind (StepN ?n) ?f) ?p =>
      change (returns (f tt) (stepped n p)); cbv beta
  | |- returns (bind Step ?f) ?p =>
      change (returns (f tt) (stepped 1 p)); cbv beta
  | |- returns (bind (setCursor ?c) ?f) ?p =>
      change (returns (f tt) {| source := source p; cursor := c;
                                parsing := parsing p |}); cbv beta
  | |- returns (bind (try _) _) _ =>
      apply returns_bind_try;
      [ | let E := fresh "E" in intros ? ? E; note E ]
  | |- returns (bind _ _) _ =>
      apply returns_bind;
      [ | let E := fresh "E" in intros ? ? E; note E ]
  | |- returns (branch _ _ _) _ =>
      apply returns_branch; let C := fresh "C" in intros C
  | |- returns (withParsing _ _) _ => apply returns_withParsing
  | |- returns (match ?x with _ => _ end) _ => destruct x; strict
  | |- returns (let _ := _ in _) _ => cbv zeta
  end.

Ltac runs := repeat exec; eauto with returns.
Section Progress.

Context {ext : Externals}.
Variable fuel : nat.

Lemma moves_Must r : moves (Must r).
Proof.
  intros p a p' H. apply Must_inv_Ok in H. destruct H as [_ ->]. simpl. lia.
Qed.

Lemma moves_Musts s : s <> [] -> moves (Musts s).
Proof.
  intros Hs p a p' H. apply Musts_inv_Ok in H. destruct H as [_ ->].
  pose proof (len_length s). destruct s; [ contradiction | ].
  simpl in *. lia.
Qed.

(** After a literal, a character or white space that was required, whatever
    follows keeps the cursor beyond it. *)
Lemma moves_after_Must {B} r (f : unit -> M B) :
  (forall u c, above c (f u)) -> moves (bind (Must r) f).
Proof. intros Hf. apply moves_bind_l; [ apply moves_Must | exact Hf ]. Qed.

Lemma moves_after_Musts {B} s (f : unit -> M B) :
  s <> [] -> (forall u c, above c (f u)) -> moves (bind (Musts s) f).
Proof. intros Hs Hf. apply moves_bind_l; [ now apply moves_Musts | exact Hf ]. Qed.

Lemma moves_skipSpace p u p' :
  isSpace (Get p) = true -> skipSpace fuel p = Some (Ok u, p') ->
  cursor p < cursor p'.
Proof.
  intros C H. unfold skipSpace in H. destruct fuel as [|k]; [ discriminate | ].
  simpl in H. unfold branch in H. rewrite C in H.
  bind_as H x q Hq. inversion Hq; subst; clear Hq.
  apply (@above_skipSpace_loop _ (S (cursor p))) in H; simpl in *; lia.
Qed.

Lemma moves_parseSpace : moves (parseSpace fuel).
Proof.
  intros p a p' H. unfold parseSpace, branch in H.
  destruct (isSpace (Get p)) eqn:C; simpl in H; [ | discriminate ].
  eapply moves_skipSpace; eassumption.
Qed.

Lemma moves_parseName : moves (parseName fuel).
Proof.
  intros p a p' H. unfold parseName, branch in H.
  destruct (isLetter (Get p) || Test (ch "_") p || Test (ch ":") p);
    [ | discriminate ].
  bind_as H r q Hr. inversion Hr; subst; clear Hr.
  bind_as H u q' Hq. inversion Hq; subst; clear Hq.
  apply (@above_parseName_loop _ (S (cursor q))) in H; simpl in *; lia.
Qed.

Hint Resolve moves_Must moves_parseSpace moves_parseName : moves.

(** A goal [moves (m ;; k)] where [m] moves. *)
Ltac moves_first :=
  apply moves_bind_l; [ auto with moves | intros; above ].

Ltac moves_lit :=
  apply moves_after_Musts; [ discriminate | intros; above ].

Lemma moves_parseEntityRef : moves (parseEntityRef fuel).
Proof. unfold parseEntityRef. moves_first. Qed.

Lemma moves_parsePERef : moves (parsePERef fuel).
Proof. unfold parsePERef. moves_first. Qed.

Lemma moves_parseCharRef : moves (parseCharRef fuel).
Proof.
  unfold parseCharRef. apply moves_bind_r; [ intro; above | intros ref ].
  moves_first.
Qed.

Lemma moves_parseReference : moves (parseReference fuel).
Proof.
  intros p a p' H. unfold parseReference in H.
  unfold bind at 1 in H. unfold getCursor at 1, ret at 1 in H.
  unfold bind at 1 in H. unfold try at 1 in H.
  destruct (parseEntityRef fuel p) as [[[e|err] q]|] eqn:E; [ | | discriminate ].
  - inversion H; subst. eapply moves_parseEntityRef; eassumption.
  - unfold bind at 1 in H. unfold setCursor at 1, ret at 1 in H.
    bind_as H c q' Hc. inversion H; subst; clear H.
    apply moves_parseCharRef in Hc. exact Hc.
Qed.

Lemma moves_parseCDSect : moves (parseCDSect fuel).
Proof. unfold parseCDSect. moves_lit. Qed.

Lemma moves_parseComment : moves (parseComment fuel).
Proof. unfold parseComment. apply moves_withParsing. moves_lit. Qed.

Lemma moves_parsePI : moves (parsePI fuel).
Proof. unfold parsePI. apply moves_withParsing. moves_lit. Qed.

Lemma moves_parseElementDecl : moves (parseElementDecl fuel).
Proof. unfold parseElementDecl. apply moves_withParsing. moves_lit. Qed.

Lemma moves_parseAttlist : moves (parseAttlist fuel).
Proof. unfold parseAttlist. apply moves_withParsing. moves_lit. Qed.

Lemma moves_parseEntity : moves (parseEntity fuel).
Proof. unfold parseEntity. apply moves_withParsing. moves_lit. Qed.

Lemma moves_parseNotation : moves (parseNotation fuel).
Proof. unfold parseNotation. apply moves_withParsing. moves_lit. Qed.

Hint Resolve moves_parseEntityRef moves_parsePERef moves_parseCharRef
  moves_parseReference moves_parseCDSect moves_parseComment moves_parsePI
  moves_parseElementDecl moves_parseAttlist moves_parseEntity
  moves_parseNotation : moves.

Lemma moves_parseMarkup : moves (parseMarkup fuel).
Proof.
  unfold parseMarkup. apply moves_withParsing.
  repeat (apply moves_branch; [ moves_first | ]). apply moves_error.
Qed.

Lemma moves_parseAttDef : moves (parseAttDef fuel).
Proof. unfold parseAttDef. moves_first. Qed.

Lemma moves_parseAttribute : moves (parseAttribute fuel).
Proof. unfold parseAttribute. moves_first. Qed.

Lemma moves_parseElement_rec d : moves (parseElement_rec fuel d).
Proof.
  destruct d; simpl; [ apply moves_None | ].
  apply moves_withParsing. moves_first.
Qed.

Lemma moves_parseElement : moves (parseElement fuel).
Proof. apply moves_parseElement_rec. Qed.

Lemma moves_parseDoctype : moves (parseDoctype fuel).
Proof. unfold parseDoctype. apply moves_withParsing. moves_lit. Qed.

Lemma moves_parseXmlDecl : moves (parseXmlDecl fuel).
Proof. unfold parseXmlDecl. apply moves_withParsing. moves_lit. Qed.

Hint Resolve moves_parseMarkup moves_parseAttDef moves_parseAttribute
  moves_parseElement_rec moves_parseElement : moves.

Lemma moves_parse : moves (parse fuel).
Proof.
  unfold parse. apply moves_bind_r; [ intro; above | intros prolog ].
  moves_first.
Qed.


Hypothesis apart : sentinel_apart.

Lemma apart_inert : sentinel_inert.
Proof. exact (proj1 apart). Qed.

(** A rune of a class is a rune of the source. *)
Lemma class_in_bounds (f : rune -> bool) p :
  f EOF = false -> f (Get p) = true -> cursor p < length (source p).
Proof.
  intros HE H. apply in_bounds. destruct (isEnd p) eqn:E; [ | reflexivity ].
  rewrite (Get_at_end _ E) in H. congruence.
Qed.

Lemma Test_in_bounds r p :
  r <> EOF -> Test r p = true -> cursor p < length (source p).
Proof.
  intros HE H. apply in_bounds. destruct (isEnd p) eqn:E; [ | reflexivity ].
  unfold Test in H. rewrite (Get_at_end _ E) in H.
  apply Z.eqb_eq in H. congruence.
Qed.

Lemma apart_mark a : In (ch a) (runes "<&%(|,") -> ch a <> EOF.
Proof.
  intros H E. destruct apart as (_ & _ & _ & _ & _ & _ & N).
  apply N. now rewrite <- E.
Qed.

Lemma space_in_bounds p :
  isSpace (Get p) = true -> cursor p < length (source p).
Proof.
  apply class_in_bounds. destruct apart_inert as (I & _). exact I.
Qed.

(** *** The productions without recursion *)

Lemma returns_skipSpace p : fits fuel p -> returns (skipSpace fuel) p.
Proof. exact (total_skipSpace apart_inert (p := p)). Qed.

Lemma returns_parseName p : fits fuel p -> returns (parseName fuel) p.
Proof. exact (total_parseName apart_inert (p := p)). Qed.

Lemma returns_parseComment p : fits fuel p -> returns (parseComment fuel) p.
Proof. exact (total_parseComment apart_inert (p := p)). Qed.

Lemma returns_parsePI p : fits fuel p -> returns (parsePI fuel) p.
Proof. exact (total_parsePI apart_inert (p := p)). Qed.

Lemma returns_parseMisc p : fits fuel p -> returns (parseMisc fuel) p.
Proof. exact (total_parseMisc apart_inert (p := p)). Qed.

Lemma returns_StepN n p : returns (StepN n) p.
Proof. unfold returns, StepN, ret. eauto. Qed.

Lemma returns_Step p : returns Step p.
Proof. apply returns_StepN. Qed.

Hint Resolve returns_StepN returns_Step : returns.

Lemma returns_Must r p : returns (Must r) p.
Proof. unfold Must. runs. Qed.

Lemma returns_Musts s p : returns (Musts s) p.
Proof. unfold Musts. runs. Qed.

Lemma returns_parseMisc_loop miscs p :
  fits fuel p -> returns (parseMisc_loop fuel fuel miscs) p.
Proof.
  intros F.
  destruct (parseMisc_loop_total apart_inert (k := fuel) miscs F)
    as (m' & p' & L & _); [ arith | ].
  unfold returns. eauto.
Qed.

Hint Resolve returns_skipSpace returns_parseName returns_parseComment
  returns_parsePI returns_parseMisc returns_Must returns_Musts
  returns_parseMisc_loop : returns.

Lemma returns_parseSpace p : fits fuel p -> returns (parseSpace fuel) p.
Proof. intros F. unfold parseSpace. runs. Qed.

Lemma returns_parseQuote p : returns parseQuote p.
Proof.
  unfold parseQuote. exec. destruct (isQuote (Get p)); runs.
Qed.

Lemma returns_parseSuffix p : returns parseSuffix p.
Proof. unfold parseSuffix. runs. Qed.

Lemma returns_parseEq p : fits fuel p -> returns (parseEq fuel) p.
Proof. intros F. unfold parseEq. runs. Qed.

Hint Resolve returns_parseSpace returns_parseQuote returns_parseSuffix
  returns_parseEq : returns.

Lemma returns_scanWhile ok k str p :
  ok EOF = false -> fits fuel p -> remaining p < k ->
  returns (scanWhile ok k str (Get p)) p.
Proof.
  intros HE. revert str p. induction k as [|k IH]; intros str p F R; [ arith | ].
  simpl. destruct (ok (Get p)) eqn:C; [ | runs ].
  pose proof (class_in_bounds ok p HE C).
  repeat exec. apply IH; arith.
Qed.

Lemma returns_parseNmtoken p : fits fuel p -> returns (parseNmtoken fuel) p.
Proof.
  intros F. unfold parseNmtoken. exec. exec.
  - apply returns_scanWhile; [ | exact F | arith ].
    destruct apart as (_ & I & _). exact I.
  - destruct (len a =? 0); runs.
Qed.

Lemma name_mark a : In (ch a) (runes ".-_:") -> ch a <> EOF.
Proof.
  intros H E. destruct apart_inert as (_ & _ & _ & _ & _ & _ & N).
  apply N. now rewrite <- E.
Qed.

Lemma verChar_in_bounds p :
  snd (isVerChar p) = true -> cursor p < length (source p).
Proof.
  unfold isVerChar. intros H.
  destruct (isNum (Get p) || isAlpha (Get p) || Test (ch "_") p
            || Test (ch ".") p || Test (ch ":") p || Test (ch "-") p) eqn:C;
    [ | discriminate ].
  destruct apart as (_ & _ & _ & _ & In_ & Ia & _).
  repeat (apply orb_true_iff in C; destruct C as [C|C]);
    first [ now apply (class_in_bounds isNum p In_)
          | now apply (class_in_bounds isAlpha p Ia)
          | (eapply Test_in_bounds; [ | exact C ]);
            apply name_mark; simpl; tauto ].
Qed.

Lemma returns_parseVersionNum_loop k str p :
  fits fuel p -> remaining p < k -> returns (parseVersionNum_loop k str) p.
Proof.
  revert str p. induction k as [|k IH]; intros str p F R; [ arith | ].
  simpl. exec. destruct (snd (isVerChar p)) eqn:C; [ | runs ].
  pose proof (verChar_in_bounds p C).
  repeat exec. apply IH; arith.
Qed.

Lemma returns_parseVersionNum p : fits fuel p -> returns (parseVersionNum fuel) p.
Proof.
  intros F. unfold parseVersionNum. exec.
  destruct (negb (snd (isVerChar p))) eqn:C; [ runs | ].
  apply negb_false_iff in C. pose proof (verChar_in_bounds p C).
  exec. apply returns_parseVersionNum_loop; arith.
Qed.

Hint Resolve returns_parseVersionNum : returns.

Lemma returns_parseVersion p : fits fuel p -> returns (parseVersion fuel) p.
Proof. intros F. unfold parseVersion. runs. Qed.

Lemma encChar_in_bounds p :
  isAlpha (Get p) || isNum (Get p) || Test (ch ".") p || Test (ch "_") p
  || Test (ch "-") p = true -> cursor p < length (source p).
Proof.
  intros C. destruct apart as (_ & _ & _ & _ & In_ & Ia & _).
  repeat (apply orb_true_iff in C; destruct C as [C|C]);
    first [ now apply (class_in_bounds isNum p In_)
          | now apply (class_in_bounds isAlpha p Ia)
          | (eapply Test_in_bounds; [ | exact C ]);
            apply name_mark; simpl; tauto ].
Qed.

Lemma returns_parseEncName_loop k str p :
  fits fuel p -> remaining p < k -> returns (parseEncName_loop k str) p.
Proof.
  revert str p. induction k as [|k IH]; intros str p F R; [ arith | ].
  simpl. exec; [ | runs ].
  pose proof (encChar_in_bounds p C).
  repeat exec. apply IH; arith.
Qed.

Lemma returns_parseEncName p : fits fuel p -> returns (parseEncName fuel) p.
Proof.
  intros F. unfold parseEncName. exec.
  destruct (negb (isAlpha (Get p))) eqn:C; [ runs | ].
  apply negb_false_iff in C.
  assert (cursor p < length (source p)).
  { apply (class_in_bounds isAlpha p); [ | exact C ].
    destruct apart as (_ & _ & _ & _ & _ & Ia & _). exact Ia. }
  exec. apply returns_parseEncName_loop; arith.
Qed.

Hint Resolve returns_parseVersion returns_parseEncName : returns.

Lemma returns_parseEncoding p : fits fuel p -> returns (parseEncoding fuel) p.
Proof. intros F. unfold parseEncoding. runs. Qed.

Lemma returns_parseStandalone p : fits fuel p -> returns (parseStandalone fuel) p.
Proof. intros F. unfold parseStandalone. runs. Qed.

Hint Resolve returns_parseEncoding returns_parseStandalone : returns.

Lemma returns_parseXmlDecl p : fits fuel p -> returns (parseXmlDecl fuel) p.
Proof. intros F. unfold parseXmlDecl. runs. Qed.

Hint Resolve returns_parseXmlDecl : returns.

Lemma returns_parseCharRef p : fits fuel p -> returns (parseCharRef fuel) p.
Proof.
  intros F. destruct apart as (_ & _ & _ & _ & In_ & Ia & _).
  unfold parseCharRef. exec.
  - exec; [ | exec ].
    + do 2 exec.
      destruct (negb (isNum (Get (stepped (len (runes "&#x")) p)))
                && negb (isAlpha (Get (stepped (len (runes "&#x")) p))));
        [ runs | ].
      exec; [ | runs ]. apply returns_scanWhile; [ | arith | arith ].
      rewrite In_, Ia. reflexivity.
    + do 2 exec.
      destruct (negb (isNum (Get (stepped (len (runes "&#")) p)))); [ runs | ].
      exec; [ | runs ]. apply returns_scanWhile; [ exact In_ | arith | arith ].
    + runs.
  - runs.
Qed.

Lemma returns_parseEntityRef p : fits fuel p -> returns (parseEntityRef fuel) p.
Proof. intros F. unfold parseEntityRef. runs. Qed.

Lemma returns_parsePERef p : fits fuel p -> returns (parsePERef fuel) p.
Proof. intros F. unfold parsePERef. runs. Qed.

Hint Resolve returns_parseCharRef returns_parseEntityRef returns_parsePERef
  : returns.

Lemma returns_parseReference p : fits fuel p -> returns (parseReference fuel) p.
Proof. intros F. unfold parseReference. runs. Qed.

Hint Resolve returns_parseReference : returns.

Lemma returns_parseEntityValue_loop k quote res str p :
  fits fuel p -> remaining p < k ->
  returns (parseEntityValue_loop fuel k quote res str) p.
Proof.
  revert res str p. induction k as [|k IH]; intros res str p F R; [ arith | ].
  simpl. exec; [ runs | ].
  apply orb_false_iff in C. destruct C as [_ C]. apply in_bounds in C.
  repeat exec; eauto with returns; apply IH; arith.
Qed.

Lemma returns_parseAttValue_loop k quote res str p :
  fits fuel p -> remaining p < k ->
  returns (parseAttValue_loop fuel k quote res str) p.
Proof.
  revert res str p. induction k as [|k IH]; intros res str p F R; [ arith | ].
  simpl. exec; [ runs | ]. exec; [ runs | ].
  apply orb_false_iff in C0. destruct C0 as [_ C0]. apply in_bounds in C0.
  repeat exec; eauto with returns; apply IH; arith.
Qed.

Lemma returns_parseEntityValue p : fits fuel p -> returns (parseEntityValue fuel) p.
Proof.
  intros F. unfold parseEntityValue. exec; [ runs | ].
  exec; [ apply returns_parseEntityValue_loop; arith | ]. runs.
Qed.

Lemma returns_parseAttValue p : fits fuel p -> returns (parseAttValue fuel) p.
Proof.
  intros F. unfold parseAttValue. exec; [ runs | ].
  exec; [ apply returns_parseAttValue_loop; arith | ]. runs.
Qed.

(** The loop of parseSystemLiteral steps before it looks for the end of the
    input, so it may leave the cursor one past the end; it returns all the
    same. *)
Lemma returns_parseSystemLiteral_loop k quote lit p :
  fits fuel p -> remaining p < k ->
  returns (parseSystemLiteral_loop k quote lit) p.
Proof.
  revert lit p. induction k as [|k IH]; intros lit p F R; [ arith | ].
  simpl. exec; [ | runs ]. do 2 exec. exec; [ runs | ].
  apply in_bounds in C0. apply IH; arith.
Qed.

Lemma returns_parseSystemLiteral p : fits fuel p -> returns (parseSystemLiteral fuel) p.
Proof.
  intros F. unfold parseSystemLiteral. exec; [ runs | ].
  exec; [ apply returns_parseSystemLiteral_loop; arith | ]. runs.
Qed.

Lemma returns_parsePubidLiteral_loop k quote lit p :
  fits fuel p -> remaining p < k ->
  returns (parsePubidLiteral_loop k quote lit (Get p)) p.
Proof.
  revert lit p. induction k as [|k IH]; intros lit p F R; [ arith | ].
  simpl. destruct (isPubidChar (Get p)) eqn:C; [ | runs ].
  destruct ((Get p =? ch "'") && (quote =? ch "'"))%Z; [ runs | ].
  assert (cursor p < length (source p)).
  { apply (class_in_bounds isPubidChar p); [ | exact C ].
    destruct apart as (_ & _ & I & _). exact I. }
  do 2 exec. apply IH; arith.
Qed.

Lemma returns_parsePubidLiteral p : fits fuel p -> returns (parsePubidLiteral fuel) p.
Proof.
  intros F. unfold parsePubidLiteral. exec; [ runs | ]. exec.
  exec; [ apply returns_parsePubidLiteral_loop; arith | ]. runs.
Qed.

Lemma returns_parseCDSect_loop k str p :
  fits fuel p -> remaining p < k -> returns (parseCDSect_loop k str) p.
Proof.
  revert str p. induction k as [|k IH]; intros str p F R; [ arith | ].
  simpl. exec; [ | runs ]. exec; [ runs | ].
  apply in_bounds in C0. do 2 exec. apply IH; arith.
Qed.

Lemma returns_parseCDSect p : fits fuel p -> returns (parseCDSect fuel) p.
Proof.
  intros F. unfold parseCDSect. exec; [ runs | ].
  exec; [ apply returns_parseCDSect_loop; arith | ]. runs.
Qed.

Hint Resolve returns_parseEntityValue returns_parseAttValue
  returns_parseSystemLiteral returns_parsePubidLiteral returns_parseCDSect
  : returns.

Lemma returns_parseAttribute p : fits fuel p -> returns (parseAttribute fuel) p.
Proof. intros F. unfold parseAttribute. runs. Qed.

Lemma returns_parseETag p : fits fuel p -> returns (parseETag fuel) p.
Proof. intros F. unfold parseETag. runs. Qed.

Hint Resolve returns_parseAttribute returns_parseETag : returns.

(** Turns the tests met along a run into bounds on the cursor. *)
Ltac bounds :=
  repeat match goal with
  | H : isEnd ?p = false |- _ => apply in_bounds in H
  | H : (_ || isEnd ?p) = false |- _ =>
      apply orb_false_iff in H; destruct H as [_ H]
  | H : (isEnd ?p || _) = false |- _ =>
      apply orb_false_iff in H; destruct H as [H _]
  | H : isSpace (Get ?p) = true, E : skipSpace fuel ?p = Some (Ok _, _) |- _ =>
      apply (moves_skipSpace _ H) in E
  | H : isSpace (Get ?p) = true |- _ =>
      lazymatch goal with
      | _ : cursor p < length (source p) |- _ => fail
      | _ => pose proof (space_in_bounds p H)
      end
  | H : Test (ch ?a) ?p = true |- _ =>
      lazymatch goal with
      | _ : cursor p < length (source p) |- _ => fail
      | _ =>
          assert (cursor p < length (source p))
            by (apply (@Test_in_bounds (ch a) p);
                [ apply apart_mark; simpl; tauto | exact H ])
      end
  end.

Ltac iterate IH := repeat (exec; bounds); eauto with returns; try (apply IH; arith).

Lemma returns_parseMixed_loop k names p :
  fits fuel p -> remaining p < k -> returns (parseMixed_loop fuel k names) p.
Proof.
  revert names p. induction k as [|k IH]; intros names p F R; [ arith | ].
  simpl. iterate IH.
Qed.

Lemma returns_parseMixed p : fits fuel p -> returns (parseMixed fuel) p.
Proof.
  intros F. unfold parseMixed. do 3 (exec; [ runs | ]).
  exec; [ apply returns_parseMixed_loop; arith | ].
  exec; [ destruct (0 <? length a2); runs | runs ].
Qed.

Lemma returns_parseBarList_loop item k acc p :
  preserves item -> (forall c, above c item) ->
  (forall q, fits fuel q -> returns item q) ->
  fits fuel p -> remaining p < k ->
  returns (parseBarList_loop fuel item k acc) p.
Proof.
  intros Pi Ai Ri. revert acc p.
  induction k as [|k IH]; intros acc p F R; [ arith | ].
  simpl. iterate IH.
Qed.

Hint Resolve returns_parseMixed returns_parseNmtoken : returns.

Lemma returns_parseNotationType p : fits fuel p -> returns (parseNotationType fuel) p.
Proof.
  intros F. unfold parseNotationType. do 5 (exec; [ runs | ]).
  exec; [ | runs ].
  apply returns_parseBarList_loop;
    [ frame | intro; above | apply returns_parseName | arith | arith ].
Qed.

Lemma returns_parseEnum p : fits fuel p -> returns (parseEnum fuel) p.
Proof.
  intros F. unfold parseEnum. do 3 (exec; [ runs | ]).
  exec; [ | runs ].
  apply returns_parseBarList_loop;
    [ frame | intro; above | apply returns_parseNmtoken | arith | arith ].
Qed.

Hint Resolve returns_parseNotationType returns_parseEnum : returns.

Lemma returns_parseAttType p : fits fuel p -> returns (parseAttType fuel) p.
Proof. intros F. unfold parseAttType. runs. Qed.

Lemma returns_parseDefaultDecl p : fits fuel p -> returns (parseDefaultDecl fuel) p.
Proof. intros F. unfold parseDefaultDecl. runs. Qed.

Hint Resolve returns_parseAttType returns_parseDefaultDecl : returns.

Lemma returns_parseAttDef p : fits fuel p -> returns (parseAttDef fuel) p.
Proof. intros F. unfold parseAttDef. runs. Qed.

Hint Resolve returns_parseAttDef : returns.

Lemma returns_parseAttlist_loop k defs p :
  fits fuel p -> remaining p < k -> returns (parseAttlist_loop fuel k defs) p.
Proof.
  revert defs p. induction k as [|k IH]; intros defs p F R; [ arith | ].
  simpl. iterate IH.
Qed.

Lemma returns_parseAttlist p : fits fuel p -> returns (parseAttlist fuel) p.
Proof.
  intros F. unfold parseAttlist. exec. do 3 (exec; [ runs | ]).
  exec; [ apply returns_parseAttlist_loop; arith | runs ].
Qed.

Lemma returns_parseExternalID p : fits fuel p -> returns (parseExternalID fuel) p.
Proof. intros F. unfold parseExternalID. runs. Qed.

Lemma returns_parseNData p : fits fuel p -> returns (parseNData fuel) p.
Proof. intros F. unfold parseNData. runs. Qed.

Hint Resolve returns_parseAttlist returns_parseExternalID returns_parseNData
  : returns.

Lemma returns_parseEntityDef p : fits fuel p -> returns (parseEntityDef fuel) p.
Proof. intros F. unfold parseEntityDef. runs. Qed.

Lemma returns_parsePEDef p : fits fuel p -> returns (parsePEDef fuel) p.
Proof. intros F. unfold parsePEDef. runs. Qed.

Hint Resolve returns_parseEntityDef returns_parsePEDef : returns.

Lemma returns_parseEntity p : fits fuel p -> returns (parseEntity fuel) p.
Proof. intros F. unfold parseEntity. runs. Qed.

Lemma returns_parseNotation p : fits fuel p -> returns (parseNotation fuel) p.
Proof. intros F. unfold parseNotation. runs. Qed.

Hint Resolve returns_parseEntity returns_parseNotation : returns.

(** *** The recursive productions

    A nested group or element starts with a character of the source, so the
    nesting depth stays below the number of runes left. *)

Lemma returns_parseCPs_loop cp sep d k cps p :
  preserves cp -> (forall c, above c cp) ->
  (forall q, fits fuel q -> remaining q < d -> returns cp q) ->
  sep <> EOF ->
  fits fuel p -> remaining p < k -> remaining p <= d ->
  returns (parseCPs_loop fuel cp sep k cps) p.
Proof.
  intros Pc Ac Rc Hsep. revert cps p.
  induction k as [|k IH]; intros cps p F R D; [ arith | ].
  simpl. exec; [ runs | ]. exec; [ runs | ].
  apply negb_false_iff in C. apply (@Test_in_bounds _ _ Hsep) in C.
  exec. exec; [ apply Rc; arith | ].
  apply IH; arith.
Qed.

Lemma returns_parseChoiceWith cp d p :
  preserves cp -> (forall c, above c cp) ->
  (forall q, fits fuel q -> remaining q < d -> returns cp q) ->
  fits fuel p -> remaining p <= d ->
  returns (parseChoiceWith fuel cp) p.
Proof.
  intros Pc Ac Rc F D. unfold parseChoiceWith.
  apply returns_bind; [ runs | intros u q E ].
  apply Must_inv_Ok in E. destruct E as [T ->]. bounds.
  exec; [ runs | ]. exec; [ apply Rc; arith | ].
  exec; [ | runs ].
  apply returns_parseCPs_loop with (d := d); auto;
    [ apply apart_mark; simpl; tauto | arith | arith | arith ].
Qed.

Lemma returns_parseSeqWith cp d p :
  preserves cp -> (forall c, above c cp) ->
  (forall q, fits fuel q -> remaining q < d -> returns cp q) ->
  fits fuel p -> remaining p <= d ->
  returns (parseSeqWith fuel cp) p.
Proof.
  intros Pc Ac Rc F D. unfold parseSeqWith.
  apply returns_bind; [ runs | intros u q E ].
  apply Must_inv_Ok in E. destruct E as [T ->]. bounds.
  exec; [ runs | ]. exec; [ apply Rc; arith | ].
  exec; [ | runs ].
  apply returns_parseCPs_loop with (d := d); auto;
    [ apply apart_mark; simpl; tauto | arith | arith | arith ].
Qed.

Lemma returns_parseCP_rec d p :
  fits fuel p -> remaining p < d -> returns (parseCP_rec fuel d) p.
Proof.
  revert p. induction d as [|d IH]; intros p F R; [ arith | ].
  assert (Pc : preserves (parseCP_rec fuel d)) by frame.
  assert (Ac : forall c, above c (parseCP_rec fuel d)) by (intro; above).
  simpl. exec; [ | runs ].
  exec; [ | runs ]. exec.
  exec; [ apply returns_parseChoiceWith with (d := d); auto; arith | ].
  destruct r; [ runs | ].
  exec. exec; [ | runs ].
  apply returns_parseSeqWith with (d := d); auto; arith.
Qed.

Lemma returns_parseCP p : fits fuel p -> returns (parseCP fuel) p.
Proof. intros F. apply returns_parseCP_rec; [ exact F | arith ]. Qed.

Lemma returns_parseChoice p : fits fuel p -> returns (parseChoice fuel) p.
Proof.
  intros F. unfold parseChoice, parseCP.
  apply returns_parseChoiceWith with (d := fuel);
    [ frame | intro; above | | exact F | arith ].
  intros q Fq _. now apply returns_parseCP.
Qed.

Lemma returns_parseSeq p : fits fuel p -> returns (parseSeq fuel) p.
Proof.
  intros F. unfold parseSeq, parseCP.
  apply returns_parseSeqWith with (d := fuel);
    [ frame | intro; above | | exact F | arith ].
  intros q Fq _. now apply returns_parseCP.
Qed.

Hint Resolve returns_parseChoice returns_parseSeq : returns.

Lemma returns_parseChildren p : fits fuel p -> returns (parseChildren fuel) p.
Proof. intros F. unfold parseChildren. runs. Qed.

Hint Resolve returns_parseChildren : returns.

Lemma returns_parseContentSpec p : fits fuel p -> returns (parseContentSpec fuel) p.
Proof. intros F. unfold parseContentSpec. runs. Qed.

Hint Resolve returns_parseContentSpec : returns.

Lemma returns_parseElementDecl p : fits fuel p -> returns (parseElementDecl fuel) p.
Proof. intros F. unfold parseElementDecl. runs. Qed.

Hint Resolve returns_parseElementDecl : returns.

Lemma returns_parseMarkup p : fits fuel p -> returns (parseMarkup fuel) p.
Proof. intros F. unfold parseMarkup. runs. Qed.

Hint Resolve returns_parseMarkup : returns.

Lemma atMarkup_in_bounds p :
  atMarkup p = true -> cursor p < length (source p).
Proof.
  unfold atMarkup. intros H.
  repeat (apply orb_true_iff in H; destruct H as [H|H]);
    apply Tests_not_at_end in H; exact H.
Qed.

Lemma returns_parseDoctype_loop k markups peRef p :
  fits fuel p -> remaining p < k ->
  returns (parseDoctype_loop fuel k markups peRef) p.
Proof.
  revert markups peRef p.
  induction k as [|k IH]; intros markups peRef p F R; [ arith | ].
  simpl. exec.
  - pose proof (atMarkup_in_bounds _ C). iterate IH.
  - iterate IH.
Qed.

Lemma returns_parseDoctype p : fits fuel p -> returns (parseDoctype fuel) p.
Proof.
  intros F. unfold parseDoctype. exec. do 5 (exec; [ runs | ]).
  exec; [ | runs ]. exec; [ | runs ]. exec.
  exec; [ apply returns_parseDoctype_loop; arith | runs ].
Qed.

Hint Resolve returns_parseDoctype : returns.

Lemma returns_parseProlog p : fits fuel p -> returns (parseProlog fuel) p.
Proof. intros F. unfold parseProlog. runs. Qed.

Lemma returns_parseElement_attrs k attrs p :
  fits fuel p -> remaining p < k ->
  returns (parseElement_attrs fuel k attrs) p.
Proof.
  revert attrs p. induction k as [|k IH]; intros attrs p F R; [ arith | ].
  simpl. iterate IH.
Qed.

(** A construct tried inside the contents that gives an entry has been
    parsed by its production. *)
Lemma try_entry_inv {A B} (m : M A) (g : A -> B) p (b : B) q :
  (r1 <- try m ;;
   match r1 with
   | Ok x => ret (Ok (g x))
   | Err e => ret (Err e)
   end) p = Some (Ok (Ok b), q) ->
  exists x, m p = Some (Ok x, q).
Proof.
  unfold bind, try, ret.
  destruct (m p) as [[[x|e] q1]|]; intros H; inversion H; subst; eauto.
Qed.

Lemma returns_parseContents_loop pe d k res charData p :
  preserves pe -> (forall c, above c pe) -> moves pe ->
  (forall q, fits fuel q -> remaining q < d -> returns pe q) ->
  fits fuel p -> remaining p < k -> remaining p < d ->
  returns (parseContents_loop fuel pe k res charData) p.
Proof.
  intros Pe Ae Me Re. revert res charData p.
  induction k as [|k IH]; intros res charData p F R D; [ arith | ].
  simpl. exec. exec; [ | exec ].
  - bounds. iterate IH.
  - bounds. apply returns_bind; [ runs | intros a q E ].
    destruct a as [i|e]; [ | runs ].
    assert (L : length (source q) = length (source p))
      by (apply after_length in E; [ exact E | frame ]).
    assert (Mv : cursor p < cursor q).
    { unfold branch in E. destruct (Tests (runes "<!") p).
      - unfold bind at 1, try at 1 in E.
        destruct (parseCDSect fuel p) as [[[c|e] q1]|] eqn:E1;
          [ | | discriminate ].
        + inversion E; subst. now apply moves_parseCDSect in E1.
        + unfold bind at 1, setCursor at 1, ret at 1 in E.
          apply try_entry_inv in E. destruct E as (x & E).
          apply moves_parseComment in E. exact E.
      - destruct (Tests (runes "<?") p);
          apply try_entry_inv in E; destruct E as (x & E).
        + now apply moves_parsePI in E.
        + now apply Me in E. }
    apply IH; arith.
  - iterate IH.
Qed.

Lemma returns_parseContentsWith pe d p :
  preserves pe -> (forall c, above c pe) -> moves pe ->
  (forall q, fits fuel q -> remaining q < d -> returns pe q) ->
  fits fuel p -> remaining p < d ->
  returns (parseContentsWith fuel pe) p.
Proof.
  intros Pe Ae Me Re F D. unfold parseContentsWith.
  exec; [ | runs ].
  apply returns_parseContents_loop with (d := d); auto; arith.
Qed.

Lemma returns_parseElement_rec d p :
  fits fuel p -> remaining p < d -> returns (parseElement_rec fuel d) p.
Proof.
  revert p. induction d as [|d IH]; intros p F R; [ arith | ].
  assert (Pe : preserves (parseElement_rec fuel d)) by frame.
  assert (Ae : forall c, above c (parseElement_rec fuel d)) by (intro; above).
  simpl. exec.
  apply returns_bind; [ runs | intros u q E ].
  apply Must_inv_Ok in E. destruct E as [T ->]. bounds.
  exec; [ runs | ]. exec.
  exec; [ apply returns_parseElement_attrs; arith | ].
  exec; [ | runs ].
  exec. exec; [ | runs ].
  apply returns_parseContentsWith with (d := d); auto;
    [ apply moves_parseElement_rec | arith | arith ].
Qed.

Lemma returns_parseElement p : fits fuel p -> returns (parseElement fuel) p.
Proof. intros F. apply returns_parseElement_rec; [ exact F | arith ]. Qed.

Lemma returns_parseContents p : fits fuel p -> returns (parseContents fuel) p.
Proof.
  intros F. unfold parseContents.
  apply returns_parseContentsWith with (d := fuel);
    [ frame | intro; above | apply moves_parseElement | | exact F | arith ].
  intros q Fq _. now apply returns_parseElement.
Qed.

Hint Resolve returns_parseProlog returns_parseElement : returns.

Lemma returns_parse p : fits fuel p -> returns (parse fuel) p.
Proof. intros F. unfold parse. runs. Qed.

End Progress.

#[export] Hint Resolve moves_Must moves_parseSpace moves_parseName
  moves_parseEntityRef moves_parsePERef moves_parseCharRef
  moves_parseReference moves_parseCDSect moves_parseComment moves_parsePI
  moves_parseElementDecl moves_parseAttlist moves_parseEntity
  moves_parseNotation moves_parseMarkup moves_parseAttDef moves_parseAttribute
  moves_parseElement_rec moves_parseElement : moves.

(** ** Termination, the cursor and the label (X1 to X4) *)

Lemma ascii_sentinel_apart : sentinel_apart (ext := asciiExternals).
Proof.
  unfold sentinel_apart. split; [ exact ascii_sentinel_inert | ].
  repeat split; try reflexivity. vm_compute. intuition discriminate.
Qed.

(** X1: the parser cannot hang.  When the end-of-input sentinel is in no
    class of the classifier and is none of the marks on which the parser
    goes on, parse returns, with a document or with an error, from every
    state whose source is shorter than the fuel, and it returns the same
    with every larger fuel; so do parseProlog, parseElement and
    parseDoctype.  Every loop iteration and every nested element or group
    that goes on has consumed a rune of the source. *)
Theorem X1_parse_returns {ext : Externals} (fuel : nat) (p : parser)
  (apart : sentinel_apart) (Hfuel : length (source p) < fuel) :
  (exists r p', forall n, fuel <= n -> parse n p = Some (r, p'))
  /\ (exists r p', forall n, fuel <= n -> parseProlog n p = Some (r, p'))
  /\ (exists r p', forall n, fuel <= n -> parseElement n p = Some (r, p'))
  /\ (exists r p', forall n, fuel <= n -> parseDoctype n p = Some (r, p')).
Proof.
  split; [ | split; [ | split ] ].
  - destruct (returns_parse apart (p := p) Hfuel) as (r & p' & E).
    exists r, p'. intros n Hn. exact (more_parse Hn _ E).
  - destruct (returns_parseProlog apart (p := p) Hfuel) as (r & p' & E).
    exists r, p'. intros n Hn. exact (more_parseProlog Hn _ E).
  - destruct (returns_parseElement apart (p := p) Hfuel) as (r & p' & E).
    exists r, p'. intros n Hn. exact (more_parseElement Hn _ E).
  - destruct (returns_parseDoctype apart (p := p) Hfuel) as (r & p' & E).
    exists r, p'. intros n Hn. exact (more_parseDoctype Hn _ E).
Qed.

Lemma X1_parse_returns_witness :
  sentinel_apart (ext := asciiExternals)
  /\ length (source (NewParser (runes "<a><b></a>"))) < 11
  /\ exists r p', forall n, 11 <= n ->
       parse (ext := asciiExternals) n (NewParser (runes "<a><b></a>"))
       = Some (r, p').
Proof.
  split; [ exact ascii_sentinel_apart | ].
  split; [ vm_compute; lia | ].
  refine (proj1 (@X1_parse_returns asciiExternals 11
                   (NewParser (runes "<a><b></a>"))
                   ascii_sentinel_apart _)).
  vm_compute; lia.
Defined.

(** X2: a production never returns with the cursor before the position it
    was entered at, be it with a value or with an error.  The productions
    that try an alternative and give it up put the cursor back to a position
    they saved themselves, which is at or after their entry. *)
Theorem X2_cursor_not_before_entry {ext : Externals} (fuel : nat)
  (p p' : parser) :
  (forall r, parse fuel p = Some (r, p') -> cursor p <= cursor p')
  /\ (forall r, parseProlog fuel p = Some (r, p') -> cursor p <= cursor p')
  /\ (forall r, parseXmlDecl fuel p = Some (r, p') -> cursor p <= cursor p')
  /\ (forall r, parseDoctype fuel p = Some (r, p') -> cursor p <= cursor p')
  /\ (forall r, parseMarkup fuel p = Some (r, p') -> cursor p <= cursor p')
  /\ (forall r, parseElement fuel p = Some (r, p') -> cursor p <= cursor p')
  /\ (forall r, parseContents fuel p = Some (r, p') -> cursor p <= cursor p')
  /\ (forall r, parseReference fuel p = Some (r, p') -> cursor p <= cursor p')
  /\ (forall r, parseContentSpec fuel p = Some (r, p') ->
        cursor p <= cursor p')
  /\ (forall r, parseChildren fuel p = Some (r, p') -> cursor p <= cursor p')
  /\ (forall r, parseCP fuel p = Some (r, p') -> cursor p <= cursor p').
Proof.
  repeat split; intros r H;
    match type of H with
    | ?m p = _ =>
        assert (A : above (cursor p) m)
          by first [ apply above_parse | apply above_parseProlog
                   | apply above_parseXmlDecl | apply above_parseDoctype
                   | apply above_parseMarkup | apply above_parseElement
                   | apply above_parseContents | apply above_parseReference
                   | apply above_parseContentSpec | apply above_parseChildren
                   | apply above_parseCP ];
        exact (A _ _ _ (le_n _) H)
    end.
Qed.

Lemma X2_cursor_not_before_entry_witness :
  exists e,
    parseReference (ext := asciiExternals) 8 (at_ (runes "a&b;&;") 4)
    = Some (Err e, at_ (runes "a&b;&;") 4)
    /\ 4 <= cursor (at_ (runes "a&b;&;") 4).
Proof.
  eexists. split; [ vm_compute; reflexivity | ].
  refine (proj1 (proj2 (proj2 (proj2 (proj2 (proj2 (proj2 (proj2
            (@X2_cursor_not_before_entry asciiExternals 8
               (at_ (runes "a&b;&;") 4) (at_ (runes "a&b;&;") 4))))))))) _ _).
  vm_compute; reflexivity.
Defined.

(** X3: a production that returns a value has consumed input: parse,
    parseXmlDecl, parseDoctype, parseMarkup, parseElement, parseAttribute,
    parseReference, parseComment, parsePI, parseCDSect and parseName end
    with the cursor strictly after the position they were entered at. *)
Theorem X3_success_consumes_input {ext : Externals} (fuel : nat)
  (p p' : parser) :
  (forall x, parse fuel p = Some (Ok x, p') -> cursor p < cursor p')
  /\ (forall x, parseXmlDecl fuel p = Some (Ok x, p') -> cursor p < cursor p')
  /\ (forall x, parseDoctype fuel p = Some (Ok x, p') -> cursor p < cursor p')
  /\ (forall x, parseMarkup fuel p = Some (Ok x, p') -> cursor p < cursor p')
  /\ (forall x, parseElement fuel p = Some (Ok x, p') -> cursor p < cursor p')
  /\ (forall x, parseAttribute fuel p = Some (Ok x, p') ->
        cursor p < cursor p')
  /\ (forall x, parseReference fuel p = Some (Ok x, p') ->
        cursor p < cursor p')
  /\ (forall x, parseComment fuel p = Some (Ok x, p') -> cursor p < cursor p')
  /\ (forall x, parsePI fuel p = Some (Ok x, p') -> cursor p < cursor p')
  /\ (forall x, parseCDSect fuel p = Some (Ok x, p') -> cursor p < cursor p')
  /\ (forall x, parseName fuel p = Some (Ok x, p') -> cursor p < cursor p').
Proof.
  repeat split; intros x H;
    first [ apply moves_parse in H | apply moves_parseXmlDecl in H
          | apply moves_parseDoctype in H | apply moves_parseMarkup in H
          | apply moves_parseElement in H | apply moves_parseAttribute in H
          | apply moves_parseReference in H | apply moves_parseComment in H
          | apply moves_parsePI in H | apply moves_parseCDSect in H
          | apply moves_parseName in H ];
    exact H.
Qed.

Lemma X3_success_consumes_input_witness :
  parseElement (ext := asciiExternals) 8 (at_ (runes "x<a/>") 1)
  = Some (Ok (mkElement (runes "a") [] [] true), at_ (runes "x<a/>") 5)
  /\ 1 < 5.
Proof.
  assert (H : parseElement (ext := asciiExternals) 8 (at_ (runes "x<a/>") 1)
              = Some (Ok (mkElement (runes "a") [] [] true),
                      at_ (runes "x<a/>") 5))
    by (vm_compute; reflexivity).
  split; [ exact H | ].
  exact (proj1 (proj2 (proj2 (proj2 (proj2
           (@X3_success_consumes_input asciiExternals 8
              (at_ (runes "x<a/>") 1) (at_ (runes "x<a/>") 5)))))) _ H).
Defined.

(** X4: the label of the production being parsed is put back on every
    return.  The productions that set a label (with [defer
    p.setParsing(...)()]) return, with a value or with an error, with the
    label they were entered with, and so does parse. *)
Theorem X4_label_restored {ext : Externals} (fuel : nat) (p p' : parser) :
  (forall r, parse fuel p = Some (r, p') -> parsing p' = parsing p)
  /\ (forall r, parseXmlDecl fuel p = Some (r, p') -> parsing p' = parsing p)
  /\ (forall r, parseComment fuel p = Some (r, p') -> parsing p' = parsing p)
  /\ (forall r, parsePI fuel p = Some (r, p') -> parsing p' = parsing p)
  /\ (forall r, parseDoctype fuel p = Some (r, p') -> parsing p' = parsing p)
  /\ (forall r, parseMarkup fuel p = Some (r, p') -> parsing p' = parsing p)
  /\ (forall r, parseElement fuel p = Some (r, p') -> parsing p' = parsing p)
  /\ (forall r, parseElementDecl fuel p = Some (r, p') ->
        parsing p' = parsing p)
  /\ (forall r, parseAttlist fuel p = Some (r, p') -> parsing p' = parsing p)
  /\ (forall r, parseEntity fuel p = Some (r, p') -> parsing p' = parsing p)
  /\ (forall r, parseNotation fuel p = Some (r, p') -> parsing p' = parsing p).
Proof.
  repeat split; intros r H;
    first [ exact (proj2 (preserves_parse fuel _ H))
          | exact (proj2 (preserves_parseXmlDecl fuel _ H))
          | exact (proj2 (preserves_parseComment fuel _ H))
          | exact (proj2 (preserves_parsePI fuel _ H))
          | exact (proj2 (preserves_parseDoctype fuel _ H))
          | exact (proj2 (preserves_parseMarkup fuel _ H))
          | exact (proj2 (preserves_parseElement fuel _ H))
          | exact (proj2 (preserves_parseElementDecl fuel _ H))
          | exact (proj2 (preserves_parseAttlist fuel _ H))
          | exact (proj2 (preserves_parseEntity fuel _ H))
          | exact (proj2 (preserves_parseNotation fuel _ H)) ].
Qed.

Lemma X4_label_restored_witness :
  exists e,
    parseElement (ext := asciiExternals) 8
      (relabel (runes "caller") (NewParser (runes "<a></b>")))
    = Some (Err e, relabel (runes "caller") (at_ (runes "<a></b>") 7))
    /\ errParsing e = runes "a tag"
    /\ parsing (relabel (runes "caller") (at_ (runes "<a></b>") 7))
       = parsing (relabel (runes "caller") (NewParser (runes "<a></b>"))).
Proof.
  eexists. split; [ vm_compute; reflexivity | ].
  split; [ reflexivity | ].
  refine (proj1 (proj2 (proj2 (proj2 (proj2 (proj2 (proj2
            (@X4_label_restored asciiExternals 8
               (relabel (runes "caller") (NewParser (runes "<a></b>")))
               (relabel (runes "caller") (at_ (runes "<a></b>") 7))))))))) _ _).
  vm_compute; reflexivity.
Defined.

(** ** Where the contents of an element end (X5) *)

(** The loop of parseContents never returns an error, and it stops where it
    says: at the end of the input, at [ ]]> ], or at a reference or a markup
    that its production rejects, with the cursor on the first rune of it. *)
Lemma parseContents_loop_stops {ext : Externals} fuel pe k res cd p r p' :
  preserves pe ->
  parseContents_loop fuel pe k res cd p = Some (r, p') ->
  (exists x, r = Ok x)
  /\ ((Test (ch "&") p' = true
       /\ exists e q, parseReference fuel p' = Some (Err e, q))
      \/ (Test (ch "<") p' = true /\ Tests (runes "<!") p' = true
          /\ (exists e q, parseCDSect fuel p' = Some (Err e, q))
          /\ (exists e q, parseComment fuel p' = Some (Err e, q)))
      \/ (Test (ch "<") p' = true /\ Tests (runes "<!") p' = false
          /\ Tests (runes "<?") p' = true
          /\ exists e q, parsePI fuel p' = Some (Err e, q))
      \/ (Test (ch "<") p' = true /\ Tests (runes "<!") p' = false
          /\ Tests (runes "<?") p' = false
          /\ exists e q, pe p' = Some (Err e, q))
      \/ (Test (ch "&") p' = false /\ Test (ch "<") p' = false
          /\ (isEnd p' = true \/ Tests (runes "]]>") p' = true))).
Proof.
  intros Pe. revert res cd p.
  induction k as [|k IH]; intros res cd p H; [ discriminate | ].
  simpl in H. unfold bind at 1, getCursor at 1, ret at 1 in H.
  unfold branch at 1 in H. destruct (Test (ch "&") p) eqn:T1.
  - unfold bind at 1 in H.
    destruct (try (parseReference fuel) p) as [[[r1|?] q]|] eqn:E;
      [ | apply try_inv in E; destruct E as (? & ? & _); discriminate
        | discriminate ].
    apply try_inv in E. destruct E as (r0 & Er & E). inversion Er; subst r1.
    destruct r0 as [i|e].
    + exact (IH _ _ _ H).
    + unfold bind at 1 in H.
      rewrite (setCursor_back (preserves_parseReference fuel) E) in H.
      inversion H; subst. split; [ eauto | ]. left. eauto.
  - unfold branch at 1 in H. destruct (Test (ch "<") p) eqn:T2.
    + unfold bind at 1 in H. unfold branch at 1 in H.
      destruct (Tests (runes "<!") p) eqn:T3;
        [ | unfold branch at 1 in H; destruct (Tests (runes "<?") p) eqn:T4 ].
      * unfold bind at 1 in H.
        destruct (try (parseCDSect fuel) p) as [[[r1|?] q]|] eqn:E;
          [ | apply try_inv in E; destruct E as (? & ? & _); discriminate
            | discriminate ].
        apply try_inv in E. destruct E as (r0 & Er & E). inversion Er; subst r1.
        destruct r0 as [c|e]; [ exact (IH _ _ _ H) | ].
        unfold bind at 1 in H.
        rewrite (setCursor_back (preserves_parseCDSect fuel) E) in H.
        unfold bind at 1 in H.
        destruct (try (parseComment fuel) p) as [[[r1|?] q1]|] eqn:E2;
          [ | apply try_inv in E2; destruct E2 as (? & ? & _); discriminate
            | discriminate ].
        apply try_inv in E2. destruct E2 as (r0 & Er2 & E2).
        inversion Er2; subst r1.
        destruct r0 as [c|e2]; [ exact (IH _ _ _ H) | ].
        unfold ret at 1 in H. unfold bind at 1 in H.
        rewrite (setCursor_back (preserves_parseComment fuel) E2) in H.
        inversion H; subst. split; [ eauto | ].
        right. left. eauto 10.
      * unfold bind at 1 in H.
        destruct (try (parsePI fuel) p) as [[[r1|?] q]|] eqn:E;
          [ | apply try_inv in E; destruct E as (? & ? & _); discriminate
            | discriminate ].
        apply try_inv in E. destruct E as (r0 & Er & E). inversion Er; subst r1.
        destruct r0 as [c|e]; [ exact (IH _ _ _ H) | ].
        unfold ret at 1 in H. unfold bind at 1 in H.
        rewrite (setCursor_back (preserves_parsePI fuel) E) in H.
        inversion H; subst. split; [ eauto | ].
        right. right. left. eauto 10.
      * unfold bind at 1 in H.
        destruct (try pe p) as [[[r1|?] q]|] eqn:E;
          [ | apply try_inv in E; destruct E as (? & ? & _); discriminate
            | discriminate ].
        apply try_inv in E. destruct E as (r0 & Er & E). inversion Er; subst r1.
        destruct r0 as [c|e]; [ exact (IH _ _ _ H) | ].
        unfold ret at 1 in H. unfold bind at 1 in H.
        rewrite (setCursor_back Pe E) in H.
        inversion H; subst. split; [ eauto | ].
        right. right. right. left. eauto 10.
    + unfold branch at 1 in H.
      destruct (isEnd p || Tests (runes "]]>") p) eqn:T3.
      * inversion H; subst. split; [ eauto | ].
        right. right. right. right.
        apply orb_true_iff in T3. auto.
      * exact (IH _ _ _ H).
Qed.

(** X5: parseContents never fails, and it stops exactly where its loop
    breaks: at the end of the input, at [ ]]> ], or on the first rune of a
    reference, a CDATA section or comment, a processing instruction or an
    element that its production rejects.  That failure is not reported; the
    caller finds the cursor there. *)
Theorem X5_contents_never_fail {ext : Externals} (fuel : nat)
  (p p' : parser) (r : res (list Content))
  (H : parseContents fuel p = Some (r, p')) :
  (exists contents, r = Ok contents)
  /\ ((Test (ch "&") p' = true
       /\ exists e q, parseReference fuel p' = Some (Err e, q))
      \/ (Test (ch "<") p' = true /\ Tests (runes "<!") p' = true
          /\ (exists e q, parseCDSect fuel p' = Some (Err e, q))
          /\ (exists e q, parseComment fuel p' = Some (Err e, q)))
      \/ (Test (ch "<") p' = true /\ Tests (runes "<!") p' = false
          /\ Tests (runes "<?") p' = true
          /\ exists e q, parsePI fuel p' = Some (Err e, q))
      \/ (Test (ch "<") p' = true /\ Tests (runes "<!") p' = false
          /\ Tests (runes "<?") p' = false
          /\ exists e q, parseElement fuel p' = Some (Err e, q))
      \/ (Test (ch "&") p' = false /\ Test (ch "<") p' = false
          /\ (isEnd p' = true \/ Tests (runes "]]>") p' = true))).
Proof.
  unfold parseContents, parseContentsWith in H.
  unfold bind at 1 in H.
  destruct (parseContents_loop fuel (parseElement fuel) fuel [] [] p)
    as [[r0 q]|] eqn:E; [ | discriminate ].
  destruct (parseContents_loop_stops _ _ _ _ _ (preserves_parseElement fuel) E)
    as ((x & ->) & S).
  inversion H; subst. split; [ eauto | exact S ].
Qed.

Lemma X5_contents_never_fail_witness :
  parseContents (ext := asciiExternals) 16 (NewParser (runes "x<b/>y<c</a>"))
  = Some (Ok [CText (runes "x"); CElement (mkElement (runes "b") [] [] true);
              CText (runes "y")],
          at_ (runes "x<b/>y<c</a>") 6)
  /\ Test (ext := asciiExternals) (ch "<") (at_ (runes "x<b/>y<c</a>") 6) = true
  /\ exists e q,
       parseElement (ext := asciiExternals) 16 (at_ (runes "x<b/>y<c</a>") 6)
       = Some (Err e, q).
Proof.
  assert (H : parseContents (ext := asciiExternals) 16
                (NewParser (runes "x<b/>y<c</a>"))
              = Some (Ok [CText (runes "x");
                          CElement (mkElement (runes "b") [] [] true);
                          CText (runes "y")],
                      at_ (runes "x<b/>y<c</a>") 6))
    by (vm_compute; reflexivity).
  split; [ exact H | ].
  destruct (proj2 (@X5_contents_never_fail asciiExternals 16 _ _ _ H))
    as [(T & _)|[(_ & T & _)|[(_ & _ & T & _)|[(T1 & _ & _ & E)|(_ & T & _)]]]];
    try (vm_compute in T; discriminate T).
  split; [ exact T1 | exact E ].
Defined.

(** ** The label of an error (X6, X7)

    [p.error] stamps an error with the label in effect.  A production that
    sets no label blames the one of its caller. *)

Lemma blames_ret {A} (a : A) : blames (ret a).
Proof. intros p e p' H. discriminate. Qed.

Lemma blames_error {A} c : blames (@error A c).
Proof. intros p e p' H. inversion H; subst. reflexivity. Qed.

Lemma blames_None {A} : blames (fun _ : parser => @None (res A * parser)).
Proof. intros p e p' H. discriminate. Qed.

Lemma blames_look {A} (f : parser -> A) : blames (look f).
Proof. intros p e p' H. discriminate. Qed.

Lemma blames_getCursor : blames getCursor.
Proof. intros p e p' H. discriminate. Qed.

Lemma blames_setCursor c : blames (setCursor c).
Proof. intros p e p' H. discriminate. Qed.

Lemma blames_StepN n : blames (StepN n).
Proof. intros p e p' H. discriminate. Qed.

Lemma blames_Step : blames Step.
Proof. apply blames_StepN. Qed.

(** An error that was tried is a value, not an error. *)
Lemma blames_try {A} (m : M A) : blames (try m).
Proof.
  intros p e p' H. apply try_inv in H. destruct H as (r0 & E & _).
  discriminate.
Qed.

Lemma blames_bind {A B} (m : M A) (f : A -> M B) :
  preserves m -> blames m -> (forall a, blames (f a)) -> blames (bind m f).
Proof.
  intros Pm Hm Hf p e p' H. apply bind_inv in H.
  destruct H as [(e0 & H & E)|(a & p1 & H1 & H2)].
  - inversion E; subst. exact (Hm _ _ _ H).
  - destruct (Pm _ _ _ H1) as [_ <-]. exact (Hf a _ _ _ H2).
Qed.

Lemma blames_branch {A} c (a b : M A) :
  blames a -> blames b -> blames (branch c a b).
Proof. intros Ha Hb p e p'. unfold branch. destruct (c p); eauto. Qed.

Lemma withParsing_inv {A} l (m : M A) p r p' :
  withParsing l m p = Some (r, p') ->
  exists q, m (relabel l p) = Some (r, q) /\ p' = relabel (parsing p) q.
Proof.
  unfold withParsing, relabel.
  match goal with |- context [m ?s] => destruct (m s) as [[r0 q]|] end;
    intros H; inversion H; subst. eauto.
Qed.

(** The errors of a production that sets a label carry that label. *)
Lemma withParsing_label {A} l (m : M A) p e p' :
  blames m -> withParsing l m p = Some (Err e, p') -> errParsing e = l.
Proof.
  intros Hm H. apply withParsing_inv in H. destruct H as (q & H & _).
  exact (Hm _ _ _ H).
Qed.

Create HintDb blames.

#[export] Hint Resolve blames_ret blames_error blames_None blames_look
  blames_getCursor blames_setCursor blames_StepN blames_Step blames_try
  blames_branch : blames.

Ltac blames_step :=
  match goal with
  | |- blames (bind _ _) => apply blames_bind; [ frame | | intro ]
  | |- blames (branch _ _ _) => apply blames_branch
  | |- blames (try _) => apply blames_try
  | |- blames (match ?x with _ => _ end) => destruct x
  | |- blames (let _ := _ in _) => cbv zeta
  end.

Ltac blames := repeat blames_step; auto with blames frame.

Section Labels.

Context {ext : Externals}.
Variable fuel : nat.

Lemma blames_Must r : blames (Must r).
Proof. unfold Must. blames. Qed.

Hint Resolve blames_Must : blames.

Lemma blames_Musts s : blames (Musts s).
Proof. unfold Musts. blames. Qed.

Hint Resolve blames_Musts : blames.

Lemma blames_parseSuffix : blames parseSuffix.
Proof. unfold parseSuffix. blames. Qed.

Hint Resolve blames_parseSuffix : blames.

Lemma blames_parseQuote : blames parseQuote.
Proof. unfold parseQuote. blames. Qed.

Hint Resolve blames_parseQuote : blames.

Lemma blames_skipSpace_loop k : blames (skipSpace_loop k).
Proof. induction k; intros; simpl; blames. Qed.

Hint Resolve blames_skipSpace_loop : blames.

Lemma blames_skipSpace : blames (skipSpace fuel).
Proof. unfold skipSpace. blames. Qed.

Hint Resolve blames_skipSpace : blames.

Lemma blames_parseSpace : blames (parseSpace fuel).
Proof. unfold parseSpace. blames. Qed.

Hint Resolve blames_parseSpace : blames.

Lemma blames_parseName_loop k s : blames (parseName_loop k s).
Proof. revert s. induction k; intros; simpl; blames. Qed.

Hint Resolve blames_parseName_loop : blames.

Lemma blames_parseName : blames (parseName fuel).
Proof. unfold parseName. blames. Qed.

Hint Resolve blames_parseName : blames.

Lemma blames_scanWhile ok k s r : blames (scanWhile ok k s r).
Proof. revert s r. induction k; intros; simpl; blames. Qed.

Hint Resolve blames_scanWhile : blames.

Lemma blames_parseCharRef : blames (parseCharRef fuel).
Proof. unfold parseCharRef. blames. Qed.

Hint Resolve blames_parseCharRef : blames.

Lemma blames_parseEntityRef : blames (parseEntityRef fuel).
Proof. unfold parseEntityRef. blames. Qed.

Hint Resolve blames_parseEntityRef : blames.

Lemma blames_parseReference : blames (parseReference fuel).
Proof. unfold parseReference. blames. Qed.

Hint Resolve blames_parseReference : blames.

Lemma blames_parseComment_loop k s : blames (parseComment_loop k s).
Proof. revert s. induction k; intros; simpl; blames. Qed.

Hint Resolve blames_parseComment_loop : blames.

Lemma blames_parsePITarget : blames (parsePITarget fuel).
Proof. unfold parsePITarget. blames. Qed.

Hint Resolve blames_parsePITarget : blames.

Lemma blames_parsePI_loop k s : blames (parsePI_loop k s).
Proof. revert s. induction k; intros; simpl; blames. Qed.

Hint Resolve blames_parsePI_loop : blames.

Lemma blames_parseCPs_loop cp sep k cps :
  preserves cp -> blames cp -> blames (parseCPs_loop fuel cp sep k cps).
Proof. intros Pc Hcp. revert cps. induction k; intros; simpl; blames. Qed.

Hint Resolve blames_parseCPs_loop : blames.

Lemma blames_parseChoiceWith cp :
  preserves cp -> blames cp -> blames (parseChoiceWith fuel cp).
Proof. intros Pc Hcp. unfold parseChoiceWith. blames. Qed.

Hint Resolve blames_parseChoiceWith : blames.

Lemma blames_parseSeqWith cp :
  preserves cp -> blames cp -> blames (parseSeqWith fuel cp).
Proof. intros Pc Hcp. unfold parseSeqWith. blames. Qed.

Hint Resolve blames_parseSeqWith : blames.

Lemma blames_parseCP_rec d : blames (parseCP_rec fuel d).
Proof. induction d; simpl; blames. Qed.

Hint Resolve blames_parseCP_rec : blames.

Lemma blames_parseCP : blames (parseCP fuel).
Proof. unfold parseCP. blames. Qed.

Hint Resolve blames_parseCP : blames.

Lemma blames_parseChoice : blames (parseChoice fuel).
Proof. unfold parseChoice, parseCP. blames. Qed.

Hint Resolve blames_parseChoice : blames.

Lemma blames_parseSeq : blames (parseSeq fuel).
Proof. unfold parseSeq, parseCP. blames. Qed.

Hint Resolve blames_parseSeq : blames.

Lemma blames_parseMixed_loop k names : blames (parseMixed_loop fuel k names).
Proof. revert names. induction k; intros; simpl; blames. Qed.

Hint Resolve blames_parseMixed_loop : blames.

Lemma blames_parseMixed : blames (parseMixed fuel).
Proof. unfold parseMixed. blames. Qed.

Hint Resolve blames_parseMixed : blames.

Lemma blames_parseNmtoken : blames (parseNmtoken fuel).
Proof. unfold parseNmtoken. blames. Qed.

Hint Resolve blames_parseNmtoken : blames.

Lemma blames_parseEq : blames (parseEq fuel).
Proof. unfold parseEq. blames. Qed.

Hint Resolve blames_parseEq : blames.

Lemma blames_parseVersionNum_loop k s : blames (parseVersionNum_loop k s).
Proof. revert s. induction k; intros; simpl; blames. Qed.

Hint Resolve blames_parseVersionNum_loop : blames.

Lemma blames_parseVersionNum : blames (parseVersionNum fuel).
Proof. unfold parseVersionNum. blames. Qed.

Hint Resolve blames_parseVersionNum : blames.

Lemma blames_parseVersion : blames (parseVersion fuel).
Proof. unfold parseVersion. blames. Qed.

Hint Resolve blames_parseVersion : blames.

Lemma blames_parseEncName_loop k s : blames (parseEncName_loop k s).
Proof. revert s. induction k; intros; simpl; blames. Qed.

Hint Resolve blames_parseEncName_loop : blames.

Lemma blames_parseEncName : blames (parseEncName fuel).
Proof. unfold parseEncName. blames. Qed.

Hint Resolve blames_parseEncName : blames.

Lemma blames_parseEncoding : blames (parseEncoding fuel).
Proof. unfold parseEncoding. blames. Qed.

Hint Resolve blames_parseEncoding : blames.

Lemma blames_parseStandalone : blames (parseStandalone fuel).
Proof. unfold parseStandalone. blames. Qed.

Hint Resolve blames_parseStandalone : blames.

Lemma blames_parsePERef : blames (parsePERef fuel).
Proof. unfold parsePERef. blames. Qed.

Hint Resolve blames_parsePERef : blames.

Lemma blames_parseEntityValue_loop k q res s : blames (parseEntityValue_loop fuel k q res s).
Proof. revert q res s. induction k; intros; simpl; blames. Qed.

Hint Resolve blames_parseEntityValue_loop : blames.

Lemma blames_parseAttValue_loop k q res s : blames (parseAttValue_loop fuel k q res s).
Proof. revert q res s. induction k; intros; simpl; blames. Qed.

Hint Resolve blames_parseAttValue_loop : blames.

Lemma blames_parseSystemLiteral_loop k q s : blames (parseSystemLiteral_loop k q s).
Proof. revert q s. induction k; intros; simpl; blames. Qed.

Hint Resolve blames_parseSystemLiteral_loop : blames.

Lemma blames_parsePubidLiteral_loop k q s r : blames (parsePubidLiteral_loop k q s r).
Proof. revert q s r. induction k; intros; simpl; blames. Qed.

Hint Resolve blames_parsePubidLiteral_loop : blames.

Lemma blames_parseCDSect_loop k s : blames (parseCDSect_loop k s).
Proof. revert s. induction k; intros; simpl; blames. Qed.

Hint Resolve blames_parseCDSect_loop : blames.

Lemma blames_parseEntityValue : blames (parseEntityValue fuel).
Proof. unfold parseEntityValue. blames. Qed.

Hint Resolve blames_parseEntityValue : blames.

Lemma blames_parseAttValue : blames (parseAttValue fuel).
Proof. unfold parseAttValue. blames. Qed.

Hint Resolve blames_parseAttValue : blames.

Lemma blames_parseSystemLiteral : blames (parseSystemLiteral fuel).
Proof. unfold parseSystemLiteral. blames. Qed.

Hint Resolve blames_parseSystemLiteral : blames.

Lemma blames_parsePubidLiteral : blames (parsePubidLiteral fuel).
Proof. unfold parsePubidLiteral. blames. Qed.

Hint Resolve blames_parsePubidLiteral : blames.

Lemma blames_parseCDSect : blames (parseCDSect fuel).
Proof. unfold parseCDSect. blames. Qed.

Hint Resolve blames_parseCDSect : blames.

Lemma blames_parseAttribute : blames (parseAttribute fuel).
Proof. unfold parseAttribute. blames. Qed.

Hint Resolve blames_parseAttribute : blames.

Lemma blames_parseETag : blames (parseETag fuel).
Proof. unfold parseETag. blames. Qed.

Hint Resolve blames_parseETag : blames.

Lemma blames_parseElement_attrs k attrs : blames (parseElement_attrs fuel k attrs).
Proof. revert attrs. induction k; intros; simpl; blames. Qed.

Hint Resolve blames_parseElement_attrs : blames.

Lemma blames_parseChildren : blames (parseChildren fuel).
Proof. unfold parseChildren. blames. Qed.

Hint Resolve blames_parseChildren : blames.

Lemma blames_parseContentSpec : blames (parseContentSpec fuel).
Proof. unfold parseContentSpec. blames. Qed.

Hint Resolve blames_parseContentSpec : blames.

Lemma blames_parseBarList_loop item k acc :
  preserves item -> blames item -> blames (parseBarList_loop fuel item k acc).
Proof. intros Pi Hi. revert acc. induction k; intros; simpl; blames. Qed.

Hint Resolve blames_parseBarList_loop : blames.

Lemma blames_parseNotationType : blames (parseNotationType fuel).
Proof. unfold parseNotationType. blames. Qed.

Hint Resolve blames_parseNotationType : blames.

Lemma blames_parseEnum : blames (parseEnum fuel).
Proof. unfold parseEnum. blames. Qed.

Hint Resolve blames_parseEnum : blames.

Lemma blames_parseAttType : blames (parseAttType fuel).
Proof. unfold parseAttType. blames. Qed.

Hint Resolve blames_parseAttType : blames.

Lemma blames_parseDefaultDecl : blames (parseDefaultDecl fuel).
Proof. unfold parseDefaultDecl. blames. Qed.

Hint Resolve blames_parseDefaultDecl : blames.

Lemma blames_parseAttDef : blames (parseAttDef fuel).
Proof. unfold parseAttDef. blames. Qed.

Hint Resolve blames_parseAttDef : blames.

Lemma blames_parseAttlist_loop k defs : blames (parseAttlist_loop fuel k defs).
Proof. revert defs. induction k; intros; simpl; blames. Qed.

Hint Resolve blames_parseAttlist_loop : blames.

Lemma blames_parseExternalID : blames (parseExternalID fuel).
Proof. unfold parseExternalID. blames. Qed.

Hint Resolve blames_parseExternalID : blames.

Lemma blames_parseNData : blames (parseNData fuel).
Proof. unfold parseNData. blames. Qed.

Hint Resolve blames_parseNData : blames.

Lemma blames_parseEntityDef : blames (parseEntityDef fuel).
Proof. unfold parseEntityDef. blames. Qed.

Hint Resolve blames_parseEntityDef : blames.

Lemma blames_parsePEDef : blames (parsePEDef fuel).
Proof. unfold parsePEDef. blames. Qed.

Hint Resolve blames_parsePEDef : blames.

(** *** The productions that set a label *)

Lemma label_parseXmlDecl p e p' :
  parseXmlDecl fuel p = Some (Err e, p') ->
  errParsing e = runes "XML Declaration".
Proof. unfold parseXmlDecl. apply withParsing_label. blames. Qed.

Lemma label_parseComment p e p' :
  parseComment fuel p = Some (Err e, p') -> errParsing e = runes "Comment".
Proof. unfold parseComment. apply withParsing_label. blames. Qed.

Lemma label_parsePI p e p' :
  parsePI fuel p = Some (Err e, p') -> errParsing e = runes "NOTATION".
Proof. unfold parsePI. apply withParsing_label. blames. Qed.

Lemma label_parseElementDecl p e p' :
  parseElementDecl fuel p = Some (Err e, p') ->
  errParsing e = runes "Element Declaration".
Proof. unfold parseElementDecl. apply withParsing_label. blames. Qed.

Lemma label_parseAttlist p e p' :
  parseAttlist fuel p = Some (Err e, p') -> errParsing e = runes "ATTLIST".
Proof. unfold parseAttlist. apply withParsing_label. blames. Qed.

Lemma label_parseEntity p e p' :
  parseEntity fuel p = Some (Err e, p') ->
  errParsing e = runes "Entity Declaration".
Proof. unfold parseEntity. apply withParsing_label. blames. Qed.

Lemma label_parseNotation p e p' :
  parseNotation fuel p = Some (Err e, p') -> errParsing e = runes "NOTATION".
Proof. unfold parseNotation. apply withParsing_label. blames. Qed.

(** *** Labels that come from a nested production *)

Lemma among_blames L {A} (m : M A) : blames m -> blames_among L m.
Proof. intros Hm p e p' H. left. exact (Hm _ _ _ H). Qed.

Lemma among_labelled L {A} (m : M A) :
  (forall p e p', m p = Some (Err e, p') -> In (errParsing e) L) ->
  blames_among L m.
Proof. intros Hm p e p' H. right. exact (Hm _ _ _ H). Qed.

Lemma among_bind L {A B} (m : M A) (f : A -> M B) :
  preserves m -> blames_among L m -> (forall a, blames_among L (f a)) ->
  blames_among L (bind m f).
Proof.
  intros Pm Hm Hf p e p' H. apply bind_inv in H.
  destruct H as [(e0 & H & E)|(a & p1 & H1 & H2)].
  - inversion E; subst. exact (Hm _ _ _ H).
  - destruct (Pm _ _ _ H1) as [_ <-]. exact (Hf a _ _ _ H2).
Qed.

Lemma among_branch L {A} c (a b : M A) :
  blames_among L a -> blames_among L b -> blames_among L (branch c a b).
Proof. intros Ha Hb p e p'. unfold branch. destruct (c p); eauto. Qed.

Lemma among_withParsing L l {A} (m : M A) p e p' :
  blames_among L m -> withParsing l m p = Some (Err e, p') ->
  errParsing e = l \/ In (errParsing e) L.
Proof.
  intros Hm H. apply withParsing_inv in H. destruct H as (q & H & _).
  exact (Hm _ _ _ H).
Qed.

Ltac among_step :=
  match goal with
  | |- blames_among _ (bind _ _) => apply among_bind; [ frame | | intro ]
  | |- blames_among _ (branch _ _ _) => apply among_branch
  | |- blames_among _ (match ?x with _ => _ end) => destruct x
  end.

Ltac among := repeat among_step; try (apply among_blames; solve [ blames ]).

Lemma label_parseMarkup p e p' :
  parseMarkup fuel p = Some (Err e, p') -> In (errParsing e) markup_labels.
Proof.
  intros H. unfold parseMarkup in H.
  apply among_withParsing with (L := markup_labels) in H.
  - destruct H as [-> | H]; [ simpl; tauto | exact H ].
  - repeat (apply among_branch;
            [ apply among_bind; [ frame | | intro; among ];
              apply among_labelled; intros q e0 q' E | ]).
    + apply label_parseElementDecl in E. rewrite E. simpl. tauto.
    + apply label_parseAttlist in E. rewrite E. simpl. tauto.
    + apply label_parseEntity in E. rewrite E. simpl. tauto.
    + apply label_parseNotation in E. rewrite E. simpl. tauto.
    + apply label_parsePI in E. rewrite E. simpl. tauto.
    + apply label_parseComment in E. rewrite E. simpl. tauto.
    + apply among_blames. blames.
Qed.

Lemma among_parseDoctype_loop k markups peRef :
  blames_among markup_labels (parseDoctype_loop fuel k markups peRef).
Proof.
  revert markups peRef. induction k as [|k IH]; intros; simpl.
  - apply among_blames. blames.
  - repeat among_step; auto; try (apply among_blames; solve [ blames ]).
    apply among_labelled. intros q e q'. apply label_parseMarkup.
Qed.

Lemma label_parseDoctype p e p' :
  parseDoctype fuel p = Some (Err e, p') ->
  errParsing e = runes "DOCTYPE" \/ In (errParsing e) markup_labels.
Proof.
  intros H. unfold parseDoctype in H.
  apply among_withParsing with (L := markup_labels) in H; [ exact H | ].
  repeat among_step; try (apply among_blames; solve [ blames ]).
  apply among_parseDoctype_loop.
Qed.

(** *** Errors that are not reported *)

Lemma parseContentsWith_ok pe p r p' :
  preserves pe -> parseContentsWith fuel pe p = Some (r, p') ->
  exists contents, r = Ok contents.
Proof.
  intros Pe H. unfold parseContentsWith in H. unfold bind at 1 in H.
  destruct (parseContents_loop fuel pe fuel [] [] p) as [[r0 q]|] eqn:E;
    [ | discriminate ].
  destruct (parseContents_loop_stops _ _ _ _ _ Pe E) as ((x & ->) & _).
  inversion H; subst. eauto.
Qed.

Lemma blames_parseContentsWith pe :
  preserves pe -> blames (parseContentsWith fuel pe).
Proof.
  intros Pe p e p' H. apply parseContentsWith_ok in H; [ | exact Pe ].
  destruct H as (x & H). discriminate.
Qed.

Lemma parseMisc_loop_ok k miscs p r p' :
  parseMisc_loop fuel k miscs p = Some (r, p') -> exists x, r = Ok x.
Proof.
  revert miscs p. induction k as [|k IH]; intros miscs p H; [ discriminate | ].
  simpl in H. unfold bind at 1, getCursor at 1, ret at 1 in H.
  unfold bind at 1 in H.
  destruct (try (parseMisc fuel) p) as [[[r1|?] q]|] eqn:E;
    [ | apply try_inv in E; destruct E as (? & ? & _); discriminate
      | discriminate ].
  destruct r1 as [[misc|]|e]; [ exact (IH _ _ H) | exact (IH _ _ H) | ].
  unfold bind, setCursor, ret in H. inversion H; subst. eauto.
Qed.

Lemma blames_parseMisc_loop k miscs : blames (parseMisc_loop fuel k miscs).
Proof.
  intros p e p' H. apply parseMisc_loop_ok in H. destruct H as (x & H).
  discriminate.
Qed.

Hint Resolve blames_parseContentsWith blames_parseMisc_loop : blames.

(** An error of parseElement is labelled Element when the tag does not
    open, and with the name of the element itself after that: the errors of
    its attributes and of its end tag carry it, and the errors of the
    elements nested in it are not reported. *)
Lemma label_parseElement_rec d p e p' :
  parseElement_rec fuel d p = Some (Err e, p') ->
  errParsing e = runes "Element"
  \/ exists name q,
       parseName fuel (stepped 1 (relabel (runes "Element") p))
       = Some (Ok name, q)
       /\ errParsing e = name ++ runes " tag".
Proof.
  destruct d as [|d]; [ discriminate | ]. simpl. intros H.
  apply withParsing_inv in H. destruct H as (q & H & _).
  apply bind_inv in H. destruct H as [(e0 & H & E)|(u & q1 & H1 & H)].
  - inversion E; subst. left. exact (blames_Must _ _ H).
  - apply Must_inv_Ok in H1. destruct H1 as [_ ->].
    apply bind_inv in H. destruct H as [(e0 & H & E)|(name & q2 & H2 & H)].
    + inversion E; subst. left. exact (blames_parseName _ H).
    + right. exists name, q2. split; [ exact H2 | ].
      apply withParsing_label in H; [ exact H | ].
      blames.
Qed.

(** *** The errors of the prolog and of the document *)

Lemma errs_in_ret L {A} (a : A) : errs_in L (ret a).
Proof. intros p e p' H. discriminate. Qed.

Lemma errs_in_bind L {A B} (m : M A) (f : A -> M B) :
  errs_in L m -> (forall a, errs_in L (f a)) -> errs_in L (bind m f).
Proof.
  intros Hm Hf p e p' H. apply bind_inv in H.
  destruct H as [(e0 & H & E)|(a & p1 & H1 & H2)].
  - inversion E; subst. exact (Hm _ _ _ H).
  - exact (Hf a _ _ _ H2).
Qed.

Lemma errs_in_branch L {A} c (a b : M A) :
  errs_in L a -> errs_in L b -> errs_in L (branch c a b).
Proof. intros Ha Hb p e p'. unfold branch. destruct (c p); eauto. Qed.

Lemma skipSpace_loop_ok k p r p' :
  skipSpace_loop k p = Some (r, p') -> r = Ok tt.
Proof.
  revert p. induction k as [|k IH]; intros p H; [ discriminate | ].
  simpl in H. unfold branch in H. destruct (isSpace (Get p)).
  - unfold bind, Step, StepN, ret in H. exact (IH _ H).
  - inversion H. reflexivity.
Qed.

Lemma errs_in_skipSpace L : errs_in L (skipSpace fuel).
Proof. intros p e p' H. apply skipSpace_loop_ok in H. discriminate. Qed.

Lemma errs_in_parseMisc_loop L k miscs :
  errs_in L (parseMisc_loop fuel k miscs).
Proof.
  intros p e p' H. apply parseMisc_loop_ok in H. destruct H as (x & H).
  discriminate.
Qed.

Lemma label_parseProlog p e p' :
  parseProlog fuel p = Some (Err e, p') -> In (errParsing e) prolog_labels.
Proof.
  revert p e p'. change (errs_in prolog_labels (parseProlog fuel)).
  unfold parseProlog.
  apply errs_in_bind; [ apply errs_in_skipSpace | intros _ ].
  apply errs_in_bind; [ | intros xmlDecl ].
  { apply errs_in_branch; [ | apply errs_in_ret ].
    apply errs_in_bind; [ | intro; apply errs_in_ret ].
    intros q e q' E. apply label_parseXmlDecl in E. rewrite E.
    simpl. tauto. }
  apply errs_in_bind; [ apply errs_in_parseMisc_loop | intros misc1 ].
  apply errs_in_bind; [ | intro; apply errs_in_ret ].
  apply errs_in_branch; [ | apply errs_in_ret ].
  apply errs_in_bind.
  - intros q e q' E. apply label_parseDoctype in E. unfold prolog_labels.
    destruct E as [-> | E]; simpl; tauto.
  - intros doc.
    apply errs_in_bind; [ apply errs_in_parseMisc_loop | ].
    intro; apply errs_in_ret.
Qed.

End Labels.

(** X6: an error carries the label that was in effect where it was raised.
    The productions that set a label stamp their own errors with it:
    parseXmlDecl with XML Declaration, parseComment with Comment, parsePI
    with NOTATION (the label parseNotation sets too), parseElementDecl with
    Element Declaration, parseAttlist with ATTLIST, parseEntity with Entity
    Declaration; an error of parseMarkup carries markup or the label of the
    declaration it found, an error of parseDoctype carries DOCTYPE or one of
    those.  The productions that set no label, such as parseReference,
    parseAttribute, parseContentSpec and parseExternalID, blame the label of
    their caller. *)
Theorem X6_errors_carry_the_label {ext : Externals} (fuel : nat)
  (p p' : parser) (e : XMLError) :
  (parseXmlDecl fuel p = Some (Err e, p') ->
   errParsing e = runes "XML Declaration")
  /\ (parseComment fuel p = Some (Err e, p') -> errParsing e = runes "Comment")
  /\ (parsePI fuel p = Some (Err e, p') -> errParsing e = runes "NOTATION")
  /\ (parseElementDecl fuel p = Some (Err e, p') ->
      errParsing e = runes "Element Declaration")
  /\ (parseAttlist fuel p = Some (Err e, p') -> errParsing e = runes "ATTLIST")
  /\ (parseEntity fuel p = Some (Err e, p') ->
      errParsing e = runes "Entity Declaration")
  /\ (parseNotation fuel p = Some (Err e, p') ->
      errParsing e = runes "NOTATION")
  /\ (parseMarkup fuel p = Some (Err e, p') ->
      In (errParsing e)
        [runes "markup"; runes "Element Declaration"; runes "ATTLIST";
         runes "Entity Declaration"; runes "NOTATION"; runes "Comment"])
  /\ (parseDoctype fuel p = Some (Err e, p') ->
      errParsing e = runes "DOCTYPE"
      \/ In (errParsing e)
           [runes "markup"; runes "Element Declaration"; runes "ATTLIST";
            runes "Entity Declaration"; runes "NOTATION"; runes "Comment"])
  /\ (parseReference fuel p = Some (Err e, p') -> errParsing e = parsing p)
  /\ (parseAttribute fuel p = Some (Err e, p') -> errParsing e = parsing p)
  /\ (parseContentSpec fuel p = Some (Err e, p') -> errParsing e = parsing p)
  /\ (parseExternalID fuel p = Some (Err e, p') -> errParsing e = parsing p).
Proof.
  repeat match goal with |- _ /\ _ => split end.
  - apply label_parseXmlDecl.
  - apply label_parseComment.
  - apply label_parsePI.
  - apply label_parseElementDecl.
  - apply label_parseAttlist.
  - apply label_parseEntity.
  - apply label_parseNotation.
  - apply label_parseMarkup.
  - apply label_parseDoctype.
  - apply blames_parseReference.
  - apply blames_parseAttribute.
  - apply blames_parseContentSpec.
  - apply blames_parseExternalID.
Qed.

Lemma X6_errors_carry_the_label_witness :
  exists e,
    parsePI (ext := asciiExternals) 8 (NewParser (runes "<?x?>"))
    = Some (Err e, at_ (runes "<?x?>") 3)
    /\ errCause e = Msg "PI target can not contain 'xml'"
    /\ errParsing e = runes "NOTATION".
Proof.
  eexists. split; [ vm_compute; reflexivity | ].
  split; [ reflexivity | ].
  refine (proj1 (proj2 (proj2
            (@X6_errors_carry_the_label asciiExternals 8
               (NewParser (runes "<?x?>")) (at_ (runes "<?x?>") 3) _))) _).
  vm_compute; reflexivity.
Defined.

(** X7: an error of parseElement is labelled Element when the tag does not
    open, and otherwise [name tag] with the name of the element
    parseElement was called for, never the name of an element nested in it:
    the errors of nested elements are not reported.  An error of parse
    carries one of the labels of the prolog, or Element, or the name of the
    root element followed by tag, whatever label parse was entered with. *)
Theorem X7_element_errors_name_the_element {ext : Externals} (fuel : nat)
  (p p' : parser) (e : XMLError) :
  (parseElement fuel p = Some (Err e, p') ->
   errParsing e = runes "Element"
   \/ exists name q,
        parseName fuel (stepped 1 (relabel (runes "Element") p))
        = Some (Ok name, q)
        /\ errParsing e = name ++ runes " tag")
  /\ (parse fuel p = Some (Err e, p') ->
      In (errParsing e)
        [runes "XML Declaration"; runes "DOCTYPE"; runes "markup";
         runes "Element Declaration"; runes "ATTLIST";
         runes "Entity Declaration"; runes "NOTATION"; runes "Comment"]
      \/ errParsing e = runes "Element"
      \/ exists prolog q name q1,
           parseProlog fuel p = Some (Ok prolog, q)
           /\ parseName fuel (stepped 1 (relabel (runes "Element") q))
              = Some (Ok name, q1)
           /\ errParsing e = name ++ runes " tag").
Proof.
  split.
  - apply label_parseElement_rec.
  - intros H. unfold parse in H.
    apply bind_inv in H. destruct H as [(e0 & H & E)|(prolog & q & H1 & H)].
    + inversion E; subst. left. apply label_parseProlog in H. exact H.
    + apply bind_inv in H. destruct H as [(e0 & H & E)|(el & q2 & H2 & H)].
      * inversion E; subst. right.
        apply label_parseElement_rec in H.
        destruct H as [L|(name & q1 & N & L)];
          [ left; exact L | right; eauto 10 ].
      * apply bind_inv in H. destruct H as [(e0 & H & E)|(m & q3 & H3 & H)].
        -- apply parseMisc_loop_ok in H. destruct H as (x & H). discriminate.
        -- discriminate.
Qed.

Lemma X7_element_errors_witness :
  exists e,
    parseElement (ext := asciiExternals) 12 (NewParser (runes "<a><b></a>"))
    = Some (Err e, at_ (runes "<a><b></a>") 3)
    /\ errCause e = ExpectedStr (runes "</")
    /\ (errParsing e = runes "Element"
        \/ exists name q,
             parseName (ext := asciiExternals) 12
               (stepped 1 (relabel (runes "Element")
                             (NewParser (runes "<a><b></a>"))))
             = Some (Ok name, q)
             /\ errParsing e = name ++ runes " tag")
    /\ errParsing e = runes "a tag".
Proof.
  eexists. split; [ vm_compute; reflexivity | ].
  split; [ reflexivity | ].
  split; [ | reflexivity ].
  refine (proj1 (@X7_element_errors_name_the_element asciiExternals 12
                   (NewParser (runes "<a><b></a>"))
                   (at_ (runes "<a><b></a>") 3) _) _).
  vm_compute; reflexivity.
Defined.

(** ** Names and white space (X8, X9) *)

Lemma flat_singletons_length s :
  length (flat_map string_of_rune s) = length s.
Proof. induction s as [|r s IH]; simpl; [ reflexivity | now rewrite IH ]. Qed.

Lemma skipn_cons_nth {A} (d : A) c (l : list A) :
  c < length l -> skipn c l = nth c l d :: skipn (S c) l.
Proof.
  revert l. induction c as [|c IH]; intros [|x l] H; simpl in *; try lia.
  - reflexivity.
  - apply IH. lia.
Qed.

(** Inside the source the current rune is the rune under the cursor. *)
Lemma Get_in_bounds {ext : Externals} p :
  cursor p < length (source p) ->
  Get p = nth (cursor p) (source p) EOF /\ isEnd p = false.
Proof.
  intros H. unfold Get, isEnd.
  destruct (length (source p) <=? cursor p) eqn:E; [ | auto ].
  apply Nat.leb_le in E. lia.
Qed.

Lemma stepped_stepped n m p : stepped n (stepped m p) = stepped (m + n) p.
Proof. unfold stepped. simpl. f_equal. lia. Qed.

Lemma stepped_0 p : stepped 0 p = p.
Proof.
  unfold stepped. destruct p as [s c l]. simpl. f_equal. lia.
Qed.

Section Names.

Context {ext : Externals}.
Variable fuel : nat.
Hypothesis inert : sentinel_inert.

(** The loop of parseName takes the runes under the cursor as long as they
    are name characters, and nothing else. *)
Lemma parseName_loop_spec k acc p n p' :
  parseName_loop k acc p = Some (Ok n, p') ->
  exists s,
    n = acc ++ flat_map string_of_rune s
    /\ firstn (length s) (skipn (cursor p) (source p)) = s
    /\ (s <> [] -> cursor p + length s <= length (source p))
    /\ p' = stepped (length s) p
    /\ (forall i, i < length s -> p_isNameChar (stepped i p) = true)
    /\ p_isNameChar p' = false.
Proof.
  revert acc p. induction k as [|k IH]; intros acc p H; [ discriminate | ].
  simpl in H. unfold branch in H. destruct (p_isNameChar p) eqn:C.
  - pose proof (isNameChar_not_at_end inert _ C) as B. apply in_bounds in B.
    destruct (Get_in_bounds p B) as [G _].
    unfold bind at 1, look at 1, ret at 1 in H.
    unfold bind at 1, Step at 1, StepN at 1, ret at 1 in H.
    apply IH in H. destruct H as (s & Hn & Hs & Hb & Hp & Hall & Hend).
    simpl in Hs, Hb.
    exists (Get p :: s). simpl length.
    split; [ | split; [ | split; [ | split; [ | split ] ] ] ].
    + rewrite Hn. simpl. now rewrite <- app_assoc.
    + rewrite (@skipn_cons_nth _ EOF _ _ B), firstn_cons, <- G.
      f_equal. replace (S (cursor p)) with (cursor p + 1) by lia. exact Hs.
    + intros _. destruct s as [|x s]; [ simpl; lia | ].
      assert (x :: s <> []) by discriminate. specialize (Hb H). lia.
    + rewrite Hp. unfold stepped. simpl. f_equal. lia.
    + intros [|i] Hi.
      * now rewrite stepped_0.
      * replace (S i) with (1 + i) by lia. rewrite <- stepped_stepped.
        apply Hall. lia.
    + exact Hend.
  - inversion H; subst. exists []. simpl.
    rewrite app_nil_r, stepped_0.
    repeat split; auto; try lia; try congruence; intros i Hi; lia.
Qed.

Lemma nameStart_in_bounds p :
  isLetter (Get p) || Test (ch "_") p || Test (ch ":") p = true ->
  cursor p < length (source p).
Proof.
  intros C. apply in_bounds. apply (isNameChar_not_at_end inert).
  unfold p_isNameChar.
  repeat (apply orb_true_iff in C; destruct C as [C|C]); rewrite C;
    repeat rewrite orb_true_r; reflexivity.
Qed.

Lemma parseName_spec p n p' :
  parseName fuel p = Some (Ok n, p') ->
  isLetter (Get p) || Test (ch "_") p || Test (ch ":") p = true
  /\ n <> []
  /\ n = flat_map string_of_rune
           (firstn (length n) (skipn (cursor p) (source p)))
  /\ cursor p + length n <= length (source p)
  /\ p' = stepped (length n) p
  /\ (forall i, 0 < i < length n -> p_isNameChar (stepped i p) = true)
  /\ p_isNameChar p' = false.
Proof.
  intros H. unfold parseName, branch in H.
  destruct (isLetter (Get p) || Test (ch "_") p || Test (ch ":") p) eqn:C;
    [ | discriminate ].
  pose proof (nameStart_in_bounds _ C) as B.
  destruct (Get_in_bounds p B) as [G _].
  unfold bind at 1, look at 1, ret at 1 in H.
  unfold bind at 1, Step at 1, StepN at 1, ret at 1 in H.
  apply parseName_loop_spec in H.
  destruct H as (s & Hn & Hs & Hb & Hp & Hall & Hend). simpl in Hs, Hb.
  assert (L : length n = S (length s)).
  { rewrite Hn, length_app, flat_singletons_length. reflexivity. }
  split; [ reflexivity | ].
  split; [ intros E; rewrite E in L; discriminate | ].
  rewrite L.
  split; [ | split; [ | split; [ | split ] ] ].
  - rewrite (@skipn_cons_nth _ EOF _ _ B), firstn_cons, <- G.
    replace (S (cursor p)) with (cursor p + 1) by lia. rewrite Hs.
    exact Hn.
  - destruct s as [|x s]; [ simpl; lia | ].
    assert (N : x :: s <> []) by discriminate. specialize (Hb N). lia.
  - rewrite Hp. unfold stepped. simpl. f_equal. lia.
  - intros [|i] Hi; [ lia | ].
    replace (S i) with (1 + i) by lia. rewrite <- stepped_stepped.
    apply Hall. lia.
  - exact Hend.
Qed.

Lemma parseName_fails_in_place p :
  isLetter (Get p) || Test (ch "_") p || Test (ch ":") p = false ->
  parseName fuel p
  = Some (Err (newErr (parsing p) (Msg "invalid letter for name") (cursor p)),
          p).
Proof. intros C. unfold parseName, branch. rewrite C. reflexivity. Qed.

(** skipSpace never fails; it moves over runes that are white space and
    stops on the first rune that is not. *)
Lemma skipSpace_loop_spec k p r p' :
  skipSpace_loop k p = Some (r, p') ->
  r = Ok tt
  /\ exists n,
       p' = stepped n p
       /\ (0 < n -> cursor p + n <= length (source p))
       /\ (forall i, i < n -> isSpace (Get (stepped i p)) = true)
       /\ isSpace (Get p') = false.
Proof.
  revert p. induction k as [|k IH]; intros p H; [ discriminate | ].
  simpl in H. unfold branch in H. destruct (isSpace (Get p)) eqn:C.
  - pose proof (isSpace_not_at_end inert _ C) as B. apply in_bounds in B.
    unfold bind at 1, Step at 1, StepN at 1, ret at 1 in H.
    apply IH in H. destruct H as (-> & n & Hp & Hb & Hall & Hend).
    split; [ reflexivity | ]. exists (S n). simpl in Hb.
    split; [ | split; [ | split ] ].
    + rewrite Hp. unfold stepped. simpl. f_equal. lia.
    + intros _. destruct n as [|n]; [ lia | ].
      assert (N : 0 < S n) by lia. specialize (Hb N). lia.
    + intros [|i] Hi.
      * now rewrite stepped_0.
      * replace (S i) with (1 + i) by lia. rewrite <- stepped_stepped.
        apply Hall. lia.
    + exact Hend.
  - inversion H; subst. split; [ reflexivity | ]. exists 0.
    rewrite stepped_0. repeat split; auto; try lia; intros i Hi; lia.
Qed.

End Names.

(** X8: parseName takes the longest run of name characters under the
    cursor.  When the rune under the cursor is no letter, underscore or
    colon it fails at once, with the cursor where it was.  When it returns a
    name, the name is not empty and is the text of the source from the entry
    position to the cursor (each rune converted as [string(r)] does), every
    rune of it after the first is a name character, and the rune under the
    cursor at return is no name character. *)
Theorem X8_parseName_longest_name {ext : Externals} (fuel : nat)
  (p : parser) (inert : sentinel_inert) :
  (isLetter (Get p) || Test (ch "_") p || Test (ch ":") p = false ->
   parseName fuel p
   = Some (Err (newErr (parsing p) (Msg "invalid letter for name")
                  (cursor p)), p))
  /\ (forall n p',
        parseName fuel p = Some (Ok n, p') ->
        isLetter (Get p) || Test (ch "_") p || Test (ch ":") p = true
        /\ n <> []
        /\ n = flat_map string_of_rune
                 (firstn (length n) (skipn (cursor p) (source p)))
        /\ cursor p + length n <= length (source p)
        /\ p' = stepped (length n) p
        /\ (forall i, 0 < i < length n ->
              p_isNameChar (stepped i p) = true)
        /\ p_isNameChar p' = false).
Proof.
  split.
  - apply parseName_fails_in_place.
  - intros n p'. now apply parseName_spec.
Qed.

Lemma X8_parseName_longest_name_witness :
  sentinel_inert (ext := asciiExternals)
  /\ parseName (ext := asciiExternals) 8 (at_ (runes "<ab c>") 1)
     = Some (Ok (runes "ab"), at_ (runes "<ab c>") 3)
  /\ runes "ab"
     = flat_map string_of_rune
         (firstn (length (runes "ab"))
            (skipn (cursor (at_ (runes "<ab c>") 1))
               (source (at_ (runes "<ab c>") 1))))
  /\ p_isNameChar (ext := asciiExternals) (at_ (runes "<ab c>") 3) = false.
Proof.
  assert (H : parseName (ext := asciiExternals) 8 (at_ (runes "<ab c>") 1)
              = Some (Ok (runes "ab"), at_ (runes "<ab c>") 3))
    by (vm_compute; reflexivity).
  split; [ exact ascii_sentinel_inert | ].
  split; [ exact H | ].
  destruct (proj2 (@X8_parseName_longest_name asciiExternals 8
                     (at_ (runes "<ab c>") 1) ascii_sentinel_inert) _ _ H)
    as (_ & _ & E & _ & _ & _ & N).
  split; [ exact E | exact N ].
Defined.

(** X9: skipSpace never fails: it returns with the cursor moved over a run
    of white space of the source, and stops on the first rune that is
    no white space (or at the end of the input). *)
Theorem X9_skipSpace_stops_at_first_non_space {ext : Externals} (fuel : nat)
  (p p' : parser) (r : res unit) (inert : sentinel_inert)
  (H : skipSpace fuel p = Some (r, p')) :
  r = Ok tt
  /\ exists n,
       p' = stepped n p
       /\ (0 < n -> cursor p + n <= length (source p))
       /\ (forall i, i < n -> isSpace (Get (stepped i p)) = true)
       /\ isSpace (Get p') = false.
Proof. exact (skipSpace_loop_spec inert _ _ H). Qed.

Lemma X9_skipSpace_witness :
  sentinel_inert (ext := asciiExternals)
  /\ skipSpace (ext := asciiExternals) 8 (NewParser (runes "  a "))
     = Some (Ok tt, at_ (runes "  a ") 2)
  /\ exists n,
       at_ (runes "  a ") 2 = stepped n (NewParser (runes "  a "))
       /\ (0 < n ->
           cursor (NewParser (runes "  a ")) + n
           <= length (source (NewParser (runes "  a "))))
       /\ (forall i, i < n ->
             isSpace (Externals := asciiExternals)
               (Get (ext := asciiExternals)
                  (stepped i (NewParser (runes "  a ")))) = true)
       /\ isSpace (Externals := asciiExternals)
            (Get (ext := asciiExternals) (at_ (runes "  a ") 2)) = false.
Proof.
  assert (H : skipSpace (ext := asciiExternals) 8 (NewParser (runes "  a "))
              = Some (Ok tt, at_ (runes "  a ") 2))
    by (vm_compute; reflexivity).
  split; [ exact ascii_sentinel_inert | ].
  split; [ exact H | ].
  exact (proj2 (@X9_skipSpace_stops_at_first_non_space asciiExternals 8
                  _ _ _ ascii_sentinel_inert H)).
Defined.

(** ** Literals between quotes (X10) *)

Lemma skipn_head {A} (d : A) c (l : list A) x t :
  skipn c l = x :: t ->
  c < length l /\ nth c l d = x /\ skipn (S c) l = t.
Proof.
  revert l. induction c as [|c IH]; intros [|y l] H; simpl in H;
    try discriminate.
  - inversion H; subst. simpl. repeat split. lia.
  - apply IH in H. destruct H as (L & N & S'). simpl. repeat split; auto. lia.
Qed.

Lemma skipn_none {A} c (l : list A) : skipn c l = [] -> length l <= c.
Proof.
  revert l. induction c as [|c IH]; intros [|y l] H; simpl in *;
    try discriminate; try lia.
  apply IH in H. lia.
Qed.

(** What the scanner gives where the rest of the source is known. *)
Lemma at_head {ext : Externals} p x t :
  skipn (cursor p) (source p) = x :: t ->
  Get p = x /\ isEnd p = false
  /\ skipn (cursor (stepped 1 p)) (source (stepped 1 p)) = t.
Proof.
  intros H. apply (skipn_head EOF) in H. destruct H as (L & N & S').
  destruct (Get_in_bounds p L) as [G E].
  split; [ congruence | split; [ exact E | ] ].
  simpl. replace (cursor p + 1) with (S (cursor p)) by lia. exact S'.
Qed.

Lemma at_none {ext : Externals} p :
  skipn (cursor p) (source p) = [] -> Get p = EOF /\ isEnd p = true.
Proof.
  intros H. apply skipn_none in H.
  assert (E : isEnd p = true) by (unfold isEnd; now apply Nat.leb_le).
  split; [ now apply Get_at_end | exact E ].
Qed.

Section Literals.

Context {ext : Externals}.

(** The text up to the closing quote is the literal. *)
Lemma parseSystemLiteral_loop_closed s q rest k lit p :
  skipn (cursor p) (source p) = s ++ q :: rest ->
  ~ In q s -> length s < k ->
  parseSystemLiteral_loop k q lit p
  = Some (Ok (lit ++ flat_map string_of_rune s), stepped (length s) p).
Proof.
  revert k lit p. induction s as [|x s IH]; intros k lit p H N K;
    (destruct k as [|k]; [ simpl in K; lia | ]); simpl in H.
  - destruct (at_head _ H) as (G & _ & _).
    simpl. unfold branch, Test. rewrite G, Z.eqb_refl. simpl.
    now rewrite app_nil_r, stepped_0.
  - destruct (at_head _ H) as (G & _ & S').
    assert (Hx : (x =? q)%Z = false)
      by (apply Z.eqb_neq; intros ->; apply N; simpl; auto).
    simpl. unfold branch at 1, Test. rewrite G, Hx. simpl negb. cbv iota.
    unfold bind at 1, look at 1, ret at 1.
    unfold bind at 1, Step at 1, StepN at 1, ret at 1.
    assert (E : isEnd (stepped 1 p) = false).
    { destruct (s ++ q :: rest) as [|y t] eqn:Y.
      - destruct s; discriminate.
      - now destruct (at_head _ S') as (_ & E & _). }
    unfold branch. fold (stepped 1 p). rewrite E, G.
    erewrite IH;
      [ | exact S' | intros I; apply N; simpl; auto | simpl in K; lia ].
    rewrite stepped_stepped, <- app_assoc. reflexivity.
Qed.

(** Without a closing quote the loop runs to the end of the input and
    reports the quote it did not find; when the opening quote is the last
    rune of the input it has stepped once more by then. *)
Lemma parseSystemLiteral_loop_open s q k lit p :
  skipn (cursor p) (source p) = s ->
  ~ In q s -> q <> EOF -> length s < k ->
  parseSystemLiteral_loop k q lit p
  = Some (Err (newErr (parsing p) (NoQuote q)
                 (cursor p + Nat.max 1 (length s))),
          stepped (Nat.max 1 (length s)) p).
Proof.
  revert k lit p. induction s as [|x s IH]; intros k lit p H N Q K;
    (destruct k as [|k]; [ simpl in K; lia | ]).
  - destruct (at_none _ H) as (G & E).
    assert (Hq : (EOF =? q)%Z = false) by (apply Z.eqb_neq; congruence).
    simpl. unfold branch at 1, Test. rewrite G, Hq. simpl negb. cbv iota.
    unfold bind at 1, look at 1, ret at 1.
    unfold bind at 1, Step at 1, StepN at 1, ret at 1.
    fold (stepped 1 p).
    assert (E1 : isEnd (stepped 1 p) = true).
    { unfold isEnd in *. simpl. apply Nat.leb_le in E. apply Nat.leb_le. lia. }
    unfold branch. rewrite E1. reflexivity.
  - destruct (at_head _ H) as (G & _ & S').
    assert (Hx : (x =? q)%Z = false)
      by (apply Z.eqb_neq; intros ->; apply N; simpl; auto).
    simpl parseSystemLiteral_loop.
    unfold branch at 1, Test. rewrite G, Hx. simpl negb. cbv iota.
    unfold bind at 1, look at 1, ret at 1.
    unfold bind at 1, Step at 1, StepN at 1, ret at 1.
    fold (stepped 1 p). unfold branch at 1.
    destruct s as [|y s].
    + destruct (at_none _ S') as (_ & E1). rewrite E1. reflexivity.
    + destruct (at_head _ S') as (_ & E1 & _). rewrite E1.
      erewrite IH;
        [ | exact S' | intros I; apply N; simpl; auto | exact Q
          | simpl in *; lia ].
      rewrite stepped_stepped. simpl length.
      replace (Nat.max 1 (S (length s))) with (S (length s)) by lia.
      replace (Nat.max 1 (S (S (length s)))) with (1 + S (length s)) by lia.
      simpl cursor. simpl parsing.
      now rewrite Nat.add_assoc.
Qed.

End Literals.

(** X10: parseSystemLiteral returns the text between the opening quote and
    the next occurrence of that quote, and ends just after it; the literal is
    the text of the source as it stands when its runes are code points.
    With no quote under the cursor it fails at once.  With no closing quote
    it fails with [could not find quote]; the cursor is then at the end of
    the input, or one past the end when the opening quote was the last
    rune. *)
Theorem X10_system_literal_is_text_to_next_quote {ext : Externals}
  (fuel : nat) (p : parser) (q : rune) (s rest : gostring)
  (Hq : isQuote q = true) (Hs : ~ In q s) (Hfuel : length s < fuel) :
  (skipn (cursor p) (source p) = q :: s ++ q :: rest ->
   parseSystemLiteral fuel p
   = Some (Ok (flat_map string_of_rune s), stepped (length s + 2) p)
   /\ (forallb validRune s = true -> flat_map string_of_rune s = s))
  /\ (skipn (cursor p) (source p) = q :: s -> q <> EOF ->
      parseSystemLiteral fuel p
      = Some (Err (newErr (parsing p) (NoQuote q)
                     (cursor p + 1 + Nat.max 1 (length s))),
              stepped (1 + Nat.max 1 (length s)) p))
  /\ (isQuote (Get p) = false ->
      exists e, parseSystemLiteral fuel p = Some (Err e, p)).
Proof.
  split; [ | split ].
  - intros H. split.
    + destruct (at_head _ H) as (G & _ & S').
      unfold parseSystemLiteral.
      unfold bind at 1. unfold parseQuote.
      unfold bind at 1, look at 1, ret at 1. rewrite G, Hq.
      unfold bind at 1, Step at 1, StepN at 1, ret at 1.
      fold (stepped 1 p).
      unfold bind at 1. unfold ret at 1.
      erewrite parseSystemLiteral_loop_closed;
        [ | exact S' | exact Hs | exact Hfuel ].
      rewrite stepped_stepped.
      unfold bind, Step, StepN, ret, stepped. simpl.
      do 3 f_equal. lia.
    + intros V. clear - V. induction s as [|x s IH]; [ reflexivity | ].
      simpl in *. apply andb_true_iff in V. destruct V as [Vx V].
      unfold string_of_rune at 1. rewrite Vx. simpl. f_equal. now apply IH.
  - intros H Q. destruct (at_head _ H) as (G & _ & S').
    unfold parseSystemLiteral.
    unfold bind at 1. unfold parseQuote.
    unfold bind at 1, look at 1, ret at 1. rewrite G, Hq.
    unfold bind at 1, Step at 1, StepN at 1, ret at 1.
    fold (stepped 1 p).
    unfold bind at 1. unfold ret at 1.
    erewrite parseSystemLiteral_loop_open;
      [ | exact S' | exact Hs | exact Q | exact Hfuel ].
    rewrite stepped_stepped. reflexivity.
  - intros H. unfold parseSystemLiteral, parseQuote.
    unfold bind at 1. unfold bind at 1, look at 1, ret at 1. rewrite H.
    unfold error. eauto.
Qed.

Lemma X10_system_literal_witness :
  parseSystemLiteral (ext := asciiExternals) 8 (at_ (runes "='a b' c") 1)
  = Some (Ok (runes "a b"), at_ (runes "='a b' c") 6)
  /\ parseSystemLiteral (ext := asciiExternals) 8 (NewParser (runes "'"))
     = Some (Err (newErr [] (NoQuote (ch "'")) 2), at_ (runes "'") 2).
Proof.
  split.
  - refine (proj1 (proj1 (@X10_system_literal_is_text_to_next_quote
                            asciiExternals 8 (at_ (runes "='a b' c") 1)
                            (ch "'") (runes "a b") (runes " c")
                            _ _ _) _)).
    + reflexivity.
    + vm_compute. intuition discriminate.
    + vm_compute; lia.
    + reflexivity.
  - refine (proj1 (proj2 (@X10_system_literal_is_text_to_next_quote
                            asciiExternals 8 (NewParser (runes "'"))
                            (ch "'") [] []
                            _ _ _)) _ _).
    + reflexivity.
    + intros [].
    + vm_compute; lia.
    + reflexivity.
    + vm_compute. discriminate.
Defined.

(** ** The tree of an element (X11) *)

Lemma element_ok_eq {ext : Externals} name attrs contents isEmptyTag :
  element_ok (mkElement name attrs contents isEmptyTag)
  <-> name <> []
      /\ Forall (fun a => Attr_Name a <> []) attrs
      /\ (isEmptyTag = true -> contents = [])
      /\ Forall content_ok contents.
Proof.
  simpl. 
  assert (E : forall cs,
             (fix all (cs : list Content) : Prop :=
                match cs with
                | [] => True
                | c :: cs' =>
                    match c with
                    | CText s => textRunKept s
                    | CElement e' => element_ok e'
                    | CRef r => ref_ok r
                    | CPI pi => PI_Target pi <> []
                    | CCData _ => True
                    | CComment _ => True
                    end /\ all cs'
                end) cs <-> Forall content_ok cs).
  { induction cs as [|c cs IH].
    - split; [ constructor | exact (fun _ => I) ].
    - split.
      + intros [Hc Hcs]. constructor; [ destruct c; exact Hc | now apply IH ].
      + intros H. inversion H; subst.
        split; [ destruct c; assumption | now apply IH ]. }
  rewrite E. reflexivity.
Qed.

Lemma yields_weaken {A} (m : M A) (P Q : A -> Prop) :
  yields m P -> (forall a, P a -> Q a) -> yields m Q.
Proof. intros Hm HPQ p a p' E. apply HPQ. exact (Hm _ _ _ E). Qed.

Lemma yields_withParsing {A} l (m : M A) (Q : A -> Prop) :
  yields m Q -> yields (withParsing l m) Q.
Proof.
  intros Hm p a p' E. apply withParsing_inv_Ok in E.
  destruct E as (q & E & _). exact (Hm _ _ _ E).
Qed.

Lemma yields_try {A} (m : M A) (Q : A -> Prop) :
  yields m Q ->
  yields (try m) (fun r => match r with Ok a => Q a | Err _ => True end).
Proof.
  intros Hm p r p' E. apply try_inv in E. destruct E as (r0 & E0 & E).
  inversion E0; subst. destruct r0; [ exact (Hm _ _ _ E) | exact I ].
Qed.

Section Tree.

Context {ext : Externals}.
Variable fuel : nat.

Lemma rune_text_not_empty acc r : acc ++ string_of_rune r <> [].
Proof. unfold string_of_rune. destruct acc; discriminate. Qed.

Lemma yields_parseName_loop k acc :
  acc <> [] -> yields (parseName_loop k acc) (fun n => n <> []).
Proof.
  revert acc. induction k as [|k IH]; intros acc Ha; simpl.
  - apply yields_None.
  - apply yields_branch; [ | now apply yields_ret ].
    apply yields_bind; intros r. apply yields_bind; intros _.
    apply IH. apply rune_text_not_empty.
Qed.

Lemma yields_parseName : yields (parseName fuel) (fun n => n <> []).
Proof.
  unfold parseName. apply yields_branch; [ | apply yields_error ].
  apply yields_bind; intros r. apply yields_bind; intros _.
  apply yields_parseName_loop. apply (rune_text_not_empty []).
Qed.

Lemma yields_scanWhile ok k str r :
  str <> [] \/ ok r = true ->
  yields (scanWhile ok k str r) (fun v => v <> []).
Proof.
  revert str r. induction k as [|k IH]; intros str r H; simpl.
  - apply yields_None.
  - destruct (ok r) eqn:C.
    + apply yields_bind; intros _. apply yields_bind; intros r'.
      apply IH. left. apply rune_text_not_empty.
    + destruct H as [H|H]; [ now apply yields_ret | discriminate ].
Qed.

Lemma yields_parseCharRef :
  yields (parseCharRef fuel) (fun c => CharRef_Value c <> []).
Proof.
  unfold parseCharRef.
  apply yields_bind_with with (P := fun c => CharRef_Value c <> []);
    [ | intros c Hc; apply yields_bind; intros _; now apply yields_ret ].
  apply yields_branch; [ | apply yields_branch; [ | apply yields_error ] ];
    apply yields_bind; intros _; apply yields_bind; intros r.
  - destruct (negb (isNum r) && negb (isAlpha r)) eqn:C;
      [ apply yields_error | ].
    apply yields_bind_with with (P := fun v => v <> []);
      [ | intros v Hv; now apply yields_ret ].
    apply yields_scanWhile. right.
    destruct (isNum r), (isAlpha r); simpl in *; auto; discriminate.
  - destruct (negb (isNum r)) eqn:C; [ apply yields_error | ].
    apply yields_bind_with with (P := fun v => v <> []);
      [ | intros v Hv; now apply yields_ret ].
    apply yields_scanWhile. right. now apply negb_false_iff in C.
Qed.

Lemma yields_parseEntityRef :
  yields (parseEntityRef fuel) (fun e => EntityRef_Name e <> []).
Proof.
  unfold parseEntityRef. apply yields_bind; intros _.
  apply yields_bind_with with (P := fun n => n <> []);
    [ apply yields_parseName | intros n Hn ].
  apply yields_bind; intros _. now apply yields_ret.
Qed.

Lemma yields_parseReference : yields (parseReference fuel) ref_ok.
Proof.
  unfold parseReference. apply yields_bind; intros cur.
  apply yields_bind_with
    with (P := fun r => match r with
                        | Ok e => EntityRef_Name e <> []
                        | Err _ => True
                        end);
    [ apply yields_try, yields_parseEntityRef | intros [e|err] He ].
  - now apply yields_ret.
  - apply yields_bind; intros _.
    apply yields_bind_with with (P := fun c => CharRef_Value c <> []);
      [ apply yields_parseCharRef | intros c Hc; now apply yields_ret ].
Qed.

Lemma yields_parsePI : yields (parsePI fuel) (fun pi => PI_Target pi <> []).
Proof.
  unfold parsePI. apply yields_withParsing. apply yields_bind; intros _.
  apply yields_bind_with with (P := fun n => n <> []).
  - unfold parsePITarget.
    apply yields_bind_with with (P := fun n => n <> []);
      [ apply yields_parseName | intros n Hn ].
    destruct (ContainsAny n (runes "xmlXML"));
      [ apply yields_error | now apply yields_ret ].
  - intros t Ht. apply yields_bind; intros i. apply yields_bind; intros _.
    now apply yields_ret.
Qed.

Lemma yields_parseAttribute :
  yields (parseAttribute fuel) (fun a => Attr_Name a <> []).
Proof.
  unfold parseAttribute.
  apply yields_bind_with with (P := fun n => n <> []);
    [ apply yields_parseName | intros n Hn ].
  apply yields_bind; intros _. apply yields_bind; intros v.
  now apply yields_ret.
Qed.

Lemma yields_parseElement_attrs k attrs :
  Forall (fun a => Attr_Name a <> []) attrs ->
  yields (parseElement_attrs fuel k attrs)
    (Forall (fun a => Attr_Name a <> [])).
Proof.
  revert attrs. induction k as [|k IH]; intros attrs Ha; simpl.
  - apply yields_None.
  - apply yields_branch; [ | now apply yields_ret ].
    apply yields_bind; intros _.
    apply yields_branch; [ now apply yields_ret | ].
    apply yields_bind_with with (P := fun a => Attr_Name a <> []);
      [ apply yields_parseAttribute | intros a Hn ].
    apply IH. apply Forall_app. split; [ exact Ha | ].
    constructor; [ exact Hn | constructor ].
Qed.

Lemma flushCharData_ok res s :
  Forall content_ok res -> Forall content_ok (flushCharData res s).
Proof.
  intros H. destruct (flushCharData_spec res s) as [K D].
  assert (T : textRunKept s \/ ~ textRunKept s).
  { unfold textRunKept. destruct s as [|x s].
    - right. intros [N _]. now apply N.
    - destruct (isOnlySpaces (x :: s)) eqn:E.
      + right. intros [_ N]. apply isOnlySpaces_false in N. congruence.
      + left. split; [ discriminate | now apply isOnlySpaces_false ]. }
  destruct T as [T|T].
  - rewrite (K T). apply Forall_app. split; [ exact H | ].
    constructor; [ exact T | constructor ].
  - now rewrite (D T).
Qed.

Lemma flush_then_ok res s c :
  Forall content_ok res -> content_ok c ->
  Forall content_ok (flushCharData res s ++ [c]).
Proof.
  intros H Hc. apply Forall_app. split.
  - now apply flushCharData_ok.
  - constructor; [ exact Hc | constructor ].
Qed.

Lemma yields_parseContents_loop pe k res s :
  yields pe element_ok -> Forall content_ok res ->
  yields (parseContents_loop fuel pe k res s)
    (fun x => Forall content_ok (fst x)).
Proof.
  intros Hpe. revert res s. induction k as [|k IH]; intros res s Hres; simpl.
  - apply yields_None.
  - apply yields_bind; intros cur. apply yields_branch.
    + apply yields_bind_with
        with (P := fun r => match r with Ok i => ref_ok i | Err _ => True end);
        [ apply yields_try, yields_parseReference | intros [i|e] Hi ].
      * apply IH. now apply flush_then_ok.
      * apply yields_bind; intros _. now apply yields_ret.
    + apply yields_branch.
      * apply yields_bind_with
          with (P := fun r => match r with
                              | Ok i => content_ok i
                              | Err _ => True
                              end).
        -- apply yields_branch; [ | apply yields_branch ].
           ++ apply yields_bind; intros [c|e]; [ now apply yields_ret | ].
              apply yields_bind; intros _.
              apply yields_bind; intros [c|e2]; now apply yields_ret.
           ++ apply yields_bind_with
                with (P := fun r => match r with
                                    | Ok pi => PI_Target pi <> []
                                    | Err _ => True
                                    end);
                [ apply yields_try, yields_parsePI | ].
              intros [pi|e] Hpi; now apply yields_ret.
           ++ apply yields_bind_with
                with (P := fun r => match r with
                                    | Ok e => element_ok e
                                    | Err _ => True
                                    end);
                [ apply yields_try, Hpe | ].
              intros [e|err] He; now apply yields_ret.
        -- intros [i|e] Hi.
           ++ apply IH. now apply flush_then_ok.
           ++ apply yields_bind; intros _. now apply yields_ret.
      * apply yields_branch; [ now apply yields_ret | ].
        apply yields_bind; intros r. apply yields_bind; intros _.
        now apply IH.
Qed.

Lemma yields_parseContentsWith pe :
  yields pe element_ok ->
  yields (parseContentsWith fuel pe) (Forall content_ok).
Proof.
  intros Hpe. unfold parseContentsWith.
  apply yields_bind_with with (P := fun x => Forall content_ok (fst x)).
  - apply yields_parseContents_loop; [ exact Hpe | constructor ].
  - intros x Hx. apply yields_ret. now apply flushCharData_ok.
Qed.

Lemma yields_parseElement_rec d : yields (parseElement_rec fuel d) element_ok.
Proof.
  induction d as [|d IH]; simpl; [ apply yields_None | ].
  apply yields_withParsing. apply yields_bind; intros _.
  apply yields_bind_with with (P := fun n => n <> []);
    [ apply yields_parseName | intros name Hname ].
  apply yields_withParsing.
  apply yields_bind_with with (P := Forall (fun a => Attr_Name a <> []));
    [ apply yields_parseElement_attrs; constructor | intros attrs Hattrs ].
  apply yields_branch; [ | apply yields_branch; [ | apply yields_error ] ].
  - apply yields_bind; intros _.
    apply yields_bind_with with (P := Forall content_ok);
      [ now apply yields_parseContentsWith | intros contents Hc ].
    apply yields_bind; intros endName.
    destruct (negb (runes_eqb endName name)); [ apply yields_error | ].
    apply yields_ret. apply element_ok_eq.
    repeat split; auto. discriminate.
  - apply yields_bind; intros _. apply yields_ret. apply element_ok_eq.
    repeat split; auto.
Qed.

End Tree.

(** X11: every element of a tree that parseElement or parse returns, at
    any depth, has a name that is not empty and attributes whose names are
    not empty; an element written as an empty tag has no contents; in the
    contents no text run is empty or all white space, and no reference and
    no target of a processing instruction is empty. *)
Theorem X11_element_tree_invariant {ext : Externals} (fuel : nat)
  (p p' : parser) :
  (forall e, parseElement fuel p = Some (Ok e, p') -> element_ok e)
  /\ (forall x, parse fuel p = Some (Ok x, p') -> element_ok (XML_Element x))
  /\ (forall name attrs contents isEmptyTag,
        element_ok (mkElement name attrs contents isEmptyTag)
        <-> name <> []
            /\ Forall (fun a => Attr_Name a <> []) attrs
            /\ (isEmptyTag = true -> contents = [])
            /\ Forall content_ok contents).
Proof.
  split; [ | split ].
  - intros e H. eapply yields_parseElement_rec. exact H.
  - intros x H. unfold parse in H.
    bind_as H prolog q1 H1. bind_as H element q2 H2. bind_as H misc q3 H3.
    inversion H; subst. simpl.
    eapply yields_parseElement_rec. exact H2.
  - intros. apply element_ok_eq.
Qed.

Lemma X11_element_tree_witness :
  parseElement (ext := asciiExternals) 16
    (NewParser (runes "<a x='1'> <b/>t&r;</a>"))
  = Some (Ok (mkElement (runes "a")
                [ {| Attr_Name := runes "x";
                     Attr_AttValue := [AVText (runes "1")] |} ]
                [ CElement (mkElement (runes "b") [] [] true);
                  CText (runes "t");
                  CRef (RefEntity {| EntityRef_Name := runes "r" |}) ]
                false),
          at_ (runes "<a x='1'> <b/>t&r;</a>") 22)
  /\ element_ok (ext := asciiExternals)
       (mkElement (runes "a")
          [ {| Attr_Name := runes "x";
               Attr_AttValue := [AVText (runes "1")] |} ]
          [ CElement (mkElement (runes "b") [] [] true);
            CText (runes "t");
            CRef (RefEntity {| EntityRef_Name := runes "r" |}) ]
          false).
Proof.
  assert (H : parseElement (ext := asciiExternals) 16
                (NewParser (runes "<a x='1'> <b/>t&r;</a>"))
              = Some (Ok (mkElement (runes "a")
                            [ {| Attr_Name := runes "x";
                                 Attr_AttValue := [AVText (runes "1")] |} ]
                            [ CElement (mkElement (runes "b") [] [] true);
                              CText (runes "t");
                              CRef (RefEntity
                                      {| EntityRef_Name := runes "r" |}) ]
                            false),
                      at_ (runes "<a x='1'> <b/>t&r;</a>") 22))
    by (vm_compute; reflexivity).
  split; [ exact H | ].
  exact (proj1 (@X11_element_tree_invariant asciiExternals 16 _ _) _ H).
Defined.

(** ** A declaration that does not start as one (X12) *)

(** X12: a prolog whose first markup starts with [<?xml] is read as an XML
    declaration.  When the rune after [<?xml] is no white space, as in a
    processing instruction whose target merely starts with xml, parseProlog
    fails there with [expected space] under the label XML Declaration, and
    so does parse: the document is rejected. *)
Theorem X12_xml_prefix_is_a_declaration {ext : Externals} (fuel : nat)
  (p q : parser)
  (Hskip : skipSpace fuel p = Some (Ok tt, q))
  (Hxml : Tests (runes "<?xml") q = true)
  (Hnext : isSpace (Get (stepped 5 q)) = false) :
  parseProlog fuel p
  = Some (Err (newErr (runes "XML Declaration") (Msg "expected space")
                 (cursor q + 5)), stepped 5 q)
  /\ parse fuel p
     = Some (Err (newErr (runes "XML Declaration") (Msg "expected space")
                    (cursor q + 5)), stepped 5 q).
Proof.
  assert (E : parseXmlDecl fuel q
              = Some (Err (newErr (runes "XML Declaration")
                             (Msg "expected space") (cursor q + 5)),
                      stepped 5 q)).
  { unfold parseXmlDecl, withParsing.
    unfold bind at 1. unfold Musts, branch. 
    assert (T : Tests (runes "<?xml")
                  {| source := source q; cursor := cursor q;
                     parsing := runes "XML Declaration" |} = true)
      by exact Hxml.
    rewrite T. simpl negb. cbv iota.
    unfold StepN at 1, ret at 1.
    unfold bind at 1. unfold parseVersion. unfold bind at 1.
    unfold parseSpace, branch.
    assert (G : isSpace
                  (Get {| source := source q;
                          cursor := cursor q + len (runes "<?xml");
                          parsing := runes "XML Declaration" |}) = false)
      by exact Hnext.
    simpl source. simpl cursor. simpl parsing. rewrite G. simpl negb. cbv iota.
    unfold error. simpl. reflexivity. }
  assert (P : parseProlog fuel p
              = Some (Err (newErr (runes "XML Declaration")
                             (Msg "expected space") (cursor q + 5)),
                      stepped 5 q)).
  { unfold parseProlog. erewrite bind_Ok by exact Hskip.
    unfold bind at 1. unfold branch at 1. rewrite Hxml.
    unfold bind at 1. rewrite E. reflexivity. }
  split; [ exact P | ].
  unfold parse. erewrite bind_Err by exact P. reflexivity.
Qed.

Lemma X12_xml_prefix_witness :
  parse (ext := asciiExternals) 8
    (NewParser (runes "<?xml-stylesheet href='a'?><a/>"))
  = Some (Err (newErr (runes "XML Declaration") (Msg "expected space") 5),
          at_ (runes "<?xml-stylesheet href='a'?><a/>") 5).
Proof.
  refine (proj2 (@X12_xml_prefix_is_a_declaration asciiExternals 8
                   (NewParser (runes "<?xml-stylesheet href='a'?><a/>"))
                   (NewParser (runes "<?xml-stylesheet href='a'?><a/>"))
                   _ _ _)).
  - vm_compute; reflexivity.
  - vm_compute; reflexivity.
  - vm_compute; reflexivity.
Defined.

(** ** White space after a separator (X13) *)

(** X13: in a choice or a sequence the content particle must follow its
    separator at once.  The loop skips white space before the separator
    only: when the rune after the separator is neither an opening
    parenthesis nor the start of a name (white space, for one), the loop
    fails there with [invalid letter for name]. *)
Theorem X13_particle_follows_separator {ext : Externals} (fuel k : nat)
  (sep : rune) (cps : list CP) (p q : parser)
  (Hfuel : 0 < fuel)
  (Hskip : skipSpace fuel p = Some (Ok tt, q))
  (Hsep : Test sep q = true)
  (Hparen : Test (ch "(") (stepped 1 q) = false)
  (Hname : isLetter (Get (stepped 1 q)) || Test (ch "_") (stepped 1 q)
           || Test (ch ":") (stepped 1 q) = false) :
  parseCPs_loop fuel (parseCP fuel) sep (S k) cps p
  = Some (Err (newErr (parsing q) (Msg "invalid letter for name")
                 (cursor q + 1)), stepped 1 q).
Proof.
  simpl. erewrite bind_Ok by exact Hskip.
  unfold branch. rewrite Hsep. simpl negb. cbv iota.
  unfold bind at 1, Step at 1, StepN at 1, ret at 1. fold (stepped 1 q).
  unfold parseCP. destruct fuel as [|d]; [ lia | ].
  simpl parseCP_rec. unfold bind at 1. unfold bind at 1.
  unfold branch at 1. rewrite Hparen.
  unfold bind at 1.
  rewrite (parseName_fails_in_place (S d) _ Hname). reflexivity.
Qed.

Lemma X13_particle_follows_separator_witness :
  (exists e,
     run (parseElementDecl (ext := asciiExternals) 24)
       (runes "<!ELEMENT x (a | b)>")
     = Some (Err e, at_ (runes "<!ELEMENT x (a | b)>") 15))
  /\ run (parseElementDecl (ext := asciiExternals) 24)
       (runes "<!ELEMENT x (a |b)>")
     = Some (Ok {| ElementDecl_Name := runes "x";
                   ElementDecl_ContentSpec :=
                     CSChildren
                       {| Children_ChoiceSeq :=
                            Choice [mkCP (runes "a") None None;
                                    mkCP (runes "b") None None];
                          Children_Suffix := None |} |},
             at_ (runes "<!ELEMENT x (a |b)>") 19)
  /\ parseCPs_loop (ext := asciiExternals) 24 (parseCP 24) (ch "|") 24
       [mkCP (runes "a") None None] (at_ (runes "<!ELEMENT x (a | b)>") 14)
     = Some (Err (newErr [] (Msg "invalid letter for name") 16),
             at_ (runes "<!ELEMENT x (a | b)>") 16).
Proof.
  split; [ eexists; vm_compute; reflexivity | ].
  split; [ vm_compute; reflexivity | ].
  refine (@X13_particle_follows_separator asciiExternals 24 23 (ch "|")
            [mkCP (runes "a") None None]
            (at_ (runes "<!ELEMENT x (a | b)>") 14)
            (at_ (runes "<!ELEMENT x (a | b)>") 15) _ _ _ _ _).
  - lia.
  - vm_compute; reflexivity.
  - vm_compute; reflexivity.
  - vm_compute; reflexivity.
  - vm_compute; reflexivity.
Defined.

(** ** Text up to a closing mark (X14, X15) *)

Lemma firstn_app_firstn {A} n (s t : list A) :
  firstn n (s ++ firstn n t) = firstn n (s ++ t).
Proof.
  rewrite !firstn_app, firstn_firstn.
  rewrite (Nat.min_l (n - length s) n); [ reflexivity | ].
  apply Nat.le_sub_l.
Qed.

(** [Tests] looks at the rest of the source only. *)
Lemma Tests_startsWith s p :
  s <> [] -> Tests s p = startsWith s (skipn (cursor p) (source p)).
Proof.
  intros N. assert (0 < length s) by (destruct s; simpl; [ easy | lia ]).
  unfold Tests, startsWith.
  replace (cursor p + length s - cursor p) with (length s) by lia.
  destruct (length (source p) <? cursor p + length s) eqn:E;
    [ | reflexivity ].
  apply Nat.ltb_lt in E. symmetry.
  destruct (runes_eqb (firstn (length s) (skipn (cursor p) (source p))) s)
    eqn:R; [ | reflexivity ].
  apply runes_eqb_eq in R. apply (f_equal (@length _)) in R.
  rewrite length_firstn, length_skipn in R. apply Nat.min_l_iff in R. lia.
Qed.

Lemma startsWith_app sub rest : startsWith sub (sub ++ rest) = true.
Proof.
  unfold startsWith. rewrite firstn_app, firstn_all, Nat.sub_diag. simpl.
  rewrite app_nil_r. apply runes_eqb_refl.
Qed.

(** A mark that does not occur in the text followed by what a match could
    still need of the tail does not stand at the head of the text. *)
Lemma occurs_head sub a s tail :
  occurs sub ((a :: s) ++ firstn (length sub - 1) tail) = false ->
  startsWith sub (a :: s ++ tail) = false
  /\ occurs sub (s ++ firstn (length sub - 1) tail) = false.
Proof.
  simpl. intros H. apply orb_false_iff in H. destruct H as [H1 H2].
  split; [ | exact H2 ].
  unfold startsWith in *. destruct (length sub) as [|n]; [ exact H1 | ].
  simpl in *. replace (n - 0) with n in H1 by lia.
  now rewrite firstn_app_firstn in H1.
Qed.

Section Marks.

Context {ext : Externals}.

(** The loop of parseComment runs over text that holds no [--]. *)
Lemma parseComment_loop_scan s : forall k acc p tail,
  skipn (cursor p) (source p) = s ++ tail ->
  occurs (runes "--") (s ++ firstn 1 tail) = false ->
  forallb isChar s = true ->
  parseComment_loop (length s + k) acc p
  = parseComment_loop k (acc ++ flat_map string_of_rune s)
      (stepped (length s) p).
Proof.
  induction s as [|a s IH]; intros k acc p tail Hs Ho Hc.
  - simpl. rewrite app_nil_r. f_equal. destruct p; unfold stepped; simpl.
    f_equal. lia.
  - apply (@occurs_head (runes "--")) in Ho. destruct Ho as [Hh Ho].
    simpl in Hc. apply andb_true_iff in Hc. destruct Hc as [Ha Hc].
    simpl app in Hs. destruct (at_head _ Hs) as (G & _ & S').
    simpl length. simpl Nat.add. simpl parseComment_loop.
    unfold branch at 1. rewrite Tests_startsWith, Hs, Hh by discriminate. simpl negb.
    cbv iota. unfold bind at 1, look at 1, ret at 1. rewrite G, Ha.
    unfold bind at 1, Step at 1, StepN at 1, ret at 1. fold (stepped 1 p).
    rewrite (IH k (acc ++ string_of_rune a) (stepped 1 p) tail S' Ho Hc).
    rewrite stepped_stepped. rewrite <- app_assoc. reflexivity.
Qed.

(** The loop of parseCDSect runs over text that holds no []]>]. *)
Lemma parseCDSect_loop_scan s : forall k acc p tail,
  skipn (cursor p) (source p) = s ++ tail ->
  occurs (runes "]]>") (s ++ firstn 2 tail) = false ->
  parseCDSect_loop (length s + k) acc p
  = parseCDSect_loop k (acc ++ flat_map string_of_rune s)
      (stepped (length s) p).
Proof.
  induction s as [|a s IH]; intros k acc p tail Hs Ho.
  - simpl. rewrite app_nil_r. f_equal. destruct p; unfold stepped; simpl.
    f_equal. lia.
  - apply (@occurs_head (runes "]]>")) in Ho. destruct Ho as [Hh Ho].
    simpl app in Hs. destruct (at_head _ Hs) as (G & E & S').
    simpl length. simpl Nat.add. simpl parseCDSect_loop.
    unfold branch at 1. rewrite Tests_startsWith, Hs, Hh by discriminate. simpl negb.
    cbv iota. unfold branch at 1. rewrite E.
    unfold bind at 1, look at 1, ret at 1. rewrite G.
    unfold bind at 1, Step at 1, StepN at 1, ret at 1. fold (stepped 1 p).
    rewrite (IH k (acc ++ string_of_rune a) (stepped 1 p) tail S' Ho).
    rewrite stepped_stepped. rewrite <- app_assoc. reflexivity.
Qed.

(** A literal that stands at the cursor is matched and stepped over. *)
Lemma Musts_at s rest p :
  s <> [] ->
  skipn (cursor p) (source p) = s ++ rest ->
  Musts s p = Some (Ok tt, stepped (len s) p).
Proof.
  intros N H. unfold Musts, branch.
  rewrite Tests_startsWith, H, startsWith_app by exact N. reflexivity.
Qed.

Lemma Musts_not_at s p :
  s <> [] ->
  startsWith s (skipn (cursor p) (source p)) = false ->
  Musts s p = Some (Err (newErr (parsing p) (ExpectedStr s) (cursor p)), p).
Proof.
  intros N H. unfold Musts, branch.
  rewrite Tests_startsWith, H by exact N. reflexivity.
Qed.

Lemma skipn_stepped (a b : gostring) p :
  skipn (cursor p) (source p) = a ++ b ->
  skipn (cursor (stepped (length a) p)) (source (stepped (length a) p)) = b.
Proof.
  intros H. simpl. rewrite Nat.add_comm, <- skipn_skipn, H.
  rewrite skipn_app, skipn_all, Nat.sub_diag. reflexivity.
Qed.

Lemma parseComment_body_closed fuel s rest p :
  skipn (cursor p) (source p) = runes "<!--" ++ s ++ runes "-->" ++ rest ->
  occurs (runes "--") (s ++ runes "-") = false ->
  forallb isChar s = true ->
  length s < fuel ->
  (Musts (runes "<!--") ;;
   str <- parseComment_loop fuel [] ;;
   Musts (runes "-->") ;;
   ret str)%parser p
  = Some (Ok (flat_map string_of_rune s), stepped (length s + 7) p).
Proof.
  intros H Ho Hc Hf.
  erewrite bind_Ok by (eapply Musts_at; [ discriminate | exact H ]).
  apply (skipn_stepped (runes "<!--")) in H.
  change (length (runes "<!--")) with (len (runes "<!--")) in H.
  set (p1 := stepped (len (runes "<!--")) p) in *.
  replace fuel with (length s + S (fuel - length s - 1)) by lia.
  unfold bind at 1.
  rewrite (@parseComment_loop_scan s _ [] p1 _ H Ho Hc).
  apply skipn_stepped in H.
  set (p2 := stepped (length s) p1) in *.
  simpl parseComment_loop. unfold branch at 1.
  rewrite Tests_startsWith, H by discriminate.
  change (startsWith (runes "--") (runes "-->" ++ rest)) with true.
  simpl negb. cbv iota. unfold ret at 1.
  erewrite bind_Ok by (eapply (@Musts_at (runes "-->")); [ discriminate | exact H ]).
  unfold ret, p2, p1. rewrite !stepped_stepped. do 3 f_equal.
  change (len (runes "<!--")) with 4. change (len (runes "-->")) with 3. lia.
Qed.

Lemma parseComment_body_open fuel s rest p :
  skipn (cursor p) (source p) = runes "<!--" ++ s ++ runes "--" ++ rest ->
  occurs (runes "--") (s ++ runes "-") = false ->
  forallb isChar s = true ->
  length s < fuel ->
  startsWith (runes ">") rest = false ->
  (Musts (runes "<!--") ;;
   str <- parseComment_loop fuel [] ;;
   Musts (runes "-->") ;;
   ret str)%parser p
  = Some (Err (newErr (parsing p) (ExpectedStr (runes "-->"))
                 (cursor p + 4 + length s)), stepped (4 + length s) p).
Proof.
  intros H Ho Hc Hf Hr.
  erewrite bind_Ok by (eapply Musts_at; [ discriminate | exact H ]).
  apply (skipn_stepped (runes "<!--")) in H.
  change (length (runes "<!--")) with (len (runes "<!--")) in H.
  set (p1 := stepped (len (runes "<!--")) p) in *.
  replace fuel with (length s + S (fuel - length s - 1)) by lia.
  unfold bind at 1.
  rewrite (@parseComment_loop_scan s _ [] p1 _ H Ho Hc).
  apply skipn_stepped in H.
  set (p2 := stepped (length s) p1) in *.
  simpl parseComment_loop. unfold branch at 1.
  rewrite Tests_startsWith, H by discriminate.
  change (startsWith (runes "--") (runes "--" ++ rest)) with true.
  simpl negb. cbv iota. unfold ret at 1.
  erewrite bind_Err; [ reflexivity | ].
  rewrite Musts_not_at; [ | discriminate | ].
  - unfold p2, p1. rewrite !stepped_stepped.
    change (len (runes "<!--")) with 4. simpl cursor. simpl parsing.
    replace (cursor p + 4 + length s) with (cursor p + (4 + length s))
      by lia.
    reflexivity.
  - rewrite H. destruct rest as [|x rest]; [ reflexivity | ].
    unfold startsWith in *. simpl in *.
    exact Hr.
Qed.

Lemma parseComment_body_unclosed fuel s p :
  skipn (cursor p) (source p) = runes "<!--" ++ s ->
  occurs (runes "--") s = false ->
  forallb isChar s = true ->
  length s < fuel ->
  isChar EOF = false ->
  (Musts (runes "<!--") ;;
   str <- parseComment_loop fuel [] ;;
   Musts (runes "-->") ;;
   ret str)%parser p
  = Some (Err (newErr (parsing p) (Msg "unexpected character")
                 (cursor p + 4 + length s)), stepped (4 + length s) p).
Proof.
  intros H Ho Hc Hf He.
  erewrite bind_Ok by (eapply Musts_at; [ discriminate | exact H ]).
  apply (skipn_stepped (runes "<!--")) in H.
  change (length (runes "<!--")) with (len (runes "<!--")) in H.
  set (p1 := stepped (len (runes "<!--")) p) in *.
  replace fuel with (length s + S (fuel - length s - 1)) by lia.
  rewrite <- (app_nil_r s) in H, Ho.
  unfold bind at 1.
  rewrite (@parseComment_loop_scan s _ [] p1 [] H Ho Hc).
  apply skipn_stepped in H.
  set (p2 := stepped (length s) p1) in *.
  simpl parseComment_loop. unfold branch at 1.
  rewrite Tests_startsWith, H by discriminate.
  change (startsWith (runes "--") []) with false.
  simpl negb. cbv iota.
  destruct (at_none _ H) as [G _].
  unfold bind at 1, look at 1, ret at 1. rewrite G, He.
  unfold error. unfold p2, p1. rewrite !stepped_stepped.
  change (len (runes "<!--")) with 4. simpl cursor. simpl parsing.
  replace (cursor p + 4 + length s) with (cursor p + (4 + length s)) by lia.
  reflexivity.
Qed.

Lemma parseCDSect_closed fuel s rest p :
  skipn (cursor p) (source p)
  = runes "<![CDATA[" ++ s ++ runes "]]>" ++ rest ->
  occurs (runes "]]>") (s ++ runes "]]") = false ->
  length s < fuel ->
  parseCDSect fuel p
  = Some (Ok (flat_map string_of_rune s), stepped (length s + 12) p).
Proof.
  intros H Ho Hf. unfold parseCDSect.
  erewrite bind_Ok by (eapply Musts_at; [ discriminate | exact H ]).
  apply (skipn_stepped (runes "<![CDATA[")) in H.
  change (length (runes "<![CDATA[")) with (len (runes "<![CDATA[")) in H.
  set (p1 := stepped (len (runes "<![CDATA[")) p) in *.
  replace fuel with (length s + S (fuel - length s - 1)) by lia.
  unfold bind at 1.
  rewrite (@parseCDSect_loop_scan s _ [] p1 _ H Ho).
  apply skipn_stepped in H.
  set (p2 := stepped (length s) p1) in *.
  simpl parseCDSect_loop. unfold branch at 1.
  rewrite Tests_startsWith, H by discriminate.
  change (startsWith (runes "]]>") (runes "]]>" ++ rest)) with true.
  simpl negb. cbv iota. unfold ret at 1.
  unfold bind, StepN, ret, p2, p1, stepped. simpl. do 3 f_equal.
  change (len (runes "<![CDATA[")) with 9. change (len (runes "]]>")) with 3.
  lia.
Qed.

Lemma parseCDSect_unclosed fuel s p :
  skipn (cursor p) (source p) = runes "<![CDATA[" ++ s ->
  occurs (runes "]]>") s = false ->
  length s < fuel ->
  parseCDSect fuel p
  = Some (Err (newErr (parsing p) (Msg "not found CDSect close tag")
                 (cursor p + 9 + length s)), stepped (9 + length s) p).
Proof.
  intros H Ho Hf. unfold parseCDSect.
  erewrite bind_Ok by (eapply Musts_at; [ discriminate | exact H ]).
  apply (skipn_stepped (runes "<![CDATA[")) in H.
  change (length (runes "<![CDATA[")) with (len (runes "<![CDATA[")) in H.
  set (p1 := stepped (len (runes "<![CDATA[")) p) in *.
  replace fuel with (length s + S (fuel - length s - 1)) by lia.
  rewrite <- (app_nil_r s) in H, Ho.
  unfold bind at 1.
  rewrite (@parseCDSect_loop_scan s _ [] p1 [] H Ho).
  apply skipn_stepped in H.
  set (p2 := stepped (length s) p1) in *.
  simpl parseCDSect_loop. unfold branch at 1.
  rewrite Tests_startsWith, H by discriminate.
  change (startsWith (runes "]]>") []) with false.
  simpl negb. cbv iota.
  destruct (at_none _ H) as [_ E].
  unfold branch at 1. rewrite E.
  unfold error. unfold p2, p1. rewrite !stepped_stepped.
  change (len (runes "<![CDATA[")) with 9. simpl cursor. simpl parsing.
  replace (cursor p + 9 + length s) with (cursor p + (9 + length s)) by lia.
  reflexivity.
Qed.

End Marks.

(** X14: parseComment returns the text between [<!--] and the first [--],
    which must open [-->]: a comment whose text holds characters only, no
    double hyphen and no hyphen at its end is returned as it stands, and the
    cursor ends just after [-->].  When the first [--] is not followed by
    [>] the comment is rejected there with [expected "-->"]; when the input
    ends before any [--] it is rejected at the end with [unexpected
    character] (given a sentinel that is no character).  Errors carry the
    label Comment. *)
Theorem X14_comment_is_text_to_first_double_hyphen {ext : Externals}
  (fuel : nat) (p : parser) (s rest : gostring)
  (Hchars : forallb isChar s = true) (Hfuel : length s < fuel) :
  (skipn (cursor p) (source p) = runes "<!--" ++ s ++ runes "-->" ++ rest ->
   occurs (runes "--") (s ++ runes "-") = false ->
   parseComment fuel p
   = Some (Ok (flat_map string_of_rune s), stepped (length s + 7) p))
  /\ (skipn (cursor p) (source p) = runes "<!--" ++ s ++ runes "--" ++ rest ->
      occurs (runes "--") (s ++ runes "-") = false ->
      startsWith (runes ">") rest = false ->
      parseComment fuel p
      = Some (Err (newErr (runes "Comment") (ExpectedStr (runes "-->"))
                     (cursor p + 4 + length s)), stepped (4 + length s) p))
  /\ (skipn (cursor p) (source p) = runes "<!--" ++ s ->
      occurs (runes "--") s = false ->
      isChar EOF = false ->
      parseComment fuel p
      = Some (Err (newErr (runes "Comment") (Msg "unexpected character")
                     (cursor p + 4 + length s)), stepped (4 + length s) p)).
Proof.
  split; [ | split ].
  - intros H Ho. unfold parseComment, withParsing.
    rewrite (@parseComment_body_closed _ fuel s rest
               {| source := source p; cursor := cursor p;
                  parsing := runes "Comment" |} H Ho Hchars Hfuel).
    reflexivity.
  - intros H Ho Hr. unfold parseComment, withParsing.
    rewrite (@parseComment_body_open _ fuel s rest
               {| source := source p; cursor := cursor p;
                  parsing := runes "Comment" |} H Ho Hchars Hfuel Hr).
    reflexivity.
  - intros H Ho He. unfold parseComment, withParsing.
    rewrite (@parseComment_body_unclosed _ fuel s
               {| source := source p; cursor := cursor p;
                  parsing := runes "Comment" |} H Ho Hchars Hfuel He).
    reflexivity.
Qed.

Lemma X14_comment_witness :
  parseComment (ext := asciiExternals) 8
    (at_ (runes "a<!-- b-c -->d") 1)
  = Some (Ok (runes " b-c "), at_ (runes "a<!-- b-c -->d") 13)
  /\ parseComment (ext := asciiExternals) 8 (NewParser (runes "<!-- a--b -->"))
     = Some (Err (newErr (runes "Comment") (ExpectedStr (runes "-->")) 6),
             at_ (runes "<!-- a--b -->") 6)
  /\ parseComment (ext := asciiExternals) 8 (NewParser (runes "<!-- a --->"))
     = Some (Err (newErr (runes "Comment") (ExpectedStr (runes "-->")) 7),
             at_ (runes "<!-- a --->") 7)
  /\ parseComment (ext := asciiExternals) 8 (NewParser (runes "<!-- a-"))
     = Some (Err (newErr (runes "Comment") (Msg "unexpected character") 7),
             at_ (runes "<!-- a-") 7).
Proof.
  split; [ | split; [ | split ] ].
  - refine (proj1 (@X14_comment_is_text_to_first_double_hyphen
                     asciiExternals 8 (at_ (runes "a<!-- b-c -->d") 1)
                     (runes " b-c ") (runes "d") _ _) _ _).
    + vm_compute; reflexivity.
    + vm_compute; lia.
    + reflexivity.
    + vm_compute; reflexivity.
  - refine (proj1 (proj2 (@X14_comment_is_text_to_first_double_hyphen
                            asciiExternals 8
                            (NewParser (runes "<!-- a--b -->"))
                            (runes " a") (runes "b -->") _ _)) _ _ _).
    + vm_compute; reflexivity.
    + vm_compute; lia.
    + reflexivity.
    + vm_compute; reflexivity.
    + vm_compute; reflexivity.
  - refine (proj1 (proj2 (@X14_comment_is_text_to_first_double_hyphen
                            asciiExternals 8
                            (NewParser (runes "<!-- a --->"))
                            (runes " a ") (runes "->") _ _)) _ _ _).
    + vm_compute; reflexivity.
    + vm_compute; lia.
    + reflexivity.
    + vm_compute; reflexivity.
    + vm_compute; reflexivity.
  - refine (proj2 (proj2 (@X14_comment_is_text_to_first_double_hyphen
                            asciiExternals 8
                            (NewParser (runes "<!-- a-"))
                            (runes " a-") [] _ _)) _ _ _).
    + vm_compute; reflexivity.
    + vm_compute; lia.
    + reflexivity.
    + vm_compute; reflexivity.
    + vm_compute; reflexivity.
Defined.

(** X15: parseCDSect returns the text between [<![CDATA[] and the first
    []]>], whatever runes it holds, and ends just after the []]>].  When
    the input ends before any []]>] it fails at the end of the input with
    [not found CDSect close tag], under the label of its caller. *)
Theorem X15_cdata_is_text_to_first_close {ext : Externals}
  (fuel : nat) (p : parser) (s rest : gostring)
  (Hfuel : length s < fuel) :
  (skipn (cursor p) (source p)
   = runes "<![CDATA[" ++ s ++ runes "]]>" ++ rest ->
   occurs (runes "]]>") (s ++ runes "]]") = false ->
   parseCDSect fuel p
   = Some (Ok (flat_map string_of_rune s), stepped (length s + 12) p))
  /\ (skipn (cursor p) (source p) = runes "<![CDATA[" ++ s ->
      occurs (runes "]]>") s = false ->
      parseCDSect fuel p
      = Some (Err (newErr (parsing p) (Msg "not found CDSect close tag")
                     (cursor p + 9 + length s)), stepped (9 + length s) p)).
Proof.
  split.
  - intros H Ho. now apply parseCDSect_closed with (rest := rest).
  - intros H Ho. now apply parseCDSect_unclosed.
Qed.

Lemma X15_cdata_witness :
  parseCDSect (ext := asciiExternals) 8
    (NewParser (runes "<![CDATA[<a>]]]]>x"))
  = Some (Ok (runes "<a>]]"), at_ (runes "<![CDATA[<a>]]]]>x") 17)
  /\ parseCDSect (ext := asciiExternals) 8 (NewParser (runes "<![CDATA[a]]"))
     = Some (Err (newErr [] (Msg "not found CDSect close tag") 12),
             at_ (runes "<![CDATA[a]]") 12).
Proof.
  split.
  - refine (proj1 (@X15_cdata_is_text_to_first_close
                     asciiExternals 8
                     (NewParser (runes "<![CDATA[<a>]]]]>x"))
                     (runes "<a>]]") (runes "x") _) _ _).
    + vm_compute; lia.
    + reflexivity.
    + vm_compute; reflexivity.
  - refine (proj2 (@X15_cdata_is_text_to_first_close
                     asciiExternals 8 (NewParser (runes "<![CDATA[a]]"))
                     (runes "a]]") [] _) _ _).
    + vm_compute; lia.
    + reflexivity.
    + vm_compute; reflexivity.
Defined.

(** ** The declarations of a document type (X16) *)

Lemma cp_ok_eq name group suffix :
  cp_ok (mkCP name group suffix)
  <-> suffix_ok suffix
      /\ match group with
         | None => name <> []
         | Some g => name = [] /\ group_ok g
         end.
Proof.
  assert (E : forall l,
             (fix all (l : list CP) : Prop :=
                match l with
                | [] => True
                | x :: t => cp_ok x /\ all t
                end) l <-> Forall cp_ok l).
  { induction l as [|c l IH].
    - split; [ constructor | exact (fun _ => I) ].
    - split.
      + intros [Hc Hl]. constructor; [ exact Hc | now apply IH ].
      + intros H. inversion H; subst. split; [ assumption | now apply IH ]. }
  simpl. destruct group as [[cps|cps]|]; simpl; rewrite ?E; reflexivity.
Qed.

Lemma Forall_snoc {A} (P : A -> Prop) l x :
  Forall P l -> P x -> Forall P (l ++ [x]).
Proof.
  intros Hl Hx. apply Forall_app. split; [ exact Hl | ].
  constructor; [ exact Hx | constructor ].
Qed.

Lemma names_ok_snoc l x : names_ok l -> x <> [] -> names_ok (l ++ [x]).
Proof.
  intros [N F] Hx. split; [ destruct l; discriminate | ].
  now apply Forall_snoc.
Qed.

Section Declarations.

Context {ext : Externals}.
Variable fuel : nat.

Lemma yields_parseSuffix : yields parseSuffix suffix_ok.
Proof.
  intros p s p' E. unfold parseSuffix, branch in E.
  destruct (Test (ch "?") p || Test (ch "*") p || Test (ch "+") p) eqn:C.
  - unfold bind, look, Step, StepN, ret in E. inversion E; subst.
    unfold Test in C. simpl.
    apply orb_true_iff in C. destruct C as [C|C];
      [ apply orb_true_iff in C; destruct C as [C|C] | ];
      apply Z.eqb_eq in C; rewrite C; auto.
  - inversion E; subst. exact I.
Qed.

Lemma yields_parseCPs_loop (pc : M CP) sep k cps :
  yields pc cp_ok -> cps <> [] -> Forall cp_ok cps ->
  yields (parseCPs_loop fuel pc sep k cps) (fun l => l <> [] /\ Forall cp_ok l).
Proof.
  intros Hpc. revert cps. induction k as [|k IH]; intros cps N F; simpl.
  - apply yields_None.
  - apply yields_bind; intros _.
    apply yields_branch; [ now apply yields_ret | ].
    apply yields_bind; intros _.
    apply yields_bind_with with (P := cp_ok); [ exact Hpc | intros c Hc ].
    apply IH; [ destruct cps; discriminate | now apply Forall_snoc ].
Qed.

Lemma yields_parseChoiceWith (pc : M CP) :
  yields pc cp_ok -> yields (parseChoiceWith fuel pc) group_ok.
Proof.
  intros Hpc. unfold parseChoiceWith.
  apply yields_bind; intros _. apply yields_bind; intros _.
  apply yields_bind_with with (P := cp_ok); [ exact Hpc | intros c Hc ].
  apply yields_bind_with
    with (P := fun l => l <> [] /\ Forall cp_ok l);
    [ apply yields_parseCPs_loop; auto; discriminate | intros l Hl ].
  apply yields_bind; intros _. now apply yields_ret.
Qed.

Lemma yields_parseSeqWith (pc : M CP) :
  yields pc cp_ok -> yields (parseSeqWith fuel pc) group_ok.
Proof.
  intros Hpc. unfold parseSeqWith.
  apply yields_bind; intros _. apply yields_bind; intros _.
  apply yields_bind_with with (P := cp_ok); [ exact Hpc | intros c Hc ].
  apply yields_bind_with
    with (P := fun l => l <> [] /\ Forall cp_ok l);
    [ apply yields_parseCPs_loop; auto; discriminate | intros l Hl ].
  apply yields_bind; intros _. now apply yields_ret.
Qed.

Lemma yields_parseCP_rec depth : yields (parseCP_rec fuel depth) cp_ok.
Proof.
  induction depth as [|d IH]; simpl; [ apply yields_None | ].
  apply yields_bind_with
    with (P := fun x => match snd x with
                        | None => fst x <> []
                        | Some g => fst x = [] /\ group_ok g
                        end).
  - apply yields_branch.
    + apply yields_bind; intros cur.
      apply yields_bind_with
        with (P := fun r => match r with
                            | Ok g => group_ok g
                            | Err _ => True
                            end);
        [ apply yields_try, yields_parseChoiceWith, IH | intros [g|e] Hg ].
      * apply yields_ret. simpl. auto.
      * apply yields_bind; intros _.
        apply yields_bind_with with (P := group_ok);
          [ apply yields_parseSeqWith, IH | intros g Hg' ].
        apply yields_ret. simpl. auto.
    + apply yields_bind_with with (P := fun n => n <> []);
        [ apply yields_parseName | intros n Hn ].
      now apply yields_ret.
  - intros [n g] Hx. simpl in Hx.
    apply yields_bind_with with (P := suffix_ok);
      [ apply yields_parseSuffix | intros s Hs ].
    apply yields_ret. apply cp_ok_eq. simpl. auto.
Qed.

Lemma yields_parseChildren :
  yields (parseChildren fuel)
    (fun c => group_ok (Children_ChoiceSeq c)
              /\ suffix_ok (Children_Suffix c)).
Proof.
  unfold parseChildren. apply yields_bind; intros cur.
  apply yields_bind_with
    with (P := fun r => match r with
                        | Ok g => group_ok g
                        | Err _ => True
                        end);
    [ apply yields_try, yields_parseChoiceWith, yields_parseCP_rec
    | intros [g|e] Hg ].
  - apply yields_bind_with with (P := suffix_ok);
      [ apply yields_parseSuffix | intros s Hs ].
    apply yields_ret. simpl. auto.
  - apply yields_bind; intros _.
    apply yields_bind_with
      with (P := fun r => match r with
                          | Ok g => group_ok g
                          | Err _ => True
                          end);
      [ apply yields_try, yields_parseSeqWith, yields_parseCP_rec
      | intros [g|e'] Hg' ].
    + apply yields_bind_with with (P := suffix_ok);
        [ apply yields_parseSuffix | intros s Hs ].
      apply yields_ret. simpl. auto.
    + apply yields_error.
Qed.

Lemma yields_parseMixed_loop k names :
  Forall (fun n => n <> []) names ->
  yields (parseMixed_loop fuel k names) (Forall (fun n => n <> [])).
Proof.
  revert names. induction k as [|k IH]; intros names F; simpl.
  - apply yields_None.
  - apply yields_bind; intros _.
    apply yields_branch;
      [ apply yields_bind; intros _; now apply yields_ret | ].
    apply yields_branch; [ apply yields_error | ].
    apply yields_bind; intros _. apply yields_bind; intros _.
    apply yields_bind_with with (P := fun n => n <> []);
      [ apply yields_parseName | intros n Hn ].
    apply IH. now apply Forall_snoc.
Qed.

Lemma yields_parseContentSpec : yields (parseContentSpec fuel) contentSpec_ok.
Proof.
  unfold parseContentSpec.
  apply yields_branch;
    [ apply yields_bind; intros _; now apply yields_ret | ].
  apply yields_branch;
    [ apply yields_bind; intros _; now apply yields_ret | ].
  apply yields_bind; intros cur.
  apply yields_bind_with
    with (P := fun r => match r with
                        | Ok m => Forall (fun n => n <> []) (Mixed_Names m)
                        | Err _ => True
                        end).
  - apply yields_try. unfold parseMixed.
    apply yields_bind; intros _. apply yields_bind; intros _.
    apply yields_bind; intros _.
    apply yields_bind_with with (P := Forall (fun n => n <> []));
      [ apply yields_parseMixed_loop; constructor | intros l Hl ].
    apply yields_bind; intros _. now apply yields_ret.
  - intros [m|e] Hm; [ now apply yields_ret | ].
    apply yields_bind; intros _.
    apply yields_bind_with
      with (P := fun c => group_ok (Children_ChoiceSeq c)
                          /\ suffix_ok (Children_Suffix c));
      [ apply yields_parseChildren | intros c Hc ].
    now apply yields_ret.
Qed.

Lemma yields_parseElementDecl :
  yields (parseElementDecl fuel)
    (fun e => markup_ok (MarkupElementDecl e)).
Proof.
  unfold parseElementDecl. apply yields_withParsing.
  apply yields_bind; intros _. apply yields_bind; intros _.
  apply yields_bind_with with (P := fun n => n <> []);
    [ apply yields_parseName | intros n Hn ].
  apply yields_bind; intros _.
  apply yields_bind_with with (P := contentSpec_ok);
    [ apply yields_parseContentSpec | intros c Hc ].
  apply yields_bind; intros _. apply yields_bind; intros _.
  apply yields_ret. simpl. auto.
Qed.

Lemma yields_parseNmtoken : yields (parseNmtoken fuel) (fun n => n <> []).
Proof.
  unfold parseNmtoken. apply yields_bind; intros r.
  apply yields_bind; intros str.
  destruct str as [|x str]; [ apply yields_error | ].
  destruct (len (x :: str) =? 0); [ apply yields_error | ].
  now apply yields_ret.
Qed.

Lemma yields_parseBarList_loop (item : M gostring) k acc :
  yields item (fun n => n <> []) -> names_ok acc ->
  yields (parseBarList_loop fuel item k acc) names_ok.
Proof.
  intros Hi. revert acc. induction k as [|k IH]; intros acc Ha; simpl.
  - apply yields_None.
  - apply yields_bind; intros cur. apply yields_bind; intros _.
    apply yields_branch;
      [ apply yields_bind; intros _; now apply yields_ret | ].
    apply yields_branch; [ apply yields_error | ].
    apply yields_bind; intros _. apply yields_bind; intros _.
    apply yields_bind; intros _. apply yields_bind; intros _.
    apply yields_bind_with with (P := fun n => n <> []);
      [ exact Hi | intros n Hn ].
    apply IH. now apply names_ok_snoc.
Qed.

Lemma names_ok_one n : n <> [] -> names_ok [n].
Proof.
  intros H. split; [ discriminate | constructor; [ exact H | constructor ] ].
Qed.

Lemma yields_parseAttType : yields (parseAttType fuel) attType_ok.
Proof.
  unfold parseAttType.
  apply yields_branch;
    [ apply yields_bind; intros _; now apply yields_ret | ].
  apply yields_branch;
    [ apply yields_bind; intros t; apply yields_bind; intros _;
      now apply yields_ret | ].
  apply yields_branch; [ | apply yields_branch; [ | apply yields_error ] ].
  - apply yields_bind_with
      with (P := fun n => names_ok (NotationType_Names n));
      [ | intros n Hn; now apply yields_ret ].
    unfold parseNotationType.
    apply yields_bind; intros _. apply yields_bind; intros _.
    apply yields_bind; intros _. apply yields_bind; intros _.
    apply yields_bind_with with (P := fun n => n <> []);
      [ apply yields_parseName | intros n Hn ].
    apply yields_bind_with with (P := names_ok);
      [ apply yields_parseBarList_loop;
        [ apply yields_parseName | now apply names_ok_one ]
      | intros l Hl; now apply yields_ret ].
  - apply yields_bind_with with (P := fun e => names_ok (Enum_Cases e));
      [ | intros e He; now apply yields_ret ].
    unfold parseEnum.
    apply yields_bind; intros _. apply yields_bind; intros _.
    apply yields_bind_with with (P := fun n => n <> []);
      [ apply yields_parseNmtoken | intros n Hn ].
    apply yields_bind_with with (P := names_ok);
      [ apply yields_parseBarList_loop;
        [ apply yields_parseNmtoken | now apply names_ok_one ]
      | intros l Hl; now apply yields_ret ].
Qed.

Lemma yields_parseDefaultDecl : yields (parseDefaultDecl fuel) defaultDecl_ok.
Proof.
  unfold parseDefaultDecl.
  apply yields_branch;
    [ apply yields_bind; intros _; apply yields_ret; intros _; reflexivity | ].
  apply yields_branch;
    [ apply yields_bind; intros _; apply yields_ret; intros _; reflexivity | ].
  apply yields_bind; intros _. apply yields_bind; intros v.
  apply yields_ret. intros N. now contradiction N.
Qed.

Lemma yields_parseAttDef : yields (parseAttDef fuel) attDef_ok.
Proof.
  unfold parseAttDef. apply yields_bind; intros _.
  apply yields_bind_with with (P := fun n => n <> []);
    [ apply yields_parseName | intros n Hn ].
  apply yields_bind; intros _.
  apply yields_bind_with with (P := attType_ok);
    [ apply yields_parseAttType | intros t Ht ].
  apply yields_bind; intros _.
  apply yields_bind_with with (P := defaultDecl_ok);
    [ apply yields_parseDefaultDecl | intros d Hd ].
  apply yields_ret. unfold attDef_ok. simpl. auto.
Qed.

Lemma yields_parseAttlist_loop k defs :
  Forall attDef_ok defs ->
  yields (parseAttlist_loop fuel k defs) (Forall attDef_ok).
Proof.
  revert defs. induction k as [|k IH]; intros defs F; simpl.
  - apply yields_None.
  - apply yields_bind; intros cur. apply yields_bind; intros _.
    apply yields_branch;
      [ apply yields_bind; intros _; now apply yields_ret | ].
    apply yields_branch; [ apply yields_error | ].
    apply yields_bind; intros _.
    apply yields_bind_with with (P := attDef_ok);
      [ apply yields_parseAttDef | intros d Hd ].
    apply IH. now apply Forall_snoc.
Qed.

Lemma yields_parseAttlist :
  yields (parseAttlist fuel) (fun a => markup_ok (MarkupAttlist a)).
Proof.
  unfold parseAttlist. apply yields_withParsing.
  apply yields_bind; intros _. apply yields_bind; intros _.
  apply yields_bind_with with (P := fun n => n <> []);
    [ apply yields_parseName | intros n Hn ].
  apply yields_bind_with with (P := Forall attDef_ok);
    [ apply yields_parseAttlist_loop; constructor | intros l Hl ].
  apply yields_ret. simpl. auto.
Qed.

Lemma yields_parseExternalID : yields (parseExternalID fuel) extID_ok.
Proof.
  unfold parseExternalID. apply yields_bind; intros t.
  apply yields_bind; intros _. destruct t.
  - apply yields_bind_with with (P := fun pubid => pubid = []);
      [ now apply yields_ret | intros pubid -> ].
    apply yields_bind; intros sys. apply yields_ret. intros _. reflexivity.
  - apply yields_bind; intros pubid. apply yields_bind; intros sys.
    apply yields_ret. intros N. discriminate.
Qed.

Lemma yields_parseEntityDef :
  yields (parseEntityDef fuel)
    (fun x => match snd (fst x) with
              | None => snd x = []
              | Some e => fst (fst x) = [] /\ extID_ok e
              end).
Proof.
  unfold parseEntityDef.
  apply yields_branch;
    [ apply yields_bind; intros v; now apply yields_ret | ].
  apply yields_branch; [ | apply yields_error ].
  apply yields_bind_with with (P := extID_ok);
    [ apply yields_parseExternalID | intros e He ].
  apply yields_bind; intros cur. apply yields_bind; intros [n|err].
  - apply yields_ret. simpl. auto.
  - apply yields_bind; intros _. apply yields_ret. simpl. auto.
Qed.

Lemma yields_parsePEDef :
  yields (parsePEDef fuel)
    (fun x => match snd x with
              | None => True
              | Some e => fst x = [] /\ extID_ok e
              end).
Proof.
  unfold parsePEDef.
  apply yields_branch;
    [ apply yields_bind; intros v; now apply yields_ret | ].
  apply yields_branch; [ | apply yields_error ].
  apply yields_bind_with with (P := extID_ok);
    [ apply yields_parseExternalID | intros e He ].
  apply yields_ret. simpl. auto.
Qed.

Lemma yields_parseEntity : yields (parseEntity fuel) entity_ok.
Proof.
  unfold parseEntity. apply yields_withParsing.
  apply yields_bind; intros _. apply yields_bind; intros _.
  apply yields_bind; intros t.
  apply yields_bind_with with (P := fun n => n <> []);
    [ apply yields_parseName | intros n Hn ].
  apply yields_bind; intros _.
  apply yields_bind_with
    with (P := fun x => match snd (fst x) with
                        | None => snd x = []
                        | Some e =>
                            fst (fst x) = [] /\ extID_ok e
                            /\ (t = EntityTypePE -> snd x = [])
                        end).
  - destruct t.
    + eapply yields_weaken; [ apply yields_parseEntityDef | ].
      intros [[v e] n'] H. simpl in *. destruct e as [e|]; [ | exact H ].
      destruct H as [H1 H2]. repeat split; auto. discriminate.
    + apply yields_bind_with
        with (P := fun x => match snd x with
                            | None => True
                            | Some e => fst x = [] /\ extID_ok e
                            end);
        [ apply yields_parsePEDef | intros [v e] H ].
      apply yields_ret. simpl in *. destruct e as [e|]; [ | reflexivity ].
      destruct H as [H1 H2]. repeat split; auto.
  - intros [[v e] n'] H. simpl in H.
    apply yields_bind; intros _. apply yields_bind; intros _.
    apply yields_ret. unfold entity_ok. simpl. split; [ exact Hn | exact H ].
Qed.

Lemma yields_parseNotation :
  yields (parseNotation fuel) (fun n => markup_ok (MarkupNotation n)).
Proof.
  unfold parseNotation. apply yields_withParsing.
  apply yields_bind; intros _. apply yields_bind; intros _.
  apply yields_bind_with with (P := fun n => n <> []);
    [ apply yields_parseName | intros n Hn ].
  apply yields_bind; intros _. apply yields_bind; intros t.
  apply yields_bind; intros _.
  apply yields_bind_with with (P := extID_ok).
  - destruct t.
    + apply yields_bind; intros sys. apply yields_ret. intros _. reflexivity.
    + apply yields_bind; intros pubid. apply yields_bind; intros cur.
      apply yields_bind; intros r. apply yields_bind; intros sys.
      apply yields_ret. intros N. discriminate.
  - intros e He. apply yields_bind; intros _. apply yields_bind; intros _.
    apply yields_ret. simpl. auto.
Qed.

Lemma yields_parseMarkup : yields (parseMarkup fuel) markup_ok.
Proof.
  unfold parseMarkup. apply yields_withParsing.
  apply yields_branch;
    [ eapply yields_bind_with;
      [ apply yields_parseElementDecl | intros m Hm; now apply yields_ret ]
    | ].
  apply yields_branch;
    [ eapply yields_bind_with;
      [ apply yields_parseAttlist | intros m Hm; now apply yields_ret ]
    | ].
  apply yields_branch;
    [ eapply yields_bind_with;
      [ apply yields_parseEntity | intros m Hm; now apply yields_ret ]
    | ].
  apply yields_branch;
    [ eapply yields_bind_with;
      [ apply yields_parseNotation | intros m Hm; now apply yields_ret ]
    | ].
  apply yields_branch;
    [ eapply yields_bind_with;
      [ apply yields_parsePI | intros m Hm; now apply yields_ret ]
    | ].
  apply yields_branch; [ | apply yields_error ].
  apply yields_bind; intros c. now apply yields_ret.
Qed.

Lemma yields_parseDoctype_loop k markups peRef :
  Forall markup_ok markups ->
  match peRef with None => True | Some r => PERef_Name r <> [] end ->
  yields (parseDoctype_loop fuel k markups peRef)
    (fun x => Forall markup_ok (fst x)
              /\ match snd x with
                 | None => True
                 | Some r => PERef_Name r <> []
                 end).
Proof.
  revert markups peRef. induction k as [|k IH]; intros markups peRef F R;
    simpl.
  - apply yields_None.
  - apply yields_branch; [ | apply yields_branch; [ | apply yields_branch ] ].
    + apply yields_bind_with with (P := markup_ok);
        [ apply yields_parseMarkup | intros m Hm ].
      apply IH; [ now apply Forall_snoc | exact R ].
    + apply yields_bind_with with (P := fun r => PERef_Name r <> []).
      * unfold parsePERef. apply yields_bind; intros _.
        apply yields_bind_with with (P := fun n => n <> []);
          [ apply yields_parseName | intros n Hn ].
        apply yields_bind; intros _. now apply yields_ret.
      * intros r Hr. apply IH; [ exact F | exact Hr ].
    + apply yields_bind; intros _. now apply IH.
    + apply yields_ret. simpl. auto.
Qed.

Lemma yields_parseDoctype : yields (parseDoctype fuel) doctype_ok.
Proof.
  unfold parseDoctype. apply yields_withParsing.
  apply yields_bind; intros _. apply yields_bind; intros _.
  apply yields_bind_with with (P := fun n => n <> []);
    [ apply yields_parseName | intros n Hn ].
  apply yields_bind; intros _.
  apply yields_bind_with
    with (P := fun e => match e with
                        | None => True
                        | Some x => extID_ok x
                        end).
  - apply yields_branch; [ | now apply yields_ret ].
    apply yields_bind_with with (P := extID_ok);
      [ apply yields_parseExternalID | intros e He ].
    apply yields_bind; intros _. now apply yields_ret.
  - intros e He.
    apply yields_bind_with
      with (P := fun x => Forall markup_ok (fst x)
                          /\ match snd x with
                             | None => True
                             | Some r => PERef_Name r <> []
                             end).
    + apply yields_branch.
      * apply yields_bind; intros _.
        apply yields_bind_with
          with (P := fun x => Forall markup_ok (fst x)
                              /\ match snd x with
                                 | None => True
                                 | Some r => PERef_Name r <> []
                                 end);
          [ apply yields_parseDoctype_loop; [ constructor | exact I ]
          | intros x Hx ].
        apply yields_bind; intros _. now apply yields_ret.
      * apply yields_ret. simpl. split; [ constructor | exact I ].
    + intros [ms r] [Hm Hr]. simpl in *.
      apply yields_bind; intros _. apply yields_bind; intros _.
      apply yields_ret. unfold doctype_ok. simpl. auto.
Qed.

End Declarations.

(** X16: the declarations that parseMarkup and parseDoctype return are well
    formed as far as the parser builds them.  Every declared name is not
    empty; a content particle is a name or a group, never both, a group
    holds a particle at least, and an occurrence mark is one of [?], [*],
    [+]; the names of mixed content, of a NOTATION type and of an
    enumeration are not empty, and the latter two lists are not empty;
    [#REQUIRED] and [#IMPLIED] come without a value; a SYSTEM identifier
    has no public identifier; an entity has a value or an external
    identifier, never both, and a notation name only with an external
    identifier and never as a parameter entity.  The same holds of the
    document type in the prolog that parse returns. *)
Theorem X16_declarations_well_formed {ext : Externals} (fuel : nat)
  (p p' : parser) :
  (forall m, parseMarkup fuel p = Some (Ok m, p') -> markup_ok m)
  /\ (forall d, parseDoctype fuel p = Some (Ok d, p') -> doctype_ok d)
  /\ (forall x d, parse fuel p = Some (Ok x, p') ->
        Prolog_DOCType (XML_Prolog x) = Some d -> doctype_ok d)
  /\ (forall c, parseCP fuel p = Some (Ok c, p') -> cp_ok c)
  /\ (forall name group suffix,
        cp_ok (mkCP name group suffix)
        <-> suffix_ok suffix
            /\ match group with
               | None => name <> []
               | Some g => name = [] /\ group_ok g
               end).
Proof.
  split; [ | split; [ | split; [ | split ] ] ].
  - intros m H. eapply yields_parseMarkup. exact H.
  - intros d H. eapply yields_parseDoctype. exact H.
  - intros x d H D. unfold parse in H.
    bind_as H prolog q1 H1. bind_as H element q2 H2. bind_as H misc q3 H3.
    inversion H; subst. simpl in D. clear H H2 H3.
    unfold parseProlog in H1.
    bind_as H1 u q0 H0. bind_as H1 xd q4 H4. bind_as H1 m1 q5 H5.
    bind_as H1 y q6 H6. inversion H1; subst. simpl in D.
    unfold branch in H6. destruct (Tests (runes "<!DOCTYPE") q5).
    + bind_as H6 doc q7 H7. bind_as H6 m2 q8 H8. inversion H6; subst.
      simpl in D. inversion D; subst.
      eapply yields_parseDoctype. exact H7.
    + inversion H6; subst. discriminate.
  - intros c H. eapply yields_parseCP_rec. exact H.
  - intros. apply cp_ok_eq.
Qed.

Lemma X16_declarations_witness :
  parseMarkup (ext := asciiExternals) 24
    (NewParser (runes "<!ELEMENT x (a,(b|c)*)>"))
  = Some (Ok (MarkupElementDecl
                {| ElementDecl_Name := runes "x";
                   ElementDecl_ContentSpec :=
                     CSChildren
                       {| Children_ChoiceSeq :=
                            Seq [mkCP (runes "a") None None;
                                 mkCP []
                                   (Some (Choice
                                            [mkCP (runes "b") None None;
                                             mkCP (runes "c") None None]))
                                   (Some (ch "*"))];
                          Children_Suffix := None |} |}),
          at_ (runes "<!ELEMENT x (a,(b|c)*)>") 23)
  /\ markup_ok
       (MarkupElementDecl
          {| ElementDecl_Name := runes "x";
             ElementDecl_ContentSpec :=
               CSChildren
                 {| Children_ChoiceSeq :=
                      Seq [mkCP (runes "a") None None;
                           mkCP []
                             (Some (Choice
                                      [mkCP (runes "b") None None;
                                       mkCP (runes "c") None None]))
                             (Some (ch "*"))];
                    Children_Suffix := None |} |}).
Proof.
  assert (H : parseMarkup (ext := asciiExternals) 24
                (NewParser (runes "<!ELEMENT x (a,(b|c)*)>"))
              = Some (Ok (MarkupElementDecl
                {| ElementDecl_Name := runes "x";
                   ElementDecl_ContentSpec :=
                     CSChildren
                       {| Children_ChoiceSeq :=
                            Seq [mkCP (runes "a") None None;
                                 mkCP []
                                   (Some (Choice
                                            [mkCP (runes "b") None None;
                                             mkCP (runes "c") None None]))
                                   (Some (ch "*"))];
                          Children_Suffix := None |} |}),
          at_ (runes "<!ELEMENT x (a,(b|c)*)>") 23))
    by (vm_compute; reflexivity).
  split; [ exact H | ].
  exact (proj1 (@X16_declarations_well_formed asciiExternals 24 _ _) _ H).
Defined.

(** ** Attribute values without references (X17) *)

Section Values.

Context {ext : Externals}.

Lemma Test_head r p x t :
  skipn (cursor p) (source p) = x :: t -> Test r p = (x =? r)%Z.
Proof. intros H. destruct (at_head _ H) as (G & _). unfold Test. now rewrite G. Qed.

Lemma Test_end r p :
  skipn (cursor p) (source p) = [] -> Test r p = (EOF =? r)%Z.
Proof. intros H. destruct (at_none _ H) as (G & _). unfold Test. now rewrite G. Qed.

Lemma eqb_other (x r : rune) : x <> r -> (x =? r)%Z = false.
Proof. intros H. now apply Z.eqb_neq. Qed.

(** The loop of parseAttValue runs over text that holds no [<], no [&] and
    no quote. *)
Lemma parseAttValue_loop_scan fuel q s : forall k res acc p tail,
  skipn (cursor p) (source p) = s ++ tail ->
  ~ In q s -> ~ In (ch "<") s -> ~ In (ch "&") s ->
  parseAttValue_loop fuel (length s + k) q res acc p
  = parseAttValue_loop fuel k q res (acc ++ flat_map string_of_rune s)
      (stepped (length s) p).
Proof.
  induction s as [|a s IH]; intros k res acc p tail Hs Hq Hl Ha.
  - simpl. rewrite app_nil_r. f_equal. destruct p; unfold stepped; simpl.
    f_equal. lia.
  - simpl app in Hs. destruct (at_head _ Hs) as (G & E & S').
    simpl in Hq, Hl, Ha.
    simpl length. simpl Nat.add. simpl parseAttValue_loop.
    unfold branch at 1. rewrite (Test_head _ _ Hs), eqb_other by tauto.
    unfold branch at 1. rewrite (Test_head _ _ Hs), E, eqb_other by tauto.
    simpl orb. cbv iota.
    unfold branch at 1. rewrite (Test_head _ _ Hs), eqb_other by tauto.
    unfold bind at 1, look at 1, ret at 1. rewrite G.
    unfold bind at 1, Step at 1, StepN at 1, ret at 1. fold (stepped 1 p).
    rewrite (IH k res (acc ++ string_of_rune a) (stepped 1 p) tail S');
      try tauto.
    rewrite stepped_stepped. rewrite <- app_assoc. reflexivity.
Qed.

Lemma parseQuote_at q t p :
  isQuote q = true ->
  skipn (cursor p) (source p) = q :: t ->
  parseQuote p = Some (Ok q, stepped 1 p).
Proof.
  intros Hq H. destruct (at_head _ H) as (G & _).
  unfold parseQuote, bind, look, ret. rewrite G, Hq. reflexivity.
Qed.

Lemma skipn_stepped_1 (x : rune) t p :
  skipn (cursor p) (source p) = x :: t ->
  skipn (cursor (stepped 1 p)) (source (stepped 1 p)) = t.
Proof. intros H. exact (proj2 (proj2 (at_head _ H))). Qed.

End Values.

(** X17: an attribute value that holds no reference is returned as one text
    segment, the text between the quotes as it stands (no segment at all
    when there is nothing between them), and the cursor ends just after the
    closing quote.  A [<] before the closing quote is rejected where it
    stands with [unexpected '<'], and input that ends before the closing
    quote is rejected at its end, the closing quote being expected. *)
Theorem X17_attribute_value_plain_text {ext : Externals} (fuel : nat)
  (p : parser) (q : rune) (s rest : gostring)
  (Hq : isQuote q = true) (Hlt : q <> ch "<")
  (Hs : ~ In q s) (Hl : ~ In (ch "<") s) (Ha : ~ In (ch "&") s)
  (Hfuel : length s < fuel) :
  (skipn (cursor p) (source p) = q :: s ++ q :: rest ->
   parseAttValue fuel p
   = Some (Ok (match s with
               | [] => []
               | _ => [AVText (flat_map string_of_rune s)]
               end), stepped (length s + 2) p))
  /\ (skipn (cursor p) (source p) = q :: s ++ ch "<" :: rest ->
      parseAttValue fuel p
      = Some (Err (newErr (parsing p) (Msg "unexpected '<'")
                     (cursor p + 1 + length s)), stepped (1 + length s) p))
  /\ (skipn (cursor p) (source p) = q :: s ->
      EOF <> q -> EOF <> ch "<" ->
      parseAttValue fuel p
      = Some (Err (newErr (parsing p) (ExpectedRune q)
                     (cursor p + 1 + length s)), stepped (1 + length s) p)).
Proof.
  split; [ | split ].
  - intros H. unfold parseAttValue.
    erewrite bind_Ok by (eapply parseQuote_at; [ exact Hq | exact H ]).
    apply skipn_stepped_1 in H. set (p1 := stepped 1 p) in *.
    replace fuel with (length s + S (fuel - length s - 1)) at 2 by lia.
    unfold bind at 1.
    rewrite (@parseAttValue_loop_scan _ fuel q s _ [] [] p1 _ H Hs Hl Ha).
    apply skipn_stepped in H. set (p2 := stepped (length s) p1) in *.
    simpl parseAttValue_loop.
    unfold branch at 1. rewrite (Test_head _ _ H), eqb_other by exact Hlt.
    unfold branch at 1. rewrite (Test_head _ _ H), Z.eqb_refl.
    simpl orb. cbv iota. unfold ret at 1. simpl fst. simpl snd.
    erewrite bind_Ok
      by (apply Must_Ok; now rewrite (Test_head _ _ H), Z.eqb_refl).
    unfold ret, p2, p1. rewrite !stepped_stepped.
    replace (1 + (length s + 1)) with (length s + 2) by lia.
    unfold flushText. rewrite len_pos, flat_singletons_length.
    destruct s; reflexivity.
  - intros H. unfold parseAttValue.
    erewrite bind_Ok by (eapply parseQuote_at; [ exact Hq | exact H ]).
    apply skipn_stepped_1 in H. set (p1 := stepped 1 p) in *.
    replace fuel with (length s + S (fuel - length s - 1)) at 2 by lia.
    unfold bind at 1.
    rewrite (@parseAttValue_loop_scan _ fuel q s _ [] [] p1 _ H Hs Hl Ha).
    apply skipn_stepped in H. set (p2 := stepped (length s) p1) in *.
    simpl parseAttValue_loop.
    unfold branch at 1. rewrite (Test_head _ _ H), Z.eqb_refl.
    unfold error, p2, p1. rewrite !stepped_stepped. simpl cursor.
    simpl parsing.
    replace (cursor p + 1 + length s) with (cursor p + (1 + length s))
      by lia.
    reflexivity.
  - intros H He Hel. unfold parseAttValue.
    erewrite bind_Ok by (eapply parseQuote_at; [ exact Hq | exact H ]).
    apply skipn_stepped_1 in H. set (p1 := stepped 1 p) in *.
    replace fuel with (length s + S (fuel - length s - 1)) at 2 by lia.
    rewrite <- (app_nil_r s) in H.
    unfold bind at 1.
    rewrite (@parseAttValue_loop_scan _ fuel q s _ [] [] p1 _ H Hs Hl Ha).
    apply skipn_stepped in H. set (p2 := stepped (length s) p1) in *.
    destruct (at_none _ H) as [G E].
    simpl parseAttValue_loop.
    unfold branch at 1. rewrite (Test_end _ _ H), eqb_other by exact Hel.
    unfold branch at 1. rewrite E, orb_true_r.
    unfold ret at 1. simpl fst. simpl snd.
    erewrite bind_Err
      by (unfold Must, branch;
          rewrite (Test_end _ _ H), eqb_other by exact He; reflexivity).
    unfold p2, p1. rewrite !stepped_stepped. simpl cursor.
    simpl parsing.
    replace (cursor p + 1 + length s) with (cursor p + (1 + length s))
      by lia.
    reflexivity.
Qed.

Lemma X17_attribute_value_witness :
  parseAttValue (ext := asciiExternals) 8 (at_ (runes "a='b>c' d") 2)
  = Some (Ok [AVText (runes "b>c")], at_ (runes "a='b>c' d") 7)
  /\ parseAttValue (ext := asciiExternals) 8 (NewParser (runes "'b<c'"))
     = Some (Err (newErr [] (Msg "unexpected '<'") 2),
             at_ (runes "'b<c'") 2)
  /\ parseAttValue (ext := asciiExternals) 8 (NewParser (runes "'bc"))
     = Some (Err (newErr [] (ExpectedRune (ch "'")) 3), at_ (runes "'bc") 3).
Proof.
  split; [ | split ].
  - refine (proj1 (@X17_attribute_value_plain_text asciiExternals 8
                     (at_ (runes "a='b>c' d") 2) (ch "'") (runes "b>c")
                     (runes " d") _ _ _ _ _ _) _).
    + reflexivity.
    + discriminate.
    + vm_compute. intuition discriminate.
    + vm_compute. intuition discriminate.
    + vm_compute. intuition discriminate.
    + vm_compute; lia.
    + reflexivity.
  - refine (proj1 (proj2 (@X17_attribute_value_plain_text asciiExternals 8
                            (NewParser (runes "'b<c'")) (ch "'") (runes "b")
                            (runes "c'") _ _ _ _ _ _)) _).
    + reflexivity.
    + discriminate.
    + vm_compute. intuition discriminate.
    + vm_compute. intuition discriminate.
    + vm_compute. intuition discriminate.
    + vm_compute; lia.
    + reflexivity.
  - refine (proj2 (proj2 (@X17_attribute_value_plain_text asciiExternals 8
                            (NewParser (runes "'bc")) (ch "'") (runes "bc")
                            [] _ _ _ _ _ _)) _ _ _).
    + reflexivity.
    + discriminate.
    + vm_compute. intuition discriminate.
    + vm_compute. intuition discriminate.
    + vm_compute. intuition discriminate.
    + vm_compute; lia.
    + reflexivity.
    + vm_compute. discriminate.
    + vm_compute. discriminate.
Defined.

(** ** The segments of a value (X18) *)

Lemma texts_apart_text {A} (is_text : A -> bool) v x :
  texts_apart is_text v -> ends_not_text is_text v ->
  texts_apart is_text (v ++ [x]).
Proof.
  induction v as [|a t IH]; intros Hv He; simpl.
  - auto.
  - destruct Hv as [Ha Ht]. split.
    + intros T. destruct t as [|y t']; simpl.
      * simpl in He. congruence.
      * exact (Ha T).
    + apply IH; [ exact Ht | ]. destruct t; [ exact I | exact He ].
Qed.

Lemma texts_apart_other {A} (is_text : A -> bool) v x :
  texts_apart is_text v -> is_text x = false ->
  texts_apart is_text (v ++ [x]) /\ ends_not_text is_text (v ++ [x]).
Proof.
  induction v as [|a t IH]; intros Hv Hx; simpl.
  - auto.
  - destruct Hv as [Ha Ht]. destruct (IH Ht Hx) as [I1 I2].
    split; [ split; [ | exact I1 ] | ].
    + intros T. destruct t as [|y t']; simpl; [ exact Hx | exact (Ha T) ].
    + destruct t; exact I2.
Qed.

(** The segments gathered so far, as the loops of parseAttValue and
    parseEntityValue keep them: the pending text is put down before a
    reference only, so no two text segments meet. *)
Lemma flush_then_other {A} (is_text : A -> bool) (ok : A -> Prop)
  (mk : gostring -> A) res str x :
  (forall t, t <> [] -> ok (mk t)) ->
  Forall ok res -> texts_apart is_text res -> ends_not_text is_text res ->
  ok x -> is_text x = false ->
  Forall ok (flushText mk res str ++ [x])
  /\ texts_apart is_text (flushText mk res str ++ [x])
  /\ ends_not_text is_text (flushText mk res str ++ [x]).
Proof.
  intros Hmk F T E Hx Nx. unfold flushText. rewrite len_pos.
  destruct str as [|c str]; simpl negb; cbv iota.
  - split; [ now apply Forall_snoc | now apply texts_apart_other ].
  - split.
    + apply Forall_snoc; [ | exact Hx ].
      apply Forall_snoc; [ exact F | apply Hmk; discriminate ].
    + apply texts_apart_other; [ | exact Nx ].
      now apply texts_apart_text.
Qed.

Lemma flush_last {A} (is_text : A -> bool) (ok : A -> Prop)
  (mk : gostring -> A) res str :
  (forall t, t <> [] -> ok (mk t)) ->
  Forall ok res -> texts_apart is_text res -> ends_not_text is_text res ->
  Forall ok (flushText mk res str)
  /\ texts_apart is_text (flushText mk res str).
Proof.
  intros Hmk F T E. unfold flushText. rewrite len_pos.
  destruct str as [|c str]; simpl negb; cbv iota.
  - auto.
  - split; [ | now apply texts_apart_text ].
    apply Forall_snoc; [ exact F | apply Hmk; discriminate ].
Qed.

Section Segments.

Context {ext : Externals}.
Variable fuel : nat.

Lemma yields_parseAttValue_loop k q res str :
  Forall attSeg_ok res -> texts_apart isAVText res ->
  ends_not_text isAVText res ->
  yields (parseAttValue_loop fuel k q res str)
    (fun x => Forall attSeg_ok (fst x) /\ texts_apart isAVText (fst x)
              /\ ends_not_text isAVText (fst x)).
Proof.
  revert res str. induction k as [|k IH]; intros res str F T E; simpl.
  - apply yields_None.
  - apply yields_branch; [ apply yields_error | ].
    apply yields_branch; [ apply yields_ret; simpl; auto | ].
    apply yields_branch.
    + apply yields_bind_with with (P := ref_ok);
        [ apply yields_parseReference | intros r Hr ].
      destruct (@flush_then_other _ isAVText attSeg_ok AVText res str
                  (AVRef r)) as (F' & T' & E'); auto.
    + apply yields_bind; intros r. apply yields_bind; intros _.
      now apply IH.
Qed.

Lemma yields_parseAttValue :
  yields (parseAttValue fuel)
    (fun v => Forall attSeg_ok v /\ texts_apart isAVText v).
Proof.
  unfold parseAttValue. apply yields_bind; intros q.
  apply yields_bind_with
    with (P := fun x => Forall attSeg_ok (fst x)
                        /\ texts_apart isAVText (fst x)
                        /\ ends_not_text isAVText (fst x)).
  - apply yields_parseAttValue_loop; simpl; auto.
  - intros [res str] (F & T & E). simpl in *.
    apply yields_bind; intros _. apply yields_ret.
    apply flush_last; auto.
Qed.

Lemma yields_parsePERef :
  yields (parsePERef fuel) (fun r => PERef_Name r <> []).
Proof.
  unfold parsePERef. apply yields_bind; intros _.
  apply yields_bind_with with (P := fun n => n <> []);
    [ apply yields_parseName | intros n Hn ].
  apply yields_bind; intros _. now apply yields_ret.
Qed.

Lemma yields_parseEntityValue_loop k q res str :
  Forall entSeg_ok res -> texts_apart isEVText res ->
  ends_not_text isEVText res ->
  yields (parseEntityValue_loop fuel k q res str)
    (fun x => Forall entSeg_ok (fst x) /\ texts_apart isEVText (fst x)
              /\ ends_not_text isEVText (fst x)).
Proof.
  revert res str. induction k as [|k IH]; intros res str F T E; simpl.
  - apply yields_None.
  - apply yields_branch; [ apply yields_ret; simpl; auto | ].
    apply yields_bind; intros cur.
    apply yields_branch; [ | apply yields_branch ].
    + apply yields_bind_with
        with (P := fun r => match r with
                            | Ok e => EntityRef_Name e <> []
                            | Err _ => True
                            end);
        [ apply yields_try, yields_parseEntityRef | intros [e|err] He ].
      * destruct (@flush_then_other _ isEVText entSeg_ok EVText res str
                    (EVEntityRef e)) as (F' & T' & E'); auto.
      * apply yields_bind; intros _.
        apply yields_bind_with
          with (P := fun r => match r with
                              | Ok c => CharRef_Value c <> []
                              | Err _ => True
                              end);
          [ apply yields_try, yields_parseCharRef | intros [c|err'] Hc ];
          [ | apply yields_error ].
        destruct (@flush_then_other _ isEVText entSeg_ok EVText res str
                    (EVCharRef c)) as (F' & T' & E'); auto.
    + apply yields_bind_with with (P := fun r => PERef_Name r <> []);
        [ apply yields_parsePERef | intros r Hr ].
      destruct (@flush_then_other _ isEVText entSeg_ok EVText res str
                  (EVPERef r)) as (F' & T' & E'); auto.
    + apply yields_bind; intros r. apply yields_bind; intros _.
      now apply IH.
Qed.

Lemma yields_parseEntityValue :
  yields (parseEntityValue fuel)
    (fun v => Forall entSeg_ok v /\ texts_apart isEVText v).
Proof.
  unfold parseEntityValue. apply yields_bind; intros q.
  apply yields_bind_with
    with (P := fun x => Forall entSeg_ok (fst x)
                        /\ texts_apart isEVText (fst x)
                        /\ ends_not_text isEVText (fst x)).
  - apply yields_parseEntityValue_loop; simpl; auto.
  - intros [res str] (F & T & E). simpl in *.
    apply yields_bind; intros _. apply yields_ret.
    apply flush_last; auto.
Qed.

End Segments.

(** X18: in an attribute value and in an entity value that the parser
    returns, no text segment is empty, no two text segments are
    neighbours (the text between two references is one segment), and every
    reference names an entity or holds digits.  The same holds of the value
    of an attribute that parseAttribute returns. *)
Theorem X18_value_segments {ext : Externals} (fuel : nat) (p p' : parser) :
  (forall v, parseAttValue fuel p = Some (Ok v, p') ->
     Forall attSeg_ok v /\ texts_apart isAVText v)
  /\ (forall v, parseEntityValue fuel p = Some (Ok v, p') ->
        Forall entSeg_ok v /\ texts_apart isEVText v)
  /\ (forall a, parseAttribute fuel p = Some (Ok a, p') ->
        Forall attSeg_ok (Attr_AttValue a)
        /\ texts_apart isAVText (Attr_AttValue a)).
Proof.
  split; [ | split ].
  - intros v H. exact (@yields_parseAttValue _ fuel _ _ _ H).
  - intros v H. exact (@yields_parseEntityValue _ fuel _ _ _ H).
  - intros a H. unfold parseAttribute in H.
    bind_as H n q1 H1. bind_as H u q2 H2. bind_as H v q3 H3.
    inversion H; subst. simpl.
    exact (@yields_parseAttValue _ fuel _ _ _ H3).
Qed.

Lemma X18_value_segments_witness :
  parseAttValue (ext := asciiExternals) 16 (NewParser (runes "'a&b;c d&#1;'"))
  = Some (Ok [AVText (runes "a");
              AVRef (RefEntity {| EntityRef_Name := runes "b" |});
              AVText (runes "c d");
              AVRef (RefChar {| CharRef_Prefix := runes "&#";
                                CharRef_Value := runes "1" |})],
          at_ (runes "'a&b;c d&#1;'") 13)
  /\ Forall attSeg_ok
       [AVText (runes "a");
        AVRef (RefEntity {| EntityRef_Name := runes "b" |});
        AVText (runes "c d");
        AVRef (RefChar {| CharRef_Prefix := runes "&#";
                          CharRef_Value := runes "1" |})]
  /\ texts_apart isAVText
       [AVText (runes "a");
        AVRef (RefEntity {| EntityRef_Name := runes "b" |});
        AVText (runes "c d");
        AVRef (RefChar {| CharRef_Prefix := runes "&#";
                          CharRef_Value := runes "1" |})].
Proof.
  assert (H : parseAttValue (ext := asciiExternals) 16
                (NewParser (runes "'a&b;c d&#1;'"))
              = Some (Ok [AVText (runes "a");
                          AVRef (RefEntity {| EntityRef_Name := runes "b" |});
                          AVText (runes "c d");
                          AVRef (RefChar {| CharRef_Prefix := runes "&#";
                                            CharRef_Value := runes "1" |})],
                      at_ (runes "'a&b;c d&#1;'") 13))
    by (vm_compute; reflexivity).
  split; [ exact H | ].
  exact (proj1 (@X18_value_segments asciiExternals 16 _ _) _ H).
Defined.

(** ** Public identifiers (X19) *)

Section Pubid.

Context {ext : Externals}.

(** The loop of parsePubidLiteral runs over public-identifier characters
    other than the quote. *)
Lemma parsePubidLiteral_loop_scan q s : forall k lit p tail,
  skipn (cursor p) (source p) = s ++ tail ->
  forallb isPubidChar s = true -> ~ In q s ->
  parsePubidLiteral_loop (length s + k) q lit (Get p) p
  = parsePubidLiteral_loop k q (lit ++ flat_map string_of_rune s)
      (Get (stepped (length s) p)) (stepped (length s) p).
Proof.
  induction s as [|a s IH]; intros k lit p tail Hs Hc Hq.
  - simpl. rewrite app_nil_r, stepped_0. reflexivity.
  - simpl app in Hs. destruct (at_head _ Hs) as (G & E & S').
    simpl in Hc. apply andb_true_iff in Hc. destruct Hc as [Ha Hc].
    simpl in Hq.
    simpl length. simpl Nat.add. simpl parsePubidLiteral_loop.
    rewrite G, Ha.
    assert (N : ((a =? ch "'") && (q =? ch "'"))%Z = false).
    { destruct (Z.eqb_spec a (ch "'")) as [e1|]; [ | reflexivity ].
      destruct (Z.eqb_spec q (ch "'")) as [e2|]; [ | reflexivity ].
      exfalso. apply Hq. left. congruence. }
    rewrite N.
    unfold bind at 1, Step at 1, StepN at 1, ret at 1. fold (stepped 1 p).
    unfold bind at 1, look at 1, ret at 1.
    rewrite (IH k (lit ++ string_of_rune a) (stepped 1 p) tail S' Hc)
      by tauto.
    rewrite stepped_stepped. rewrite <- app_assoc. reflexivity.
Qed.

End Pubid.

(** X19: parsePubidLiteral returns the public-identifier characters between
    the opening quote and the same quote, and ends just after it.  The
    closing quote ends the literal because it is no public-identifier
    character or because it is the apostrophe that opened it: between double
    quotes an apostrophe belongs to the literal.  A rune that is neither a
    public-identifier character nor the quote is rejected where it stands,
    the quote being expected. *)
Theorem X19_pubid_literal {ext : Externals} (fuel : nat) (p : parser)
  (q : rune) (s rest : gostring)
  (Hq : isQuote q = true) (Hs : forallb isPubidChar s = true)
  (Hn : ~ In q s) (Hfuel : length s < fuel) :
  (skipn (cursor p) (source p) = q :: s ++ q :: rest ->
   isPubidChar q = false \/ q = ch "'" ->
   parsePubidLiteral fuel p
   = Some (Ok (flat_map string_of_rune s), stepped (length s + 2) p))
  /\ (forall x,
        skipn (cursor p) (source p) = q :: s ++ x :: rest ->
        isPubidChar x = false -> x <> q ->
        parsePubidLiteral fuel p
        = Some (Err (newErr (parsing p) (ExpectedRune q)
                       (cursor p + 1 + length s)),
                stepped (1 + length s) p)).
Proof.
  split.
  - intros H Hstop. unfold parsePubidLiteral.
    erewrite bind_Ok by (eapply parseQuote_at; [ exact Hq | exact H ]).
    apply skipn_stepped_1 in H. set (p1 := stepped 1 p) in *.
    unfold bind at 1, look at 1, ret at 1.
    replace fuel with (length s + S (fuel - length s - 1)) by lia.
    unfold bind at 1.
    rewrite (@parsePubidLiteral_loop_scan _ q s _ [] p1 _ H Hs Hn).
    apply skipn_stepped in H. set (p2 := stepped (length s) p1) in *.
    destruct (at_head _ H) as (G & _).
    rewrite G. simpl app.
    assert (R : parsePubidLiteral_loop (S (fuel - length s - 1)) q
                  (flat_map string_of_rune s) q p2
                = Some (Ok (flat_map string_of_rune s), p2)).
    { simpl. destruct Hstop as [Hp|Hp].
      - rewrite Hp. reflexivity.
      - destruct (isPubidChar q); [ | reflexivity ].
        rewrite Hp. reflexivity. }
    rewrite R.
    erewrite bind_Ok
      by (apply Must_Ok; now rewrite (Test_head _ _ H), Z.eqb_refl).
    unfold ret, p2, p1. rewrite !stepped_stepped.
    replace (1 + (length s + 1)) with (length s + 2) by lia. reflexivity.
  - intros x H Hx Hxq. unfold parsePubidLiteral.
    erewrite bind_Ok by (eapply parseQuote_at; [ exact Hq | exact H ]).
    apply skipn_stepped_1 in H. set (p1 := stepped 1 p) in *.
    unfold bind at 1, look at 1, ret at 1.
    replace fuel with (length s + S (fuel - length s - 1)) by lia.
    unfold bind at 1.
    rewrite (@parsePubidLiteral_loop_scan _ q s _ [] p1 _ H Hs Hn).
    apply skipn_stepped in H. set (p2 := stepped (length s) p1) in *.
    destruct (at_head _ H) as (G & _).
    simpl parsePubidLiteral_loop. rewrite G, Hx. unfold ret at 1.
    erewrite bind_Err
      by (unfold Must, branch;
          rewrite (Test_head _ _ H), eqb_other by exact Hxq; reflexivity).
    unfold p2, p1. rewrite !stepped_stepped. simpl cursor. simpl parsing.
    replace (cursor p + 1 + length s) with (cursor p + (1 + length s))
      by lia.
    reflexivity.
Qed.

Lemma X19_pubid_literal_witness :
  parsePubidLiteral (ext := asciiExternals) 8
    (NewParser (runes "'a-b' c"))
  = Some (Ok (runes "a-b"), at_ (runes "'a-b' c") 5)
  /\ parsePubidLiteral (ext := asciiExternals) 8 (NewParser (runes "'a<b'"))
     = Some (Err (newErr [] (ExpectedRune (ch "'")) 2),
             at_ (runes "'a<b'") 2).
Proof.
  split.
  - refine (proj1 (@X19_pubid_literal asciiExternals 8
                     (NewParser (runes "'a-b' c")) (ch "'") (runes "a-b")
                     (runes " c") _ _ _ _) _ _).
    + reflexivity.
    + vm_compute; reflexivity.
    + vm_compute. intuition discriminate.
    + vm_compute; lia.
    + reflexivity.
    + right. reflexivity.
  - refine (proj2 (@X19_pubid_literal asciiExternals 8
                     (NewParser (runes "'a<b'")) (ch "'") (runes "a")
                     (runes "b'") _ _ _ _) (ch "<") _ _ _).
    + reflexivity.
    + vm_compute; reflexivity.
    + vm_compute. intuition discriminate.
    + vm_compute; lia.
    + reflexivity.
    + vm_compute; reflexivity.
    + discriminate.
Defined.

(** * The cursor on failure (C1) *)

(** ** An error records the cursor of the return *)

Lemma errs_at_cursor_ret {A} (a : A) : errs_at_cursor (ret a).
Proof. intros p e p' H. discriminate. Qed.

Lemma errs_at_cursor_error {A} c : errs_at_cursor (@error A c).
Proof. intros p e p' H. inversion H; subst. reflexivity. Qed.

Lemma errs_at_cursor_None {A} :
  errs_at_cursor (fun _ : parser => @None (res A * parser)).
Proof. intros p e p' H. discriminate. Qed.

Lemma errs_at_cursor_look {A} (f : parser -> A) : errs_at_cursor (look f).
Proof. intros p e p' H. discriminate. Qed.

Lemma errs_at_cursor_getCursor : errs_at_cursor getCursor.
Proof. intros p e p' H. discriminate. Qed.

Lemma errs_at_cursor_setCursor c : errs_at_cursor (setCursor c).
Proof. intros p e p' H. discriminate. Qed.

Lemma errs_at_cursor_StepN n : errs_at_cursor (StepN n).
Proof. intros p e p' H. discriminate. Qed.

Lemma errs_at_cursor_Step : errs_at_cursor Step.
Proof. apply errs_at_cursor_StepN. Qed.

Lemma errs_at_cursor_bind {A B} (m : M A) (f : A -> M B) :
  errs_at_cursor m -> (forall a, errs_at_cursor (f a)) ->
  errs_at_cursor (bind m f).
Proof.
  intros Hm Hf p e p' H. apply bind_inv in H.
  destruct H as [(e0 & H & E)|(a & p1 & H1 & H2)].
  - inversion E; subst. exact (Hm _ _ _ H).
  - exact (Hf a _ _ _ H2).
Qed.

Lemma errs_at_cursor_branch {A} c (a b : M A) :
  errs_at_cursor a -> errs_at_cursor b -> errs_at_cursor (branch c a b).
Proof. intros Ha Hb p e p'. unfold branch. destruct (c p); eauto. Qed.

(** An attempt that is caught returns no error. *)
Lemma errs_at_cursor_try {A} (m : M A) : errs_at_cursor (try m).
Proof.
  intros p e p' H. apply try_inv in H. destruct H as (r0 & E & _).
  discriminate.
Qed.

Lemma errs_at_cursor_withParsing {A} l (m : M A) :
  errs_at_cursor m -> errs_at_cursor (withParsing l m).
Proof.
  intros Hm p e p'. unfold withParsing.
  match goal with |- context [m ?q] => destruct (m q) as [[r0 p0]|] eqn:E end;
    intros H; inversion H; subst; simpl.
  exact (Hm _ _ _ E).
Qed.

Create HintDb at_cursor.

#[export] Hint Resolve errs_at_cursor_ret errs_at_cursor_error
  errs_at_cursor_None errs_at_cursor_look errs_at_cursor_getCursor
  errs_at_cursor_setCursor errs_at_cursor_StepN errs_at_cursor_Step
  errs_at_cursor_try errs_at_cursor_withParsing errs_at_cursor_branch
  : at_cursor.

Ltac at_cursor_step :=
  match goal with
  | |- errs_at_cursor (bind _ _) => apply errs_at_cursor_bind; [ | intro ]
  | |- errs_at_cursor (branch _ _ _) => apply errs_at_cursor_branch
  | |- errs_at_cursor (try _) => apply errs_at_cursor_try
  | |- errs_at_cursor (withParsing _ _) => apply errs_at_cursor_withParsing
  | |- errs_at_cursor (match ?x with _ => _ end) => destruct x
  | |- errs_at_cursor (let _ := _ in _) => cbv zeta
  end.

Ltac at_cursor := repeat at_cursor_step; auto with at_cursor.

(** The failure is where the error says, and not before the entry. *)
Lemma found {A} (m : M A) :
  errs_at_cursor m -> (forall c, above c m) -> fails_where_found m.
Proof.
  intros Hm Ha p e p' H. split; [ exact (Hm _ _ _ H) | ].
  exact (Ha (cursor p) _ _ _ (le_n _) H).
Qed.

Section AtCursor.

Context {ext : Externals}.
Variable fuel : nat.

Lemma errs_at_cursor_Must r : errs_at_cursor (Must r).
Proof. unfold Must. at_cursor. Qed.

Hint Resolve errs_at_cursor_Must : at_cursor.

Lemma errs_at_cursor_Musts s : errs_at_cursor (Musts s).
Proof. unfold Musts. at_cursor. Qed.

Hint Resolve errs_at_cursor_Musts : at_cursor.

Lemma errs_at_cursor_parseSuffix : errs_at_cursor parseSuffix.
Proof. unfold parseSuffix. at_cursor. Qed.

Hint Resolve errs_at_cursor_parseSuffix : at_cursor.

Lemma errs_at_cursor_parseQuote : errs_at_cursor parseQuote.
Proof. unfold parseQuote. at_cursor. Qed.

Hint Resolve errs_at_cursor_parseQuote : at_cursor.

Lemma errs_at_cursor_skipSpace_loop k  : errs_at_cursor (skipSpace_loop k ).
Proof. induction k; intros; simpl; at_cursor. Qed.

Hint Resolve errs_at_cursor_skipSpace_loop : at_cursor.

Lemma errs_at_cursor_skipSpace : errs_at_cursor (skipSpace fuel).
Proof. unfold skipSpace. at_cursor. Qed.

Hint Resolve errs_at_cursor_skipSpace : at_cursor.

Lemma errs_at_cursor_parseSpace : errs_at_cursor (parseSpace fuel).
Proof. unfold parseSpace. at_cursor. Qed.

Hint Resolve errs_at_cursor_parseSpace : at_cursor.

Lemma errs_at_cursor_parseName_loop k s : errs_at_cursor (parseName_loop k s).
Proof. revert s. induction k; intros; simpl; at_cursor. Qed.

Hint Resolve errs_at_cursor_parseName_loop : at_cursor.

Lemma errs_at_cursor_parseName : errs_at_cursor (parseName fuel).
Proof. unfold parseName. at_cursor. Qed.

Hint Resolve errs_at_cursor_parseName : at_cursor.

Lemma errs_at_cursor_scanWhile ok k s r : errs_at_cursor (scanWhile ok k s r).
Proof. revert s r. induction k; intros; simpl; at_cursor. Qed.

Hint Resolve errs_at_cursor_scanWhile : at_cursor.

Lemma errs_at_cursor_parseCharRef : errs_at_cursor (parseCharRef fuel).
Proof. unfold parseCharRef. at_cursor. Qed.

Hint Resolve errs_at_cursor_parseCharRef : at_cursor.

Lemma errs_at_cursor_parseEntityRef : errs_at_cursor (parseEntityRef fuel).
Proof. unfold parseEntityRef. at_cursor. Qed.

Hint Resolve errs_at_cursor_parseEntityRef : at_cursor.

Lemma errs_at_cursor_parseReference : errs_at_cursor (parseReference fuel).
Proof. unfold parseReference. at_cursor. Qed.

Hint Resolve errs_at_cursor_parseReference : at_cursor.

Lemma errs_at_cursor_parseComment_loop k s : errs_at_cursor (parseComment_loop k s).
Proof. revert s. induction k; intros; simpl; at_cursor. Qed.

Hint Resolve errs_at_cursor_parseComment_loop : at_cursor.

Lemma errs_at_cursor_parseComment : errs_at_cursor (parseComment fuel).
Proof. unfold parseComment. at_cursor. Qed.

Hint Resolve errs_at_cursor_parseComment : at_cursor.

Lemma errs_at_cursor_parsePITarget : errs_at_cursor (parsePITarget fuel).
Proof. unfold parsePITarget. at_cursor. Qed.

Hint Resolve errs_at_cursor_parsePITarget : at_cursor.

Lemma errs_at_cursor_parsePI_loop k s : errs_at_cursor (parsePI_loop k s).
Proof. revert s. induction k; intros; simpl; at_cursor. Qed.

Hint Resolve errs_at_cursor_parsePI_loop : at_cursor.

Lemma errs_at_cursor_parsePI : errs_at_cursor (parsePI fuel).
Proof. unfold parsePI. at_cursor. Qed.

Hint Resolve errs_at_cursor_parsePI : at_cursor.

Lemma errs_at_cursor_parseMisc : errs_at_cursor (parseMisc fuel).
Proof. unfold parseMisc. at_cursor. Qed.

Hint Resolve errs_at_cursor_parseMisc : at_cursor.

Lemma errs_at_cursor_parseCPs_loop cp sep k cps :
  errs_at_cursor cp -> errs_at_cursor (parseCPs_loop fuel cp sep k cps).
Proof. intros Hcp. revert cps. induction k; intros; simpl; at_cursor. Qed.

Hint Resolve errs_at_cursor_parseCPs_loop : at_cursor.

Lemma errs_at_cursor_parseChoiceWith pe :
  errs_at_cursor pe -> errs_at_cursor (parseChoiceWith fuel pe).
Proof. intros Hpe. unfold parseChoiceWith. at_cursor. Qed.

Hint Resolve errs_at_cursor_parseChoiceWith : at_cursor.

Lemma errs_at_cursor_parseSeqWith pe :
  errs_at_cursor pe -> errs_at_cursor (parseSeqWith fuel pe).
Proof. intros Hpe. unfold parseSeqWith. at_cursor. Qed.

Hint Resolve errs_at_cursor_parseSeqWith : at_cursor.

Lemma errs_at_cursor_parseCP_rec d : errs_at_cursor (parseCP_rec fuel d).
Proof. induction d; intros; simpl; at_cursor. Qed.

Hint Resolve errs_at_cursor_parseCP_rec : at_cursor.

Lemma errs_at_cursor_parseCP : errs_at_cursor (parseCP fuel).
Proof. unfold parseCP. at_cursor. Qed.

Hint Resolve errs_at_cursor_parseCP : at_cursor.

Lemma errs_at_cursor_parseChoice : errs_at_cursor (parseChoice fuel).
Proof. unfold parseChoice, parseCP. at_cursor. Qed.

Hint Resolve errs_at_cursor_parseChoice : at_cursor.

Lemma errs_at_cursor_parseSeq : errs_at_cursor (parseSeq fuel).
Proof. unfold parseSeq, parseCP. at_cursor. Qed.

Hint Resolve errs_at_cursor_parseSeq : at_cursor.

Lemma errs_at_cursor_parseMixed_loop k names : errs_at_cursor (parseMixed_loop fuel k names).
Proof. revert names. induction k; intros; simpl; at_cursor. Qed.

Hint Resolve errs_at_cursor_parseMixed_loop : at_cursor.

Lemma errs_at_cursor_parseMixed : errs_at_cursor (parseMixed fuel).
Proof. unfold parseMixed. at_cursor. Qed.

Hint Resolve errs_at_cursor_parseMixed : at_cursor.

Lemma errs_at_cursor_parseNmtoken : errs_at_cursor (parseNmtoken fuel).
Proof. unfold parseNmtoken. at_cursor. Qed.

Hint Resolve errs_at_cursor_parseNmtoken : at_cursor.

Lemma errs_at_cursor_parseEq : errs_at_cursor (parseEq fuel).
Proof. unfold parseEq. at_cursor. Qed.

Hint Resolve errs_at_cursor_parseEq : at_cursor.

Lemma errs_at_cursor_parseVersionNum_loop k s : errs_at_cursor (parseVersionNum_loop k s).
Proof. revert s. induction k; intros; simpl; at_cursor. Qed.

Hint Resolve errs_at_cursor_parseVersionNum_loop : at_cursor.

Lemma errs_at_cursor_parseVersionNum : errs_at_cursor (parseVersionNum fuel).
Proof. unfold parseVersionNum. at_cursor. Qed.

Hint Resolve errs_at_cursor_parseVersionNum : at_cursor.

Lemma errs_at_cursor_parseVersion : errs_at_cursor (parseVersion fuel).
Proof. unfold parseVersion. at_cursor. Qed.

Hint Resolve errs_at_cursor_parseVersion : at_cursor.

Lemma errs_at_cursor_parseEncName_loop k s : errs_at_cursor (parseEncName_loop k s).
Proof. revert s. induction k; intros; simpl; at_cursor. Qed.

Hint Resolve errs_at_cursor_parseEncName_loop : at_cursor.

Lemma errs_at_cursor_parseEncName : errs_at_cursor (parseEncName fuel).
Proof. unfold parseEncName. at_cursor. Qed.

Hint Resolve errs_at_cursor_parseEncName : at_cursor.

Lemma errs_at_cursor_parseEncoding : errs_at_cursor (parseEncoding fuel).
Proof. unfold parseEncoding. at_cursor. Qed.

Hint Resolve errs_at_cursor_parseEncoding : at_cursor.

Lemma errs_at_cursor_parseStandalone : errs_at_cursor (parseStandalone fuel).
Proof. unfold parseStandalone. at_cursor. Qed.

Hint Resolve errs_at_cursor_parseStandalone : at_cursor.

Lemma errs_at_cursor_parseXmlDecl : errs_at_cursor (parseXmlDecl fuel).
Proof. unfold parseXmlDecl. at_cursor. Qed.

Hint Resolve errs_at_cursor_parseXmlDecl : at_cursor.

Lemma errs_at_cursor_parsePERef : errs_at_cursor (parsePERef fuel).
Proof. unfold parsePERef. at_cursor. Qed.

Hint Resolve errs_at_cursor_parsePERef : at_cursor.

Lemma errs_at_cursor_parseEntityValue_loop k q res s : errs_at_cursor (parseEntityValue_loop fuel k q res s).
Proof. revert q res s. induction k; intros; simpl; at_cursor. Qed.

Hint Resolve errs_at_cursor_parseEntityValue_loop : at_cursor.

Lemma errs_at_cursor_parseAttValue_loop k q res s : errs_at_cursor (parseAttValue_loop fuel k q res s).
Proof. revert q res s. induction k; intros; simpl; at_cursor. Qed.

Hint Resolve errs_at_cursor_parseAttValue_loop : at_cursor.

Lemma errs_at_cursor_parseSystemLiteral_loop k q s : errs_at_cursor (parseSystemLiteral_loop k q s).
Proof. revert q s. induction k; intros; simpl; at_cursor. Qed.

Hint Resolve errs_at_cursor_parseSystemLiteral_loop : at_cursor.

Lemma errs_at_cursor_parsePubidLiteral_loop k q s r : errs_at_cursor (parsePubidLiteral_loop k q s r).
Proof. revert q s r. induction k; intros; simpl; at_cursor. Qed.

Hint Resolve errs_at_cursor_parsePubidLiteral_loop : at_cursor.

Lemma errs_at_cursor_parseCDSect_loop k s : errs_at_cursor (parseCDSect_loop k s).
Proof. revert s. induction k; intros; simpl; at_cursor. Qed.

Hint Resolve errs_at_cursor_parseCDSect_loop : at_cursor.

Lemma errs_at_cursor_parseEntityValue : errs_at_cursor (parseEntityValue fuel).
Proof. unfold parseEntityValue. at_cursor. Qed.

Hint Resolve errs_at_cursor_parseEntityValue : at_cursor.

Lemma errs_at_cursor_parseAttValue : errs_at_cursor (parseAttValue fuel).
Proof. unfold parseAttValue. at_cursor. Qed.

Hint Resolve errs_at_cursor_parseAttValue : at_cursor.

Lemma errs_at_cursor_parseSystemLiteral : errs_at_cursor (parseSystemLiteral fuel).
Proof. unfold parseSystemLiteral. at_cursor. Qed.

Hint Resolve errs_at_cursor_parseSystemLiteral : at_cursor.

Lemma errs_at_cursor_parsePubidLiteral : errs_at_cursor (parsePubidLiteral fuel).
Proof. unfold parsePubidLiteral. at_cursor. Qed.

Hint Resolve errs_at_cursor_parsePubidLiteral : at_cursor.

Lemma errs_at_cursor_parseCDSect : errs_at_cursor (parseCDSect fuel).
Proof. unfold parseCDSect. at_cursor. Qed.

Hint Resolve errs_at_cursor_parseCDSect : at_cursor.

Lemma errs_at_cursor_parseAttribute : errs_at_cursor (parseAttribute fuel).
Proof. unfold parseAttribute. at_cursor. Qed.

Hint Resolve errs_at_cursor_parseAttribute : at_cursor.

Lemma errs_at_cursor_parseETag : errs_at_cursor (parseETag fuel).
Proof. unfold parseETag. at_cursor. Qed.

Hint Resolve errs_at_cursor_parseETag : at_cursor.

Lemma errs_at_cursor_parseContents_loop pe k res s :
  errs_at_cursor pe -> errs_at_cursor (parseContents_loop fuel pe k res s).
Proof. intros Hpe. revert res s. induction k; intros; simpl; at_cursor. Qed.

Hint Resolve errs_at_cursor_parseContents_loop : at_cursor.

Lemma errs_at_cursor_parseContentsWith pe :
  errs_at_cursor pe -> errs_at_cursor (parseContentsWith fuel pe).
Proof. intros Hpe. unfold parseContentsWith. at_cursor. Qed.

Hint Resolve errs_at_cursor_parseContentsWith : at_cursor.

Lemma errs_at_cursor_parseElement_attrs k attrs : errs_at_cursor (parseElement_attrs fuel k attrs).
Proof. revert attrs. induction k; intros; simpl; at_cursor. Qed.

Hint Resolve errs_at_cursor_parseElement_attrs : at_cursor.

Lemma errs_at_cursor_parseElement_rec d : errs_at_cursor (parseElement_rec fuel d).
Proof. induction d; intros; simpl; at_cursor. Qed.

Hint Resolve errs_at_cursor_parseElement_rec : at_cursor.

Lemma errs_at_cursor_parseElement : errs_at_cursor (parseElement fuel).
Proof. unfold parseElement. at_cursor. Qed.

Hint Resolve errs_at_cursor_parseElement : at_cursor.

Lemma errs_at_cursor_parseContents : errs_at_cursor (parseContents fuel).
Proof. unfold parseContents, parseElement. at_cursor. Qed.

Hint Resolve errs_at_cursor_parseContents : at_cursor.

Lemma errs_at_cursor_parseChildren : errs_at_cursor (parseChildren fuel).
Proof. unfold parseChildren. at_cursor. Qed.

Hint Resolve errs_at_cursor_parseChildren : at_cursor.

Lemma errs_at_cursor_parseContentSpec : errs_at_cursor (parseContentSpec fuel).
Proof. unfold parseContentSpec. at_cursor. Qed.

Hint Resolve errs_at_cursor_parseContentSpec : at_cursor.

Lemma errs_at_cursor_parseElementDecl : errs_at_cursor (parseElementDecl fuel).
Proof. unfold parseElementDecl. at_cursor. Qed.

Hint Resolve errs_at_cursor_parseElementDecl : at_cursor.

Lemma errs_at_cursor_parseBarList_loop pe k acc :
  errs_at_cursor pe -> errs_at_cursor (parseBarList_loop fuel pe k acc).
Proof. intros Hpe. revert acc. induction k; intros; simpl; at_cursor. Qed.

Hint Resolve errs_at_cursor_parseBarList_loop : at_cursor.

Lemma errs_at_cursor_parseNotationType : errs_at_cursor (parseNotationType fuel).
Proof. unfold parseNotationType. at_cursor. Qed.

Hint Resolve errs_at_cursor_parseNotationType : at_cursor.

Lemma errs_at_cursor_parseEnum : errs_at_cursor (parseEnum fuel).
Proof. unfold parseEnum. at_cursor. Qed.

Hint Resolve errs_at_cursor_parseEnum : at_cursor.

Lemma errs_at_cursor_parseAttType : errs_at_cursor (parseAttType fuel).
Proof. unfold parseAttType. at_cursor. Qed.

Hint Resolve errs_at_cursor_parseAttType : at_cursor.

Lemma errs_at_cursor_parseDefaultDecl : errs_at_cursor (parseDefaultDecl fuel).
Proof. unfold parseDefaultDecl. at_cursor. Qed.

Hint Resolve errs_at_cursor_parseDefaultDecl : at_cursor.

Lemma errs_at_cursor_parseAttDef : errs_at_cursor (parseAttDef fuel).
Proof. unfold parseAttDef. at_cursor. Qed.

Hint Resolve errs_at_cursor_parseAttDef : at_cursor.

Lemma errs_at_cursor_parseAttlist_loop k defs : errs_at_cursor (parseAttlist_loop fuel k defs).
Proof. revert defs. induction k; intros; simpl; at_cursor. Qed.

Hint Resolve errs_at_cursor_parseAttlist_loop : at_cursor.

Lemma errs_at_cursor_parseAttlist : errs_at_cursor (parseAttlist fuel).
Proof. unfold parseAttlist. at_cursor. Qed.

Hint Resolve errs_at_cursor_parseAttlist : at_cursor.

Lemma errs_at_cursor_parseExternalID : errs_at_cursor (parseExternalID fuel).
Proof. unfold parseExternalID. at_cursor. Qed.

Hint Resolve errs_at_cursor_parseExternalID : at_cursor.

Lemma errs_at_cursor_parseNData : errs_at_cursor (parseNData fuel).
Proof. unfold parseNData. at_cursor. Qed.

Hint Resolve errs_at_cursor_parseNData : at_cursor.

Lemma errs_at_cursor_parseEntityDef : errs_at_cursor (parseEntityDef fuel).
Proof. unfold parseEntityDef. at_cursor. Qed.

Hint Resolve errs_at_cursor_parseEntityDef : at_cursor.

Lemma errs_at_cursor_parsePEDef : errs_at_cursor (parsePEDef fuel).
Proof. unfold parsePEDef. at_cursor. Qed.

Hint Resolve errs_at_cursor_parsePEDef : at_cursor.

Lemma errs_at_cursor_parseEntity : errs_at_cursor (parseEntity fuel).
Proof. unfold parseEntity. at_cursor. Qed.

Hint Resolve errs_at_cursor_parseEntity : at_cursor.

Lemma errs_at_cursor_parseNotation : errs_at_cursor (parseNotation fuel).
Proof. unfold parseNotation. at_cursor. Qed.

Hint Resolve errs_at_cursor_parseNotation : at_cursor.

Lemma errs_at_cursor_parseMarkup : errs_at_cursor (parseMarkup fuel).
Proof. unfold parseMarkup. at_cursor. Qed.

Hint Resolve errs_at_cursor_parseMarkup : at_cursor.

Lemma errs_at_cursor_parseDoctype_loop k ms r : errs_at_cursor (parseDoctype_loop fuel k ms r).
Proof. revert ms r. induction k; intros; simpl; at_cursor. Qed.

Hint Resolve errs_at_cursor_parseDoctype_loop : at_cursor.

Lemma errs_at_cursor_parseDoctype : errs_at_cursor (parseDoctype fuel).
Proof. unfold parseDoctype. at_cursor. Qed.

Hint Resolve errs_at_cursor_parseDoctype : at_cursor.

Lemma errs_at_cursor_parseMisc_loop k miscs : errs_at_cursor (parseMisc_loop fuel k miscs).
Proof. revert miscs. induction k; intros; simpl; at_cursor. Qed.

Hint Resolve errs_at_cursor_parseMisc_loop : at_cursor.

Lemma errs_at_cursor_parseProlog : errs_at_cursor (parseProlog fuel).
Proof. unfold parseProlog. at_cursor. Qed.

Hint Resolve errs_at_cursor_parseProlog : at_cursor.

Lemma errs_at_cursor_parse : errs_at_cursor (parse fuel).
Proof. unfold parse. at_cursor. Qed.

End AtCursor.

(** ** The caller puts the cursor back *)

Section Restore.

Context {ext : Externals}.
Variable fuel : nat.
Variable p : parser.

(** *** Ordered alternatives *)

Lemma parseReference_second e p1 :
  parseEntityRef fuel p = Some (Err e, p1) ->
  parseReference fuel p
  = (cRef <- parseCharRef fuel ;; ret (RefChar cRef)) p.
Proof.
  intros H. unfold parseReference.
  unfold bind at 1. unfold getCursor at 1, ret at 1.
  unfold bind at 1. unfold try at 1. rewrite H.
  unfold bind at 1.
  rewrite (setCursor_back (preserves_parseEntityRef fuel) H).
  reflexivity.
Qed.

Lemma parseEntityValue_second k quote res str e p1 :
  Test quote p || isEnd p = false -> Test (ch "&") p = true ->
  parseEntityRef fuel p = Some (Err e, p1) ->
  parseEntityValue_loop fuel (S k) quote res str p
  = (r2 <- try (parseCharRef fuel) ;;
     match r2 with
     | Err _ => error (Msg "error AttValue")
     | Ok cRef =>
         parseEntityValue_loop fuel k quote
           (flushText EVText res str ++ [EVCharRef cRef]) []
     end) p.
Proof.
  intros T1 T2 H. simpl.
  unfold branch at 1. rewrite T1.
  unfold bind at 1. unfold getCursor at 1, ret at 1.
  unfold branch at 1. rewrite T2.
  unfold bind at 1. unfold try at 1. rewrite H.
  unfold bind at 1.
  rewrite (setCursor_back (preserves_parseEntityRef fuel) H).
  reflexivity.
Qed.

Lemma parseContents_second pe k res s e p1 :
  Test (ch "&") p = false -> Test (ch "<") p = true ->
  Tests (runes "<!") p = true ->
  parseCDSect fuel p = Some (Err e, p1) ->
  parseContents_loop fuel pe (S k) res s p
  = (r2 <- try (parseComment fuel) ;;
     match r2 with
     | Err _ => setCursor (cursor p) ;; ret (res, s)
     | Ok c =>
         parseContents_loop fuel pe k (flushCharData res s ++ [CComment c]) []
     end) p.
Proof.
  intros T1 T2 T3 H. simpl.
  unfold bind at 1. unfold getCursor at 1, ret at 1.
  unfold branch at 1. rewrite T1. unfold branch at 1. rewrite T2.
  unfold bind at 1. unfold branch at 1. rewrite T3.
  unfold bind at 1. unfold try at 1. rewrite H.
  unfold bind at 1.
  rewrite (setCursor_back (preserves_parseCDSect fuel) H).
  unfold bind, try.
  destruct (parseComment fuel p) as [[[c|e2] q]|]; reflexivity.
Qed.

Lemma parseContentSpec_second e p1 :
  Tests (runes "EMPTY") p = false -> Tests (runes "ANY") p = false ->
  parseMixed fuel p = Some (Err e, p1) ->
  parseContentSpec fuel p
  = (c <- parseChildren fuel ;; ret (CSChildren c)) p.
Proof.
  intros HE HA H. unfold parseContentSpec.
  unfold branch at 1. rewrite HE. unfold branch at 1. rewrite HA.
  unfold bind at 1. unfold getCursor at 1, ret at 1.
  unfold bind at 1. unfold try at 1. rewrite H.
  unfold bind at 1.
  rewrite (setCursor_back (preserves_parseMixed fuel) H).
  reflexivity.
Qed.

Lemma parseChildren_second e p1 :
  parseChoice fuel p = Some (Err e, p1) ->
  parseChildren fuel p
  = (r2 <- try (parseSeq fuel) ;;
     match r2 with
     | Ok s =>
         suffix <- parseSuffix ;;
         ret {| Children_ChoiceSeq := s; Children_Suffix := suffix |}
     | Err _ => error (Msg "unknown error")
     end) p.
Proof.
  intros H. unfold parseChildren.
  unfold bind at 1. unfold getCursor at 1, ret at 1.
  unfold bind at 1. unfold try at 1. rewrite H.
  unfold bind at 1.
  rewrite (setCursor_back (preserves_parseChoice fuel) H).
  reflexivity.
Qed.

Lemma parseCP_second depth e p1 :
  Test (ch "(") p = true ->
  parseChoiceWith fuel (parseCP_rec fuel depth) p = Some (Err e, p1) ->
  parseCP_rec fuel (S depth) p
  = (seq <- parseSeqWith fuel (parseCP_rec fuel depth) ;;
     suffix <- parseSuffix ;;
     ret (mkCP [] (Some seq) suffix)) p.
Proof.
  intros HT H. simpl.
  unfold bind at 1. unfold branch at 1. rewrite HT.
  unfold bind at 1. unfold getCursor at 1, ret at 1.
  unfold bind at 1. unfold try at 1. rewrite H.
  unfold bind at 1.
  rewrite (setCursor_back
             (preserves_parseChoiceWith fuel
                (preserves_parseCP_rec fuel depth)) H).
  unfold bind. destruct (parseSeqWith fuel (parseCP_rec fuel depth) p)
    as [[[s|e'] p2]|]; reflexivity.
Qed.

(** *** Attempts that end a loop or an optional part *)

Lemma parseMisc_loop_break k miscs e p1 :
  parseMisc fuel p = Some (Err e, p1) ->
  parseMisc_loop fuel (S k) miscs p = Some (Ok miscs, p).
Proof.
  intros H. simpl.
  unfold bind at 1. unfold getCursor at 1, ret at 1.
  unfold bind at 1. unfold try at 1. rewrite H.
  unfold bind at 1.
  rewrite (setCursor_back (preserves_parseMisc fuel) H).
  reflexivity.
Qed.

Lemma parseContents_break_reference pe k res s e p1 :
  Test (ch "&") p = true ->
  parseReference fuel p = Some (Err e, p1) ->
  parseContents_loop fuel pe (S k) res s p = Some (Ok (res, s), p).
Proof.
  intros T1 H. simpl.
  unfold bind at 1. unfold getCursor at 1, ret at 1.
  unfold branch at 1. rewrite T1.
  unfold bind at 1. unfold try at 1. rewrite H.
  unfold bind at 1.
  rewrite (setCursor_back (preserves_parseReference fuel) H).
  reflexivity.
Qed.

Lemma parseContents_break_comment pe k res s e p1 e' p2 :
  Test (ch "&") p = false -> Test (ch "<") p = true ->
  Tests (runes "<!") p = true ->
  parseCDSect fuel p = Some (Err e, p1) ->
  parseComment fuel p = Some (Err e', p2) ->
  parseContents_loop fuel pe (S k) res s p = Some (Ok (res, s), p).
Proof.
  intros T1 T2 T3 H H2.
  rewrite (parseContents_second pe k res s T1 T2 T3 H).
  unfold bind at 1. unfold try at 1. rewrite H2.
  unfold bind at 1.
  rewrite (setCursor_back (preserves_parseComment fuel) H2).
  reflexivity.
Qed.

Lemma parseContents_break_pi pe k res s e p1 :
  Test (ch "&") p = false -> Test (ch "<") p = true ->
  Tests (runes "<!") p = false -> Tests (runes "<?") p = true ->
  parsePI fuel p = Some (Err e, p1) ->
  parseContents_loop fuel pe (S k) res s p = Some (Ok (res, s), p).
Proof.
  intros T1 T2 T3 T4 H. simpl.
  unfold bind at 1. unfold getCursor at 1, ret at 1.
  unfold branch at 1. rewrite T1. unfold branch at 1. rewrite T2.
  unfold bind at 1. unfold branch at 1. rewrite T3.
  unfold branch at 1. rewrite T4.
  unfold bind at 1. unfold try at 1. rewrite H.
  unfold ret at 1. unfold bind at 1.
  rewrite (setCursor_back (preserves_parsePI fuel) H).
  reflexivity.
Qed.

Lemma parseContents_break_element pe k res s e p1 :
  preserves pe ->
  Test (ch "&") p = false -> Test (ch "<") p = true ->
  Tests (runes "<!") p = false -> Tests (runes "<?") p = false ->
  pe p = Some (Err e, p1) ->
  parseContents_loop fuel pe (S k) res s p = Some (Ok (res, s), p).
Proof.
  intros Pe T1 T2 T3 T4 H. simpl.
  unfold bind at 1. unfold getCursor at 1, ret at 1.
  unfold branch at 1. rewrite T1. unfold branch at 1. rewrite T2.
  unfold bind at 1. unfold branch at 1. rewrite T3.
  unfold branch at 1. rewrite T4.
  unfold bind at 1. unfold try at 1. rewrite H.
  unfold ret at 1. unfold bind at 1.
  rewrite (setCursor_back Pe H).
  reflexivity.
Qed.

Lemma parseEntityDef_no_ndata x p1 e p2 :
  atQuote p = false -> atExternalID p = true ->
  parseExternalID fuel p = Some (Ok x, p1) ->
  parseNData fuel p1 = Some (Err e, p2) ->
  parseEntityDef fuel p = Some (Ok ([], Some x, []), p1).
Proof.
  intros T1 T2 H H2. unfold parseEntityDef.
  unfold branch at 1. rewrite T1. unfold branch at 1. rewrite T2.
  erewrite bind_Ok by exact H.
  unfold bind at 1. unfold getCursor at 1, ret at 1.
  unfold bind at 1. unfold try at 1. rewrite H2.
  unfold bind at 1.
  rewrite (setCursor_back (preserves_parseNData fuel) H2).
  reflexivity.
Qed.

Lemma parseNotation_no_system name pubid qa qb q0 qc q e q1 :
  Tests (runes "<!NOTATION") p = true ->
  parseSpace fuel (stepped 10 (relabel (runes "NOTATION") p))
  = Some (Ok tt, qa) ->
  parseName fuel qa = Some (Ok name, qb) ->
  parseSpace fuel qb = Some (Ok tt, q0) ->
  Tests (runes "SYSTEM") q0 = false -> Tests (runes "PUBLIC") q0 = true ->
  parseSpace fuel (stepped 6 q0) = Some (Ok tt, qc) ->
  parsePubidLiteral fuel qc = Some (Ok pubid, q) ->
  parseSpace fuel q = Some (Err e, q1)
  \/ (exists q', parseSpace fuel q = Some (Ok tt, q')
                 /\ parseSystemLiteral fuel q' = Some (Err e, q1)) ->
  parseNotation fuel p
  = withParsing (runes "NOTATION")
      (fun _ =>
         (skipSpace fuel ;;
          Must (ch ">") ;;
          ret {| Notation_Name := name;
                 Notation_ExtID :=
                   {| ExternalID_Type := ExternalTypePublic;
                      ExternalID_Pubid := pubid;
                      ExternalID_System := [] |} |}) q) p.
Proof.
  intros T0 Sa N Sb T1 T2 Sc L F.
  unfold parseNotation, withParsing. fold (relabel (runes "NOTATION") p).
  erewrite bind_Ok
    by (unfold Musts, branch;
        change (Tests (runes "<!NOTATION") (relabel (runes "NOTATION") p))
          with (Tests (runes "<!NOTATION") p);
        rewrite T0; reflexivity).
  change (stepped (len (runes "<!NOTATION")) (relabel (runes "NOTATION") p))
    with (stepped 10 (relabel (runes "NOTATION") p)).
  erewrite bind_Ok by exact Sa.
  erewrite bind_Ok by exact N.
  erewrite bind_Ok by exact Sb.
  erewrite bind_Ok with (a := ExternalTypePublic) (p1 := stepped 6 q0)
    by (unfold branch; rewrite T1, T2; reflexivity).
  erewrite bind_Ok by exact Sc.
  assert (R : (pubid0 <- parsePubidLiteral fuel ;;
               cur <- getCursor ;;
               r <- try (parseSpace fuel) ;;
               sys <- match r with
                      | Ok _ =>
                          r2 <- try (parseSystemLiteral fuel) ;;
                          match r2 with
                          | Ok sys => ret sys
                          | Err _ => setCursor cur ;; ret []
                          end
                      | Err _ => setCursor cur ;; ret []
                      end ;;
               ret {| ExternalID_Type := ExternalTypePublic;
                      ExternalID_Pubid := pubid0;
                      ExternalID_System := sys |}) qc
              = Some (Ok {| ExternalID_Type := ExternalTypePublic;
                            ExternalID_Pubid := pubid;
                            ExternalID_System := [] |}, q)).
  { erewrite bind_Ok by exact L.
    unfold bind at 1. unfold getCursor at 1, ret at 1.
    destruct F as [F|(q' & F1 & F2)].
    - unfold bind at 1. unfold try at 1. rewrite F.
      unfold bind at 1. unfold bind at 1.
      assert (B : setCursor (cursor q) q1 = Some (Ok tt, q)).
      { destruct (preserves_parseSpace fuel _ F) as [Hs Hl].
        unfold setCursor, ret. rewrite Hs, Hl. now rewrite parser_eta. }
      rewrite B. reflexivity.
    - unfold bind at 1. unfold try at 1. rewrite F1.
      unfold bind at 1. unfold bind at 1. unfold try at 1. rewrite F2.
      unfold bind at 1.
      assert (B : setCursor (cursor q) q1 = Some (Ok tt, q)).
      { destruct (preserves_parseSpace fuel _ F1) as [Hs Hl].
        destruct (preserves_parseSystemLiteral fuel _ F2) as [Hs2 Hl2].
        unfold setCursor, ret. rewrite Hs2, Hl2, Hs, Hl.
        now rewrite parser_eta. }
      rewrite B. reflexivity. }
  erewrite bind_Ok by exact R.
  reflexivity.
Qed.

End Restore.

(** C1, amended.  No production puts the cursor back when it fails: a
    production that returns failure returns with the cursor where the
    failure was found, at the position the error records, which is not
    before the position the production was entered at and can be after it.
    The cursor is put back by the caller, wherever the parser makes an
    attempt it can recover from.  Where it tries ordered alternatives, a
    first alternative that fails is followed by the second run from the
    entry state: an entity reference and then a character reference in
    parseReference and in parseEntityValue, a CDATA section and then a
    comment in parseContents, mixed content and then children in
    parseContentSpec, a choice and then a sequence in parseChildren and in
    parseCP.  Where a failing attempt ends a loop or an optional part, the
    production goes on from the state before the attempt: the Misc loops of
    parse and parseProlog and the loop of parseContents return in that
    state, and parseEntityDef, without NDATA, and parseNotation, without a
    system literal after the public identifier, go on from it. *)
Theorem C1_callers_restore_the_cursor {ext : Externals} (fuel : nat)
  (p : parser) :
  (* a production that fails leaves the cursor where the failure was found *)
  ((forall r, fails_where_found (Must r))
   /\ (forall s, fails_where_found (Musts s))
   /\ fails_where_found parseQuote
   /\ fails_where_found (parse fuel)
   /\ fails_where_found (parseProlog fuel)
   /\ fails_where_found (parseXmlDecl fuel)
   /\ fails_where_found (parseVersion fuel)
   /\ fails_where_found (parseEq fuel)
   /\ fails_where_found (parseVersionNum fuel)
   /\ fails_where_found (parseEncoding fuel)
   /\ fails_where_found (parseEncName fuel)
   /\ fails_where_found (parseStandalone fuel)
   /\ fails_where_found (parseMisc fuel)
   /\ fails_where_found (parseSpace fuel)
   /\ fails_where_found (parseName fuel)
   /\ fails_where_found (parseNmtoken fuel)
   /\ fails_where_found (parseEntityValue fuel)
   /\ fails_where_found (parseAttValue fuel)
   /\ fails_where_found (parseSystemLiteral fuel)
   /\ fails_where_found (parsePubidLiteral fuel)
   /\ fails_where_found (parseComment fuel)
   /\ fails_where_found (parsePI fuel)
   /\ fails_where_found (parsePITarget fuel)
   /\ fails_where_found (parseCDSect fuel)
   /\ fails_where_found (parseDoctype fuel)
   /\ fails_where_found (parseMarkup fuel)
   /\ fails_where_found (parseElement fuel)
   /\ fails_where_found (parseAttribute fuel)
   /\ fails_where_found (parseETag fuel)
   /\ fails_where_found (parseElementDecl fuel)
   /\ fails_where_found (parseContentSpec fuel)
   /\ fails_where_found (parseChildren fuel)
   /\ fails_where_found (parseCP fuel)
   /\ fails_where_found (parseChoice fuel)
   /\ fails_where_found (parseSeq fuel)
   /\ fails_where_found (parseMixed fuel)
   /\ fails_where_found (parseAttlist fuel)
   /\ fails_where_found (parseAttDef fuel)
   /\ fails_where_found (parseAttType fuel)
   /\ fails_where_found (parseNotationType fuel)
   /\ fails_where_found (parseEnum fuel)
   /\ fails_where_found (parseDefaultDecl fuel)
   /\ fails_where_found (parseCharRef fuel)
   /\ fails_where_found (parseReference fuel)
   /\ fails_where_found (parseEntityRef fuel)
   /\ fails_where_found (parsePERef fuel)
   /\ fails_where_found (parseEntity fuel)
   /\ fails_where_found (parseEntityDef fuel)
   /\ fails_where_found (parsePEDef fuel)
   /\ fails_where_found (parseExternalID fuel)
   /\ fails_where_found (parseNData fuel)
   /\ fails_where_found (parseNotation fuel))
  /\
  (* ordered alternatives: the second runs from the entry state *)
  ((forall e p1, parseEntityRef fuel p = Some (Err e, p1) ->
      parseReference fuel p
      = (cRef <- parseCharRef fuel ;; ret (RefChar cRef)) p)
   /\
   (forall k quote res str e p1,
      Test quote p || isEnd p = false -> Test (ch "&") p = true ->
      parseEntityRef fuel p = Some (Err e, p1) ->
      parseEntityValue_loop fuel (S k) quote res str p
      = (r2 <- try (parseCharRef fuel) ;;
         match r2 with
         | Err _ => error (Msg "error AttValue")
         | Ok cRef =>
             parseEntityValue_loop fuel k quote
               (flushText EVText res str ++ [EVCharRef cRef]) []
         end) p)
   /\
   (forall pe k res s e p1,
      Test (ch "&") p = false -> Test (ch "<") p = true ->
      Tests (runes "<!") p = true ->
      parseCDSect fuel p = Some (Err e, p1) ->
      parseContents_loop fuel pe (S k) res s p
      = (r2 <- try (parseComment fuel) ;;
         match r2 with
         | Err _ => setCursor (cursor p) ;; ret (res, s)
         | Ok c =>
             parseContents_loop fuel pe k
               (flushCharData res s ++ [CComment c]) []
         end) p)
   /\
   (forall e p1,
      Tests (runes "EMPTY") p = false -> Tests (runes "ANY") p = false ->
      parseMixed fuel p = Some (Err e, p1) ->
      parseContentSpec fuel p
      = (c <- parseChildren fuel ;; ret (CSChildren c)) p)
   /\
   (forall e p1, parseChoice fuel p = Some (Err e, p1) ->
      parseChildren fuel p
      = (r2 <- try (parseSeq fuel) ;;
         match r2 with
         | Ok s =>
             suffix <- parseSuffix ;;
             ret {| Children_ChoiceSeq := s; Children_Suffix := suffix |}
         | Err _ => error (Msg "unknown error")
         end) p)
   /\
   (forall depth e p1,
      Test (ch "(") p = true ->
      parseChoiceWith fuel (parseCP_rec fuel depth) p = Some (Err e, p1) ->
      parseCP_rec fuel (S depth) p
      = (seq <- parseSeqWith fuel (parseCP_rec fuel depth) ;;
         suffix <- parseSuffix ;;
         ret (mkCP [] (Some seq) suffix)) p))
  /\
  (* an attempt that fails ends a loop or an optional part: the production
     goes on from the state before the attempt *)
  ((forall k miscs e p1,
      parseMisc fuel p = Some (Err e, p1) ->
      parseMisc_loop fuel (S k) miscs p = Some (Ok miscs, p))
   /\
   (forall pe k res s e p1,
      Test (ch "&") p = true ->
      parseReference fuel p = Some (Err e, p1) ->
      parseContents_loop fuel pe (S k) res s p = Some (Ok (res, s), p))
   /\
   (forall pe k res s e p1 e' p2,
      Test (ch "&") p = false -> Test (ch "<") p = true ->
      Tests (runes "<!") p = true ->
      parseCDSect fuel p = Some (Err e, p1) ->
      parseComment fuel p = Some (Err e', p2) ->
      parseContents_loop fuel pe (S k) res s p = Some (Ok (res, s), p))
   /\
   (forall pe k res s e p1,
      Test (ch "&") p = false -> Test (ch "<") p = true ->
      Tests (runes "<!") p = false -> Tests (runes "<?") p = true ->
      parsePI fuel p = Some (Err e, p1) ->
      parseContents_loop fuel pe (S k) res s p = Some (Ok (res, s), p))
   /\
   (forall pe k res s e p1,
      preserves pe ->
      Test (ch "&") p = false -> Test (ch "<") p = true ->
      Tests (runes "<!") p = false -> Tests (runes "<?") p = false ->
      pe p = Some (Err e, p1) ->
      parseContents_loop fuel pe (S k) res s p = Some (Ok (res, s), p))
   /\
   (forall x p1 e p2,
      atQuote p = false -> atExternalID p = true ->
      parseExternalID fuel p = Some (Ok x, p1) ->
      parseNData fuel p1 = Some (Err e, p2) ->
      parseEntityDef fuel p = Some (Ok ([], Some x, []), p1))
   /\
   (forall name pubid qa qb q0 qc q e q1,
      Tests (runes "<!NOTATION") p = true ->
      parseSpace fuel (stepped 10 (relabel (runes "NOTATION") p))
      = Some (Ok tt, qa) ->
      parseName fuel qa = Some (Ok name, qb) ->
      parseSpace fuel qb = Some (Ok tt, q0) ->
      Tests (runes "SYSTEM") q0 = false ->
      Tests (runes "PUBLIC") q0 = true ->
      parseSpace fuel (stepped 6 q0) = Some (Ok tt, qc) ->
      parsePubidLiteral fuel qc = Some (Ok pubid, q) ->
      parseSpace fuel q = Some (Err e, q1)
      \/ (exists q', parseSpace fuel q = Some (Ok tt, q')
                     /\ parseSystemLiteral fuel q' = Some (Err e, q1)) ->
      parseNotation fuel p
      = withParsing (runes "NOTATION")
          (fun _ =>
             (skipSpace fuel ;;
              Must (ch ">") ;;
              ret {| Notation_Name := name;
                     Notation_ExtID :=
                       {| ExternalID_Type := ExternalTypePublic;
                          ExternalID_Pubid := pubid;
                          ExternalID_System := [] |} |}) q) p)).
Proof.
  split; [ | split ].
  - repeat match goal with |- _ /\ _ => split end.
    + intros r; apply found; [ apply errs_at_cursor_Must | intros c; apply above_Must ].
    + intros s; apply found; [ apply errs_at_cursor_Musts | intros c; apply above_Musts ].
    + apply found; [ apply errs_at_cursor_parseQuote | intros c; apply above_parseQuote ].
    + apply found; [ apply errs_at_cursor_parse | intros c; apply above_parse ].
    + apply found; [ apply errs_at_cursor_parseProlog | intros c; apply above_parseProlog ].
    + apply found; [ apply errs_at_cursor_parseXmlDecl | intros c; apply above_parseXmlDecl ].
    + apply found; [ apply errs_at_cursor_parseVersion | intros c; apply above_parseVersion ].
    + apply found; [ apply errs_at_cursor_parseEq | intros c; apply above_parseEq ].
    + apply found; [ apply errs_at_cursor_parseVersionNum | intros c; apply above_parseVersionNum ].
    + apply found; [ apply errs_at_cursor_parseEncoding | intros c; apply above_parseEncoding ].
    + apply found; [ apply errs_at_cursor_parseEncName | intros c; apply above_parseEncName ].
    + apply found; [ apply errs_at_cursor_parseStandalone | intros c; apply above_parseStandalone ].
    + apply found; [ apply errs_at_cursor_parseMisc | intros c; apply above_parseMisc ].
    + apply found; [ apply errs_at_cursor_parseSpace | intros c; apply above_parseSpace ].
    + apply found; [ apply errs_at_cursor_parseName | intros c; apply above_parseName ].
    + apply found; [ apply errs_at_cursor_parseNmtoken | intros c; apply above_parseNmtoken ].
    + apply found; [ apply errs_at_cursor_parseEntityValue | intros c; apply above_parseEntityValue ].
    + apply found; [ apply errs_at_cursor_parseAttValue | intros c; apply above_parseAttValue ].
    + apply found; [ apply errs_at_cursor_parseSystemLiteral | intros c; apply above_parseSystemLiteral ].
    + apply found; [ apply errs_at_cursor_parsePubidLiteral | intros c; apply above_parsePubidLiteral ].
    + apply found; [ apply errs_at_cursor_parseComment | intros c; apply above_parseComment ].
    + apply found; [ apply errs_at_cursor_parsePI | intros c; apply above_parsePI ].
    + apply found; [ apply errs_at_cursor_parsePITarget | intros c; apply above_parsePITarget ].
    + apply found; [ apply errs_at_cursor_parseCDSect | intros c; apply above_parseCDSect ].
    + apply found; [ apply errs_at_cursor_parseDoctype | intros c; apply above_parseDoctype ].
    + apply found; [ apply errs_at_cursor_parseMarkup | intros c; apply above_parseMarkup ].
    + apply found; [ apply errs_at_cursor_parseElement | intros c; apply above_parseElement ].
    + apply found; [ apply errs_at_cursor_parseAttribute | intros c; apply above_parseAttribute ].
    + apply found; [ apply errs_at_cursor_parseETag | intros c; apply above_parseETag ].
    + apply found; [ apply errs_at_cursor_parseElementDecl | intros c; apply above_parseElementDecl ].
    + apply found; [ apply errs_at_cursor_parseContentSpec | intros c; apply above_parseContentSpec ].
    + apply found; [ apply errs_at_cursor_parseChildren | intros c; apply above_parseChildren ].
    + apply found; [ apply errs_at_cursor_parseCP | intros c; apply above_parseCP ].
    + apply found; [ apply errs_at_cursor_parseChoice | intros c; apply above_parseChoice ].
    + apply found; [ apply errs_at_cursor_parseSeq | intros c; apply above_parseSeq ].
    + apply found; [ apply errs_at_cursor_parseMixed | intros c; apply above_parseMixed ].
    + apply found; [ apply errs_at_cursor_parseAttlist | intros c; apply above_parseAttlist ].
    + apply found; [ apply errs_at_cursor_parseAttDef | intros c; apply above_parseAttDef ].
    + apply found; [ apply errs_at_cursor_parseAttType | intros c; apply above_parseAttType ].
    + apply found; [ apply errs_at_cursor_parseNotationType | intros c; apply above_parseNotationType ].
    + apply found; [ apply errs_at_cursor_parseEnum | intros c; apply above_parseEnum ].
    + apply found; [ apply errs_at_cursor_parseDefaultDecl | intros c; apply above_parseDefaultDecl ].
    + apply found; [ apply errs_at_cursor_parseCharRef | intros c; apply above_parseCharRef ].
    + apply found; [ apply errs_at_cursor_parseReference | intros c; apply above_parseReference ].
    + apply found; [ apply errs_at_cursor_parseEntityRef | intros c; apply above_parseEntityRef ].
    + apply found; [ apply errs_at_cursor_parsePERef | intros c; apply above_parsePERef ].
    + apply found; [ apply errs_at_cursor_parseEntity | intros c; apply above_parseEntity ].
    + apply found; [ apply errs_at_cursor_parseEntityDef | intros c; apply above_parseEntityDef ].
    + apply found; [ apply errs_at_cursor_parsePEDef | intros c; apply above_parsePEDef ].
    + apply found; [ apply errs_at_cursor_parseExternalID | intros c; apply above_parseExternalID ].
    + apply found; [ apply errs_at_cursor_parseNData | intros c; apply above_parseNData ].
    + apply found; [ apply errs_at_cursor_parseNotation | intros c; apply above_parseNotation ].
  - split; [ | split; [ | split; [ | split; [ | split ] ] ] ].
    + intros e p1. apply parseReference_second.
    + intros k quote res str e p1. apply parseEntityValue_second.
    + intros pe k res s e p1. apply parseContents_second.
    + intros e p1. apply parseContentSpec_second.
    + intros e p1. apply parseChildren_second.
    + intros depth e p1. apply parseCP_second.
  - split; [ | split; [ | split; [ | split; [ | split; [ | split ] ] ] ] ].
    + intros k miscs e p1. apply parseMisc_loop_break.
    + intros pe k res s e p1. apply parseContents_break_reference.
    + intros pe k res s e p1 e' p2. apply parseContents_break_comment.
    + intros pe k res s e p1. apply parseContents_break_pi.
    + intros pe k res s e p1. apply parseContents_break_element.
    + intros x p1 e p2. apply parseEntityDef_no_ndata.
    + intros name pubid qa qb q0 qc q e q1. apply parseNotation_no_system.
Qed.

Lemma C1_callers_restore_witness :
  (exists e p1,
     parseEntityRef (ext := asciiExternals) 8 (NewParser (runes "&#65;"))
     = Some (Err e, p1)
     /\ cursor p1 = 1 /\ errPos e = cursor p1
     /\ cursor (NewParser (runes "&#65;")) <= cursor p1)
  /\ parseReference (ext := asciiExternals) 8 (NewParser (runes "&#65;"))
     = (cRef <- parseCharRef 8 ;; ret (RefChar cRef))
         (NewParser (runes "&#65;")).
Proof.
  destruct (@C1_callers_restore_the_cursor asciiExternals 8
              (NewParser (runes "&#65;"))) as (A & B & _).
  assert (H : exists e p1,
            parseEntityRef (ext := asciiExternals) 8
              (NewParser (runes "&#65;")) = Some (Err e, p1)
            /\ cursor p1 = 1)
    by (eexists; eexists; split; [ vm_compute; reflexivity | reflexivity ]).
  destruct H as (e & p1 & H & C).
  split.
  - exists e, p1. split; [ exact H | split; [ exact C | ] ].
    decompose [and] A.
    match goal with
    | F : fails_where_found (parseEntityRef _) |- _ => exact (F _ _ _ H)
    end.
  - exact (proj1 B e p1 H).
Defined.

